(** * MySQL-ragLLM: query synthesis, schema inspection, pooling and streaming

    A shallow embedding of the core of the repository:
    - [llm_interaction.py]: [clean_sql_query], [is_dangerous_sql],
      [generate_sql], the history handling of [ai_interactive_shell];
    - [db/utils.py]: [get_database_structure_with_samples],
      [get_enhanced_database_structure], [analyze_database_schema];
    - [app.py]: [get_or_create_connection], [add_to_conversation_history],
      the generator of [stream_query].

    Text is a list of characters.  A character is a code point below 256
    (Latin-1), and the character classes of Python ([str.isspace], the
    classes [\s], [\w] and [.] of [re], [str.lower], the line boundaries of
    [str.splitlines]) are written out for those 256 code points.  The
    messages of the program, which are written in Chinese, are modelled by
    constructors that name them. *)

From Stdlib Require Import Ascii String NArith ZArith List Lia Bool DecimalString.
From stdpp Require Import base option list gmap strings.

Set Default Proof Using "Type".

Abbreviation text := (list ascii).

(** A string literal read as a text. *)
Definition txt (s : string) : text := list_ascii_of_string s.

(** ** Characters and strings of Python *)

Module Str.

Definition code (c : ascii) : N := N_of_ascii c.

Definition in_range (lo hi : N) (c : ascii) : bool :=
  (lo <=? code c)%N && (code c <=? hi)%N.

(** [str.isspace] and the class [\s]: U+0009..U+000D, U+001C..U+001F,
    U+0020, U+0085 and U+00A0. *)
Definition is_space (c : ascii) : bool :=
  in_range 9 13 c || in_range 28 31 c || (code c =? 32)%N
  || (code c =? 133)%N || (code c =? 160)%N.

(** The class [\w]: alphanumeric code points and the underscore. *)
Definition is_word (c : ascii) : bool :=
  in_range 48 57 c || in_range 65 90 c || (code c =? 95)%N
  || in_range 97 122 c
  || (code c =? 170)%N || in_range 178 179 c || (code c =? 181)%N
  || in_range 185 186 c || in_range 188 190 c
  || in_range 192 214 c || in_range 216 246 c || in_range 248 255 c.

(** The class [.] without DOTALL: everything but the line feed. *)
Definition is_dot (c : ascii) : bool := negb (code c =? 10)%N.

(** Line boundaries of [str.splitlines] (besides the pair CR LF). *)
Definition is_linebreak (c : ascii) : bool :=
  in_range 10 13 c || in_range 28 30 c || (code c =? 133)%N.

(** [str.lower] on one character: A..Z, U+00C0..U+00D6 and U+00D8..U+00DE
    move up by 32. *)
Definition lower_char (c : ascii) : ascii :=
  if in_range 65 90 c || in_range 192 214 c || in_range 216 222 c
  then ascii_of_N (code c + 32) else c.

Definition lower (s : text) : text := map lower_char s.

Definition eqc (a b : ascii) : bool := Ascii.eqb a b.

(** [s.startswith(p)] *)
Fixpoint startswith (p s : text) : bool :=
  match p, s with
  | [], _ => true
  | a :: p', b :: s' => eqc a b && startswith p' s'
  | _ :: _, [] => false
  end.

(** [s.endswith(p)] *)
Definition endswith (p s : text) : bool := startswith (rev p) (rev s).

Fixpoint lstrip (s : text) : text :=
  match s with
  | c :: s' => if is_space c then lstrip s' else s
  | [] => []
  end.

Definition rstrip (s : text) : text := rev (lstrip (rev s)).

(** [s.strip()] *)
Definition strip (s : text) : text := lstrip (rstrip s).

(** [s.splitlines()]: [cur] is the line being read, in reverse. *)
Fixpoint splitlines_aux (cur : text) (s : text) : list text :=
  match s with
  | [] => match cur with [] => [] | _ => [rev cur] end
  | c :: s' =>
      if is_linebreak c then
        match s' with
        | d :: s'' =>
            if eqc c "013" && eqc d "010"
            then rev cur :: splitlines_aux [] s''
            else rev cur :: splitlines_aux [] s'
        | [] => [rev cur]
        end
      else splitlines_aux (c :: cur) s'
  end.

Definition splitlines (s : text) : list text := splitlines_aux [] s.

(** [sep.join(parts)] *)
Fixpoint join (sep : text) (parts : list text) : text :=
  match parts with
  | [] => []
  | [p] => p
  | p :: rest => p ++ sep ++ join sep rest
  end.

(** [s.split(c, 1)]: one piece when [c] does not occur, two otherwise. *)
Fixpoint split1_aux (c : ascii) (cur : text) (s : text) : list text :=
  match s with
  | [] => [rev cur]
  | d :: s' => if eqc c d then [rev cur; s'] else split1_aux c (d :: cur) s'
  end.

Definition split1 (c : ascii) (s : text) : list text := split1_aux c [] s.

(** the truth value of a string or of a list *)
Definition nonempty {A} (l : list A) : bool :=
  match l with [] => false | _ :: _ => true end.

(** [s[:-1]] *)
Definition drop_last (s : text) : text := removelast s.

(** [l[-n:]] for [n > 0] *)
Definition last_n {A} (n : nat) (l : list A) : list A :=
  drop (length l - n) l.

End Str.


(** ** Regular expressions, as the program uses them

    The constructs of [re] that occur in the patterns of the program:
    literal text (also under IGNORECASE), one-character classes, the greedy
    repetition of a one-character class, concatenation, an optional item, a
    numbered group, the anchors [^] and [$], the word boundary [\b] and the
    negative lookahead.  A position in the subject is the character before
    it ([None] at the start) and the text from it on. *)

Module Re.
Import Str.

Inductive regex :=
| Lit (w : text)                 (* literal text *)
| LitI (w : text)                (* literal lower-case text under IGNORECASE *)
| Cls (f : ascii -> bool)        (* one character of a class *)
| Star (f : ascii -> bool)       (* greedy [f*] *)
| Cat (r1 r2 : regex)
| Opt (r : regex)                (* greedy [(r)?] *)
| Grp (n : nat) (r : regex)      (* capturing group number [n] *)
| Bol                            (* [^] *)
| Eol                            (* [$]: the end, or before a final line feed *)
| Wb                             (* [\b] *)
| NotAhead (r : regex).          (* [(?!r)] *)

(** A pattern that reads at least one character. *)
Fixpoint consuming (r : regex) : bool :=
  match r with
  | Lit w => nonempty w
  | LitI w => nonempty w
  | Cls _ => true
  | Cat r1 r2 => consuming r1 || consuming r2
  | Grp _ r1 => consuming r1
  | _ => false
  end.

(** [f+] *)
Definition Plus (f : ascii -> bool) : regex := Cat (Cls f) (Star f).

Fixpoint cats (rs : list regex) : regex :=
  match rs with
  | [] => Lit []
  | [r] => r
  | r :: rs' => Cat r (cats rs')
  end.

Definition caps := list (nat * text).
Definition pos : Type := option ascii * text.
Definition cfg : Type := option ascii * text * caps.

Fixpoint lit_end (eq : ascii -> ascii -> bool) (w : text)
    (p : option ascii) (s : text) : option pos :=
  match w with
  | [] => Some (p, s)
  | a :: w' =>
      match s with
      | c :: s' => if eq a c then lit_end eq w' (Some c) s' else None
      | [] => None
      end
  end.

(** The ends of [f*], the longest first. *)
Fixpoint star_ends (f : ascii -> bool) (p : option ascii) (s : text)
    : list pos :=
  match s with
  | c :: s' => if f c then star_ends f (Some c) s' ++ [(p, s)] else [(p, s)]
  | [] => [(p, s)]
  end.

Definition word_before (p : option ascii) : bool :=
  match p with Some c => is_word c | None => false end.

Definition word_after (s : text) : bool :=
  match s with c :: _ => is_word c | [] => false end.

(** All the ways [r] matches at a position, in the order in which the
    backtracking matcher of [re] tries them. *)
Fixpoint ends (r : regex) (p : option ascii) (s : text) (g : caps)
    : list cfg :=
  match r with
  | Lit w =>
      match lit_end eqc w p s with
      | Some (p', s') => [(p', s', g)]
      | None => []
      end
  | LitI w =>
      match lit_end (fun a c => eqc a (lower_char c)) w p s with
      | Some (p', s') => [(p', s', g)]
      | None => []
      end
  | Cls f =>
      match s with
      | c :: s' => if f c then [(Some c, s', g)] else []
      | [] => []
      end
  | Star f => map (fun e : pos => (e.1, e.2, g)) (star_ends f p s)
  | Cat r1 r2 =>
      flat_map (fun e : cfg => ends r2 e.1.1 e.1.2 e.2) (ends r1 p s g)
  | Opt r1 => ends r1 p s g ++ [(p, s, g)]
  | Grp n r1 =>
      map (fun e : cfg =>
             (e.1.1, e.1.2, (n, take (length s - length e.1.2) s) :: e.2))
          (ends r1 p s g)
  | Bol => match p with None => [(p, s, g)] | Some _ => [] end
  | Eol =>
      match s with
      | [] => [(p, s, g)]
      | [c] => if eqc c "010" then [(p, s, g)] else []
      | _ => []
      end
  | Wb => if xorb (word_before p) (word_after s) then [(p, s, g)] else []
  | NotAhead r1 =>
      match ends r1 p s g with
      | [] => [(p, s, g)]
      | _ :: _ => []
      end
  end.

(** The match at a position, when there is one. *)
Definition match_at (r : regex) (p : option ascii) (s : text) : option cfg :=
  head (ends r p s []).

(** A match object: the subject from the start of the match on, the
    subject after the match, and the groups. *)
Record rmatch := { m_from : text; m_rest : text; m_caps : caps }.

(** [m.group(n)] *)
Fixpoint group (n : nat) (g : caps) : option text :=
  match g with
  | [] => None
  | (k, w) :: g' => if Nat.eqb k n then Some w else group n g'
  end.

(** [re.search(r, s)]: the leftmost position with a match. *)
Fixpoint search_from (r : regex) (p : option ascii) (s : text)
    : option rmatch :=
  match match_at r p s with
  | Some e => Some {| m_from := s; m_rest := e.1.2; m_caps := e.2 |}
  | None =>
      match s with
      | c :: s' => search_from r (Some c) s'
      | [] => None
      end
  end.

Definition search (r : regex) (s : text) : option rmatch :=
  search_from r None s.

(** The scan shared by [re.sub] and [re.finditer]: the subject cut into
    the characters outside every match and the successive matches. None of
    the patterns of the program matches the empty text; on an empty match
    the scan reports it and moves one character on. *)
Inductive piece :=
| Keep (c : ascii)
| Hit (matched : text) (g : caps).

Fixpoint scan_from (r : regex) (skip : nat) (p : option ascii) (s : text)
    : list piece :=
  match skip with
  | S k =>
      match s with
      | c :: t => scan_from r k (Some c) t
      | [] => []
      end
  | 0 =>
      match match_at r p s with
      | Some e =>
          match length s - length e.1.2 with
          | 0 =>
              Hit [] e.2 ::
              match s with
              | c :: t => Keep c :: scan_from r 0 (Some c) t
              | [] => []
              end
          | S k =>
              Hit (take (S k) s) e.2 ::
              match s with
              | c :: t => scan_from r k (Some c) t
              | [] => []
              end
          end
      | None =>
          match s with
          | c :: t => Keep c :: scan_from r 0 (Some c) t
          | [] => []
          end
      end
  end.

Definition scan (r : regex) (s : text) : list piece := scan_from r 0 None s.

(** [re.sub(r, repl, s)] for a replacement without group references. *)
Definition sub (r : regex) (repl : text) (s : text) : text :=
  flat_map (fun x => match x with Keep c => [c] | Hit _ _ => repl end)
           (scan r s).

(** [re.finditer(r, s)]: the groups of the successive matches. *)
Definition finditer (r : regex) (s : text) : list caps :=
  flat_map (fun x => match x with Keep _ => [] | Hit _ g => [g] end)
           (scan r s).

(** *** What a pattern means

    The positions that a pattern relates, without the order of the attempts
    and without the groups: [matches r a b] when [r] matches from the
    position [a] to the position [b]. *)

(** The character before the position reached after reading [w]. *)
Definition last_opt (p : option ascii) (w : text) : option ascii :=
  match last w with
  | Some c => Some c
  | None => p
  end.

Inductive star_rel (f : ascii -> bool) : pos -> pos -> Prop :=
| star_stop (a : pos) : star_rel f a a
| star_more (p : option ascii) (c : ascii) (s : text) (b : pos) :
    f c = true -> star_rel f (Some c, s) b -> star_rel f (p, c :: s) b.

Fixpoint matches (r : regex) (a b : pos) : Prop :=
  match r with
  | Lit w => lit_end eqc w a.1 a.2 = Some b
  | LitI w => lit_end (fun x c => eqc x (lower_char c)) w a.1 a.2 = Some b
  | Cls f => exists c, a.2 = c :: b.2 /\ f c = true /\ b.1 = Some c
  | Star f => star_rel f a b
  | Cat r1 r2 => exists m, matches r1 a m /\ matches r2 m b
  | Opt r1 => matches r1 a b \/ b = a
  | Grp _ r1 => matches r1 a b
  | Bol => a.1 = None /\ b = a
  | Eol => (a.2 = [] \/ a.2 = ["010"%char]) /\ b = a
  | Wb => word_before a.1 <> word_after a.2 /\ b = a
  | NotAhead r1 => (~ exists m, matches r1 a m) /\ b = a
  end.

End Re.

(** ** llm_interaction.py: the sanitizer and the destructive-operation filter *)

Module Sanitizer.
Import Str Re.

(** [r'^```sql\s*'] with [re.IGNORECASE] *)
Definition fence_open : regex :=
  cats [Bol; LitI (txt "```sql"); Star is_space].

(** [r'\s*```$'] *)
Definition fence_close : regex :=
  cats [Star is_space; Lit (txt "```"); Eol].

(** [r'\s*--.*$'] *)
Definition inline_comment : regex :=
  cats [Star is_space; Lit (txt "--"); Star is_dot; Eol].

(** [r'\s+'] *)
Definition ws_run : regex := Plus is_space.

(** The loop over the lines: a line is kept when it is not blank and does
    not start, after stripping, with the comment marker; what follows an
    inline comment marker is cut, and a line that is blank after the cut is
    dropped. *)
Definition clean_line (line : text) : list text :=
  let stripped_line := strip line in
  if negb (startswith (txt "--") stripped_line) && nonempty stripped_line
  then
    let line_no_inline_comment := sub inline_comment [] line in
    if nonempty (strip line_no_inline_comment)
    then [line_no_inline_comment] else []
  else [].

(** [clean_sql_query], on a text argument. *)
Definition clean_sql_query (sql_query : text) : text :=
  let sql_query := strip (sub fence_open [] sql_query) in
  let sql_query := strip (sub fence_close [] sql_query) in
  let lines := splitlines sql_query in
  let clean_lines := flat_map clean_line lines in
  let sql_query := join (txt " ") clean_lines in
  let sql_query := strip (sub ws_run (txt " ") sql_query) in
  if endswith (txt ";") sql_query
  then strip (drop_last sql_query)
  else sql_query.

(** The word [w] as a whole word, then white space, then the word [v]. *)
Definition two_words (w v : string) : list regex :=
  [Wb; Lit (txt w); Plus is_space; Lit (txt v); Wb].

(** [(?!.*\bwhere\b)] *)
Definition no_where_ahead : regex :=
  NotAhead (cats [Star is_dot; Wb; Lit (txt "where"); Wb]).

Definition dangerous_patterns : list regex :=
  [ cats (two_words "drop" "database");
    cats (two_words "drop" "table");
    cats (two_words "truncate" "table");
    cats (two_words "delete" "from" ++ [no_where_ahead]);
    cats (two_words "alter" "table" ++ [Star is_dot; Wb; Lit (txt "drop"); Wb]);
    cats [Wb; Lit (txt "update"); Wb; no_where_ahead] ].

Definition is_dangerous_sql (sql_query : text) : bool :=
  let sql_lower := lower sql_query in
  existsb (fun pattern => bool_decide (is_Some (search pattern sql_lower)))
          dangerous_patterns.

End Sanitizer.

(** ** Exceptions, outcomes and the state-and-exception monad *)

(** The exceptions of the program, named after the kinds of the
    specification; the comment gives the Python exception. *)
Inductive exn :=
| ConnectionRequired              (* ConnectionError: a live connection is required *)
| ClientInitFailed (cause : exn)  (* RuntimeError: the backend client cannot be built *)
| SchemaUnavailable               (* ValueError: no usable database structure *)
| GenerationBackendError (cause : exn) (* RuntimeError: the completion call failed *)
| AmbiguousQuery (detail : text)  (* ValueError: the backend answered with the sentinel *)
| EmptyGeneration                 (* ValueError: nothing is left after cleaning *)
| UnsafeOperation                 (* ValueError: the filter matched *)
| UnexpectedError                 (* RuntimeError: any other exception in generate_sql *)
| ConnectFailed (cause : exn)     (* Exception: create_connection failed *)
| NotSerializable                 (* TypeError of json.dumps *)
| DriverError (msg : text)        (* mysql.connector.Error raised by the driver *)
| External (msg : text).          (* any other exception raised by a collaborator *)

Inductive outcome (A : Type) :=
| Ok (a : A)
| Raise (e : exn).
Arguments Ok {A} a.
Arguments Raise {A} e.

(** A computation on a state [S] that returns or raises; the state it has
    reached is kept when it raises. *)
Definition M (S A : Type) : Type := S -> outcome A * S.

Definition ret {S A} (a : A) : M S A := fun s => (Ok a, s).

Definition raise {S A} (e : exn) : M S A := fun s => (Raise e, s).

Definition bind {S A B} (m : M S A) (k : A -> M S B) : M S B :=
  fun s =>
    match m s with
    | (Ok a, s') => k a s'
    | (Raise e, s') => (Raise e, s')
    end.

(** [try: m except Exception as e: h e] *)
Definition try_catch {S A} (m : M S A) (h : exn -> M S A) : M S A :=
  fun s =>
    match m s with
    | (Ok a, s') => (Ok a, s')
    | (Raise e, s') => h e s'
    end.

(** [try: r = m except Exception as e: ...], with the outcome in hand *)
Definition attempt {S A} (m : M S A) : M S (outcome A) :=
  fun s => let '(r, s') := m s in (Ok r, s').

Definition gets {S A} (f : S -> A) : M S A := fun s => (Ok (f s), s).

Definition modify {S} (f : S -> S) : M S unit := fun s => (Ok tt, f s).

Declare Scope monad_scope.
Delimit Scope monad_scope with monad.
Notation "x <- m ;; k" := (bind m (fun x => k))
  (at level 100, m at next level, right associativity) : monad_scope.
Notation "m ;;; k" := (bind m (fun _ => k))
  (at level 100, right associativity) : monad_scope.
Open Scope monad_scope.

(** ** Values of the driver and of the transport *)

(** A value in a result row. [VOpaque] stands for the values that
    [json.dumps] refuses (Decimal, datetime, bytes), by their [str]. *)
Inductive pyval :=
| VNone
| VInt (z : Z)
| VStr (s : text)
| VOpaque (repr : text).

(** A row of a dictionary cursor. *)
Definition row : Type := list (text * pyval).

(** A row of [DESCRIBE]. *)
Record column_row := {
  Field : text; Type_ : text; Null : text; Key : text;
  Default : pyval; Extra : text }.

(** A JSON scalar of a connection config. *)
Inductive jvalue :=
| JNull
| JBool (b : bool)
| JInt (z : Z)
| JStr (s : text).

(** A connection config as [request.json] gives it: a dict, whose entries
    keep their order. *)
Definition config : Type := list (text * jvalue).

(** One turn of a conversation: [{"user": ..., "response": ...}] *)
Record turn := { user : text; response : text }.

(** ** db/utils.py: the data of a snapshot *)

Record column_info := {
  col_name : text; col_type : text; col_nullable : bool; col_key : text;
  col_default : pyval; col_extra : text }.

Record foreign_key := {
  fk_column : text; fk_referenced_table : text; fk_referenced_column : text }.

Record index_info := {
  idx_name : text; idx_columns : list text; idx_unique : bool }.

Record table_info := {
  t_name : text;
  t_columns : list column_info;
  t_primary_key : option text;
  t_foreign_keys : list foreign_key;
  t_indexes : list index_info;
  t_row_count : Z;
  t_sample_data : list row }.

Record relationship := {
  from_table : text; from_column : text; to_table : text; to_column : text }.

Inductive schema_kind :=
| SchemaUnknown       (* the initial label *)
| StarOrSnowflake.    (* the star/snowflake label *)

Inductive issue :=
| MissingPrimaryKey (tables : list text)  (* the tables without primary key *)
| IsolatedTables (tables : list text).    (* the tables in no relationship *)

(** A suggestion for a large table with few indexes: its name, row count
    and number of indexes. *)
Record suggestion := {
  sg_table : text; sg_row_count : Z; sg_indexes : nat }.

Record analysis := {
  schema_type : schema_kind;
  potential_issues : list issue;
  optimization_suggestions : list suggestion }.

Record db_stats := {
  table_count : nat;
  total_relationships : nat;
  largest_tables : list (text * Z) }.

Record db_info := {
  database_name : text;
  tables : list table_info;
  relationships : list relationship;
  database_stats : db_stats;
  schema_analysis : option analysis }.

(** One table of the reduced dump: its name, its columns (field, type,
    whether marked primary, whether marked foreign) and its sample rows. *)
Record dump_table := {
  dt_name : text;
  dt_columns : list (text * text * bool * bool);
  dt_samples : list row }.

(** The reduced structural dump, which the source renders as one string. *)
Record dump := { dump_database : text; dump_tables : list dump_table }.

(** What the two inspectors return. *)
Inductive structure :=
| Snapshot (info : db_info)
| NoDatabaseSelected      (* the message that no database is selected *)
| ReducedDump (d : dump)
| StructureFailed.        (* the message that the structure cannot be read *)

(** The prompt of [generate_sql], by its three parts. *)
Record prompt := {
  p_structure : structure; p_history : list turn; p_question : text }.

(** A piece of the explanation: text of the backend, or one of the
    fallback messages of the program. *)
Inductive chunk :=
| Delta (t : text)
| ClientUnavailable
| AnswerFailed (e : exn)
| ExplanationSkipped (e : exn).

(** ** The collaborators

    The database driver and the generation backend, as operations on the
    state [W] of the outside world. A connection is named by the number the
    program gave it when it was created. *)
Class Driver (W : Type) := {
  (* mysql.connector.connect(...) with the fields of the config *)
  db_connect : config -> W -> outcome unit * W;
  (* connection.is_connected() *)
  db_is_connected : nat -> W -> bool;
  (* connection.cursor(dictionary=True) *)
  db_cursor : nat -> W -> outcome unit * W;
  (* SELECT DATABASE() and fetchone(): no row, a row with NULL, a name *)
  db_select_database : nat -> W -> outcome (option (option text)) * W;
  (* SHOW TABLES and the names read from the rows *)
  db_show_tables : nat -> text -> W -> outcome (list text) * W;
  (* SHOW CREATE TABLE and the statement read from the row *)
  db_show_create_table : nat -> text -> W -> outcome text * W;
  (* DESCRIBE and fetchall() *)
  db_describe : nat -> text -> W -> outcome (list column_row) * W;
  (* SELECT COUNT( * ) and fetchone(): no row, or the count *)
  db_count : nat -> text -> W -> outcome (option Z) * W;
  (* SELECT * ... LIMIT 3 and fetchall() *)
  db_sample : nat -> text -> W -> outcome (list row) * W;
  (* cursor.execute(sql): whether the statement has a result set *)
  db_execute : nat -> text -> W -> outcome bool * W;
  (* cursor.fetchall() *)
  db_fetchall : nat -> W -> outcome (list row) * W;
  (* connection.commit() and cursor.rowcount *)
  db_commit : nat -> W -> outcome Z * W;
  (* connection.rollback(), whose failure the program ignores *)
  db_rollback : nat -> W -> W;
  (* get_client(): the lazily built backend client *)
  llm_get_client : W -> outcome unit * W;
  (* the completion call of generate_sql *)
  llm_complete : prompt -> W -> outcome text * W;
  (* the streaming completion call: the contents of the successive
     deltas, and the exception that ends the stream when there is one *)
  llm_stream : text -> list row -> W -> (list (option text) * option exn) * W
}.

Definition text_eqb (a b : text) : bool := bool_decide (a = b).

Fixpoint mapM {S A B} (f : A -> M S B) (l : list A) : M S (list B) :=
  match l with
  | [] => ret []
  | x :: l' => y <- f x ;; ys <- mapM f l' ;; ret (y :: ys)
  end.

(** ** db/utils.py: the two inspectors and the diagnostics *)

Module DbUtils.
Import Str Re.

Definition not_backtick (c : ascii) : bool := negb (eqc c "`").

(** [r'PRIMARY KEY \(`([^`]+)`\)'] *)
Definition pk_pattern : regex :=
  cats [Lit (txt "PRIMARY KEY (`"); Grp 1 (Plus not_backtick); Lit (txt "`)")].

(** [r'FOREIGN KEY \(`([^`]+)`\) REFERENCES `([^`]+)`\s*\(`([^`]+)`\)'] *)
Definition fk_pattern : regex :=
  cats [Lit (txt "FOREIGN KEY (`"); Grp 1 (Plus not_backtick);
        Lit (txt "`) REFERENCES `"); Grp 2 (Plus not_backtick);
        Lit (txt "`"); Star is_space; Lit (txt "(`");
        Grp 3 (Plus not_backtick); Lit (txt "`)")].

(** [r'(UNIQUE )?KEY `([^`]+)`\s*\(`([^`]+)`\)'] *)
Definition index_pattern : regex :=
  cats [Opt (Grp 1 (Lit (txt "UNIQUE "))); Lit (txt "KEY `");
        Grp 2 (Plus not_backtick); Lit (txt "`"); Star is_space;
        Lit (txt "(`"); Grp 3 (Plus not_backtick); Lit (txt "`)")].

(** [s.split(sep)] for a separator that is not empty. *)
Fixpoint split_aux (sep : text) (skip : nat) (cur : text) (s : text)
    : list text :=
  match s with
  | [] => [rev cur]
  | c :: s' =>
      match skip with
      | S k => split_aux sep k cur s'
      | 0 =>
          if startswith sep s
          then rev cur :: split_aux sep (length sep - 1) [] s'
          else split_aux sep 0 (c :: cur) s'
      end
  end.

Definition split (sep s : text) : list text := split_aux sep 0 [] s.

(** [m.group(n)] of a group that took part in the match. *)
Definition group_text (n : nat) (g : caps) : text := default [] (group n g).

(** The primary key read from the definition statement. *)
Definition extract_primary_key (create_table : text) : option text :=
  match search pk_pattern create_table with
  | Some pk_match => group 1 (m_caps pk_match)
  | None => None
  end.

Definition extract_foreign_keys (create_table : text) : list foreign_key :=
  map (fun g => {| fk_column := group_text 1 g;
                   fk_referenced_table := group_text 2 g;
                   fk_referenced_column := group_text 3 g |})
      (finditer fk_pattern create_table).

Definition extract_indexes (create_table : text) : list index_info :=
  map (fun g => {| idx_name := group_text 2 g;
                   idx_columns := split (txt "`,`") (group_text 3 g);
                   idx_unique := bool_decide (is_Some (group 1 g)) |})
      (finditer index_pattern create_table).

Definition relationship_of (table_name : text) (fk : foreign_key)
    : relationship :=
  {| from_table := table_name; from_column := fk_column fk;
     to_table := fk_referenced_table fk;
     to_column := fk_referenced_column fk |}.

Definition column_of (col : column_row) : column_info :=
  {| col_name := Field col; col_type := Type_ col;
     col_nullable := text_eqb (Null col) (txt "YES");
     col_key := Key col; col_default := Default col;
     col_extra := Extra col |}.

(** The entry of one table, from what the queries returned. *)
Definition make_table_info (table_name create_table : text)
    (columns : list column_row) (row_count : Z) (samples : list row)
    : table_info :=
  {| t_name := table_name;
     t_columns := map column_of columns;
     t_primary_key := extract_primary_key create_table;
     t_foreign_keys := extract_foreign_keys create_table;
     t_indexes := extract_indexes create_table;
     t_row_count := row_count;
     t_sample_data := samples |}.

(** [references_count[k] += 1] on a [defaultdict(int)], which keeps the
    order in which the keys came. *)
Fixpoint incr (k : text) (d : list (text * nat)) : list (text * nat) :=
  match d with
  | [] => [(k, 1)]
  | (k', n) :: d' =>
      if text_eqb k' k then (k', S n) :: d' else (k', n) :: incr k d'
  end.

Definition references_count (rels : list relationship) : list (text * nat) :=
  fold_left (fun d rel => incr (to_table rel) d) rels [].

Definition center_tables (rels : list relationship) : list text :=
  map fst (List.filter (fun e : text * nat => 1 <? e.2) (references_count rels)).

(** [not table["primary_key"]] *)
Definition lacks_primary_key (t : table_info) : bool :=
  match t_primary_key t with
  | None => true
  | Some [] => true
  | Some (_ :: _) => false
  end.

Definition in_relationships (rels : list relationship) (name : text) : bool :=
  existsb (fun rel => text_eqb (from_table rel) name
                      || text_eqb (to_table rel) name) rels.

(** [analyze_database_schema]. The comparison
    [len(center_tables) < len(tables) / 3] is written on integers. *)
Definition analyze_database_schema (info : db_info) : analysis :=
  let tables := tables info in
  let relationships := relationships info in
  let schema_type :=
    if 2 <? length tables then
      let center_tables := center_tables relationships in
      if nonempty center_tables
         && (3 * length center_tables <? length tables)
      then StarOrSnowflake else SchemaUnknown
    else SchemaUnknown in
  let tables_without_pk := map t_name (List.filter lacks_primary_key tables) in
  let issues1 :=
    match tables_without_pk with
    | [] => []
    | _ :: _ => [MissingPrimaryKey tables_without_pk]
    end in
  let suggestions :=
    flat_map (fun t =>
      if (10000 <? t_row_count t)%Z && (length (t_indexes t) <? 2)
      then [{| sg_table := t_name t; sg_row_count := t_row_count t;
               sg_indexes := length (t_indexes t) |}]
      else []) tables in
  let isolated_tables :=
    map t_name
        (List.filter (fun t => negb (in_relationships relationships (t_name t)))
                     tables) in
  let issues2 :=
    match isolated_tables with
    | [] => []
    | _ :: _ => [IsolatedTables isolated_tables]
    end in
  {| schema_type := schema_type;
     potential_issues := issues1 ++ issues2;
     optimization_suggestions := suggestions |}.

(** [sorted(..., key=row_count, reverse=True)]: stable, largest first. *)
Fixpoint insert_desc (t : table_info) (l : list table_info) : list table_info :=
  match l with
  | [] => [t]
  | u :: l' =>
      if (t_row_count u <=? t_row_count t)%Z then t :: l
      else u :: insert_desc t l'
  end.

Definition sorted_desc (l : list table_info) : list table_info :=
  foldr insert_desc [] l.

(** The snapshot assembled from the tables and the relationships. *)
Definition make_db_info (current_db : text) (n_tables : nat)
    (tables : list table_info) (relationships : list relationship) : db_info :=
  let stats :=
    {| table_count := n_tables;
       total_relationships := length relationships;
       largest_tables :=
         map (fun t => (t_name t, t_row_count t))
             (List.filter (fun t => (0 <? t_row_count t)%Z)
                          (take 3 (sorted_desc tables))) |} in
  let info :=
    {| database_name := current_db; tables := tables;
       relationships := relationships; database_stats := stats;
       schema_analysis := None |} in
  {| database_name := current_db; tables := tables;
     relationships := relationships; database_stats := stats;
     schema_analysis := Some (analyze_database_schema info) |}.

Section Inspectors.
Context {W : Type} `{Driver W}.

(** One table of the reduced dump. *)
Definition dump_one (connection : nat) (table_name : text) : M W dump_table :=
  create_table <- db_show_create_table connection table_name ;;
  columns <- db_describe connection table_name ;;
  samples <- db_sample connection table_name ;;
  ret {| dt_name := table_name;
         dt_columns :=
           map (fun col => (Field col, Type_ col,
                            text_eqb (Key col) (txt "PRI"),
                            text_eqb (Key col) (txt "MUL"))) columns;
         dt_samples := samples |}.

(** [get_database_structure_with_samples]: every exception is caught and
    turned into the failure message. Closing the cursor in the [finally]
    clause is taken not to raise. *)
Definition get_database_structure_with_samples (connection : nat)
    : M W structure :=
  try_catch
    (db_cursor connection ;;;
     current_db <- db_select_database connection ;;
     match current_db with
     | None => raise (External (txt "TypeError"))
     | Some None => ret NoDatabaseSelected
     | Some (Some []) => ret NoDatabaseSelected
     | Some (Some current_db) =>
         tables <- db_show_tables connection current_db ;;
         parts <- mapM (dump_one connection) tables ;;
         ret (ReducedDump {| dump_database := current_db;
                             dump_tables := parts |})
     end)
    (fun _ => ret StructureFailed).

(** One table of the snapshot; a failure of the row count or of the
    sample query is ignored. *)
Definition inspect_table (connection : nat) (table_name : text)
    : M W table_info :=
  create_table <- db_show_create_table connection table_name ;;
  columns <- db_describe connection table_name ;;
  row_count <-
    try_catch (count_result <- db_count connection table_name ;;
               ret (default 0%Z count_result))
              (fun _ => ret 0%Z) ;;
  samples <- try_catch (db_sample connection table_name) (fun _ => ret []) ;;
  ret (make_table_info table_name create_table columns row_count samples).

Definition relationships_of (tables : list table_info) : list relationship :=
  flat_map (fun t => map (relationship_of (t_name t)) (t_foreign_keys t))
           tables.

(** The body of the [try] block of [get_enhanced_database_structure]. The
    rendering of the snapshot by [json.dumps] with [default=str], whose
    result is not used, is left out. *)
Definition build_snapshot (connection : nat) : M W structure :=
  db_cursor connection ;;;
  current_db_result <- db_select_database connection ;;
  match current_db_result with
  | None => ret NoDatabaseSelected
  | Some None => ret NoDatabaseSelected
  | Some (Some []) => ret NoDatabaseSelected
  | Some (Some current_db) =>
      tables <- db_show_tables connection current_db ;;
      infos <- mapM (inspect_table connection) tables ;;
      ret (Snapshot (make_db_info current_db (length tables) infos
                                  (relationships_of infos)))
  end.

(** [get_enhanced_database_structure]: on any exception, the result of
    [get_database_structure_with_samples]. *)
Definition get_enhanced_database_structure (connection : nat)
    : M W structure :=
  try_catch (build_snapshot connection)
            (fun _ => get_database_structure_with_samples connection).

End Inspectors.

End DbUtils.

(** ** llm_interaction.py: the query synthesizer and the explanation *)

Module Llm.
Import Str Sanitizer DbUtils.

(** The sentinel prefix that [generate_sql] tests for. *)
Definition sentinel_prefix : text := txt "ERROR:".

(** The deltas that carry a content, in order. *)
Definition contents (deltas : list (option text)) : list text :=
  flat_map (fun d => match d with
                     | Some (c :: t) => [c :: t]
                     | Some [] => []
                     | None => []
                     end) deltas.

(** The two statements at the end of the loop of [ai_interactive_shell]:
    append the turn, then keep the last ten. *)
Definition shell_remember (conversation_history : list turn)
    (user_question sql_query : text) : list turn :=
  let conversation_history :=
    conversation_history ++ [{| user := user_question; response := sql_query |}] in
  if 10 <? length conversation_history
  then last_n 10 conversation_history
  else conversation_history.

Section Synthesizer.
Context {W : Type} `{Driver W}.

(** What [generate_sql] does with the cleaned output of the backend. *)
Definition check_sql (sql_query : text) : M W text :=
  if startswith sentinel_prefix sql_query then
    match split1 ":" sql_query !! 1 with
    | Some detail => raise (AmbiguousQuery (strip detail))
    | None => raise UnexpectedError
    end
  else if negb (nonempty sql_query) then raise EmptyGeneration
  else if is_dangerous_sql sql_query then raise UnsafeOperation
  else ret sql_query.

(** [generate_sql]; [connection] is [None] when no connection is given. *)
Definition generate_sql (user_question : text)
    (conversation_history : list turn) (connection : option nat)
    : M W text :=
  match connection with
  | None => raise ConnectionRequired
  | Some connection =>
      connected <- gets (db_is_connected connection) ;;
      if negb connected then raise ConnectionRequired else
      try_catch llm_get_client (fun e => raise (ClientInitFailed e)) ;;;
      database_structure <-
        try_catch (get_enhanced_database_structure connection)
          (fun _ =>
             try_catch (get_database_structure_with_samples connection)
                       (fun _ => raise SchemaUnavailable)) ;;
      match database_structure with
      | StructureFailed => raise SchemaUnavailable
      | _ =>
          let prompt := {| p_structure := database_structure;
                           p_history := conversation_history;
                           p_question := user_question |} in
          llm_output <-
            try_catch (llm_complete prompt)
                      (fun e => raise (GenerationBackendError e)) ;;
          check_sql (clean_sql_query llm_output)
      end
  end.

(** [stream_generate_answer]: the chunks it yields. A failure of the
    backend is answered by a fallback chunk, never raised. *)
Definition stream_generate_answer (user_question : text)
    (query_results : list row) : M W (list chunk) :=
  fun w =>
    match llm_get_client w with
    | (Raise _, w') => (Ok [ClientUnavailable], w')
    | (Ok _, w') =>
        let '((deltas, failure), w'') :=
          llm_stream user_question query_results w' in
        (Ok (map Delta (contents deltas)
             ++ match failure with
                | Some e => [AnswerFailed e]
                | None => []
                end), w'')
    end.

(** [generate_answer]: the whole answer, or a fallback message. *)
Definition generate_answer (user_question : text)
    (query_results : list row) : M W chunk :=
  fun w =>
    match llm_get_client w with
    | (Raise _, w') => (Ok ClientUnavailable, w')
    | (Ok _, w') =>
        let '((deltas, failure), w'') :=
          llm_stream user_question query_results w' in
        (Ok match failure with
            | Some e => AnswerFailed e
            | None => Delta (concat (contents deltas))
            end, w'')
    end.

End Synthesizer.

End Llm.

(** ** app.py: the pool, the histories and the two pipelines *)

Module App.
Import Str DbUtils Llm.

(** *** The pool key: [json.dumps] of the config without its password *)

Definition hex_digit (n : N) : ascii :=
  if (n <? 10)%N then ascii_of_N (48 + n) else ascii_of_N (87 + n).

(** One character of a JSON string with [ensure_ascii]: the quote and the
    backslash are escaped, and so is everything outside U+0020..U+007E. *)
Definition quote : ascii := "034".

Definition json_char (c : ascii) : text :=
  if eqc c quote then ["\"%char; quote]
  else if eqc c "\" then txt "\\"
  else if eqc c "010" then txt "\n"
  else if eqc c "013" then txt "\r"
  else if eqc c "009" then txt "\t"
  else if eqc c "008" then txt "\b"
  else if eqc c "012" then txt "\f"
  else if in_range 32 126 c then [c]
  else txt "\u00" ++ [hex_digit (code c / 16); hex_digit (code c mod 16)].

Definition json_string (s : text) : text :=
  [quote] ++ flat_map json_char s ++ [quote].

Definition json_value (v : jvalue) : text :=
  match v with
  | JNull => txt "null"
  | JBool true => txt "true"
  | JBool false => txt "false"
  | JInt z => txt (NilEmpty.string_of_int (Z.to_int z))
  | JStr s => json_string s
  end.

(** [json.dumps(d)] of a dict with scalar values. *)
Definition json_dumps (d : config) : text :=
  txt "{"
  ++ join (txt ", ")
       (map (fun kv : text * jvalue =>
               json_string kv.1 ++ txt ": " ++ json_value kv.2) d)
  ++ txt "}".

(** [{k: v for k, v in config.items() if k != 'password'}] *)
Definition without_password (cfg : config) : config :=
  List.filter (fun kv : text * jvalue => negb (text_eqb kv.1 (txt "password")))
              cfg.

Definition connection_key (cfg : config) : text :=
  json_dumps (without_password cfg).

(** *** The state of the process *)

(** The two global dictionaries, the outside world, the number that the
    next connection object gets, and the statements that the pipelines
    have handed to [cursor.execute], with their connection. *)
Record app_state (W : Type) := {
  world : W;
  active_connections : gmap text (gmap text nat);
  conversation_histories : gmap text (list turn);
  next_connection : nat;
  executed : list (nat * text) }.
Arguments world {W}.
Arguments active_connections {W}.
Arguments conversation_histories {W}.
Arguments next_connection {W}.
Arguments executed {W}.

Definition set_world {W : Type} (w : W) (st : app_state W) : app_state W :=
  {| world := w; active_connections := active_connections st;
     conversation_histories := conversation_histories st;
     next_connection := next_connection st; executed := executed st |}.

Definition set_pool {W : Type} (p : gmap text (gmap text nat)) (st : app_state W)
    : app_state W :=
  {| world := world st; active_connections := p;
     conversation_histories := conversation_histories st;
     next_connection := next_connection st; executed := executed st |}.

Definition set_histories {W : Type} (h : gmap text (list turn)) (st : app_state W)
    : app_state W :=
  {| world := world st; active_connections := active_connections st;
     conversation_histories := h;
     next_connection := next_connection st; executed := executed st |}.

(** The state of the process at its start. *)
Definition initial {W : Type} (w : W) : app_state W :=
  {| world := w; active_connections := ∅; conversation_histories := ∅;
     next_connection := 0; executed := [] |}.

(** A computation on the outside world, run in the process. *)
Definition in_world {W A : Type} (m : M W A) : M (app_state W) A :=
  fun st => let '(r, w) := m (world st) in (r, set_world w st).

(** The pooled connection of a session under a key. *)
Definition pooled {W : Type} (st : app_state W) (session_id key : text) : option nat :=
  active_connections st !! session_id ≫= (fun m => m !! key).

(** The history of a session. *)
Definition history_of (h : gmap text (list turn)) (session_id : text)
    : list turn :=
  default [] (h !! session_id).

(** [add_to_conversation_history] on the dictionary of the histories. *)
Definition add_history (session_id user_question sql_query : text)
    (h : gmap text (list turn)) : gmap text (list turn) :=
  let h := match h !! session_id with
           | None => <[session_id := []]> h
           | Some _ => h
           end in
  let h := if 10 <=? length (history_of h session_id)
           then <[session_id := last_n 9 (history_of h session_id)]> h
           else h in
  <[session_id := history_of h session_id
                  ++ [{| user := user_question; response := sql_query |}]]> h.

(** The events of the stream, by the [type] of the record. *)
Inductive phase :=
| Preparing | Parsing | Executing | Processing | Explaining | Finished.

Inductive event :=
| EStatus (p : phase)
| ESql (sql : text)
| EResults (rows : list row)
| EAnswerChunk (c : chunk)
| EError (e : exn)
| EDone.

(** Whether [json.dumps] accepts the rows. *)
Definition json_serializable (rows : list row) : bool :=
  forallb (fun r : row =>
             forallb (fun kv : text * pyval =>
                        match kv.2 with VOpaque _ => false | _ => true end) r)
          rows.

(** The response of the synchronous route. *)
Inductive nl_response :=
| NlBadRequest
| NlConnectionFailed (e : exn)
| NlGenerationFailed (e : exn)
| NlExecutionFailed (e : exn)
| NlInternalError (e : exn)
| NlAnswered (sql : text) (results : list row) (answer : chunk).

(** [jsonify], of Flask: whether its JSON provider renders the rows of a
    response. It renders what [json.dumps] renders, and Decimal and date
    values besides; on the other values, bytes among them, it raises a
    TypeError. *)
Class Responder := {
  jsonify_accepts : list row -> bool;
  jsonify_plain :
    forall rows, json_serializable rows = true -> jsonify_accepts rows = true
}.

Section Pipelines.
Context {W : Type} `{Driver W}.

(** [create_connection]: a new connection object, or the wrapped failure. *)
Definition create_connection (cfg : config) : M (app_state W) nat :=
  fun st =>
    match db_connect cfg (world st) with
    | (Ok _, w) =>
        (Ok (next_connection st),
         {| world := w; active_connections := active_connections st;
            conversation_histories := conversation_histories st;
            next_connection := S (next_connection st);
            executed := executed st |})
    | (Raise e, w) => (Raise (ConnectFailed e), set_world w st)
    end.

(** [active_connections[session_id][connection_key] = connection], after
    the dictionary of the session has been created when it is missing. *)
Definition store_connection (session_id key : text) (connection : nat)
    (st : app_state W) : app_state W :=
  set_pool (<[session_id :=
               <[key := connection]>
                 (default ∅ (active_connections st !! session_id))]>
              (active_connections st)) st.

(** [del active_connections[session_id][connection_key]] *)
Definition discard_connection (session_id key : text) (st : app_state W)
    : app_state W :=
  set_pool (<[session_id :=
               delete key (default ∅ (active_connections st !! session_id))]>
              (active_connections st)) st.

Definition create_and_store (session_id : text) (cfg : config)
    : M (app_state W) nat :=
  connection <- create_connection cfg ;;
  modify (store_connection session_id (connection_key cfg) connection) ;;;
  ret connection.

(** [get_or_create_connection], for the session of the request. The lock
    makes the body one step. *)
Definition get_or_create_connection (session_id : text) (cfg : config)
    : M (app_state W) nat :=
  found <- gets (fun st => pooled st session_id (connection_key cfg)) ;;
  match found with
  | Some connection =>
      alive <- gets (fun st => db_is_connected connection (world st)) ;;
      if alive then ret connection
      else
        modify (discard_connection session_id (connection_key cfg)) ;;;
        create_and_store session_id cfg
  | None => create_and_store session_id cfg
  end.

(** [get_conversation_history]: the history of the session, created empty
    when it is missing. *)
Definition get_conversation_history (session_id : text)
    : M (app_state W) (list turn) :=
  modify (fun st =>
    match conversation_histories st !! session_id with
    | None => set_histories (<[session_id := []]> (conversation_histories st)) st
    | Some _ => st
    end) ;;;
  gets (fun st => history_of (conversation_histories st) session_id).

(** [add_to_conversation_history] *)
Definition add_to_conversation_history
    (session_id user_question sql_query : text) : M (app_state W) unit :=
  modify (fun st =>
    set_histories
      (add_history session_id user_question sql_query
                   (conversation_histories st)) st).

(** [cursor.execute(sql_query)] of a pipeline: the statement is noted, then
    handed to the driver. *)
Definition execute_query (connection : nat) (sql_query : text)
    : M (app_state W) bool :=
  modify (fun st =>
    {| world := world st; active_connections := active_connections st;
       conversation_histories := conversation_histories st;
       next_connection := next_connection st;
       executed := executed st ++ [(connection, sql_query)] |}) ;;;
  in_world (db_execute connection sql_query).

(** *** The streaming route

    The generator runs on the state of the process and on the events it
    has yielded so far. *)
Definition gen_state : Type := app_state W * list event.

Definition in_app {A} (m : M (app_state W) A) : M gen_state A :=
  fun g => let '(r, st) := m g.1 in (r, (st, g.2)).

(** [yield json.dumps({...}) + '\n'] *)
Definition yield (e : event) : M gen_state unit :=
  modify (fun g : gen_state => (g.1, g.2 ++ [e])).

Fixpoint yield_all (es : list event) : M gen_state unit :=
  match es with
  | [] => ret tt
  | e :: es' => yield e ;;; yield_all es'
  end.

(** The [try] block of [generate]. Closing the cursor at its end is taken
    not to raise. *)
Definition generate_body (session_id user_question : text)
    (conversation_history : list turn) (cfg : config) : M gen_state unit :=
  connection <- in_app (get_or_create_connection session_id cfg) ;;
  yield (EStatus Parsing) ;;;
  sql_query <- in_app (in_world (generate_sql user_question
                                   conversation_history (Some connection))) ;;
  yield (ESql sql_query) ;;;
  yield (EStatus Executing) ;;;
  in_app (in_world (db_cursor connection)) ;;;
  in_app (execute_query connection sql_query) ;;;
  results <- in_app (in_world (db_fetchall connection)) ;;
  yield (EStatus Processing) ;;;
  (if json_serializable results then yield (EResults results)
   else raise NotSerializable) ;;;
  in_app (add_to_conversation_history session_id user_question sql_query) ;;;
  yield (EStatus Explaining) ;;;
  chunks <- in_app (in_world (stream_generate_answer user_question results)) ;;
  yield_all (map EAnswerChunk chunks) ;;;
  yield (EStatus Finished) ;;;
  yield EDone.

(** [generate], the generator of [stream_query]: on any exception of the
    [try] block an error event is yielded and the exception is raised
    again. *)
Definition generate (session_id user_question : text)
    (conversation_history : list turn) (cfg : config) : M gen_state unit :=
  yield (EStatus Preparing) ;;;
  try_catch (generate_body session_id user_question conversation_history cfg)
            (fun e => yield (EError e) ;;; raise e).

(** A run of the streaming route: [None] when the request lacks its config
    or its question, else the events of the stream and how the generator
    ended; and the state of the process afterwards. *)
Definition stream_query (session_id user_question : text) (cfg : config)
    (st : app_state W) : option (list event * outcome unit) * app_state W :=
  if negb (nonempty cfg) || negb (nonempty user_question) then (None, st)
  else
    match get_conversation_history session_id st with
    | (Ok conversation_history, st1) =>
        let '(r, g) :=
          generate session_id user_question conversation_history cfg (st1, [])
        in (Some (g.2, r), g.1)
    | (Raise _, st1) => (None, st1)
    end.

(** *** The synchronous route *)

Definition is_driver_error (e : exn) : bool :=
  match e with DriverError _ => true | _ => false end.

(** The execution step of [natural_language_query]. *)
Definition run_sync (connection : nat) (sql_query : text)
    : M (app_state W) (list row) :=
  try_catch
    (in_world (db_cursor connection) ;;;
     has_rows <- execute_query connection sql_query ;;
     if has_rows then in_world (db_fetchall connection)
     else
       rows_affected <- in_world (db_commit connection) ;;
       ret [[(txt "status", VStr (txt "success"));
             (txt "rows_affected", VInt rows_affected)]])
    (fun e =>
       (if is_driver_error e
        then modify (fun st => set_world (db_rollback connection (world st)) st)
        else ret tt) ;;;
       raise e).

Context `{Responder}.

(** [natural_language_query]: the response, and the state afterwards. The
    answers to a request that fails hold texts only, which [jsonify]
    renders; the answer with the results is rendered at the end of the
    outer [try] block. *)
Definition natural_language_query (session_id user_question : text)
    (cfg : config) : M (app_state W) nl_response :=
  if negb (nonempty cfg) || negb (nonempty user_question)
  then ret NlBadRequest
  else
    try_catch
      (connection <- attempt (get_or_create_connection session_id cfg) ;;
       match connection with
       | Raise e => ret (NlConnectionFailed e)
       | Ok connection =>
       conversation_history <- get_conversation_history session_id ;;
       sql_query <- attempt (in_world (generate_sql user_question
                                conversation_history (Some connection))) ;;
       match sql_query with
       | Raise e => ret (NlGenerationFailed e)
       | Ok sql_query =>
       results <- attempt (run_sync connection sql_query) ;;
       match results with
       | Raise e => ret (NlExecutionFailed e)
       | Ok results =>
       add_to_conversation_history session_id user_question sql_query ;;;
       answer <- attempt (in_world (generate_answer user_question results)) ;;
       if jsonify_accepts results
       then ret (NlAnswered sql_query results
                   match answer with
                   | Ok answer => answer
                   | Raise e => ExplanationSkipped e
                   end)
       else raise NotSerializable
       end end end)
      (fun e => ret (NlInternalError e)).

End Pipelines.

End App.

(** ** A simulated driver and backend

    A world of canned answers, to run the program on concrete inputs: the
    server holds one database [shop] with one table [orders]. *)

Module Sim.

Record sim := {
  sim_alive : bool;                      (* the answer of is_connected *)
  sim_connect : bool;                    (* whether connect succeeds *)
  sim_show_tables_failures : nat;        (* how many SHOW TABLES still fail *)
  sim_create_table : text;               (* the definition statement of orders *)
  sim_completion : text;                 (* the output of the backend *)
  sim_deltas : list (option text);       (* the contents of the streamed deltas *)
  sim_stream_failure : option exn;       (* the exception ending the stream *)
  sim_rows : list row }.                 (* the rows of every result set *)

Definition show_tables (w : sim) : outcome (list text) * sim :=
  match sim_show_tables_failures w with
  | S k =>
      (Raise (DriverError (txt "Lost connection")),
       {| sim_alive := sim_alive w; sim_connect := sim_connect w;
          sim_show_tables_failures := k;
          sim_create_table := sim_create_table w;
          sim_completion := sim_completion w; sim_deltas := sim_deltas w;
          sim_stream_failure := sim_stream_failure w;
          sim_rows := sim_rows w |})
  | 0 => (Ok [txt "orders"], w)
  end.

Definition id_column : column_row :=
  {| Field := txt "id"; Type_ := txt "int"; Null := txt "NO";
     Key := txt "PRI"; Default := VNone; Extra := [] |}.

Definition driver : Driver sim :=
  {| db_connect := fun _ w =>
       if sim_connect w then (Ok tt, w)
       else (Raise (DriverError (txt "Access denied")), w);
     db_is_connected := fun _ w => sim_alive w;
     db_cursor := fun _ w => (Ok tt, w);
     db_select_database := fun _ w => (Ok (Some (Some (txt "shop"))), w);
     db_show_tables := fun _ _ w => show_tables w;
     db_show_create_table := fun _ _ w => (Ok (sim_create_table w), w);
     db_describe := fun _ _ w => (Ok [id_column], w);
     db_count := fun _ _ w => (Ok (Some (Z.of_nat (length (sim_rows w)))), w);
     db_sample := fun _ _ w => (Ok (take 3 (sim_rows w)), w);
     db_execute := fun _ _ w => (Ok true, w);
     db_fetchall := fun _ w => (Ok (sim_rows w), w);
     db_commit := fun _ w => (Ok 0%Z, w);
     db_rollback := fun _ w => w;
     llm_get_client := fun w => (Ok tt, w);
     llm_complete := fun _ w => (Ok (sim_completion w), w);
     llm_stream := fun _ _ w => ((sim_deltas w, sim_stream_failure w), w) |}.

(** In the simulated world [jsonify] renders the rows that [json.dumps]
    renders: its opaque values are bytes. *)
Definition responder : App.Responder :=
  {| App.jsonify_accepts := App.json_serializable;
     App.jsonify_plain := fun _ accepted => accepted |}.

Definition orders_statement : text :=
  txt "CREATE TABLE `orders` (
  `id` int NOT NULL,
  `created_at` datetime DEFAULT NULL,
  PRIMARY KEY (`id`)
) ENGINE=InnoDB".

(** A healthy world: the backend answers with [completion] and streams
    [deltas]. *)
Definition healthy (completion : text) (deltas : list (option text)) : sim :=
  {| sim_alive := true; sim_connect := true; sim_show_tables_failures := 0;
     sim_create_table := orders_statement;
     sim_completion := completion; sim_deltas := deltas;
     sim_stream_failure := None;
     sim_rows := [[(txt "count", VInt 3)]] |}.

(** The healthy world in which the next [n] SHOW TABLES fail. *)
Definition flaky (n : nat) : sim :=
  {| sim_alive := true; sim_connect := true; sim_show_tables_failures := n;
     sim_create_table := orders_statement;
     sim_completion := txt "SELECT COUNT(id) AS count FROM orders";
     sim_deltas := [Some (txt "3")];
     sim_stream_failure := None;
     sim_rows := [[(txt "count", VInt 3)]] |}.

(** The healthy world in which the explanation stream breaks. *)
Definition broken_stream : sim :=
  {| sim_alive := true; sim_connect := true; sim_show_tables_failures := 0;
     sim_create_table := orders_statement;
     sim_completion := txt "SELECT COUNT(id) AS count FROM orders";
     sim_deltas := [Some (txt "There are")];
     sim_stream_failure := Some (External (txt "timed out"));
     sim_rows := [[(txt "count", VInt 3)]] |}.

(** The healthy world whose table [orders] has the given definition. *)
Definition with_statement (create_table : text) : sim :=
  {| sim_alive := true; sim_connect := true; sim_show_tables_failures := 0;
     sim_create_table := create_table;
     sim_completion := txt "SELECT COUNT(id) AS count FROM orders";
     sim_deltas := [Some (txt "3")];
     sim_stream_failure := None;
     sim_rows := [[(txt "count", VInt 3)]] |}.

Definition shop_config : config :=
  [(txt "host", JStr (txt "db1")); (txt "port", JInt 3306);
   (txt "username", JStr (txt "u")); (txt "password", JStr (txt "secret"));
   (txt "database", JStr (txt "shop"))].

(** The same fields as [shop_config], host and port in the other order,
    and another password. *)
Definition shop_config_reordered : config :=
  [(txt "port", JInt 3306); (txt "host", JStr (txt "db1"));
   (txt "username", JStr (txt "u")); (txt "password", JStr (txt "other"));
   (txt "database", JStr (txt "shop"))].

(** [shop_config] with another password. *)
Definition shop_config_rotated : config :=
  [(txt "host", JStr (txt "db1")); (txt "port", JInt 3306);
   (txt "username", JStr (txt "u")); (txt "password", JStr (txt "other"));
   (txt "database", JStr (txt "shop"))].

(** The question and the session of the scenarios. *)
Definition session : text := txt "s1".
Definition question : text := txt "how many orders were placed today".

(** The backend answers with the sentinel. *)
Definition sentinel_world : sim := healthy (txt "ERROR: Ambiguous Query") [].

(** The backend answers with a sentinel that is followed by a drop. *)
Definition sentinel_drop_world : sim := healthy (txt "ERROR: drop table t") [].

(** The backend answers with an update that has no condition. *)
Definition unsafe_world : sim := healthy (txt "UPDATE users SET active=0") [].

(** The backend answers with a query, and streams two deltas that carry
    no content. *)
Definition silent_world : sim := healthy (txt "SELECT 1") [Some []; None].

(** Ten turns of the session. *)
Definition ten_turns : list (text * text * text) :=
  replicate 10 (session, question, txt "SELECT 1").

(** The definition of a table with a composite primary key. *)
Definition order_items_statement : text :=
  txt "CREATE TABLE `orders` (
  `order_id` int NOT NULL,
  `item_id` int NOT NULL,
  PRIMARY KEY (`order_id`,`item_id`)
) ENGINE=InnoDB".

(** A raw output in a fence without a language tag. *)
Definition untagged_output : text :=
  txt "```
SELECT 1
```".

(** The same query in a fence tagged as SQL, with a comment line. *)
Definition tagged_output : text :=
  txt "```SQL
-- the query
SELECT 1;
```".

End Sim.

(** ** The properties, in the words of the specification *)

Module Wording.
Import Str Re DbUtils Llm App.

(** *** The destructive operations *)

Definition newline : ascii := "010".

(** The text [t] holds the word [w], white space and the word [v], each as
    a whole word, and [after] is what follows them. *)
Definition two_words_then (w v : text) (t after : text) : Prop :=
  exists pre ws,
    t = pre ++ w ++ ws ++ v ++ after
    /\ ws <> [] /\ forallb is_space ws = true
    /\ word_before (last pre) = false /\ word_after after = false.

(** The text [t] holds the word [w] as a whole word, and [after] is what
    follows it. *)
Definition one_word_then (w : text) (t after : text) : Prop :=
  exists pre,
    t = pre ++ w ++ after
    /\ word_before (last pre) = false /\ word_after after = false.

(** The word [w] occurs as a whole word somewhere in [t], which follows
    the character [prev]. *)
Definition word_in (w : text) (prev : option ascii) (t : text) : Prop :=
  exists a b,
    t = a ++ w ++ b
    /\ word_before (last_opt prev a) = false /\ word_after b = false.

(** A lower-case text holds a destructive operation: a database or table
    drop, a table truncate, DELETE FROM with no WHERE anywhere after it,
    ALTER TABLE with a DROP after it, or UPDATE with no WHERE anywhere
    after it. *)
Definition destructive (t : text) : Prop :=
  (exists after, two_words_then (txt "drop") (txt "database") t after)
  \/ (exists after, two_words_then (txt "drop") (txt "table") t after)
  \/ (exists after, two_words_then (txt "truncate") (txt "table") t after)
  \/ (exists after, two_words_then (txt "delete") (txt "from") t after
                    /\ ~ word_in (txt "where") (last (txt "from")) after)
  \/ (exists after, two_words_then (txt "alter") (txt "table") t after
                    /\ word_in (txt "drop") (last (txt "table")) after)
  \/ (exists after, one_word_then (txt "update") t after
                    /\ ~ word_in (txt "where") (last (txt "update")) after).

(** A word: it starts and ends with a word character. *)
Definition wordy (w : text) : Prop :=
  word_after w = true /\ forall p, word_before (last_opt p w) = true.

(** *** The sanitizer *)

(** What is kept of a scan is no white space. *)
Definition kept_not_space (x : piece) : Prop :=
  match x with
  | Keep c => is_space c = false
  | Hit _ _ => True
  end.

(** *** Composite primary keys *)

(** The column list of a key clause: the quoted names, separated by
    commas. *)
Definition column_list (cols : list text) : text :=
  join (txt ",") (map (fun c => txt "`" ++ c ++ txt "`") cols).

(** A column name as the server quotes it here: not empty, no backtick. *)
Definition plain_name (c : text) : Prop :=
  c <> [] /\ forallb not_backtick c = true.

(** A definition statement whose primary key clause lists [cols]. *)
Definition key_statement (pre : text) (cols : list text) (post : text) : text :=
  pre ++ txt "PRIMARY KEY (" ++ column_list cols ++ txt ")" ++ post.

(** How often [needle] occurs in [s]. *)
Fixpoint occurrences (needle s : text) : nat :=
  (if startswith needle s then 1 else 0)
  + match s with
    | [] => 0
    | _ :: s' => occurrences needle s'
    end.

(** The statement declares a composite primary key: its one primary key
    clause lists two columns or more. *)
Definition declares_composite_key (create_table : text) : Prop :=
  exists pre cols post,
    create_table = key_statement pre cols post
    /\ 2 <= length cols
    /\ Forall plain_name cols
    /\ occurrences (txt "PRIMARY KEY (`") create_table = 1.

(** The table is reported as lacking a primary key. *)
Definition reported_without_key (table_name : text) (a : analysis) : Prop :=
  exists names,
    In (MissingPrimaryKey names) (potential_issues a) /\ In table_name names.

(** *** The schema shape *)

(** The number of relationship edges that point to a table. *)
Definition edges_to (t : text) (rels : list relationship) : nat :=
  length (List.filter (fun rel => text_eqb (to_table rel) t) rels).

(** The dictionary [d] counts, for each key once, how often the key came
    in [seen]. *)
Definition counts (d : list (text * nat)) (seen : list text) : Prop :=
  NoDup (map fst d)
  /\ forall t n,
       In (t, n) d
       <-> (n = length (List.filter (text_eqb t) seen) /\ 0 < n).

(** The tables, other than [t], that reference [t]. *)
Definition referencing_tables (t : text) (rels : list relationship)
    : list text :=
  remove_dups
    (map from_table
       (List.filter (fun rel => text_eqb (to_table rel) t
                                && negb (text_eqb (from_table rel) t)) rels)).

(** The tables referenced by more than one other table. *)
Definition referenced_by_several (info : db_info) : list text :=
  List.filter
    (fun t => 1 <? length (referencing_tables t (relationships info)))
    (remove_dups (map to_table (relationships info))).

(** Four tables; [messages] references [users] twice. *)
Definition chat_schema : db_info :=
  let rel c := {| from_table := txt "messages"; from_column := txt c;
                  to_table := txt "users"; to_column := txt "id" |} in
  let tbl n := {| t_name := txt n; t_columns := [];
                  t_primary_key := Some (txt "id");
                  t_foreign_keys := []; t_indexes := []; t_row_count := 0;
                  t_sample_data := [] |} in
  {| database_name := txt "chat";
     tables := [tbl "users"; tbl "messages"; tbl "rooms"; tbl "tags"];
     relationships := [rel "sender_id"; rel "receiver_id"];
     database_stats := {| table_count := 4; total_relationships := 2;
                          largest_tables := [] |};
     schema_analysis := None |}.

(** *** The pool *)

(** [d.get(k)] on a config. *)
Fixpoint dict_get (k : text) (d : config) : option jvalue :=
  match d with
  | [] => None
  | (k', v) :: d' => if text_eqb k' k then Some v else dict_get k d'
  end.

(** The two configs agree on every field but the password. *)
Definition agree_except_password (c1 c2 : config) : Prop :=
  forall k, k <> txt "password" -> dict_get k c1 = dict_get k c2.

(** Every pooled connection is older than the next connection object. *)
Definition pool_wf {W : Type} (st : app_state W) : Prop :=
  forall sid key h, pooled st sid key = Some h -> h < next_connection st.

(** *** The histories *)

(** A sequence of append operations of the web application, each for a
    session. *)
Definition appends {W : Type} (ops : list (text * text * text))
    (st : app_state W) : app_state W :=
  foldl (fun st op => (add_to_conversation_history op.1.1 op.1.2 op.2 st).2)
        st ops.

(** A sequence of turns of the interactive shell. *)
Definition shell_appends (ops : list (text * text)) (h : list turn)
    : list turn :=
  foldl (fun h op => shell_remember h op.1 op.2) h ops.

(** *** The stream *)

(** Events that report progress: a status or the query. *)
Definition is_progress (ev : event) : bool :=
  match ev with
  | EStatus _ => true
  | ESql _ => true
  | _ => false
  end.

Definition is_answer_chunk (ev : event) : bool :=
  match ev with
  | EAnswerChunk _ => true
  | _ => false
  end.

Definition is_error (ev : event) : bool :=
  match ev with
  | EError _ => true
  | _ => false
  end.

(** *** The reduced dump *)

(** The result is a reduced structural dump. *)
Definition is_reduced_dump (s : structure) : bool :=
  match s with
  | ReducedDump _ => true
  | _ => false
  end.

End Wording.

(** * Further parts of the program *)

(** ** What the sanitizer computes, in closed form *)

Module Facts.
Import Str Re Sanitizer Wording.

(** Every run of white space replaced by one blank; [in_run] tells that
    the character before was white space. *)
Fixpoint squeeze (in_run : bool) (s : text) : text :=
  match s with
  | [] => []
  | c :: s' =>
      if is_space c then
        if in_run then squeeze true s' else " "%char :: squeeze true s'
      else c :: squeeze false s'
  end.

(** A line up to the white space before its first comment marker. *)
Fixpoint cut_comment (s : text) : text :=
  match s with
  | [] => []
  | c :: s' =>
      if startswith (txt "--") (lstrip (c :: s')) then []
      else c :: cut_comment s'
  end.

(** What [re.sub] makes of a scan. *)
Definition replaced (repl : text) (ps : list piece) : text :=
  flat_map (fun x => match x with Keep c => [c] | Hit _ _ => repl end) ps.

(** No white space at either end. *)
Definition trimmed (t : text) : Prop :=
  (forall c, head t = Some c -> is_space c = false)
  /\ (forall c, last t = Some c -> is_space c = false).

(** A statement in the form that the sanitizer aims at: one line with
    single blanks, and no comment marker, fence or terminator. *)
Definition plain_statement (t : text) : Prop :=
  (forall c, In c t -> is_space c = false \/ c = " "%char)
  /\ trimmed t
  /\ occurrences (txt "  ") t = 0
  /\ occurrences (txt "--") t = 0
  /\ startswith (txt "```sql") (lower t) = false
  /\ endswith (txt "```") t = false
  /\ endswith (txt ";") t = false.

End Facts.

(** ** The groups of a match *)

Module Groups.
Import Str Re.

(** The text [w] was read by group [n] of the pattern: some match of the
    pattern inside the group read exactly [w]. *)
Fixpoint captured (r : regex) (n : nat) (w : text) : Prop :=
  match r with
  | Grp m r1 =>
      (m = n /\ exists a b, matches r1 a b /\ a.2 = w ++ b.2)
      \/ captured r1 n w
  | Cat r1 r2 => captured r1 n w \/ captured r2 n w
  | Opt r1 => captured r1 n w
  | _ => False
  end.

(** Group [n] takes part in every match of the pattern. *)
Fixpoint binds (r : regex) (n : nat) : bool :=
  match r with
  | Grp m r1 => Nat.eqb m n || binds r1 n
  | Cat r1 r2 => binds r1 n || binds r2 n
  | _ => false
  end.

End Groups.

(** ** Definition statements, as the server writes them *)

Module Statements.
Import Str DbUtils.

(** The clause of a foreign key on one column. *)
Definition foreign_key_clause (fk : foreign_key) : text :=
  txt "FOREIGN KEY (`" ++ fk_column fk ++ txt "`) REFERENCES `"
  ++ fk_referenced_table fk ++ txt "` (`" ++ fk_referenced_column fk
  ++ txt "`)".

(** A statement that holds the given foreign key clauses, each after
    some text, and then a tail. *)
Fixpoint with_clauses (parts : list (text * foreign_key)) (tail : text)
    : text :=
  match parts with
  | [] => tail
  | (seg, fk) :: parts' =>
      seg ++ foreign_key_clause fk ++ with_clauses parts' tail
  end.

End Statements.

(** ** Reading a pool key back *)

Module Json.
Import Str App.

Definition unhex (c : ascii) : option N :=
  if in_range 48 57 c then Some (code c - 48)%N
  else if in_range 97 102 c then Some (code c - 87)%N
  else None.

(** One character of a JSON string, read back from the front of a text;
    nothing at the closing quote. *)
Definition json_unchar (s : text) : option (ascii * text) :=
  match s with
  | [] => None
  | c :: rest =>
      if eqc c quote then None
      else if eqc c "\" then
        match rest with
        | x :: rest' =>
            if eqc x quote then Some (quote, rest')
            else if eqc x "\" then Some ("\"%char, rest')
            else if eqc x "n" then Some ("010"%char, rest')
            else if eqc x "r" then Some ("013"%char, rest')
            else if eqc x "t" then Some ("009"%char, rest')
            else if eqc x "b" then Some ("008"%char, rest')
            else if eqc x "f" then Some ("012"%char, rest')
            else if eqc x "u" then
              match rest' with
              | _ :: _ :: h :: l :: rest'' =>
                  match unhex h, unhex l with
                  | Some a, Some b => Some (ascii_of_N (16 * a + b), rest'')
                  | _, _ => None
                  end
              | _ => None
              end
            else None
        | [] => None
        end
      else Some (c, rest)
  end.

Definition is_digit (c : ascii) : bool := in_range 48 57 c.

(** What follows a value in a rendered dict: a comma or the closing
    brace. *)
Definition ends_value (r : text) : Prop :=
  exists c r', r = c :: r' /\ (c = ","%char \/ c = "}"%char).

End Json.

(** ** app.py: the chart recommended for a result set

    [recommend_visualization], on the rows of the model: the values are
    None, integers, strings and objects of other types (decimals, dates),
    which stand for themselves by their [str]. *)

Module Viz.
Import Str Re.

(** The class [\d]. *)
Definition digit (c : ascii) : bool := in_range 48 57 c.

Definition digits (n : nat) : list regex := replicate n (Cls digit).

(** [r'\d{4}-\d{2}-\d{2}'], [r'\d{2}/\d{2}/\d{4}'] and
    [r'\d{4}/\d{2}/\d{2}'] *)
Definition date_patterns : list regex :=
  [ cats (digits 4 ++ [Lit (txt "-")] ++ digits 2 ++ [Lit (txt "-")]
          ++ digits 2);
    cats (digits 2 ++ [Lit (txt "/")] ++ digits 2 ++ [Lit (txt "/")]
          ++ digits 4);
    cats (digits 4 ++ [Lit (txt "/")] ++ digits 2 ++ [Lit (txt "/")]
          ++ digits 2) ].

(** [row[col]]: nothing where the program raises KeyError. *)
Fixpoint row_get (col : text) (r : row) : option pyval :=
  match r with
  | [] => None
  | (k, v) :: r' => if text_eqb k col then Some v else row_get col r'
  end.

(** [[row[col] for row in results]] *)
Fixpoint cells (col : text) (results : list row) : outcome (list pyval) :=
  match results with
  | [] => Ok []
  | r :: rs =>
      match row_get col r with
      | None => Raise (External col)
      | Some v =>
          match cells col rs with
          | Ok vs => Ok (v :: vs)
          | Raise e => Raise e
          end
      end
  end.

Definition is_none (v : pyval) : bool :=
  match v with VNone => true | _ => false end.

(** [isinstance(val, (int, float))] *)
Definition is_number (v : pyval) : bool :=
  match v with VInt _ => true | _ => false end.

(** [isinstance(v, str)] and one of the date patterns is found in [v]. *)
Definition looks_like_date (v : pyval) : bool :=
  match v with
  | VStr s =>
      existsb (fun pattern => bool_decide (is_Some (search pattern s)))
              date_patterns
  | _ => false
  end.

Inductive kind := Temporal | Numeric | Categorical.

Definition kind_eqb (a b : kind) : bool :=
  match a, b with
  | Temporal, Temporal | Numeric, Numeric | Categorical, Categorical => true
  | _, _ => false
  end.

(** The kind of a column, by its values that are not None; a column
    without such values has none and is passed over. *)
Definition classify (values : list pyval) : option kind :=
  match values with
  | [] => None
  | first :: _ =>
      if looks_like_date first then Some Temporal
      else if forallb is_number values then Some Numeric
      else Some Categorical
  end.

(** The loop over the columns. *)
Fixpoint classify_columns (columns : list text) (results : list row)
    : outcome (list (text * option kind)) :=
  match columns with
  | [] => Ok []
  | col :: columns' =>
      match cells col results with
      | Raise e => Raise e
      | Ok all_values =>
          let values := List.filter (fun v => negb (is_none v)) all_values in
          match classify_columns columns' results with
          | Raise e => Raise e
          | Ok kinds => Ok ((col, classify values) :: kinds)
          end
      end
  end.

(** The columns of a kind, in the order of the columns. *)
Definition columns_of (k : kind) (kinds : list (text * option kind))
    : list text :=
  map fst
      (List.filter (fun e : text * option kind =>
                      match e.2 with
                      | Some k' => kind_eqb k k'
                      | None => false
                      end) kinds).

(** [str(v)] *)
Definition py_str (v : pyval) : text :=
  match v with
  | VNone => txt "None"
  | VInt z => txt (NilEmpty.string_of_int (Z.to_int z))
  | VStr s => s
  | VOpaque repr => repr
  end.

(** The chart: its type and its data. *)
Inductive chart :=
| NoChart
| Bar (labels : list text) (label : text) (data : list pyval)
| Scatter (label : text) (points : list (pyval * pyval))
| Line (labels : list text) (label : text) (data : list pyval)
| Pie (labels : list text) (data : list pyval)
| Table (data : list row).

(** [[f'Item {i+1}' for i in range(n)]] *)
Definition item_labels (n : nat) : list text :=
  map (fun i => txt "Item " ++ py_str (VInt (Z.of_nat (i + 1)))) (seq 0 n).

(** [l[i]] on a list of columns that is long enough. *)
Definition at_index (i : nat) (l : list text) : text := nth i l [].

(** A chart of labels and values. *)
Definition labelled (make : list text -> list pyval -> chart)
    (label_col value_col : text) (results : list row) : outcome chart :=
  match cells label_col results with
  | Raise e => Raise e
  | Ok labels =>
      match cells value_col results with
      | Raise e => Raise e
      | Ok values => Ok (make (map py_str labels) values)
      end
  end.

Definition recommend_visualization (results : list row) : outcome chart :=
  match results with
  | [] => Ok NoChart
  | first :: _ =>
      let columns := map fst first in
      match classify_columns columns results with
      | Raise e => Raise e
      | Ok kinds =>
          let numeric_columns := columns_of Numeric kinds in
          let categorical_columns := columns_of Categorical kinds in
          let temporal_columns := columns_of Temporal kinds in
          if (length categorical_columns =? 1) && (length numeric_columns =? 1)
          then
            let cat_col := at_index 0 categorical_columns in
            let num_col := at_index 0 numeric_columns in
            labelled (fun labels values => Bar labels num_col values)
                     cat_col num_col results
          else if 2 <=? length numeric_columns then
            let x_col := at_index 0 numeric_columns in
            let y_col := at_index 1 numeric_columns in
            match cells x_col results with
            | Raise e => Raise e
            | Ok xs =>
                match cells y_col results with
                | Raise e => Raise e
                | Ok ys =>
                    Ok (Scatter (x_col ++ txt " vs " ++ y_col) (zip xs ys))
                end
            end
          else if (1 <=? length temporal_columns)
                  && (1 <=? length numeric_columns) then
            let time_col := at_index 0 temporal_columns in
            let num_col := at_index 0 numeric_columns in
            labelled (fun labels values => Line labels num_col values)
                     time_col num_col results
          else if (length numeric_columns =? 1) && (length results <=? 10)
          then
            let num_col := at_index 0 numeric_columns in
            if 0 <? length categorical_columns then
              labelled Pie (at_index 0 categorical_columns) num_col results
            else
              match cells num_col results with
              | Raise e => Raise e
              | Ok values => Ok (Pie (item_labels (length results)) values)
              end
          else Ok (Table results)
      end
  end.

End Viz.

(** ** app.py: clearing a history, closing and cleaning up connections *)

(** [connection.close()] *)
Class Closer (W : Type) := {
  db_close : nat -> W -> outcome unit * W
}.

Module Housekeeping.
Import Str App.

(** The answer of a route that reports success, or the error that the
    decorator [with_error_handling] makes of an exception. *)
Inductive reply :=
| Success
| ServerError (e : exn).

(** The process and the time of the last cleanup, which is missing until
    the first one ([hasattr(app, 'last_cleanup')]). Times are values of
    the clock, of a type [T]. *)
Record server (W T : Type) := {
  process : app_state W;
  last_cleanup : option T }.
Arguments process {W T}.
Arguments last_cleanup {W T}.

Section Housekeeping.
Context {W : Type} `{Driver W} `{Closer W}.

(** [clear_history], for the session of the request. *)
Definition clear_history (session_id : text) : M (app_state W) reply :=
  modify (fun st =>
    match conversation_histories st !! session_id with
    | Some _ =>
        set_histories (<[session_id := []]> (conversation_histories st)) st
    | None => st
    end) ;;;
  ret Success.

(** [if connection.is_connected(): connection.close()] *)
Definition close_if_connected (connection : nat) : M W unit :=
  fun w =>
    if db_is_connected connection w then db_close connection w
    else (Ok tt, w).

(** The loop over the connections of a session. *)
Fixpoint close_each (connections : list nat) : M W unit :=
  match connections with
  | [] => ret tt
  | connection :: connections' =>
      close_if_connected connection ;;; close_each connections'
  end.

(** [close_connections], for the session of the request. [connections]
    are the values of the dict of the session, in the order in which the
    dict yields them. An exception of [close] leaves the loop and becomes
    the error reply of the decorator. *)
Definition close_connections (session_id : text) (connections : list nat)
    : M (app_state W) reply :=
  try_catch
    (found <- gets (fun st => active_connections st !! session_id) ;;
     match found with
     | Some _ =>
         in_world (close_each connections) ;;;
         modify (fun st =>
           set_pool (<[session_id := ∅]> (active_connections st)) st) ;;;
         ret Success
     | None => ret Success
     end)
    (fun e => ret (ServerError e)).

(** The body of the loop of [cleanup_old_sessions] for a session that is
    not a key of the session object of the request. *)
Definition purge (session_id : text) (connections : list nat)
    : M (app_state W) unit :=
  in_world (close_each connections) ;;;
  modify (fun st =>
    set_histories (delete session_id (conversation_histories st))
      (set_pool (delete session_id (active_connections st)) st)).

(** The loop over [list(active_connections.keys())]: [pool] lists the
    sessions in the order of the dict, each with its connections in the
    order of its own dict; [session] holds the keys of the session object
    of the request. *)
Fixpoint cleanup_loop (session : list text) (pool : list (text * list nat))
    : M (app_state W) unit :=
  match pool with
  | [] => ret tt
  | (session_id, connections) :: pool' =>
      (if negb (existsb (text_eqb session_id) session)
       then purge session_id connections
       else ret tt) ;;;
      cleanup_loop session pool'
  end.

Section Clock.
Context {T : Type}.
(** [current_time - last > 600], on the values of the clock. *)
Variable exceeds_600 : T -> T -> bool.

(** [cleanup_old_sessions], which runs before every request. An exception
    of [close] ends the request. *)
Definition cleanup_old_sessions (current_time : T) (session : list text)
    (pool : list (text * list nat)) : M (server W T) unit :=
  fun sv =>
    if match last_cleanup sv with
       | None => true
       | Some last => exceeds_600 current_time last
       end
    then
      let '(r, st) := cleanup_loop session pool (process sv) in
      (r, {| process := st; last_cleanup := Some current_time |})
    else (Ok tt, sv).

End Clock.

End Housekeeping.

(** [pool] lists the sessions of the pool, each once. *)
Definition lists_sessions {W : Type} (pool : list (text * list nat))
    (st : app_state W) : Prop :=
  NoDup pool.*1
  /\ forall session_id,
       In session_id pool.*1 <-> is_Some (active_connections st !! session_id).

(** The session is purged by a cleanup: it is in the pool and is not a key
    of the session object. *)
Definition purged (session : list text) (pool : list (text * list nat))
    (session_id : text) : bool :=
  existsb (text_eqb session_id) pool.*1
  && negb (existsb (text_eqb session_id) session).

(** In the simulated world [close] succeeds. *)
Definition sim_closer : Closer Sim.sim :=
  {| db_close := fun _ w => (Ok tt, w) |}.

End Housekeeping.

(** ** The pool, as the acquisitions leave it *)

Module Pools.
Import App.

(** No connection is pooled under two entries. *)
Definition pool_unshared {W : Type} (st : app_state W) : Prop :=
  forall s1 k1 s2 k2 h,
    pooled st s1 k1 = Some h -> pooled st s2 k2 = Some h ->
    s1 = s2 /\ k1 = k2.

Section Acquisitions.
Context {W : Type} `{Driver W}.

(** The acquisitions of a sequence of requests, each for a session and
    with a config; between two of them the outside world may have changed
    in any way, which [drift] stands for. *)
Fixpoint acquisitions (drift : nat -> W -> W)
    (requests : list (text * config)) (st : app_state W) : app_state W :=
  match requests with
  | [] => st
  | (session_id, cfg) :: requests' =>
      let st1 := (get_or_create_connection session_id cfg st).2 in
      acquisitions drift requests'
        (set_world (drift (length requests') (world st1)) st1)
  end.

End Acquisitions.

End Pools.

(** ** Orders *)

Module Orders.
Import DbUtils.

(** The tables come with their row counts in descending order. *)
Fixpoint tables_descending (l : list table_info) : Prop :=
  match l with
  | [] => True
  | u :: l' =>
      Forall (fun v => (t_row_count v <= t_row_count u)%Z) l'
      /\ tables_descending l'
  end.

(** The same for entries of a name and a count. *)
Fixpoint counts_descending (l : list (text * Z)) : Prop :=
  match l with
  | [] => True
  | x :: l' => Forall (fun y => (y.2 <= x.2)%Z) l' /\ counts_descending l'
  end.

End Orders.

(** ** The errors of the synthesizer *)

Module Errors.

(** The errors that [generate_sql] raises itself: the connection error,
    the value errors and the runtime errors that wrap a failure of the
    client or of the completion call. *)
Definition synthesis_error (e : exn) : bool :=
  match e with
  | ConnectionRequired | ClientInitFailed _ | SchemaUnavailable
  | GenerationBackendError _ | AmbiguousQuery _ | EmptyGeneration
  | UnsafeOperation => true
  | _ => false
  end.

End Errors.

(** ** A simulated world whose rows [jsonify] refuses *)

Module Blobs.
Import Str.

(** The healthy world in which the rows of every result set hold the
    bytes of a BLOB column. *)
Definition blob_world : Sim.sim :=
  {| Sim.sim_alive := true; Sim.sim_connect := true;
     Sim.sim_show_tables_failures := 0;
     Sim.sim_create_table := Sim.orders_statement;
     Sim.sim_completion := txt "SELECT data FROM orders";
     Sim.sim_deltas := [Some (txt "One row.")];
     Sim.sim_stream_failure := None;
     Sim.sim_rows := [[(txt "data", VOpaque (txt "b'x'"))]] |}.

End Blobs.

(** ** app.py: the route that executes a statement as it is given *)

(** [cursor.close()] *)
Class CursorCloser (W : Type) := {
  db_cursor_close : nat -> W -> outcome unit * W
}.

Module Direct.
Import Str App Housekeeping.

(** The answers of [direct_sql_execution]; [DirectDone] is the data that
    the route hands to [jsonify]. *)
Inductive direct_response :=
| DirectBadRequest                  (* 400: the config or the statement is missing *)
| DirectSeveralStatements           (* 400: several statements are not supported *)
| DirectConnectFailed (e : exn)     (* 500: [connect] raised *)
| DirectNotConnected                (* 500: the new connection is not connected *)
| DirectTestFailed (e : exn)        (* 500: the test query raised *)
| DirectSqlError (e : exn)          (* 500: a mysql.connector.Error of the execution *)
| DirectFailed (e : exn)            (* 500: another exception of the execution *)
| DirectDone (sql : text) (results : list row).

(** [';' in sql_query.lower().strip()[:-1]] *)
Definition several_statements (sql_query : text) : bool :=
  existsb (Ascii.eqb ";") (drop_last (strip (lower sql_query))).

(** [try: m except Exception: log] *)
Definition quietly {S A : Type} (m : M S A) : M S unit :=
  fun s => let '(_, s') := m s in (Ok tt, s').

(** The answers that the route gives after the [finally] clause. *)
Definition after_execution (response : direct_response) : bool :=
  match response with
  | DirectTestFailed _ | DirectSqlError _ | DirectFailed _ | DirectDone _ _ =>
      true
  | _ => false
  end.

(** What a step leaves alone, and the statements that it notes. *)
Definition keeps {W : Type} (st st' : app_state W) (l : list (nat * text))
    : Prop :=
  active_connections st' = active_connections st
  /\ conversation_histories st' = conversation_histories st
  /\ next_connection st' = next_connection st
  /\ executed st' = executed st ++ l.

Section Direct.
Context {W : Type} `{Driver W} `{Closer W} `{CursorCloser W}.

(** The test query, on a cursor of its own. *)
Definition test_query (connection : nat) : M (app_state W) unit :=
  in_world (db_cursor connection) ;;;
  execute_query connection (txt "SELECT 1") ;;;
  in_world (db_fetchall connection) ;;;
  in_world (db_cursor_close connection).

(** [if connection and connection.is_connected(): connection.rollback()],
    in a [try] that ignores a failure. *)
Definition rollback_if_connected (connection : nat) : M (app_state W) unit :=
  modify (fun st =>
    if db_is_connected connection (world st)
    then set_world (db_rollback connection (world st)) st
    else st).

(** The [finally] clause: the cursor is closed when there is one, the
    connection when it is connected; failures are logged only. *)
Definition release (has_cursor : bool) (connection : nat)
    : M (app_state W) unit :=
  (if has_cursor then quietly (in_world (db_cursor_close connection))
   else ret tt) ;;;
  quietly (in_world (close_if_connected connection)).

(** The answer to an exception of the execution. *)
Definition failure_of (e : exn) : direct_response :=
  if is_driver_error e then DirectSqlError e else DirectFailed e.

(** The statement itself: its rows, or the status row after a commit. *)
Definition run_statement (connection : nat) (sql_query : text)
    : M (app_state W) (list row) :=
  has_rows <- execute_query connection sql_query ;;
  if has_rows then in_world (db_fetchall connection)
  else
    rows_affected <- in_world (db_commit connection) ;;
    ret [[(txt "status", VStr (txt "success"));
          (txt "rows_affected", VInt rows_affected)]].

(** The execution on the new connection, with its handlers and its
    [finally] clause. *)
Definition run_direct (connection : nat) (sql_query : text)
    : M (app_state W) direct_response :=
  cursor <- attempt (in_world (db_cursor connection)) ;;
  match cursor with
  | Raise e =>
      rollback_if_connected connection ;;;
      release false connection ;;;
      ret (failure_of e)
  | Ok _ =>
      tested <- attempt (test_query connection) ;;
      match tested with
      | Raise e =>
          rollback_if_connected connection ;;;
          release true connection ;;;
          ret (DirectTestFailed e)
      | Ok _ =>
          results <- attempt (run_statement connection sql_query) ;;
          match results with
          | Raise e =>
              rollback_if_connected connection ;;;
              release true connection ;;;
              ret (failure_of e)
          | Ok results =>
              release true connection ;;;
              ret (DirectDone sql_query results)
          end
      end
  end.

(** [direct_sql_execution]: a connection of its own, outside the pool. *)
Definition direct_sql_execution (sql_query : text) (cfg : config)
    : M (app_state W) direct_response :=
  if negb (nonempty cfg) || negb (nonempty sql_query)
  then ret DirectBadRequest
  else if several_statements sql_query then ret DirectSeveralStatements
  else
    fun st =>
      match db_connect cfg (world st) with
      | (Raise e, w) => (Ok (DirectConnectFailed e), set_world w st)
      | (Ok _, w) =>
          let connection := next_connection st in
          let st1 :=
            {| world := w; active_connections := active_connections st;
               conversation_histories := conversation_histories st;
               next_connection := S connection;
               executed := executed st |} in
          if db_is_connected connection w
          then run_direct connection sql_query st1
          else (Ok DirectNotConnected, st1)
      end.

End Direct.

(** In the simulated world a cursor closes. *)
Definition sim_cursor_closer : CursorCloser Sim.sim :=
  {| db_cursor_close := fun _ w => (Ok tt, w) |}.

End Direct.

(** ** db/utils.py: the graph of the tables *)

(** [SHOW COLUMNS FROM] and fetchall() *)
Class ColumnLister (W : Type) := {
  db_show_columns : nat -> text -> W -> outcome (list column_row) * W
}.

Module Graph.
Import Str Re DbUtils.

Inductive node_kind := TableNode | PrimaryKeyNode | IndexNode | ColumnNode.

(** A node; [n_parent] and [n_data_type] are the keys that only the
    nodes of columns have. *)
Record node := {
  n_id : text; n_label : text; n_size : Z; n_type : node_kind;
  n_parent : option text; n_data_type : option text }.

Inductive edge_kind := ForeignKeyEdge | HasColumnEdge.

(** An edge; [e_label] is the key that only the edges of foreign keys
    have. *)
Record edge := {
  e_source : text; e_target : text; e_label : option text;
  e_type : edge_kind }.

(** What [analyze_table_relationships] returns: the graph, or one of the
    two error dicts. *)
Inductive graph_result :=
| GraphData (nodes : list node) (edges : list edge)
| GraphNoDatabase
| GraphError (e : exn).

(** [needle in s] *)
Fixpoint contains (needle s : text) : bool :=
  startswith needle s
  || match s with
     | [] => false
     | _ :: s' => contains needle s'
     end.

(** [r'FOREIGN KEY \(`([^`]+)`\)'] *)
Definition fk_column_pattern : regex :=
  cats [Lit (txt "FOREIGN KEY (`"); Grp 1 (Plus not_backtick);
        Lit (txt "`)")].

(** [r'REFERENCES `([^`]+)`\s*\(`([^`]+)`\)'] *)
Definition references_pattern : regex :=
  cats [Lit (txt "REFERENCES `"); Grp 1 (Plus not_backtick); Lit (txt "`");
        Star is_space; Lit (txt "(`"); Grp 2 (Plus not_backtick);
        Lit (txt "`)")].

Definition table_node (table_name : text) (row_count : Z) : node :=
  {| n_id := table_name; n_label := table_name;
     n_size := Z.min (30 + row_count / 100) 100;
     n_type := TableNode; n_parent := None; n_data_type := None |}.

(** The stripped lines of the statement that hold [FOREIGN KEY]. *)
Definition fk_constraints (create_table : text) : list text :=
  List.filter (contains (txt "FOREIGN KEY"))
              (map strip (split ["010"%char] create_table)).

(** The edge of a constraint line; none when one of the two patterns is
    not found. *)
Definition constraint_edge (table_name constraint : text) : option edge :=
  match search fk_column_pattern constraint with
  | None => None
  | Some fk_col_match =>
      match search references_pattern constraint with
      | None => None
      | Some ref_match =>
          Some {| e_source := table_name;
                  e_target := group_text 1 (m_caps ref_match);
                  e_label := Some (group_text 1 (m_caps fk_col_match)
                                   ++ txt " -> "
                                   ++ group_text 2 (m_caps ref_match));
                  e_type := ForeignKeyEdge |}
      end
  end.

Definition fk_edges (table_name create_table : text) : list edge :=
  omap (constraint_edge table_name) (fk_constraints create_table).

Definition column_id (table_name : text) (column : column_row) : text :=
  table_name ++ txt "." ++ Field column.

Definition column_node (table_name : text) (column : column_row) : node :=
  {| n_id := column_id table_name column; n_label := Field column;
     n_size := 15;
     n_type := if text_eqb (Key column) (txt "PRI") then PrimaryKeyNode
               else if text_eqb (Key column) (txt "MUL")
                       || text_eqb (Key column) (txt "UNI")
                    then IndexNode else ColumnNode;
     n_parent := Some table_name; n_data_type := Some (Type_ column) |}.

Definition column_edge (table_name : text) (column : column_row) : edge :=
  {| e_source := table_name; e_target := column_id table_name column;
     e_label := None; e_type := HasColumnEdge |}.

Definition is_table_node (n : node) : bool :=
  match n_type n with TableNode => true | _ => false end.

Section Graph.
Context {W : Type} `{Driver W} `{CursorCloser W} `{ColumnLister W}.

(** The first loop, for one table: its node and the edges of its foreign
    keys. A failure of the row count is ignored. *)
Definition table_part (connection : nat) (table_name : text)
    : M W (node * list edge) :=
  row_count <-
    try_catch (count_result <- db_count connection table_name ;;
               ret (default 0%Z count_result))
              (fun _ => ret 0%Z) ;;
  create_table <- db_show_create_table connection table_name ;;
  ret (table_node table_name row_count, fk_edges table_name create_table).

(** The second loop, for one table: the nodes of its columns and the
    edges to them. *)
Definition column_part (connection : nat) (table_name : text)
    : M W (list node * list edge) :=
  columns <- db_show_columns connection table_name ;;
  ret (map (column_node table_name) columns,
       map (column_edge table_name) columns).

(** The body of the [try] block, after the cursor. *)
Definition build_graph (connection : nat) : M W graph_result :=
  current_db_result <- db_select_database connection ;;
  match current_db_result with
  | None => ret GraphNoDatabase
  | Some None => ret GraphNoDatabase
  | Some (Some []) => ret GraphNoDatabase
  | Some (Some current_db) =>
      tables <- db_show_tables connection current_db ;;
      table_parts <- mapM (table_part connection) tables ;;
      column_parts <-
        (if length tables <=? 10
         then mapM (column_part connection) tables
         else ret []) ;;
      ret (GraphData
             (map fst table_parts ++ flat_map fst column_parts)
             (flat_map snd table_parts ++ flat_map snd column_parts))
  end.

(** [analyze_table_relationships]: an exception becomes the error dict;
    the [finally] clause closes the cursor when there is one, and an
    exception of that leaves the function. *)
Definition analyze_table_relationships (connection : nat)
    : M W graph_result :=
  cursor <- attempt (db_cursor connection) ;;
  match cursor with
  | Raise e => ret (GraphError e)
  | Ok _ =>
      result <- attempt (build_graph connection) ;;
      db_cursor_close connection ;;;
      ret match result with
          | Ok graph_data => graph_data
          | Raise e => GraphError e
          end
  end.

End Graph.

(** In the simulated world the columns are those of [DESCRIBE]. *)
Definition sim_column_lister : ColumnLister Sim.sim :=
  {| db_show_columns := fun _ _ w => (Ok [Sim.id_column], w) |}.

End Graph.

(** * The properties of the program *)

Import Str Re Sanitizer DbUtils Llm App Wording Sim.

(** ** The monad *)

Lemma bind_ok {S A B} (m : M S A) (k : A -> M S B) (s s' : S) (a : A) :
  m s = (Ok a, s') -> bind m k s = k a s'.
Proof. intros E. unfold bind. by rewrite E. Qed.

Lemma bind_raise {S A B} (m : M S A) (k : A -> M S B) (s s' : S) (e : exn) :
  m s = (Raise e, s') -> bind m k s = (Raise e, s').
Proof. intros E. unfold bind. by rewrite E. Qed.

(** ** The matcher and the meaning of the patterns *)

Lemma star_ends_iff (f : ascii -> bool) (p : option ascii) (s : text) (b : pos) :
  In b (star_ends f p s) <-> star_rel f (p, s) b.
Proof.
  revert p. induction s as [|c s IH]; intros p; simpl.
  - split.
    + intros [<-|[]]. constructor.
    + intros Hs. inversion Hs; subst. by left.
  - destruct (f c) eqn:Ef.
    + rewrite in_app_iff, IH. simpl. split.
      * intros [Hs|[<-|[]]]; [by constructor|constructor].
      * intros Hs. inversion Hs; subst; [right; by left|by left].
    + simpl. split.
      * intros [<-|[]]. constructor.
      * intros Hs. inversion Hs; subst; [by left|congruence].
Qed.

Lemma star_ends_nonempty (f : ascii -> bool) (p : option ascii) (s : text) :
  star_ends f p s <> [].
Proof.
  destruct s as [|c s]; simpl; [done|].
  destruct (f c); [|done]. intros E. by apply app_eq_nil in E as [_ ?].
Qed.

(** The matcher finds exactly the positions that the pattern relates. *)
Theorem ends_matches (r : regex) :
  forall (p : option ascii) (s : text) (g : caps) (b : pos),
    (exists g', In (b, g') (ends r p s g)) <-> matches r (p, s) b.
Proof.
  induction r as [w|w|f|f|r1 IH1 r2 IH2|r1 IH1|n r1 IH1| | | |r1 IH1];
    intros p s g [q t]; simpl.
  - destruct (lit_end eqc w p s) as [[p' s']|]; simpl.
    + split.
      * intros [g' [[= -> -> _]|[]]]. done.
      * intros [= -> ->]. exists g. by left.
    + split; [intros [g' []]|done].
  - destruct (lit_end _ w p s) as [[p' s']|]; simpl.
    + split.
      * intros [g' [[= -> -> _]|[]]]. done.
      * intros [= -> ->]. exists g. by left.
    + split; [intros [g' []]|done].
  - destruct s as [|c s]; simpl.
    + split; [intros [g' []]|intros [c [? _]]; done].
    + destruct (f c) eqn:Ef; simpl.
      * split.
        -- intros [g' [[= <- <- _]|[]]]. exists c. done.
        -- intros [c' [[= <- ->] [_ ->]]]. exists g. by left.
      * split; [intros [g' []]|].
        intros [c' [[= <- Hs] [Hf _]]]. congruence.
  - rewrite <- star_ends_iff. split.
    + intros [g' Hin]. apply in_map_iff in Hin as [[q' t'] [[= <- <- _] Hin]].
      done.
    + intros Hin. exists g. apply in_map_iff. by exists (q, t).
  - split.
    + intros [g' Hin]. apply in_flat_map in Hin as [[[q1 t1] g1] [Hin1 Hin2]].
      simpl in Hin2. exists (q1, t1). split.
      * apply (IH1 p s g). by exists g1.
      * apply (IH2 q1 t1 g1). by exists g'.
    + intros [[q1 t1] [H1 H2]].
      apply (IH1 p s g) in H1 as [g1 H1].
      apply (IH2 q1 t1 g1) in H2 as [g' H2].
      exists g'. apply in_flat_map. by exists ((q1, t1), g1).
  - split.
    + intros [g' Hin]. apply in_app_iff in Hin as [Hin|[[= <- <- _]|[]]].
      * left. apply (IH1 p s g). by exists g'.
      * by right.
    + intros [H1|[= -> ->]].
      * apply (IH1 p s g) in H1 as [g' H1]. exists g'.
        apply in_app_iff. by left.
      * exists g. apply in_app_iff. right. by left.
  - split.
    + intros [g' Hin].
      apply in_map_iff in Hin as [[[q1 t1] g1] [[= <- <- _] Hin]].
      apply (IH1 p s g). by exists g1.
    + intros H1. apply (IH1 p s g) in H1 as [g1 H1].
      eexists. apply in_map_iff. exists ((q, t), g1). split; [|done].
      reflexivity.
  - destruct p; simpl.
    + split; [intros [g' []]|intros [? _]; done].
    + split; [intros [g' [[= <- <- _]|[]]]; done|].
      intros [_ [= -> ->]]. exists g. by left.
  - destruct s as [|c [|d s]]; simpl.
    + split; [intros [g' [[= <- <- _]|[]]]; split; [by left|done]|].
      intros [_ [= -> ->]]. exists g. by left.
    + destruct (eqc c "010") eqn:Ec.
      * apply Ascii.eqb_eq in Ec. subst c. split.
        -- intros [g' [[= <- <- _]|[]]]. split; [by right|done].
        -- intros [_ [= -> ->]]. exists g. by left.
      * split; [intros [g' []]|].
        intros [[?|[= ->]] _]; [done|]. by rewrite Ascii.eqb_refl in Ec.
    + split; [intros [g' []]|]. intros [[?|?] _]; done.
  - destruct (word_before p) eqn:Eb, (word_after s) eqn:Ea; simpl.
    + split; [intros [g' []]|intros [? _]; done].
    + split; [intros [g' [[= <- <- _]|[]]]; done|].
      intros [_ [= -> ->]]. exists g. by left.
    + split; [intros [g' [[= <- <- _]|[]]]; done|].
      intros [_ [= -> ->]]. exists g. by left.
    + split; [intros [g' []]|intros [? _]; done].
  - destruct (ends r1 p s g) as [|e l] eqn:Ee.
    + split.
      * intros [g' [[= <- <- _]|[]]]. split; [|done].
        intros [m Hm]. apply (IH1 p s g) in Hm as [g1 Hin].
        rewrite Ee in Hin. done.
      * intros [_ [= -> ->]]. exists g. by left.
    + split; [intros [g' []]|].
      intros [Hno _]. exfalso. apply Hno. exists (e.1.1, e.1.2).
      apply (IH1 p s g). exists e.2. rewrite Ee. left.
      by destruct e as [[? ?] ?].
Qed.

Lemma match_at_Some (r : regex) (p : option ascii) (s : text) (e : cfg) :
  match_at r p s = Some e -> matches r (p, s) (e.1.1, e.1.2).
Proof.
  unfold match_at. intros Hh. apply (ends_matches r p s []).
  exists e.2. destruct (ends r p s []) as [|e' l]; [done|].
  injection Hh as ->. left. by destruct e as [[? ?] ?].
Qed.

Lemma match_at_None (r : regex) (p : option ascii) (s : text) :
  match_at r p s = None <-> ~ exists b, matches r (p, s) b.
Proof.
  unfold match_at. split.
  - intros Hh [b Hb]. apply (ends_matches r p s []) in Hb as [g' Hin].
    destruct (ends r p s []); [done|done].
  - intros Hno. destruct (ends r p s []) as [|e l] eqn:Ee; [done|].
    exfalso. apply Hno. exists (e.1.1, e.1.2). apply (match_at_Some r p s e).
    unfold match_at. by rewrite Ee.
Qed.

Lemma last_opt_nil (p : option ascii) : last_opt p [] = p.
Proof. done. Qed.

Lemma last_opt_cons (p : option ascii) (c : ascii) (w : text) :
  last_opt p (c :: w) = last_opt (Some c) w.
Proof.
  unfold last_opt. destruct w as [|d w]; [done|].
  rewrite last_cons. rewrite (last_cons d w).
  by destruct (last w).
Qed.

Lemma last_opt_app (p : option ascii) (u v : text) :
  last_opt p (u ++ v) = last_opt (last_opt p u) v.
Proof.
  revert p. induction u as [|c u IH]; intros p; [done|].
  simpl. rewrite !last_opt_cons. apply IH.
Qed.

(** [re.search] finds a match exactly when the pattern matches at some
    position of the subject. *)
Theorem search_from_matches (r : regex) (p : option ascii) (s : text) :
  is_Some (search_from r p s)
  <-> exists pre rest b, s = pre ++ rest /\ matches r (last_opt p pre, rest) b.
Proof.
  revert p. induction s as [|c s IH]; intros p; simpl.
  - destruct (match_at r p []) as [e|] eqn:Em.
    + split; [|by eauto]. intros _. exists [], [], (e.1.1, e.1.2).
      split; [done|]. by apply match_at_Some.
    + split; [by intros [? ?]|].
      intros [pre [rest [b [Hs Hb]]]]. symmetry in Hs.
      apply app_eq_nil in Hs as [-> ->].
      apply match_at_None in Em. exfalso. apply Em. by exists b.
  - destruct (match_at r p (c :: s)) as [e|] eqn:Em.
    + split; [|by eauto]. intros _. exists [], (c :: s), (e.1.1, e.1.2).
      split; [done|]. by apply match_at_Some.
    + rewrite IH. split.
      * intros [pre [rest [b [-> Hb]]]]. exists (c :: pre), rest, b.
        split; [done|]. by rewrite last_opt_cons.
      * intros [pre [rest [b [Hs Hb]]]].
        destruct pre as [|c' pre].
        -- simpl in Hs. subst rest. apply match_at_None in Em.
           exfalso. apply Em. by exists b.
        -- injection Hs as <- ->. exists pre, rest, b.
           split; [done|]. by rewrite last_opt_cons in Hb.
Qed.

Lemma lit_end_iff (w : text) (p : option ascii) (s : text) (b : pos) :
  lit_end eqc w p s = Some b <-> s = w ++ b.2 /\ b.1 = last_opt p w.
Proof.
  revert p s. induction w as [|a w IH]; intros p s; simpl.
  - split.
    + intros [= <-]. done.
    + intros [-> Hb]. destruct b. simpl in *. by subst.
  - destruct s as [|c s]; [split; [done|intros [? _]; done]|].
    destruct (eqc a c) eqn:E.
    + apply Ascii.eqb_eq in E. subst c. rewrite IH, last_opt_cons.
      split; [intros [-> ?]; done|]. intros [[= ->] ?]. done.
    + split; [done|]. intros [[= -> _] _]. by rewrite Ascii.eqb_refl in E.
Qed.

Lemma star_rel_iff (f : ascii -> bool) (p : option ascii) (s : text) (b : pos) :
  star_rel f (p, s) b
  <-> exists ws, s = ws ++ b.2 /\ forallb f ws = true /\ b.1 = last_opt p ws.
Proof.
  split.
  - intros Hs. remember (p, s) as a eqn:Ea. revert p s Ea.
    induction Hs as [a|p' c s' b Hf Hs IH]; intros p s Ea.
    + subst a. exists []. done.
    + injection Ea as <- <-.
      destruct (IH (Some c) s' eq_refl) as [ws [-> [Hall Hb]]].
      exists (c :: ws). simpl. rewrite Hf, Hall, last_opt_cons. done.
  - intros [ws [-> [Hall Hb]]]. revert p Hb.
    induction ws as [|c ws IH]; intros p Hb.
    + simpl in *. destruct b as [q t]. simpl in *. subst. constructor.
    + simpl in Hall. apply andb_true_iff in Hall as [Hc Hall].
      simpl. constructor; [done|]. apply IH; [done|].
      by rewrite last_opt_cons in Hb.
Qed.

Lemma matches_cats_cons (r : regex) (rs : list regex) (a b : pos) :
  matches (cats (r :: rs)) a b <-> exists m, matches r a m /\ matches (cats rs) m b.
Proof.
  destruct rs as [|r' rs]; [|done].
  simpl. split.
  - intros Hr. exists b. destruct b; done.
  - intros [m [Hr [= <-]]]. by destruct m.
Qed.

Lemma matches_Lit (w : text) (p : option ascii) (s : text) (b : pos) :
  matches (Lit w) (p, s) b <-> s = w ++ b.2 /\ b.1 = last_opt p w.
Proof. apply lit_end_iff. Qed.

Lemma matches_Grp (n : nat) (r : regex) (a b : pos) :
  matches (Grp n r) a b <-> matches r a b.
Proof. done. Qed.

Lemma lit_end_length (eq : ascii -> ascii -> bool) (w : text) :
  forall (p : option ascii) (s : text) (b : pos),
    lit_end eq w p s = Some b -> length s = length w + length b.2.
Proof.
  induction w as [|a w IH]; intros p s b; simpl.
  - by intros [= <-].
  - destruct s as [|c s]; [done|]. destruct (eq a c); [|done].
    intros Hl. apply IH in Hl. simpl. lia.
Qed.

Lemma matches_length (r : regex) :
  forall a b : pos,
    matches r a b ->
    length b.2 <= length a.2
    /\ (consuming r = true -> length b.2 < length a.2).
Proof.
  induction r as [w|w|f|f|r1 IH1 r2 IH2|r1 IH1|n r1 IH1| | | |r1 IH1];
    intros [p s] [q t]; simpl.
  - intros Hl. apply lit_end_length in Hl. simpl in Hl.
    split; [lia|]. destruct w; [done|]. simpl in Hl. lia.
  - intros Hl. apply lit_end_length in Hl. simpl in Hl.
    split; [lia|]. destruct w; [done|]. simpl in Hl. lia.
  - intros [c [-> _]]. simpl. split; lia.
  - intros Hs. apply star_rel_iff in Hs as [ws [-> _]]. simpl.
    rewrite length_app. split; [lia|done].
  - intros [m [H1 H2]]. apply IH1 in H1 as [H1 H1']. apply IH2 in H2 as [H2 H2'].
    simpl in *. split; [lia|]. intros [Hc|Hc]%orb_true_iff.
    + specialize (H1' Hc). lia.
    + specialize (H2' Hc). lia.
  - intros [H1|[= -> ->]]; [|split; [lia|done]].
    apply IH1 in H1 as [H1 _]. split; [done|done].
  - intros H1. by apply IH1 in H1.
  - intros [_ [= -> ->]]. split; [lia|done].
  - intros [_ [= -> ->]]. split; [lia|done].
  - intros [_ [= -> ->]]. split; [lia|done].
  - intros [_ [= -> ->]]. split; [lia|done].
Qed.

(** The patterns that the program hands to [re.sub] and [re.finditer]
    never match the empty text. *)
Lemma scanned_patterns_consume :
  forallb consuming
    [fence_open; fence_close; inline_comment; ws_run; fk_pattern; index_pattern]
  = true.
Proof. reflexivity. Qed.

(** ** The destructive-operation filter *)

Lemma last_opt_None (pre : text) : last_opt None pre = last pre.
Proof. unfold last_opt. by destruct (last pre). Qed.

Lemma matches_cats_nil (a b : pos) : matches (cats []) a b <-> b = a.
Proof. simpl. destruct a. split; [by intros [= <-]|by intros ->]. Qed.

Lemma matches_Wb (a b : pos) :
  matches Wb a b <-> word_before a.1 <> word_after a.2 /\ b = a.
Proof. done. Qed.

Lemma matches_Plus (f : ascii -> bool) (p : option ascii) (s : text) (b : pos) :
  matches (Plus f) (p, s) b
  <-> exists ws, s = ws ++ b.2 /\ ws <> [] /\ forallb f ws = true
                 /\ b.1 = last_opt p ws.
Proof.
  unfold Plus. simpl. split.
  - intros [[q t] [[c [Hs [Hf Hq]]] Hstar]]. simpl in *. subst q.
    apply star_rel_iff in Hstar as [ws [-> [Hall Hb]]].
    exists (c :: ws). simpl. rewrite Hf, Hall, last_opt_cons. done.
  - intros [[|c ws] [-> [Hne [Hall Hb]]]]; [done|].
    simpl in Hall. apply andb_true_iff in Hall as [Hc Hall].
    exists (Some c, ws ++ b.2). split.
    + exists c. done.
    + apply star_rel_iff. exists ws. by rewrite last_opt_cons in Hb.
Qed.

Ltac solve_wordy := split; [reflexivity | intros ?; reflexivity].

Lemma word_after_app (w s : text) :
  word_after w = true -> word_after (w ++ s) = true.
Proof. by destruct w. Qed.

Lemma bool_neq_true_l (b : bool) : b <> true <-> b = false.
Proof. destruct b; split; congruence. Qed.

Lemma bool_true_neq (b : bool) : true <> b <-> b = false.
Proof. destruct b; split; congruence. Qed.

(** [\bw\b] from a position. *)
Lemma matches_word (w : text) (tl : list regex) (p : option ascii) (s : text)
    (b : pos) :
  wordy w ->
  matches (cats (Wb :: Lit w :: Wb :: tl)) (p, s) b
  <-> exists after,
        s = w ++ after
        /\ word_before p = false /\ word_after after = false
        /\ matches (cats tl) (last_opt p w, after) b.
Proof.
  intros [Hw1 Hw2].
  rewrite matches_cats_cons. setoid_rewrite matches_cats_cons.
  setoid_rewrite matches_cats_cons. split.
  - intros [m1 [[Hb1 ->] [m2 [Hl [m3 [[Hb2 ->] Ht]]]]]].
    simpl in Hb1, Hl. apply lit_end_iff in Hl as [-> Hm2].
    destruct m2 as [q after]. simpl in *. subst q.
    rewrite word_after_app in Hb1 by done. rewrite Hw2 in Hb2.
    exists after. split; [done|]. split; [by apply bool_neq_true_l|].
    split; [by apply bool_true_neq|done].
  - intros [after [-> [Hp [Ha Ht]]]].
    exists (p, w ++ after). split.
    { split; [|done]. simpl. rewrite word_after_app by done. congruence. }
    exists (last_opt p w, after). split.
    { simpl. by apply lit_end_iff. }
    exists (last_opt p w, after). split; [|done].
    split; [|done]. simpl. rewrite Hw2. congruence.
Qed.

(** [\bw\s+v\b] from a position. *)
Lemma matches_two_words (w v : string) (tl : list regex) (p : option ascii)
    (s : text) (b : pos) :
  wordy (txt w) -> wordy (txt v) ->
  matches (cats (two_words w v ++ tl)) (p, s) b
  <-> exists ws after,
        s = txt w ++ ws ++ txt v ++ after
        /\ ws <> [] /\ forallb is_space ws = true
        /\ word_before p = false /\ word_after after = false
        /\ matches (cats tl) (last_opt p (txt w ++ ws ++ txt v), after) b.
Proof.
  intros [Hw1 Hw2] [Hv1 Hv2].
  change (two_words w v ++ tl)
    with (Wb :: Lit (txt w) :: Plus is_space :: Lit (txt v) :: Wb :: tl).
  rewrite matches_cats_cons. do 4 setoid_rewrite matches_cats_cons. split.
  - intros [m1 [[Hb1 ->] [m2 [Hl [m3 [Hp [m4 [Hl2 [m5 [[Hb2 ->] Ht]]]]]]]]]].
    simpl in Hb1, Hl. apply lit_end_iff in Hl as [-> Hm2].
    destruct m2 as [q2 s2]. simpl in Hm2. subst q2.
    apply matches_Plus in Hp as [ws [Hs2 [Hne [Hall Hm3]]]].
    simpl in Hs2. subst s2.
    destruct m3 as [q3 s3]. simpl in Hm3, Hl2, Hb1 |- *. subst q3.
    apply lit_end_iff in Hl2 as [-> Hm4].
    destruct m4 as [q4 after]. simpl in Hm4, Hb2, Ht |- *. subst q4.
    rewrite word_after_app in Hb1 by done. rewrite Hv2 in Hb2.
    exists ws, after. split; [done|]. split; [done|]. split; [done|].
    split; [by apply bool_neq_true_l|]. split; [by apply bool_true_neq|].
    by rewrite !last_opt_app.
  - intros [ws [after [-> [Hne [Hall [Hp [Ha Ht]]]]]]].
    exists (p, txt w ++ ws ++ txt v ++ after). split.
    { split; [|done]. simpl. rewrite word_after_app by done. congruence. }
    exists (last_opt p (txt w), ws ++ txt v ++ after). split.
    { simpl. by apply lit_end_iff. }
    exists (last_opt (last_opt p (txt w)) ws, txt v ++ after). split.
    { apply matches_Plus. exists ws. done. }
    exists (last_opt (last_opt (last_opt p (txt w)) ws) (txt v), after). split.
    { simpl. by apply lit_end_iff. }
    exists (last_opt (last_opt (last_opt p (txt w)) ws) (txt v), after). split.
    { split; [|done]. simpl. rewrite Hv2. congruence. }
    by rewrite !last_opt_app in Ht.
Qed.

(** [.*\bw\b] from a position. *)
Lemma matches_dots_word (w : text) (q : option ascii) (s : text) :
  wordy w ->
  (exists b, matches (cats [Star is_dot; Wb; Lit w; Wb]) (q, s) b)
  <-> exists mid rest,
        s = mid ++ w ++ rest /\ forallb is_dot mid = true
        /\ word_before (last_opt q mid) = false /\ word_after rest = false.
Proof.
  intros Hw. split.
  - intros [b Hm]. apply matches_cats_cons in Hm as [[q1 s1] [Hstar Hm]].
    apply star_rel_iff in Hstar as [mid [-> [Hall Hq1]]]. simpl in Hq1. subst q1.
    simpl in Hm. change (matches (cats (Wb :: Lit w :: Wb :: []))
                                 (last_opt q mid, s1) b) in Hm.
    apply matches_word in Hm as [rest [-> [Hp [Ha _]]]]; [|done].
    by exists mid, rest.
  - intros [mid [rest [-> [Hall [Hp Ha]]]]].
    exists (last_opt (last_opt q mid) w, rest).
    apply matches_cats_cons. exists (last_opt q mid, w ++ rest). split.
    { apply star_rel_iff. exists mid. done. }
    apply (matches_word w []); [done|]. exists rest.
    split; [done|]. split; [done|]. split; [done|]. by apply matches_cats_nil.
Qed.

Lemma is_dot_newline (c : ascii) : is_dot c = true <-> c <> newline.
Proof.
  unfold is_dot, code, newline. rewrite negb_true_iff, N.eqb_neq. split.
  - intros Hn ->. by apply Hn.
  - intros Hn E. apply Hn. rewrite <- (ascii_N_embedding c), E. done.
Qed.

Lemma forallb_is_dot (s : text) : forallb is_dot s = true <-> ~ In newline s.
Proof.
  induction s as [|c s IH]; simpl; [tauto|].
  rewrite andb_true_iff, IH, is_dot_newline. split.
  - intros [Hc Hs] [E|Hin]; [by subst|done].
  - intros Hn. split; [intros ->; apply Hn; by left|]. intros ?. apply Hn. by right.
Qed.

(** Without line feeds, [.*\bw\b] finds the word wherever it is. *)
Lemma dots_word_in (w : text) (q : option ascii) (s : text) :
  wordy w -> ~ In newline s ->
  (exists b, matches (cats [Star is_dot; Wb; Lit w; Wb]) (q, s) b)
  <-> word_in w q s.
Proof.
  intros Hw Hn. rewrite matches_dots_word by done. unfold word_in. split.
  - intros [mid [rest [-> [_ [Hp Ha]]]]]. by exists mid, rest.
  - intros [mid [rest [-> [Hp Ha]]]]. exists mid, rest.
    split; [done|]. split; [|done]. apply forallb_is_dot.
    intros Hin. apply Hn. apply in_app_iff. by left.
Qed.

Lemma matches_no_where (q : option ascii) (s : text) (b : pos) :
  ~ In newline s ->
  matches no_where_ahead (q, s) b
  <-> ~ word_in (txt "where") q s /\ b = (q, s).
Proof.
  intros Hn. unfold no_where_ahead.
  change (matches (NotAhead ?r) ?a ?b) with ((~ exists m, matches r a m) /\ b = a).
  rewrite dots_word_in; [done|solve_wordy|done].
Qed.

Lemma wordy_last (w : text) (p : option ascii) (x : text) :
  wordy w -> last_opt p (x ++ w) = last w.
Proof.
  intros [Hw _]. rewrite last_opt_app. unfold last_opt.
  destruct w as [|c w]; [done|]. rewrite last_cons.
  by destruct (last w).
Qed.

Lemma not_in_app_r (c : ascii) (a b : text) : ~ In c (a ++ b) -> ~ In c b.
Proof. intros Hn Hin. apply Hn. apply in_app_iff. by right. Qed.

Lemma search_two_words (w v : string) (tl : list regex) (t : text) :
  wordy (txt w) -> wordy (txt v) ->
  is_Some (search (cats (two_words w v ++ tl)) t)
  <-> exists after,
        two_words_then (txt w) (txt v) t after
        /\ exists b, matches (cats tl) (last (txt v), after) b.
Proof.
  intros Hw Hv. unfold search. rewrite search_from_matches. split.
  - intros [pre [rest [b [-> Hm]]]].
    apply matches_two_words in Hm
      as [ws [after [-> [Hne [Hall [Hp [Ha Ht]]]]]]]; [|done|done].
    exists after. split.
    + exists pre, ws. by rewrite last_opt_None in Hp.
    + exists b. rewrite !app_assoc, wordy_last in Ht by done. done.
  - intros [after [[pre [ws [-> [Hne [Hall [Hp Ha]]]]]] [b Ht]]].
    exists pre, (txt w ++ ws ++ txt v ++ after), b. split; [done|].
    apply matches_two_words; [done|done|].
    exists ws, after. rewrite last_opt_None.
    repeat (split; [done|]).
    rewrite !app_assoc, wordy_last by done. done.
Qed.

Lemma search_plain_two_words (w v : string) (t : text) :
  wordy (txt w) -> wordy (txt v) ->
  is_Some (search (cats (two_words w v)) t)
  <-> exists after, two_words_then (txt w) (txt v) t after.
Proof.
  intros Hw Hv.
  change (two_words w v) with (two_words w v ++ []).
  rewrite search_two_words by done. split.
  - intros [after [Ht _]]. by exists after.
  - intros [after Ht]. exists after. split; [done|].
    eexists. by apply matches_cats_nil.
Qed.

Lemma two_words_then_after (w v t after : text) :
  two_words_then w v t after -> ~ In newline t -> ~ In newline after.
Proof.
  intros [pre [ws [-> _]]] Hn.
  do 4 apply not_in_app_r in Hn. done.
Qed.

Lemma search_delete (t : text) :
  ~ In newline t ->
  is_Some (search (cats (two_words "delete" "from" ++ [no_where_ahead])) t)
  <-> exists after,
        two_words_then (txt "delete") (txt "from") t after
        /\ ~ word_in (txt "where") (last (txt "from")) after.
Proof.
  intros Hn. rewrite search_two_words by solve_wordy. split.
  - intros [after [Ht [b Hm]]]. exists after. split; [done|].
    apply matches_no_where in Hm as [Hm _]; [done|].
    by apply (two_words_then_after _ _ _ _ Ht).
  - intros [after [Ht Hw]]. exists after. split; [done|].
    eexists. apply matches_no_where; [|done].
    by apply (two_words_then_after _ _ _ _ Ht).
Qed.

Lemma search_alter (t : text) :
  ~ In newline t ->
  is_Some (search (cats (two_words "alter" "table"
                         ++ [Star is_dot; Wb; Lit (txt "drop"); Wb])) t)
  <-> exists after,
        two_words_then (txt "alter") (txt "table") t after
        /\ word_in (txt "drop") (last (txt "table")) after.
Proof.
  intros Hn. rewrite search_two_words by solve_wordy. split.
  - intros [after [Ht Hm]]. exists after. split; [done|].
    apply dots_word_in in Hm; [done|solve_wordy|].
    by apply (two_words_then_after _ _ _ _ Ht).
  - intros [after [Ht Hw]]. exists after. split; [done|].
    apply dots_word_in; [solve_wordy| |done].
    by apply (two_words_then_after _ _ _ _ Ht).
Qed.

Lemma search_update (t : text) :
  ~ In newline t ->
  is_Some (search (cats [Wb; Lit (txt "update"); Wb; no_where_ahead]) t)
  <-> exists after,
        one_word_then (txt "update") t after
        /\ ~ word_in (txt "where") (last (txt "update")) after.
Proof.
  intros Hn. unfold search. rewrite search_from_matches. split.
  - intros [pre [rest [b [-> Hm]]]].
    apply matches_word in Hm as [after [-> [Hp [Ha Ht]]]]; [|solve_wordy].
    apply matches_no_where in Ht as [Hw _];
      [|by do 2 apply not_in_app_r in Hn].
    exists after. split.
    + exists pre. by rewrite last_opt_None in Hp.
    + done.
  - intros [after [[pre [-> [Hp Ha]]] Hw]].
    exists pre, (txt "update" ++ after). eexists. split; [done|].
    apply matches_word; [solve_wordy|]. exists after.
    rewrite last_opt_None. repeat (split; [done|]).
    apply matches_no_where; [by do 2 apply not_in_app_r in Hn|done].
Qed.

Lemma lower_char_newline (c : ascii) : lower_char c = newline -> c = newline.
Proof.
  destruct c as [[] [] [] [] [] [] [] []]; cbv; congruence.
Qed.

Lemma lower_newline (t : text) : ~ In newline t -> ~ In newline (lower t).
Proof.
  intros Hn Hin. apply Hn. unfold lower in Hin.
  apply in_map_iff in Hin as [c [E Hc]].
  apply lower_char_newline in E. by subst.
Qed.

(** The filter matches exactly the destructive texts. *)
Theorem is_dangerous_sql_destructive (t : text) :
  ~ In newline t ->
  is_dangerous_sql t = true <-> destructive (lower t).
Proof.
  intros Hn. apply lower_newline in Hn.
  unfold is_dangerous_sql, dangerous_patterns, destructive.
  cbn [existsb]. rewrite orb_false_r, !orb_true_iff, !bool_decide_eq_true.
  rewrite !search_plain_two_words by solve_wordy.
  rewrite search_delete, search_alter, search_update by done.
  tauto.
Qed.

(** ** The sanitizer *)

Lemma match_ws_run_Some (p : option ascii) (s : text) (e : cfg) :
  match_at ws_run p s = Some e -> length e.1.2 < length s.
Proof.
  intros Hm. apply match_at_Some in Hm. unfold ws_run in Hm.
  apply matches_Plus in Hm as [ws [-> [Hne _]]]. simpl.
  rewrite length_app. destruct ws; [done|]. simpl. lia.
Qed.

Lemma match_ws_run_None (p : option ascii) (c : ascii) (s : text) :
  match_at ws_run p (c :: s) = None -> is_space c = false.
Proof.
  intros Hm. destruct (is_space c) eqn:Ec; [|done].
  apply match_at_None in Hm. exfalso. apply Hm.
  exists (Some c, s). apply matches_Plus. exists [c]. simpl.
  rewrite Ec. done.
Qed.

Lemma scan_ws_run_kept (s : text) :
  forall (skip : nat) (p : option ascii),
    Forall kept_not_space (scan_from ws_run skip p s).
Proof.
  induction s as [|c s IH]; intros skip p.
  - destruct skip; simpl; [|constructor].
    destruct (match_at ws_run p []) as [e|] eqn:Em; [|constructor].
    apply match_ws_run_Some in Em. simpl in Em. lia.
  - destruct skip as [|k]; simpl; [|apply IH].
    destruct (match_at ws_run p (c :: s)) as [e|] eqn:Em.
    + pose proof (match_ws_run_Some _ _ _ Em) as Hl. simpl in Hl.
      destruct (S (length s) - length e.1.2) as [|k] eqn:Ek; [lia|].
      constructor; [done|]. apply IH.
    + constructor; [by apply (match_ws_run_None p c s)|]. apply IH.
Qed.

Lemma sub_ws_run_chars (s : text) (c : ascii) :
  In c (sub ws_run (txt " ") s) -> is_space c = false \/ c = " "%char.
Proof.
  unfold sub, scan. intros Hin.
  apply in_flat_map in Hin as [x [Hx Hc]].
  pose proof (scan_ws_run_kept s 0 None) as Hall.
  rewrite Forall_forall in Hall.
  specialize (Hall x). rewrite list_elem_of_In in Hall. specialize (Hall Hx).
  destruct x as [d|m g]; simpl in *.
  - destruct Hc as [<-|[]]. by left.
  - destruct Hc as [<-|[]]. by right.
Qed.

Lemma lstrip_In (s : text) (c : ascii) : In c (lstrip s) -> In c s.
Proof.
  induction s as [|d s IH]; simpl; [done|].
  destruct (is_space d); [|done]. intros Hin. right. by apply IH.
Qed.

Lemma strip_In (s : text) (c : ascii) : In c (strip s) -> In c s.
Proof.
  unfold strip, rstrip. intros Hin. apply lstrip_In in Hin.
  apply in_rev in Hin. apply lstrip_In in Hin. by apply in_rev in Hin.
Qed.

Lemma drop_last_In (s : text) (c : ascii) : In c (drop_last s) -> In c s.
Proof.
  unfold drop_last. revert c. induction s as [|d s IH]; intros c; simpl; [done|].
  destruct s as [|d' s]; [done|].
  intros [<-|Hin]; [by left|]. right. by apply IH.
Qed.

(** A cleaned text holds no white space but single blanks; in particular
    it holds no line feed. *)
Lemma clean_sql_query_chars (raw : text) (c : ascii) :
  In c (clean_sql_query raw) -> is_space c = false \/ c = " "%char.
Proof.
  unfold clean_sql_query.
  match goal with |- context [strip (sub ws_run (txt " ") ?x)] => set (body := x) end.
  destruct (endswith (txt ";") (strip (sub ws_run (txt " ") body))).
  - intros Hin. apply strip_In, drop_last_In, strip_In in Hin.
    by apply sub_ws_run_chars in Hin.
  - intros Hin. apply strip_In in Hin. by apply sub_ws_run_chars in Hin.
Qed.

Lemma clean_sql_query_no_newline (raw : text) :
  ~ In newline (clean_sql_query raw).
Proof.
  intros Hin. apply clean_sql_query_chars in Hin as [E|E]; [|done].
  vm_compute in E. done.
Qed.

(** C3. The sanitizer keeps the opening marker of a fence that has no
    language tag: the raw output [untagged_output], a query between two
    bare fence markers, is cleaned to a text that still starts with the
    fence marker, whereas the same query in a fence tagged as SQL, with a
    comment line and a terminator, is cleaned to the bare query. *)
Lemma untagged_fence_kept :
  clean_sql_query untagged_output = txt "``` SELECT 1"
  /\ clean_sql_query tagged_output = txt "SELECT 1".
Proof. split; vm_compute; reflexivity. Qed.

(** ** The query synthesizer *)

Section Synth.
Context {W : Type} `{Driver W}.

(** [generate_sql] once the backend has answered: what is left is the
    check of the cleaned output. *)
Lemma generate_sql_checks (q : text) (hist : list turn) (conn : nat)
    (w w1 w2 w3 : W) (s : structure) (raw : text) :
  db_is_connected conn w = true ->
  llm_get_client w = (Ok tt, w1) ->
  get_enhanced_database_structure conn w1 = (Ok s, w2) ->
  s <> StructureFailed ->
  llm_complete {| p_structure := s; p_history := hist; p_question := q |} w2
  = (Ok raw, w3) ->
  generate_sql q hist (Some conn) w = check_sql (clean_sql_query raw) w3.
Proof.
  intros Hc Hl Hs Hne Hb. unfold generate_sql.
  unfold bind at 1. unfold gets at 1. rewrite Hc. cbn [negb].
  erewrite bind_ok; [|unfold try_catch; by rewrite Hl].
  erewrite bind_ok; [|unfold try_catch; by rewrite Hs].
  destruct s; try done;
    (erewrite bind_ok; [|unfold try_catch; by rewrite Hb]); done.
Qed.

Lemma check_sql_sentinel (suffix : text) (w : W) :
  check_sql (sentinel_prefix ++ suffix) w
  = (Raise (AmbiguousQuery (strip suffix)), w).
Proof. reflexivity. Qed.

Lemma check_sql_cases (t : text) (w : W) :
  startswith sentinel_prefix t = false -> t <> [] ->
  check_sql t w
  = if is_dangerous_sql t then (Raise UnsafeOperation, w) else (Ok t, w).
Proof.
  intros Hs Hne. unfold check_sql. rewrite Hs.
  destruct t; [done|]. simpl. by destruct (is_dangerous_sql _).
Qed.

(** C1 (as amended). Once the backend has answered with an output whose
    cleaned form is not empty and does not start with the sentinel prefix,
    the filter matches the cleaned text exactly when its lower-case form
    holds a destructive operation: a database or table drop, a table
    truncate, DELETE FROM with no WHERE anywhere after it, ALTER TABLE with
    a DROP after it, or UPDATE with no WHERE anywhere after it. Then
    [generate_sql] raises the unsafe-operation error exactly in that case,
    and returns the cleaned text exactly when it holds no such operation.
    A cleaned text that starts with the sentinel prefix is rejected as an
    ambiguous query before the filter is applied. *)
Theorem filter_rejects_destructive
    (user_question : text) (conversation_history : list turn)
    (connection : nat) (w w1 w2 w3 : W) (s : structure) (llm_output : text) :
  db_is_connected connection w = true ->
  llm_get_client w = (Ok tt, w1) ->
  get_enhanced_database_structure connection w1 = (Ok s, w2) ->
  s <> StructureFailed ->
  llm_complete {| p_structure := s; p_history := conversation_history;
                  p_question := user_question |} w2 = (Ok llm_output, w3) ->
  startswith sentinel_prefix (clean_sql_query llm_output) = false ->
  clean_sql_query llm_output <> [] ->
  (is_dangerous_sql (clean_sql_query llm_output) = true
   <-> destructive (lower (clean_sql_query llm_output)))
  /\ (generate_sql user_question conversation_history (Some connection) w
      = (Raise UnsafeOperation, w3)
      <-> destructive (lower (clean_sql_query llm_output)))
  /\ (generate_sql user_question conversation_history (Some connection) w
      = (Ok (clean_sql_query llm_output), w3)
      <-> ~ destructive (lower (clean_sql_query llm_output))).
Proof.
  intros Hc Hl Hs Hne Hb Hsent Hnon.
  pose proof (is_dangerous_sql_destructive (clean_sql_query llm_output)
                (clean_sql_query_no_newline llm_output)) as Hd.
  rewrite (generate_sql_checks _ _ _ _ _ _ _ _ _ Hc Hl Hs Hne Hb).
  rewrite (check_sql_cases _ _ Hsent Hnon).
  split; [done|]. rewrite <- Hd.
  destruct (is_dangerous_sql (clean_sql_query llm_output)); split; split;
    try done; try congruence.
Qed.

End Synth.

(** C1, as it is stated, fails: the cleaned output of
    [sentinel_drop_world] starts with the sentinel prefix and holds a table
    drop; the filter matches it, but [generate_sql] raises the
    ambiguous-query error and not the unsafe-operation error. *)
Lemma sentinel_precedes_filter :
  is_dangerous_sql (clean_sql_query (sim_completion sentinel_drop_world)) = true
  /\ (@generate_sql sim driver question [] (Some 0) sentinel_drop_world).1
     = Raise (AmbiguousQuery (txt "drop table t"))
  /\ (@generate_sql sim driver question [] (Some 0) sentinel_drop_world).1
     <> Raise UnsafeOperation.
Proof. split; [|split]; vm_compute; [reflexivity|reflexivity|discriminate]. Qed.

Lemma filter_rejects_destructive_witness :
  (@generate_sql sim driver question [] (Some 0) unsafe_world
   = (Raise UnsafeOperation, unsafe_world)
   <-> destructive (lower (clean_sql_query (txt "UPDATE users SET active=0"))))
  /\ @generate_sql sim driver question [] (Some 0) unsafe_world
     = (Raise UnsafeOperation, unsafe_world).
Proof.
  split.
  - refine (proj1 (proj2
      (@filter_rejects_destructive sim driver question [] 0
         unsafe_world unsafe_world unsafe_world unsafe_world
         (match (@get_enhanced_database_structure sim driver 0 unsafe_world).1
          with Ok s => s | Raise _ => StructureFailed end)
         (txt "UPDATE users SET active=0") _ _ _ _ _ _ _)));
      vm_compute; try reflexivity; discriminate.
  - vm_compute. reflexivity.
Defined.

(** ** The schema inspector *)

Lemma startswith_app (n b : text) : startswith n (n ++ b) = true.
Proof.
  induction n as [|c n IH]; simpl; [done|].
  unfold eqc. by rewrite Ascii.eqb_refl.
Qed.

Lemma occurrences_eq (n s : text) :
  occurrences n s
  = (if startswith n s then 1 else 0)
    + match s with [] => 0 | _ :: s' => occurrences n s' end.
Proof. by destruct s. Qed.

Lemma occurrences_app_ge (n a b : text) : 1 <= occurrences n (a ++ n ++ b).
Proof.
  induction a as [|c a IH].
  - simpl. rewrite occurrences_eq, startswith_app. lia.
  - simpl app. rewrite occurrences_eq. lia.
Qed.

Lemma occurrences_two (n : text) (a a' b b' : text) :
  a ++ n ++ b = a' ++ n ++ b' -> a <> a' -> 2 <= occurrences n (a ++ n ++ b).
Proof.
  revert a'. induction a as [|c a IH]; intros a' E Hne.
  - destruct a' as [|c' a']; [done|]. simpl in E. simpl app.
    rewrite occurrences_eq, startswith_app. rewrite E.
    pose proof (occurrences_app_ge n a' b'). lia.
  - destruct a' as [|c' a'].
    + simpl in E. rewrite occurrences_eq.
      rewrite E at 1. rewrite startswith_app. simpl app.
      pose proof (occurrences_app_ge n a b). lia.
    + simpl in E. injection E as -> E.
      assert (Hne' : a <> a') by congruence.
      specialize (IH a' E Hne'). simpl app. rewrite occurrences_eq. lia.
Qed.

Lemma occurrences_unique (n s a a' b b' : text) :
  occurrences n s = 1 -> s = a ++ n ++ b -> s = a' ++ n ++ b' -> a = a'.
Proof.
  intros Ho E E'. destruct (decide (a = a')) as [|Hne]; [done|].
  subst s. pose proof (occurrences_two n a a' b b' E' Hne). lia.
Qed.

Lemma split_at_backtick (x y u v : text) :
  forallb not_backtick x = true -> forallb not_backtick y = true ->
  x ++ "`"%char :: u = y ++ "`"%char :: v -> x = y /\ u = v.
Proof.
  revert y. induction x as [|c x IH]; intros y Hx Hy E.
  - destruct y as [|d y]; simpl in *.
    + by injection E.
    + injection E as <- _. by apply andb_true_iff in Hy as [? _].
  - destruct y as [|d y]; simpl in *.
    + injection E as -> _. by apply andb_true_iff in Hx as [? _].
    + injection E as -> E.
      apply andb_true_iff in Hx as [_ Hx]. apply andb_true_iff in Hy as [_ Hy].
      destruct (IH y Hx Hy E) as [-> ->]. done.
Qed.

Lemma matches_pk (p : option ascii) (s : text) (b : pos) :
  matches pk_pattern (p, s) b ->
  exists g rest,
    s = txt "PRIMARY KEY (`" ++ g ++ txt "`)" ++ rest
    /\ g <> [] /\ forallb not_backtick g = true.
Proof.
  unfold pk_pattern. intros Hm.
  apply matches_cats_cons in Hm as [[q1 s1] [Hl Hm]].
  apply matches_cats_cons in Hm as [[q2 s2] [Hg Hm]].
  apply matches_cats_cons in Hm as [[q3 s3] [Hl2 _]].
  apply matches_Lit in Hl as [-> _]. simpl snd in *.
  apply matches_Grp, matches_Plus in Hg as [g [-> [Hne [Hall _]]]].
  simpl snd in *.
  apply matches_Lit in Hl2 as [-> _].
  by exists g, s3.
Qed.

(** The pattern finds no primary key in a statement that declares a
    composite one. *)
Lemma search_pk_composite (create_table : text) :
  declares_composite_key create_table ->
  search pk_pattern create_table = None.
Proof.
  intros [pre [cols [post [E [Hlen [Hcols Hocc]]]]]].
  destruct (search pk_pattern create_table) as [m|] eqn:Es; [|done].
  exfalso.
  assert (Hs : is_Some (search pk_pattern create_table)) by (by rewrite Es).
  apply search_from_matches in Hs as [a [rest [b [E' Hm]]]].
  apply matches_pk in Hm as [g [r [-> [Hne Hg]]]].
  destruct cols as [|c1 [|c2 cols]]; [simpl in Hlen; lia|simpl in Hlen; lia|].
  apply Forall_cons in Hcols as [[_ Hc1] _].
  unfold key_statement, column_list in E.
  assert (E2 : create_table
               = pre ++ txt "PRIMARY KEY (`"
                 ++ (c1 ++ txt "`,"
                     ++ join (txt ",") (map (fun c => txt "`" ++ c ++ txt "`")
                                            (c2 :: cols))
                     ++ txt ")" ++ post)).
  { rewrite E. cbn [map join]. rewrite <- !app_assoc. reflexivity. }
  assert (a = pre) as -> by (by apply (occurrences_unique _ _ _ _ _ _ Hocc E' E2)).
  rewrite E' in E2. apply app_inv_head in E2.
  apply app_inv_head in E2.
  change (txt "`)" ++ r) with ("`"%char :: ")"%char :: r) in E2.
  change (txt "`," ++ ?x) with ("`"%char :: ","%char :: x) in E2.
  apply split_at_backtick in E2 as [_ E2]; [|done|done].
  discriminate E2.
Qed.

Lemma extract_primary_key_composite (create_table : text) :
  declares_composite_key create_table ->
  extract_primary_key create_table = None.
Proof.
  intros Hd. unfold extract_primary_key. by rewrite search_pk_composite.
Qed.

(** The diagnostics name every table whose primary key is absent. *)
Lemma analysis_reports_missing_key (info : db_info) (t : table_info) :
  In t (tables info) -> lacks_primary_key t = true ->
  reported_without_key (t_name t) (analyze_database_schema info).
Proof.
  intros Hin Hl. unfold reported_without_key, analyze_database_schema.
  cbn [potential_issues].
  assert (Hn : In (t_name t) (map t_name (List.filter lacks_primary_key (tables info)))).
  { apply in_map. apply filter_In. done. }
  destruct (map t_name (List.filter lacks_primary_key (tables info)))
    as [|n ns] eqn:En; [done|].
  exists (n :: ns). split; [|done]. apply in_app_iff. left. by left.
Qed.

Lemma text_eqb_eq (a b : text) : text_eqb a b = true <-> a = b.
Proof. unfold text_eqb. rewrite bool_decide_eq_true. done. Qed.

Lemma text_eqb_refl (a : text) : text_eqb a a = true.
Proof. by apply text_eqb_eq. Qed.

Lemma text_eqb_neq (a b : text) : text_eqb a b = false <-> a ≠ b.
Proof. unfold text_eqb. rewrite bool_decide_eq_false. done. Qed.

Lemma incr_keys (k : text) (d : list (text * nat)) (t : text) :
  In t (map fst (incr k d)) <-> t = k \/ In t (map fst d).
Proof.
  induction d as [|[k' n] d IH]; simpl.
  - intuition.
  - destruct (text_eqb k' k) eqn:E; simpl.
    + apply text_eqb_eq in E. subst. intuition.
    + rewrite IH. intuition.
Qed.

Lemma incr_nodup (k : text) (d : list (text * nat)) :
  NoDup (map fst d) -> NoDup (map fst (incr k d)).
Proof.
  induction d as [|[k' n] d IH]; simpl; intros Hd.
  - repeat constructor. by intros ?%elem_of_nil.
  - apply NoDup_cons in Hd as [Hn Hd].
    destruct (text_eqb k' k) eqn:E; simpl.
    + apply NoDup_cons. done.
    + apply NoDup_cons. split; [|by apply IH].
      rewrite list_elem_of_In, incr_keys. rewrite list_elem_of_In in Hn.
      apply text_eqb_neq in E. intros [->|?]; done.
Qed.

Lemma incr_In (k : text) (d : list (text * nat)) (t : text) (n : nat) :
  NoDup (map fst d) ->
  In (t, n) (incr k d) <->
  (t ≠ k /\ In (t, n) d)
  \/ (t = k /\ ((exists m, In (k, m) d /\ n = S m)
                \/ (~ In k (map fst d) /\ n = 1))).
Proof.
  induction d as [|[k' m] d IH]; simpl; intros Hd.
  - split.
    + intros [[= <- <-]|[]]. right. split; [done|]. right. tauto.
    + intros [[_ []]|[-> [[m [[] _]]|[_ ->]]]]. by left.
  - apply NoDup_cons in Hd as [Hn Hd]. rewrite list_elem_of_In in Hn.
    destruct (text_eqb k' k) eqn:E; simpl.
    + apply text_eqb_eq in E. subst k'. split.
      * intros [[= <- <-]|Hin].
        -- right. split; [done|]. left. exists m. by split; [left|].
        -- left. split; [|by right]. intros ->. apply Hn.
           apply in_map_iff. by exists (k, n).
      * intros [[Hne [[= -> ->]|Hin]]|[-> [[m' [[[= ->]|Hin] ->]]|[Hnot ->]]]].
        -- done.
        -- by right.
        -- by left.
        -- exfalso. apply Hn. apply in_map_iff. by exists (k, m').
        -- exfalso. apply Hnot. by left.
    + apply text_eqb_neq in E. rewrite (IH Hd). split.
      * intros [[= <- <-]|[[Hne Hin]|[-> [[m' [Hin ->]]|[Hnot ->]]]]].
        -- left. split; [done|by left].
        -- left. split; [done|by right].
        -- right. split; [done|]. left. exists m'. split; [by right|done].
        -- right. split; [done|]. right. split; [|done].
           intros [?|?]; done.
      * intros [[Hne [[= -> ->]|Hin]]|[-> [[m' [[[= -> ->]|Hin] ->]]|[Hnot ->]]]].
        -- by left.
        -- right. left. done.
        -- done.
        -- right. right. split; [done|]. left. by exists m'.
        -- right. right. split; [done|]. right. split; [|done]. tauto.
Qed.

Lemma counts_incr (d : list (text * nat)) (seen : list text) (k : text) :
  counts d seen -> counts (incr k d) (seen ++ [k]).
Proof.
  intros [Hd Hc]. split; [by apply incr_nodup|].
  intros t n. rewrite (incr_In _ _ _ _ Hd).
  rewrite List.filter_app, length_app. simpl.
  assert (Hk : forall t', In t' (map fst d) <-> 0 < length (List.filter (text_eqb t') seen)).
  { intros t'. rewrite in_map_iff. split.
    - intros [[t'' m] [<- Hin]]. apply Hc in Hin. simpl. lia.
    - intros Hpos. exists (t', length (List.filter (text_eqb t') seen)).
      split; [done|]. apply Hc. done. }
  destruct (text_eqb t k) eqn:E.
  - apply text_eqb_eq in E. subst t. simpl. split.
    + intros [[? _]|[_ [[m [Hin ->]]|[Hnot ->]]]]; [done| |].
      * apply Hc in Hin as [-> ?]. lia.
      * rewrite Hk in Hnot. lia.
    + intros [-> _]. right. split; [done|].
      destruct (length (List.filter (text_eqb k) seen)) as [|m] eqn:El.
      * right. split; [|done]. rewrite Hk. lia.
      * left. exists (S m). split; [|lia]. apply Hc. lia.
  - apply text_eqb_neq in E. simpl. rewrite Nat.add_0_r, Hc. split.
    + intros [[_ ?]|[? _]]; done.
    + intros ?. by left.
Qed.

Lemma references_count_counts (rels : list relationship) :
  counts (references_count rels) (map to_table rels).
Proof.
  unfold references_count.
  assert (G : forall d seen, counts d seen ->
            counts (fold_left (fun d rel => incr (to_table rel) d) rels d)
                   (seen ++ map to_table rels)).
  { induction rels as [|rel rels IH]; intros d seen Hc; simpl.
    - by rewrite app_nil_r.
    - replace (seen ++ to_table rel :: map to_table rels)
        with ((seen ++ [to_table rel]) ++ map to_table rels)
        by (by rewrite <- app_assoc).
      apply IH. by apply counts_incr. }
  apply (G [] []). split; [constructor|].
  intros t n. simpl. split; [done|lia].
Qed.

Lemma filter_map_length {A B} (f : A -> B) (p : B -> bool) (l : list A) :
  length (List.filter p (map f l)) = length (List.filter (fun x => p (f x)) l).
Proof.
  induction l as [|x l IH]; simpl; [done|].
  destruct (p (f x)); simpl; by rewrite IH.
Qed.

Lemma filter_ext_length {A} (p q : A -> bool) (l : list A) :
  (forall x, p x = q x) -> length (List.filter p l) = length (List.filter q l).
Proof.
  intros E. induction l as [|x l IH]; simpl; [done|].
  rewrite E. destruct (q x); simpl; by rewrite IH.
Qed.

Lemma text_eqb_sym (a b : text) : text_eqb a b = text_eqb b a.
Proof.
  destruct (text_eqb b a) eqn:E.
  - apply text_eqb_eq in E. subst. apply text_eqb_refl.
  - apply text_eqb_neq in E. apply text_eqb_neq. done.
Qed.

Lemma NoDup_map_fst_filter {A B} (p : A * B -> bool) (l : list (A * B)) :
  NoDup (map fst l) -> NoDup (map fst (List.filter p l)).
Proof.
  induction l as [|x l IH]; simpl; intros Hd; [done|].
  apply NoDup_cons in Hd as [Hn Hd].
  destruct (p x); simpl; [|by apply IH].
  apply NoDup_cons. split; [|by apply IH].
  intros Hin. apply Hn.
  rewrite list_elem_of_In in *. apply in_map_iff in Hin as [y [E Hy]].
  apply filter_In in Hy as [Hy _]. apply in_map_iff. by exists y.
Qed.

Lemma center_tables_spec (rels : list relationship) :
  NoDup (center_tables rels)
  /\ forall t, In t (center_tables rels) <-> 1 < edges_to t rels.
Proof.
  destruct (references_count_counts rels) as [Hd Hc].
  split.
  - unfold center_tables. by apply NoDup_map_fst_filter.
  - intros t. unfold center_tables, edges_to.
    rewrite in_map_iff.
    assert (El : length (List.filter (text_eqb t) (map to_table rels))
                 = length (List.filter (fun rel => text_eqb (to_table rel) t) rels)).
    { rewrite filter_map_length. apply filter_ext_length.
      intros x. apply text_eqb_sym. }
    split.
    + intros [[t' n] [<- Hin]]. apply filter_In in Hin as [Hin Hn].
      simpl in *. apply Hc in Hin as [-> _]. apply Nat.ltb_lt in Hn. lia.
    + intros Hlt. exists (t, length (List.filter (text_eqb t) (map to_table rels))).
      split; [done|]. apply filter_In. split.
      * apply Hc. split; [done|lia].
      * simpl. apply Nat.ltb_lt. lia.
Qed.

(** What the diagnostics compute. They give the star/snowflake label
    exactly when the list of the tables that more than one relationship
    edge points to is not empty and three times its length is less than
    the number of tables; that list holds each such table once. The edges
    are counted one by one: two references from the same table, or a
    reference of a table to itself, count like references from two
    tables. *)
Theorem schema_label_by_edge_count (info : db_info) :
  (schema_type (analyze_database_schema info) = StarOrSnowflake
   <-> center_tables (relationships info) <> []
       /\ 3 * length (center_tables (relationships info)) < length (tables info))
  /\ NoDup (center_tables (relationships info))
  /\ (forall t, In t (center_tables (relationships info))
                <-> 1 < edges_to t (relationships info)).
Proof.
  split; [|apply center_tables_spec].
  unfold analyze_database_schema. cbn [schema_type].
  destruct (center_tables (relationships info)) as [|c cs] eqn:Ec.
  - destruct (2 <? length (tables info)); simpl; split; try done; intros [? _]; done.
  - cbn [nonempty andb].
    destruct (2 <? length (tables info)) eqn:E2.
    + destruct (3 * length (c :: cs) <? length (tables info)) eqn:E3.
      * apply Nat.ltb_lt in E3. split; [|done]. intros _. split; [done|lia].
      * apply Nat.ltb_ge in E3. split; [done|]. intros [_ ?]. lia.
    + apply Nat.ltb_ge in E2. split; [done|]. intros [_ Hlt].
      cbn [length] in Hlt. lia.
Qed.

(** C9. The diagnostics take a table for a centre that only one table
    references. The comment of the source says that the centres are the
    tables referenced by several tables; the code counts the references.
    In [chat_schema] one table references [users] twice: no table is
    referenced by more than one other table, and yet [users] is a centre
    and the star/snowflake label is given, against the property that the
    label is given exactly when the tables referenced by more than one
    other table are some, and fewer than a third of the tables. *)
Lemma single_referrer_is_centre :
  center_tables (relationships chat_schema) = [txt "users"]
  /\ schema_type (analyze_database_schema chat_schema) = StarOrSnowflake
  /\ referenced_by_several chat_schema = []
  /\ ~ (schema_type (analyze_database_schema chat_schema) = StarOrSnowflake
        <-> referenced_by_several chat_schema <> []
            /\ 3 * length (referenced_by_several chat_schema)
               < length (tables chat_schema)).
Proof.
  assert (E1 : schema_type (analyze_database_schema chat_schema) = StarOrSnowflake)
    by (vm_compute; reflexivity).
  assert (E2 : referenced_by_several chat_schema = []) by (vm_compute; reflexivity).
  split; [vm_compute; reflexivity|]. split; [done|]. split; [done|].
  rewrite E2. intros [Hf _]. destruct (Hf E1) as [Hne _]. done.
Qed.

Section Inspect.
Context {W : Type} `{Driver W}.

Lemma enhanced_unfold (conn : nat) (w : W) :
  get_enhanced_database_structure conn w
  = match build_snapshot conn w with
    | (Ok s, w1) => (Ok s, w1)
    | (Raise _, w1) => get_database_structure_with_samples conn w1
    end.
Proof.
  unfold get_enhanced_database_structure, try_catch.
  by destruct (build_snapshot conn w) as [[s|e] w1].
Qed.

(** The reduced inspector returns, and never a snapshot. *)
Lemma basic_returns (conn : nat) (w : W) :
  exists s w',
    get_database_structure_with_samples conn w = (Ok s, w')
    /\ (is_reduced_dump s = true \/ s = NoDatabaseSelected
        \/ s = StructureFailed).
Proof.
  unfold get_database_structure_with_samples, try_catch, bind.
  destruct (db_cursor conn w) as [[[]|e] w1]; [|by eauto 10].
  destruct (db_select_database conn w1) as [[[[[|c db]|]|]|e] w2];
    try (by eauto 10).
  destruct (db_show_tables conn (c :: db) w2) as [[names|e] w3]; [|by eauto 10].
  destruct (mapM (dump_one conn) names w3) as [[parts|e] w4]; by eauto 10.
Qed.

Lemma mapM_inspect (conn : nat) (names : list text) :
  forall (w w' : W) (infos : list table_info),
    mapM (inspect_table conn) names w = (Ok infos, w') ->
    Forall (fun t => exists name create_table columns row_count samples,
                       t = make_table_info name create_table columns
                                           row_count samples)
           infos.
Proof.
  induction names as [|name names IH]; intros w w' infos; simpl.
  - intros [= <- _]. constructor.
  - unfold bind at 1.
    destruct (inspect_table conn name w) as [[t|e] w1] eqn:Et; [|done].
    unfold bind at 1.
    destruct (mapM (inspect_table conn) names w1) as [[ts|e] w2] eqn:Em; [|done].
    intros [= <- _]. constructor; [|by apply (IH w1 w2)].
    unfold inspect_table, bind in Et.
    destruct (db_show_create_table conn name w) as [[stmt|e] wa]; [|done].
    destruct (db_describe conn name wa) as [[cols|e] wb]; [|done].
    destruct (try_catch _ _ wb) as [[cnt|e] wc]; [|done].
    destruct (try_catch _ _ wc) as [[samples|e] wd]; [|done].
    injection Et as <- _. by eauto 10.
Qed.

(** A snapshot that the inspector returns carries the diagnostics of its
    own tables and relationships, and each of its tables was made from a
    definition statement. *)
Lemma enhanced_snapshot (conn : nat) (w w' : W) (info : db_info) :
  get_enhanced_database_structure conn w = (Ok (Snapshot info), w') ->
  schema_analysis info = Some (analyze_database_schema info)
  /\ Forall (fun t => exists name create_table columns row_count samples,
                        t = make_table_info name create_table columns
                                            row_count samples)
            (tables info).
Proof.
  rewrite enhanced_unfold.
  destruct (build_snapshot conn w) as [[s|e] w1] eqn:Eb.
  - intros [= -> ->]. unfold build_snapshot, bind in Eb.
    destruct (db_cursor conn w) as [[[]|e] wa]; [|done].
    destruct (db_select_database conn wa) as [[[[[|c db]|]|]|e] wb];
      try done.
    destruct (db_show_tables conn (c :: db) wb) as [[names|e] wc]; [|done].
    destruct (mapM (inspect_table conn) names wc) as [[infos|e] wd] eqn:Em;
      [|done].
    injection Eb as <- _. split; [reflexivity|].
    by apply (mapM_inspect conn names wc wd).
  - intros Hb. destruct (basic_returns conn w1) as [s [w2 [E Hs]]].
    rewrite E in Hb. injection Hb as -> _.
    destruct Hs as [?|[?|?]]; done.
Qed.

(** C8 (as amended). [get_enhanced_database_structure] never raises.
    When building the snapshot fails at any step, it returns what
    [get_database_structure_with_samples] returns from the state then
    reached: the reduced dump when the reduced inspection succeeds, and
    otherwise one of the two fixed messages (no database selected, the
    structure cannot be read); never a snapshot with relationships or
    diagnostics. *)
Theorem enhanced_falls_back (connection : nat) (w : W) :
  (exists s w', get_enhanced_database_structure connection w = (Ok s, w'))
  /\ (forall e w1,
        build_snapshot connection w = (Raise e, w1) ->
        get_enhanced_database_structure connection w
        = get_database_structure_with_samples connection w1
        /\ exists s w',
             get_enhanced_database_structure connection w = (Ok s, w')
             /\ (is_reduced_dump s = true \/ s = NoDatabaseSelected
                 \/ s = StructureFailed)).
Proof.
  split.
  - rewrite enhanced_unfold.
    destruct (build_snapshot connection w) as [[s|e] w1]; [by eauto|].
    destruct (basic_returns connection w1) as [s [w2 [E _]]]. by eauto.
  - intros e w1 Eb. rewrite enhanced_unfold, Eb. split; [done|].
    apply basic_returns.
Qed.

(** C10. For a definition statement that declares a composite primary
    key, the extraction pattern finds no match; the entry that the
    inspector makes of the table records no primary key; and the
    diagnostics of a snapshot that holds this entry report the table as
    lacking a primary key. *)
Theorem composite_key_recorded_absent
    (connection : nat) (w w' : W) (info : db_info)
    (table_name create_table : text) (columns : list column_row)
    (row_count : Z) (samples : list row) :
  declares_composite_key create_table ->
  get_enhanced_database_structure connection w = (Ok (Snapshot info), w') ->
  In (make_table_info table_name create_table columns row_count samples)
     (tables info) ->
  search pk_pattern create_table = None
  /\ t_primary_key (make_table_info table_name create_table columns
                                    row_count samples) = None
  /\ exists a, schema_analysis info = Some a
               /\ reported_without_key table_name a.
Proof.
  intros Hd Hs Hin. split; [by apply search_pk_composite|].
  split; [by apply extract_primary_key_composite|].
  apply enhanced_snapshot in Hs as [-> _]. eexists. split; [done|].
  apply (analysis_reports_missing_key info _ Hin).
  unfold lacks_primary_key. simpl. by rewrite extract_primary_key_composite.
Qed.

End Inspect.

(** C8, as it is stated, fails: when SHOW TABLES fails twice, building the
    snapshot fails and so does the reduced inspection; the result is the
    failure message, not a reduced dump. *)
Lemma fallback_fails_too :
  (exists e w1, @build_snapshot sim driver 0 (flaky 2) = (Raise e, w1))
  /\ (@get_enhanced_database_structure sim driver 0 (flaky 2)).1
     = Ok StructureFailed
  /\ is_reduced_dump StructureFailed = false.
Proof.
  split; [|split; vm_compute; reflexivity].
  eexists _, _. vm_compute. reflexivity.
Qed.

Lemma enhanced_falls_back_witness :
  @get_enhanced_database_structure sim driver 0 (flaky 1)
  = @get_database_structure_with_samples sim driver 0 (flaky 0)
  /\ exists s w',
       @get_enhanced_database_structure sim driver 0 (flaky 1) = (Ok s, w')
       /\ (is_reduced_dump s = true \/ s = NoDatabaseSelected
           \/ s = StructureFailed).
Proof.
  apply (proj2 (@enhanced_falls_back sim driver 0 (flaky 1))
           (DriverError (txt "Lost connection")) (flaky 0)).
  vm_compute. reflexivity.
Defined.

Lemma order_items_declares_composite_key :
  declares_composite_key order_items_statement.
Proof.
  exists (txt "CREATE TABLE `orders` (
  `order_id` int NOT NULL,
  `item_id` int NOT NULL,
  "), [txt "order_id"; txt "item_id"], (txt "
) ENGINE=InnoDB").
  split; [vm_compute; reflexivity|]. split; [simpl; lia|].
  split; [|vm_compute; reflexivity].
  repeat constructor; discriminate.
Defined.

Lemma composite_key_recorded_absent_witness :
  search pk_pattern order_items_statement = None
  /\ t_primary_key (make_table_info (txt "orders") order_items_statement
                      [id_column] 1 [[(txt "count", VInt 3)]]) = None
  /\ exists a,
       schema_analysis
         (make_db_info (txt "shop") 1
            [make_table_info (txt "orders") order_items_statement
               [id_column] 1 [[(txt "count", VInt 3)]]] [])
       = Some a
       /\ reported_without_key (txt "orders") a.
Proof.
  apply (@composite_key_recorded_absent sim driver 0
           (with_statement order_items_statement)
           (with_statement order_items_statement)).
  - exact order_items_declares_composite_key.
  - vm_compute. reflexivity.
  - left. reflexivity.
Defined.

(** ** The conversation histories *)

Lemma last_n_length {A} n (l : list A) : length (last_n n l) = Nat.min n (length l).
Proof. unfold last_n. rewrite length_drop. lia. Qed.

Lemma history_of_insert_eq (sid : text) (l : list turn) (h : gmap text (list turn)) :
  history_of (<[sid := l]> h) sid = l.
Proof. unfold history_of. by rewrite lookup_insert_eq. Qed.

Lemma history_of_insert_ne (sid sid' : text) (l : list turn) (h : gmap text (list turn)) :
  sid ≠ sid' -> history_of (<[sid := l]> h) sid' = history_of h sid'.
Proof. intros. unfold history_of. by rewrite lookup_insert_ne. Qed.

Lemma add_history_same (sid q r : text) (h : gmap text (list turn)) :
  history_of (add_history sid q r h) sid =
  (if 10 <=? length (history_of h sid) then last_n 9 (history_of h sid)
   else history_of h sid) ++ [{| user := q; response := r |}].
Proof.
  unfold add_history.
  rewrite history_of_insert_eq.
  assert (E : history_of (match h !! sid with None => <[sid := []]> h | Some _ => h end) sid
              = history_of h sid).
  { destruct (h !! sid) eqn:E; [done|].
    rewrite history_of_insert_eq. unfold history_of. by rewrite E. }
  rewrite E.
  destruct (10 <=? length (history_of h sid)); [|by rewrite E].
  by rewrite history_of_insert_eq.
Qed.

Lemma add_history_other (sid sid' q r : text) (h : gmap text (list turn)) :
  sid ≠ sid' ->
  history_of (add_history sid q r h) sid' = history_of h sid'.
Proof.
  intros Hne. unfold add_history.
  rewrite history_of_insert_ne by done.
  destruct (10 <=? _).
  - rewrite history_of_insert_ne by done.
    destruct (h !! sid); [done|]. by rewrite history_of_insert_ne.
  - destruct (h !! sid); [done|]. by rewrite history_of_insert_ne.
Qed.

Lemma add_history_bounded (sid q r : text) (h : gmap text (list turn)) :
  (forall s, length (history_of h s) <= 10) ->
  forall s, length (history_of (add_history sid q r h) s) <= 10.
Proof.
  intros Hb s. destruct (decide (sid = s)) as [->|Hne].
  - rewrite add_history_same, length_app.
    specialize (Hb s).
    destruct (10 <=? length (history_of h s)) eqn:E.
    + rewrite last_n_length. cbn [length]. lia.
    + apply Nat.leb_gt in E. cbn [length]. lia.
  - rewrite add_history_other by done. apply Hb.
Qed.

Lemma shell_remember_length (h : list turn) (q r : text) :
  length h <= 10 -> length (shell_remember h q r) <= 10.
Proof.
  intros Hb. unfold shell_remember.
  destruct (10 <? _) eqn:E.
  - rewrite last_n_length. lia.
  - apply Nat.ltb_ge in E. done.
Qed.

Lemma shell_remember_full (h : list turn) (q r : text) :
  length h = 10 ->
  shell_remember h q r = drop 1 h ++ [{| user := q; response := r |}].
Proof.
  intros Hl. unfold shell_remember.
  rewrite length_app. simpl. rewrite Hl. simpl.
  unfold last_n. rewrite length_app, Hl. simpl.
  rewrite drop_app_le by lia. done.
Qed.

Section Hist.
Context {W : Type} `{Driver W}.

Lemma appends_bounded (ops : list (text * text * text)) (st : app_state W) :
  (forall s, length (history_of (conversation_histories st) s) <= 10) ->
  forall s, length (history_of (conversation_histories (appends ops st)) s) <= 10.
Proof.
  revert st. induction ops as [|op ops IH]; intros st Hb s; [apply Hb|].
  simpl. apply IH. intros s'. simpl. by apply add_history_bounded.
Qed.

Lemma shell_appends_bounded (ops : list (text * text)) (h : list turn) :
  length h <= 10 -> length (shell_appends ops h) <= 10.
Proof.
  revert h. induction ops as [|op ops IH]; intros h Hb; [done|].
  simpl. apply IH. by apply shell_remember_length.
Qed.

(** C6. After any sequence of append operations, from the start of the
    process, the history of every session holds at most ten turns, in the
    web application and in the interactive shell alike; and appending to a
    history of ten turns gives the last nine of them, in their order,
    followed by the new turn. *)
Theorem history_bounded_fifo
    (w : W) (ops : list (text * text * text)) (shell_ops : list (text * text))
    (st : app_state W) (session_id user_question sql_query : text)
    (h : list turn) :
  length (history_of (conversation_histories (appends ops (initial w)))
                     session_id) <= 10
  /\ length (shell_appends shell_ops []) <= 10
  /\ (length (history_of (conversation_histories st) session_id) = 10 ->
      history_of (conversation_histories
                    (add_to_conversation_history session_id user_question
                                                 sql_query st).2) session_id
      = drop 1 (history_of (conversation_histories st) session_id)
        ++ [{| user := user_question; response := sql_query |}])
  /\ (length h = 10 ->
      shell_remember h user_question sql_query
      = drop 1 h ++ [{| user := user_question; response := sql_query |}]).
Proof.
  split; [|split; [|split]].
  - apply appends_bounded. intros s. simpl. unfold history_of.
    rewrite lookup_empty. simpl. lia.
  - apply shell_appends_bounded. simpl. lia.
  - intros Hl. simpl. rewrite add_history_same, Hl. simpl.
    unfold last_n. rewrite Hl. done.
  - apply shell_remember_full.
Qed.
End Hist.

Lemma history_bounded_fifo_witness :
  length (history_of (conversation_histories
                        (appends ten_turns (initial (flaky 0)))) session) = 10
  /\ history_of
       (conversation_histories
          (add_to_conversation_history session question (txt "SELECT 2")
             (appends ten_turns (initial (flaky 0)))).2) session
     = drop 1 (history_of (conversation_histories
                             (appends ten_turns (initial (flaky 0)))) session)
       ++ [{| user := question; response := txt "SELECT 2" |}].
Proof.
  split; [vm_compute; reflexivity|].
  apply (proj1 (proj2 (proj2
    (@history_bounded_fifo sim (flaky 0) [] []
       (appends ten_turns (initial (flaky 0))) session question
       (txt "SELECT 2") [])))).
  vm_compute. reflexivity.
Defined.

(** ** The connection pool *)

Section Pool.
Context {W : Type} `{Driver W}.

Lemma pooled_store (st : app_state W) (sid key : text) (h : nat) :
  pooled (store_connection sid key h st) sid key = Some h.
Proof.
  unfold pooled, store_connection. simpl.
  rewrite lookup_insert_eq. simpl. by rewrite lookup_insert_eq.
Qed.

Lemma pooled_store_other (st : app_state W) (sid key sid' key' : text) (h : nat) :
  (sid, key) <> (sid', key') ->
  pooled (store_connection sid key h st) sid' key' = pooled st sid' key'.
Proof.
  intros Hne. unfold pooled, store_connection. simpl.
  destruct (decide (sid = sid')) as [->|Hs].
  - rewrite lookup_insert_eq. simpl.
    rewrite lookup_insert_ne by congruence.
    destruct (active_connections st !! sid'); simpl; [done|].
    by rewrite lookup_empty.
  - by rewrite lookup_insert_ne.
Qed.

Lemma pooled_discard (st : app_state W) (sid key : text) :
  pooled (discard_connection sid key st) sid key = None.
Proof.
  unfold pooled, discard_connection. simpl.
  rewrite lookup_insert_eq. simpl. by rewrite lookup_delete_eq.
Qed.

Lemma pooled_discard_other (st : app_state W) (sid key sid' key' : text) :
  (sid, key) <> (sid', key') ->
  pooled (discard_connection sid key st) sid' key' = pooled st sid' key'.
Proof.
  intros Hne. unfold pooled, discard_connection. simpl.
  destruct (decide (sid = sid')) as [->|Hs].
  - rewrite lookup_insert_eq. simpl.
    rewrite lookup_delete_ne by congruence.
    destruct (active_connections st !! sid'); simpl; [done|].
    by rewrite lookup_empty.
  - by rewrite lookup_insert_ne.
Qed.

Lemma pooled_set_world (w : W) (st : app_state W) (sid key : text) :
  pooled (set_world w st) sid key = pooled st sid key.
Proof. done. Qed.

(** What [create_and_store] does, by the answer of the driver. *)
Lemma create_and_store_spec (sid : text) (c : config) (st : app_state W) :
  match db_connect c (world st) with
  | (Ok _, w) =>
      exists st', create_and_store sid c st = (Ok (next_connection st), st')
        /\ pooled st' sid (connection_key c) = Some (next_connection st)
        /\ next_connection st' = S (next_connection st)
        /\ world st' = w
        /\ (forall sid' key', (sid, connection_key c) <> (sid', key') ->
              pooled st' sid' key' = pooled st sid' key')
  | (Raise e, w) =>
      create_and_store sid c st = (Raise (ConnectFailed e), set_world w st)
  end.
Proof.
  unfold create_and_store, bind, create_connection, modify, ret.
  destruct (db_connect c (world st)) as [[[]|e] w]; [|done].
  eexists. split; [reflexivity|].
  split; [apply pooled_store|]. split; [done|]. split; [done|].
  intros sid' key' Hne. by rewrite pooled_store_other.
Qed.

Lemma get_or_create_alive (sid : text) (c : config) (st : app_state W) (h : nat) :
  pooled st sid (connection_key c) = Some h ->
  db_is_connected h (world st) = true ->
  get_or_create_connection sid c st = (Ok h, st).
Proof.
  intros Hp Ha. unfold get_or_create_connection, bind, gets, ret.
  rewrite Hp. by rewrite Ha.
Qed.

Lemma get_or_create_stale (sid : text) (c : config) (st : app_state W) (h : nat) :
  pooled st sid (connection_key c) = Some h ->
  db_is_connected h (world st) = false ->
  get_or_create_connection sid c st
  = create_and_store sid c (discard_connection sid (connection_key c) st).
Proof.
  intros Hp Ha. unfold get_or_create_connection, bind, gets, modify.
  rewrite Hp. by rewrite Ha.
Qed.

Lemma get_or_create_absent (sid : text) (c : config) (st : app_state W) :
  pooled st sid (connection_key c) = None ->
  get_or_create_connection sid c st = create_and_store sid c st.
Proof.
  intros Hp. unfold get_or_create_connection, bind, gets.
  by rewrite Hp.
Qed.

(** A connection that an acquisition returns is pooled under the key, and
    is older than the next connection object. *)
Lemma get_or_create_returns (sid : text) (c : config) (st st1 : app_state W) (h : nat) :
  pool_wf st ->
  get_or_create_connection sid c st = (Ok h, st1) ->
  pooled st1 sid (connection_key c) = Some h /\ h < next_connection st1.
Proof.
  intros Hwf Hr.
  destruct (pooled st sid (connection_key c)) as [h0|] eqn:Hp.
  - destruct (db_is_connected h0 (world st)) eqn:Ha.
    + rewrite (get_or_create_alive _ _ _ _ Hp Ha) in Hr.
      injection Hr as <- <-. split; [done|]. by apply (Hwf sid (connection_key c)).
    + rewrite (get_or_create_stale _ _ _ _ Hp Ha) in Hr.
      pose proof (create_and_store_spec sid c
                    (discard_connection sid (connection_key c) st)) as Hc.
      destruct (db_connect c _) as [[[]|e] w].
      * destruct Hc as [st' [E [Hp' [Hn _]]]]. rewrite E in Hr.
        injection Hr as <- <-. split; [done|]. rewrite Hn. simpl. lia.
      * rewrite Hc in Hr. done.
  - rewrite (get_or_create_absent _ _ _ Hp) in Hr.
    pose proof (create_and_store_spec sid c st) as Hc.
    destruct (db_connect c _) as [[[]|e] w].
    + destruct Hc as [st' [E [Hp' [Hn _]]]]. rewrite E in Hr.
      injection Hr as <- <-. split; [done|]. rewrite Hn. lia.
    + rewrite Hc in Hr. done.
Qed.

(** Acquisitions keep the pool well formed. *)
Lemma get_or_create_preserves_pool_wf (sid : text) (c : config)
    (st st' : app_state W) (r : outcome nat) :
  pool_wf st ->
  get_or_create_connection sid c st = (r, st') ->
  pool_wf st'.
Proof.
  intros Hwf Hr.
  assert (Hd : pool_wf (discard_connection sid (connection_key c) st)).
  { intros sid' key' h Hp.
    destruct (decide ((sid, connection_key c) = (sid', key'))) as [[= <- <-]|Hne].
    - by rewrite pooled_discard in Hp.
    - rewrite pooled_discard_other in Hp by done. by apply (Hwf sid' key'). }
  assert (Hc : forall st0 r0 st0', pool_wf st0 ->
             create_and_store sid c st0 = (r0, st0') -> pool_wf st0').
  { intros st0 r0 st0' Hwf0 Hr0.
    pose proof (create_and_store_spec sid c st0) as Hs.
    destruct (db_connect c (world st0)) as [[[]|e] w].
    - destruct Hs as [st1 [E [Hp [Hn [_ Ho]]]]]. rewrite E in Hr0.
      injection Hr0 as <- <-. intros sid' key' h Hq.
      destruct (decide ((sid, connection_key c) = (sid', key')))
        as [[= <- <-]|Hne].
      + rewrite Hp in Hq. injection Hq as <-. lia.
      + rewrite Ho in Hq by done. apply Hwf0 in Hq. lia.
    - rewrite Hs in Hr0. injection Hr0 as <- <-. exact Hwf0. }
  destruct (pooled st sid (connection_key c)) as [h0|] eqn:Hp.
  - destruct (db_is_connected h0 (world st)) eqn:Ha.
    + rewrite (get_or_create_alive _ _ _ _ Hp Ha) in Hr. by injection Hr as <- <-.
    + rewrite (get_or_create_stale _ _ _ _ Hp Ha) in Hr. by apply (Hc _ _ _ Hd Hr).
  - rewrite (get_or_create_absent _ _ _ Hp) in Hr. by apply (Hc _ _ _ Hwf Hr).
Qed.

(** C7 (as amended). Let two configs have the same entries in the same
    order once the password is left out. After an acquisition with the
    first has returned a connection, an acquisition with the second for the
    same session returns the same connection, and leaves the pool as it is,
    when the connection answers the liveness check; when it does not, the
    stale entry is discarded and, if a new connection can be created, the
    acquisition returns it: it is another connection than the first, and
    it is stored under the same key. If none can be created the
    acquisition raises and no entry is left under the key. *)
Theorem pooled_connection_reused
    (session_id : text) (config1 config2 : config)
    (st st1 : app_state W) (connection : nat) (w : W) :
  pool_wf st ->
  without_password config1 = without_password config2 ->
  get_or_create_connection session_id config1 st = (Ok connection, st1) ->
  (db_is_connected connection w = true ->
   get_or_create_connection session_id config2 (set_world w st1)
   = (Ok connection, set_world w st1))
  /\ (db_is_connected connection w = false ->
      match db_connect config2 w with
      | (Ok _, _) =>
          exists st2,
            get_or_create_connection session_id config2 (set_world w st1)
            = (Ok (next_connection st1), st2)
            /\ next_connection st1 <> connection
            /\ pooled st2 session_id (connection_key config1)
               = Some (next_connection st1)
      | (Raise e, _) =>
          exists st2,
            get_or_create_connection session_id config2 (set_world w st1)
            = (Raise (ConnectFailed e), st2)
            /\ pooled st2 session_id (connection_key config1) = None
      end).
Proof.
  intros Hwf Hk Hr.
  assert (Ek : connection_key config2 = connection_key config1)
    by (unfold connection_key; by rewrite Hk).
  destruct (get_or_create_returns _ _ _ _ _ Hwf Hr) as [Hp Hlt].
  split; intros Ha.
  - apply get_or_create_alive; [by rewrite Ek|done].
  - rewrite (get_or_create_stale _ _ _ connection); [|by rewrite Ek|done].
    pose proof (create_and_store_spec session_id config2
                  (discard_connection session_id (connection_key config2)
                                      (set_world w st1))) as Hc.
    simpl in Hc.
    destruct (db_connect config2 w) as [[[]|e] w2].
    + destruct Hc as [st2 [E [Hp2 _]]]. exists st2.
      split; [done|]. split; [lia|]. by rewrite <- Ek.
    + eexists. split; [done|]. rewrite <- Ek.
      rewrite pooled_set_world. apply pooled_discard.
Qed.
End Pool.

(** C7, as it is stated, fails: [shop_config] and [shop_config_reordered]
    agree on every field but the password, yet their keys differ, since
    [json.dumps] keeps the order of the entries; the second acquisition
    creates a second connection although the first one is alive. *)
Lemma reordered_config_not_reused :
  agree_except_password shop_config shop_config_reordered
  /\ let r1 := @get_or_create_connection sim driver session shop_config
                 (initial (flaky 0)) in
     let r2 := @get_or_create_connection sim driver session
                 shop_config_reordered r1.2 in
     r1.1 = Ok 0
     /\ @db_is_connected sim driver 0 (world r1.2) = true
     /\ r2.1 = Ok 1.
Proof.
  split.
  - intros k Hk. unfold shop_config, shop_config_reordered. cbn [dict_get].
    destruct (text_eqb (txt "password") k) eqn:E3.
    { apply text_eqb_eq in E3. congruence. }
    destruct (text_eqb (txt "host") k) eqn:E1;
      destruct (text_eqb (txt "port") k) eqn:E2; try reflexivity.
    apply text_eqb_eq in E1. apply text_eqb_eq in E2. subst k.
    vm_compute in E2. discriminate.
  - vm_compute. repeat split; reflexivity.
Qed.

Lemma pool_wf_initial (w : sim) : pool_wf (initial w).
Proof.
  intros sid key h. unfold pooled. simpl. rewrite lookup_empty. discriminate.
Qed.

Lemma pooled_connection_reused_witness :
  @get_or_create_connection sim driver session shop_config_rotated
    (set_world (flaky 0)
       (@get_or_create_connection sim driver session shop_config
          (initial (flaky 0))).2)
  = (Ok 0,
     set_world (flaky 0)
       (@get_or_create_connection sim driver session shop_config
          (initial (flaky 0))).2).
Proof.
  refine (proj1
    (@pooled_connection_reused sim driver session shop_config
       shop_config_rotated (initial (flaky 0))
       (@get_or_create_connection sim driver session shop_config
          (initial (flaky 0))).2
       0 (flaky 0) (pool_wf_initial _) _ _) _);
    vm_compute; reflexivity.
Defined.

(** ** The streaming pipeline *)

Section Stream.
Context {W : Type} `{Driver W}.

Lemma yield_run (e : event) (st : app_state W) (evs : list event) :
  yield e (st, evs) = (Ok tt, (st, evs ++ [e])).
Proof. done. Qed.

Lemma yield_all_run (es : list event) (st : app_state W) (evs : list event) :
  yield_all es (st, evs) = (Ok tt, (st, evs ++ es)).
Proof.
  revert evs. induction es as [|e es IH]; intros evs; simpl.
  - by rewrite app_nil_r.
  - unfold bind. rewrite yield_run, IH. by rewrite <- app_assoc.
Qed.

Lemma in_app_run {A} (m : M (app_state W) A) (st st' : app_state W)
    (evs : list event) (r : outcome A) :
  m st = (r, st') -> in_app m (st, evs) = (r, (st', evs)).
Proof. intros E. unfold in_app. simpl. by rewrite E. Qed.

Lemma in_world_run {A} (m : M W A) (st : app_state W) (w : W) (r : outcome A) :
  m (world st) = (r, w) -> in_world m st = (r, set_world w st).
Proof. intros E. unfold in_world. by rewrite E. Qed.

Lemma get_or_create_executed (sid : text) (c : config) (st st' : app_state W)
    (r : outcome nat) :
  get_or_create_connection sid c st = (r, st') ->
  executed st' = executed st
  /\ conversation_histories st' = conversation_histories st
  /\ next_connection st <= next_connection st' <= S (next_connection st).
Proof.
  unfold get_or_create_connection, create_and_store, create_connection,
    bind, gets, modify, ret.
  destruct (pooled st sid (connection_key c)) as [h|].
  - destruct (db_is_connected h (world st)).
    + intros [= <- <-]. split; [done|]. split; [done|]. lia.
    + simpl. destruct (db_connect c (world st)) as [[[]|e] w];
        intros [= <- <-]; simpl; (split; [done|]; split; [done|]; lia).
  - destruct (db_connect c (world st)) as [[[]|e] w];
      intros [= <- <-]; simpl; (split; [done|]; split; [done|]; lia).
Qed.

(** The explanation never raises: a failure of the backend becomes a
    fallback chunk. *)
Lemma stream_generate_answer_returns (q : text) (rows : list row) (w : W) :
  exists chunks w', stream_generate_answer q rows w = (Ok chunks, w').
Proof.
  unfold stream_generate_answer.
  destruct (llm_get_client w) as [[[]|e] w1]; [|by eauto].
  destruct (llm_stream q rows w1) as [[ds f] w2]. by eauto.
Qed.

(** The outcomes of the [try] block, stage by stage. *)
Lemma generate_body_cases (sid q : text) (hist : list turn) (c : config)
    (st : app_state W) (evs0 : list event) :
  exists (r : outcome unit) (st' : app_state W) (evs : list event),
    generate_body sid q hist c (st, evs0) = (r, (st', evs))
    /\ next_connection st' <= S (next_connection st)
    /\ match r with
       | Ok _ =>
           exists conn st1 sql w2 rows chunks,
             get_or_create_connection sid c st = (Ok conn, st1)
             /\ generate_sql q hist (Some conn) (world st1) = (Ok sql, w2)
             /\ evs = evs0 ++ [EStatus Parsing; ESql sql; EStatus Executing;
                               EStatus Processing; EResults rows;
                               EStatus Explaining]
                      ++ map EAnswerChunk chunks ++ [EStatus Finished; EDone]
             /\ executed st' = executed st ++ [(conn, sql)]
             /\ history_of (conversation_histories st') sid
                = history_of (add_history sid q sql (conversation_histories st)) sid
       | Raise e =>
           (* the connection cannot be acquired *)
           (get_or_create_connection sid c st = (Raise e, st')
            /\ evs = evs0 /\ executed st' = executed st)
           (* the synthesizer fails *)
           \/ (exists conn st1 w2,
                 get_or_create_connection sid c st = (Ok conn, st1)
                 /\ generate_sql q hist (Some conn) (world st1) = (Raise e, w2)
                 /\ st' = set_world w2 st1
                 /\ evs = evs0 ++ [EStatus Parsing]
                 /\ executed st' = executed st)
           (* the cursor, the execution or the fetch fails *)
           \/ (exists conn st1 sql w2 l,
                 get_or_create_connection sid c st = (Ok conn, st1)
                 /\ generate_sql q hist (Some conn) (world st1) = (Ok sql, w2)
                 /\ evs = evs0 ++ [EStatus Parsing; ESql sql; EStatus Executing]
                 /\ executed st' = executed st ++ l
                 /\ (l = [] \/ l = [(conn, sql)]))
           (* the rows cannot be serialized *)
           \/ (exists conn st1 sql w2,
                 get_or_create_connection sid c st = (Ok conn, st1)
                 /\ generate_sql q hist (Some conn) (world st1) = (Ok sql, w2)
                 /\ e = NotSerializable
                 /\ evs = evs0 ++ [EStatus Parsing; ESql sql; EStatus Executing;
                                   EStatus Processing]
                 /\ executed st' = executed st ++ [(conn, sql)])
       end.
Proof.
  unfold generate_body.
  destruct (get_or_create_connection sid c st) as [[conn|e] st1] eqn:E1.
  2:{ exists (Raise e), st1, evs0. split; [|split].
      - erewrite bind_raise; [done|]. by apply in_app_run.
      - by destruct (get_or_create_executed _ _ _ _ _ E1) as [_ [_ [_ ?]]].
      - left. split; [done|]. split; [done|].
        by destruct (get_or_create_executed _ _ _ _ _ E1). }
  destruct (get_or_create_executed _ _ _ _ _ E1) as [Hx1 [Hh1 [_ Hn1]]].
  erewrite bind_ok; [|by apply in_app_run].
  erewrite bind_ok; [|apply yield_run].
  destruct (generate_sql q hist (Some conn) (world st1)) as [[sql|e] w2] eqn:E2.
  2:{ exists (Raise e), (set_world w2 st1), (evs0 ++ [EStatus Parsing]).
      split; [|split; [done|]].
      - erewrite bind_raise; [done|]. apply in_app_run. by apply in_world_run.
      - right. left. exists conn, st1, w2. repeat split; done. }
  erewrite bind_ok; [|apply in_app_run; by apply in_world_run].
  erewrite bind_ok; [|apply yield_run].
  erewrite bind_ok; [|apply yield_run].
  rewrite <- !app_assoc. simpl.
  destruct (db_cursor conn w2) as [[[]|e] w3] eqn:E3.
  2:{ eexists (Raise e), _, _. split.
      - erewrite bind_raise; [done|]. apply in_app_run. by apply in_world_run.
      - split; [exact Hn1|]. right. right. left. exists conn, st1, sql, w2, []. simpl.
        rewrite app_nil_r. repeat split; try done. by left. }
  erewrite bind_ok; [|apply in_app_run; by apply in_world_run].
  destruct (db_execute conn sql w3) as [[b|e] w4] eqn:E4.
  2:{ eexists (Raise e), _, _. split.
      - erewrite bind_raise; [done|]. apply in_app_run.
        unfold execute_query. erewrite bind_ok; [|done]. by apply in_world_run.
      - split; [exact Hn1|]. right. right. left. exists conn, st1, sql, w2, [(conn, sql)]. simpl.
        rewrite Hx1. repeat split; try done. by right. }
  erewrite bind_ok;
    [|apply in_app_run; unfold execute_query; erewrite bind_ok; [|done];
      by apply in_world_run].
  destruct (db_fetchall conn w4) as [[rows|e] w5] eqn:E5.
  2:{ eexists (Raise e), _, _. split.
      - erewrite bind_raise; [done|]. apply in_app_run. by apply in_world_run.
      - split; [exact Hn1|]. right. right. left. exists conn, st1, sql, w2, [(conn, sql)]. simpl.
        rewrite Hx1. repeat split; try done. by right. }
  erewrite bind_ok; [|apply in_app_run; by apply in_world_run].
  erewrite bind_ok; [|apply yield_run].
  rewrite <- !app_assoc. simpl.
  destruct (json_serializable rows) eqn:E6.
  2:{ eexists (Raise NotSerializable), _, _. split.
      - erewrite bind_raise; done.
      - split; [exact Hn1|]. right. right. right. exists conn, st1, sql, w2. simpl.
        rewrite Hx1. repeat split; done. }
  erewrite bind_ok; [|apply yield_run].
  erewrite bind_ok; [|by apply in_app_run].
  erewrite bind_ok; [|apply yield_run].
  rewrite <- !app_assoc. simpl.
  destruct (stream_generate_answer_returns q rows w5) as [chunks [w6 E7]].
  erewrite bind_ok; [|apply in_app_run; by apply in_world_run].
  erewrite bind_ok; [|apply yield_all_run].
  erewrite bind_ok; [|apply yield_run].
  rewrite yield_run. rewrite <- !app_assoc. simpl.
  eexists (Ok tt), _, _. split; [done|]. split; [exact Hn1|].
  exists conn, st1, sql, w2, rows, chunks. simpl.
  rewrite Hx1, Hh1. repeat split; done.
Qed.


Lemma generate_run (sid q : text) (hist : list turn) (c : config)
    (st : app_state W) :
  generate sid q hist c (st, [])
  = match generate_body sid q hist c (st, [EStatus Preparing]) with
    | (Ok a, g) => (Ok a, g)
    | (Raise e, g) => (Raise e, (g.1, g.2 ++ [EError e]))
    end.
Proof.
  unfold generate. erewrite bind_ok; [|apply yield_run].
  change ([] ++ [EStatus Preparing]) with [EStatus Preparing].
  unfold try_catch.
  destruct (generate_body sid q hist c (st, [EStatus Preparing])) as [[a|e] g];
    [done|].
  unfold bind. destruct g as [st' evs]. by rewrite yield_run.
Qed.

(** C4 (as amended). When the generator of the streaming route ends
    without raising, the events it has yielded are, in this order and with
    nothing in between: status(preparing), status(parsing), sql,
    status(executing), status(processing), results, status(explaining),
    the answer chunks (none, one or several), status(done), done. *)
Theorem stream_success_sequence (session_id user_question : text)
    (conversation_history : list turn) (cfg : config)
    (st st' : app_state W) (events : list event) :
  generate session_id user_question conversation_history cfg (st, [])
  = (Ok tt, (st', events)) ->
  exists sql rows chunks,
    events = [EStatus Preparing; EStatus Parsing; ESql sql; EStatus Executing;
              EStatus Processing; EResults rows; EStatus Explaining]
             ++ map EAnswerChunk chunks ++ [EStatus Finished; EDone].
Proof.
  rewrite generate_run.
  destruct (generate_body_cases session_id user_question conversation_history
              cfg st [EStatus Preparing]) as [r [st2 [evs [E [_ Hc]]]]].
  rewrite E. destruct r as [[]|e]; [|done].
  intros [= <- <-].
  destruct Hc as [conn [st1 [sql [w2 [rows [chunks [_ [_ [-> _]]]]]]]]].
  by exists sql, rows, chunks.
Qed.

(** C5 (as amended). When the generator of the streaming route raises,
    which it does when acquiring the connection, synthesizing the query,
    executing it, fetching or serializing the rows fails, the events are
    status(preparing), then statuses and at most the query, then one error
    event, which is the last event and carries the exception that is
    raised; the query has been handed to the driver at most once and at
    most one connection has been created. A failure of the explanation
    backend does not make the generator raise. *)
Theorem stream_failure_single_error (session_id user_question : text)
    (conversation_history : list turn) (cfg : config)
    (st st' : app_state W) (events : list event) (e : exn) :
  generate session_id user_question conversation_history cfg (st, [])
  = (Raise e, (st', events)) ->
  (exists progress,
     events = EStatus Preparing :: progress ++ [EError e]
     /\ forallb is_progress progress = true)
  /\ (exists l, executed st' = executed st ++ l /\ length l <= 1)
  /\ next_connection st' <= S (next_connection st)
  /\ (forall rows w,
        exists chunks w',
          stream_generate_answer user_question rows w = (Ok chunks, w')).
Proof.
  rewrite generate_run.
  destruct (generate_body_cases session_id user_question conversation_history
              cfg st [EStatus Preparing]) as [r [st2 [evs [E [Hn Hc]]]]].
  rewrite E. destruct r as [[]|e']; [done|].
  intros [= <- <- <-]. simpl. split; [|split; [|split; [done|]]].
  - destruct Hc as [[E1 [-> Hx]]
                   |[[conn [st1 [w2 [E1 [E2 [Hst [-> Hx]]]]]]]
                   |[[conn [st1 [sql [w2 [l [E1 [E2 [-> [Hx Hl]]]]]]]]]
                   |[conn [st1 [sql [w2 [E1 [E2 [He [-> Hx]]]]]]]]]]].
    + exists []. split; reflexivity.
    + exists [EStatus Parsing]. split; reflexivity.
    + exists [EStatus Parsing; ESql sql; EStatus Executing]. split; reflexivity.
    + exists [EStatus Parsing; ESql sql; EStatus Executing; EStatus Processing].
      split; reflexivity.
  - destruct Hc as [[E1 [_ Hx]]
                   |[[conn [st1 [w2 [E1 [E2 [Hst [_ Hx]]]]]]]
                   |[[conn [st1 [sql [w2 [l [E1 [E2 [_ [Hx Hl]]]]]]]]]
                   |[conn [st1 [sql [w2 [E1 [E2 [He [_ Hx]]]]]]]]]]].
    + exists []. split; [by rewrite app_nil_r|simpl; lia].
    + exists []. split; [by rewrite app_nil_r|simpl; lia].
    + exists l. split; [done|]. destruct Hl as [->| ->]; simpl; lia.
    + exists [(conn, sql)]. split; [done|]. simpl. lia.
  - apply stream_generate_answer_returns.
Qed.

Lemma generate_body_synthesis_fails (sid q : text) (hist : list turn)
    (c : config) (st st1 : app_state W) (evs0 : list event) (conn : nat)
    (e : exn) (w : W) :
  get_or_create_connection sid c st = (Ok conn, st1) ->
  generate_sql q hist (Some conn) (world st1) = (Raise e, w) ->
  generate_body sid q hist c (st, evs0)
  = (Raise e, (set_world w st1, evs0 ++ [EStatus Parsing])).
Proof.
  intros Hg Hs. unfold generate_body.
  erewrite bind_ok; [|by apply in_app_run].
  erewrite bind_ok; [|apply yield_run].
  erewrite bind_raise; [|apply in_app_run; by apply in_world_run].
  done.
Qed.

Lemma get_conversation_history_run (sid : text) (st : app_state W) :
  exists st',
    get_conversation_history sid st
    = (Ok (history_of (conversation_histories st) sid), st')
    /\ world st' = world st /\ executed st' = executed st.
Proof.
  unfold get_conversation_history, bind, modify, gets, history_of.
  destruct (conversation_histories st !! sid) as [h|] eqn:E.
  - exists st. rewrite E. repeat split; reflexivity.
  - eexists. split.
    + simpl. rewrite lookup_insert_eq. reflexivity.
    + split; reflexivity.
Qed.

Context `{Responder}.

(** C2. When the cleaned output of the backend is the sentinel prefix
    followed by any suffix, [generate_sql] raises the ambiguous-query error
    whose detail is the suffix, stripped of the white space around it. The
    generator of the streaming route then yields status(preparing),
    status(parsing) and the error event, and raises; the synchronous route
    answers with the generation failure; neither hands a statement to the
    driver. *)
Theorem sentinel_stops_pipeline
    (session_id user_question : text) (conversation_history : list turn)
    (cfg : config) (st st1 : app_state W) (connection : nat)
    (w1 w2 w3 : W) (s : structure) (llm_output suffix : text) :
  get_or_create_connection session_id cfg st = (Ok connection, st1) ->
  db_is_connected connection (world st1) = true ->
  llm_get_client (world st1) = (Ok tt, w1) ->
  get_enhanced_database_structure connection w1 = (Ok s, w2) ->
  s <> StructureFailed ->
  llm_complete {| p_structure := s; p_history := conversation_history;
                  p_question := user_question |} w2 = (Ok llm_output, w3) ->
  clean_sql_query llm_output = sentinel_prefix ++ suffix ->
  generate_sql user_question conversation_history (Some connection) (world st1)
  = (Raise (AmbiguousQuery (strip suffix)), w3)
  /\ generate session_id user_question conversation_history cfg (st, [])
     = (Raise (AmbiguousQuery (strip suffix)),
        (set_world w3 st1,
         [EStatus Preparing; EStatus Parsing;
          EError (AmbiguousQuery (strip suffix))]))
  /\ executed (set_world w3 st1) = executed st
  /\ (nonempty cfg = true -> nonempty user_question = true ->
      conversation_history
      = history_of (conversation_histories st) session_id ->
      exists st',
        natural_language_query session_id user_question cfg st
        = (Ok (NlGenerationFailed (AmbiguousQuery (strip suffix))), st')
        /\ executed st' = executed st).
Proof.
  intros Hg Hc Hl Hs Hne Hb Hclean.
  assert (Hgen : generate_sql user_question conversation_history
                   (Some connection) (world st1)
                 = (Raise (AmbiguousQuery (strip suffix)), w3)).
  { rewrite (generate_sql_checks _ _ _ _ _ _ _ _ _ Hc Hl Hs Hne Hb).
    rewrite Hclean. apply check_sql_sentinel. }
  destruct (get_or_create_executed _ _ _ _ _ Hg) as [Hx [Hh _]].
  split; [done|]. split; [|split; [done|]].
  - rewrite generate_run.
    by rewrite (generate_body_synthesis_fails _ _ _ _ _ _ _ _ _ _ Hg Hgen).
  - intros Hn1 Hn2 Hhist. unfold natural_language_query.
    rewrite Hn1, Hn2. cbn [negb orb].
    destruct (get_conversation_history_run session_id st1)
      as [st1' [Eh [Hw' Hx']]].
    exists (set_world w3 st1'). split; [|simpl; congruence].
    unfold try_catch, bind, attempt. rewrite Hg, Eh.
    rewrite Hh, <- Hhist.
    erewrite in_world_run; [|rewrite Hw'; exact Hgen]. done.
Qed.

End Stream.

(** C4, as it is stated, fails: in [silent_world] the backend streams no
    content, the stream ends without failure and holds no answer chunk. *)
Lemma stream_without_answer_chunk :
  (@stream_query sim driver session question shop_config
     (initial silent_world)).1
  = Some ([EStatus Preparing; EStatus Parsing; ESql (txt "SELECT 1");
           EStatus Executing; EStatus Processing;
           EResults [[(txt "count", VInt 3)]];
           EStatus Explaining; EStatus Finished; EDone],
          Ok tt).
Proof. vm_compute. reflexivity. Qed.

Lemma stream_success_sequence_witness :
  exists sql rows chunks,
    (@generate sim driver session question [] shop_config
       (initial (flaky 0), [])).2.2
    = [EStatus Preparing; EStatus Parsing; ESql sql; EStatus Executing;
       EStatus Processing; EResults rows; EStatus Explaining]
      ++ map EAnswerChunk chunks ++ [EStatus Finished; EDone].
Proof.
  apply (@stream_success_sequence sim driver session question [] shop_config
           (initial (flaky 0))
           (@generate sim driver session question [] shop_config
              (initial (flaky 0), [])).2.1).
  vm_compute. reflexivity.
Defined.

(** C5, as it is stated, fails: in [broken_stream] the explanation stage
    fails, and the stream holds no error event and ends with done. *)
Lemma explanation_failure_not_an_error :
  is_Some (sim_stream_failure broken_stream)
  /\ (@generate sim driver session question [] shop_config
        (initial broken_stream, [])).1 = Ok tt
  /\ existsb is_error
       (@generate sim driver session question [] shop_config
          (initial broken_stream, [])).2.2 = false
  /\ last (@generate sim driver session question [] shop_config
             (initial broken_stream, [])).2.2 = Some EDone.
Proof.
  split; [by eexists|]. split; [|split]; vm_compute; reflexivity.
Qed.

Lemma stream_failure_single_error_witness :
  (exists progress,
     (@generate sim driver session question [] shop_config
        (initial sentinel_world, [])).2.2
     = EStatus Preparing :: progress
       ++ [EError (AmbiguousQuery (txt "Ambiguous Query"))]
     /\ forallb is_progress progress = true)
  /\ (exists l,
        executed (@generate sim driver session question [] shop_config
                    (initial sentinel_world, [])).2.1
        = executed (initial sentinel_world) ++ l /\ length l <= 1)
  /\ next_connection (@generate sim driver session question [] shop_config
                        (initial sentinel_world, [])).2.1
     <= S (next_connection (initial sentinel_world))
  /\ (forall rows w,
        exists chunks w',
          @stream_generate_answer sim driver question rows w
          = (Ok chunks, w')).
Proof.
  apply (@stream_failure_single_error sim driver session question []
           shop_config (initial sentinel_world)).
  vm_compute. reflexivity.
Defined.

Lemma sentinel_stops_pipeline_witness :
  @generate_sql sim driver question [] (Some 0) sentinel_world
  = (Raise (AmbiguousQuery (txt "Ambiguous Query")), sentinel_world)
  /\ (@stream_query sim driver session question shop_config
        (initial sentinel_world)).1
     = Some ([EStatus Preparing; EStatus Parsing;
              EError (AmbiguousQuery (txt "Ambiguous Query"))],
             Raise (AmbiguousQuery (txt "Ambiguous Query")))
  /\ executed (@stream_query sim driver session question shop_config
                 (initial sentinel_world)).2 = [].
Proof.
  pose proof
    (@sentinel_stops_pipeline sim driver responder session question []
       shop_config
       (initial sentinel_world)
       (@get_or_create_connection sim driver session shop_config
          (initial sentinel_world)).2
       0 sentinel_world sentinel_world sentinel_world
       (match (@get_enhanced_database_structure sim driver 0 sentinel_world).1
        with Ok s => s | Raise _ => StructureFailed end)
       (txt "ERROR: Ambiguous Query") (txt " Ambiguous Query")) as Hw.
  destruct Hw as [Hgen _];
    [vm_compute; reflexivity|vm_compute; reflexivity|vm_compute; reflexivity
    |vm_compute; reflexivity|vm_compute; discriminate|vm_compute; reflexivity
    |vm_compute; reflexivity|].
  split; [exact Hgen|]. split; vm_compute; reflexivity.
Defined.

(** * Further properties of the program *)

From Stdlib Require Import DecimalZ.

Import Facts.

(** ** The sanitizer, in closed form *)

Lemma sub_replaced (r : regex) (repl s : text) :
  sub r repl s = replaced repl (scan r s).
Proof. done. Qed.

Lemma lstrip_split (s : text) :
  exists ws, s = ws ++ lstrip s /\ forallb is_space ws = true.
Proof.
  induction s as [|c s [ws [E Hws]]]; simpl; [by exists []|].
  destruct (is_space c) eqn:Ec.
  - exists (c :: ws). simpl. rewrite Ec, Hws. by rewrite <- E.
  - by exists [].
Qed.

Lemma lstrip_head (s : text) (c : ascii) :
  head (lstrip s) = Some c -> is_space c = false.
Proof.
  induction s as [|d s IH]; simpl; [done|].
  destruct (is_space d) eqn:Ed; [done|]. simpl. by intros [= <-].
Qed.

Lemma lstrip_length (s : text) : length (lstrip s) <= length s.
Proof.
  destruct (lstrip_split s) as [ws [E _]]. rewrite E at 2.
  rewrite length_app. lia.
Qed.

(** The longest end of a repetition comes first. *)
Lemma star_ends_head (p : option ascii) (s : text) :
  exists q, head (star_ends is_space p s) = Some (q, lstrip s).
Proof.
  revert p. induction s as [|c s IH]; intros p; simpl; [by eauto|].
  destruct (is_space c); [|by eauto].
  destruct (IH (Some c)) as [q E].
  destruct (star_ends is_space (Some c) s) as [|e l]; [done|].
  simpl in *. by eauto.
Qed.

Lemma match_ws_run_space (p : option ascii) (c : ascii) (s : text) :
  is_space c = true ->
  exists e, match_at ws_run p (c :: s) = Some e /\ e.1.2 = lstrip s.
Proof.
  intros Ec. unfold match_at, ws_run, Plus. simpl. rewrite Ec. simpl.
  rewrite app_nil_r.
  destruct (star_ends_head (Some c) s) as [q E].
  destruct (star_ends is_space (Some c) s) as [|e l]; [done|].
  simpl in *. injection E as ->. by eauto.
Qed.

(** Skipping the matched characters leads to the text after the match. *)
Lemma scan_from_skip (r : regex) (a : text) :
  forall (p : option ascii) (b : text),
    exists q, scan_from r (length a) p (a ++ b) = scan_from r 0 q b.
Proof.
  induction a as [|c a IH]; intros p b; simpl; [by eauto|]. apply IH.
Qed.

Lemma squeeze_lstrip (s : text) : squeeze true s = squeeze false (lstrip s).
Proof.
  induction s as [|c s IH]; simpl; [done|].
  destruct (is_space c) eqn:Ec; [done|]. simpl. by rewrite Ec.
Qed.

(** [re.sub(r'\s+', ' ', s)] squeezes every run of white space. *)
Lemma scan_ws_run_squeeze (n : nat) :
  forall (s : text) (p : option ascii),
    length s <= n ->
    replaced (txt " ") (scan_from ws_run 0 p s) = squeeze false s.
Proof.
  induction n as [|n IH]; intros s p Hn.
  - destruct s; [|simpl in Hn; lia]. done.
  - destruct s as [|c s]; [done|]. simpl in Hn.
    cbn [scan_from squeeze].
    destruct (is_space c) eqn:Ec.
    + destruct (match_ws_run_space p c s Ec) as [e [-> Er]].
      rewrite Er. destruct (lstrip_split s) as [ws [Es _]].
      pose proof (lstrip_length s) as Hl.
      replace (length (c :: s) - length (lstrip s))
        with (S (length ws)).
      2:{ simpl. rewrite Es at 1. rewrite length_app. lia. }
      destruct (scan_from_skip ws_run ws (Some c) (lstrip s)) as [q Eq].
      rewrite <- Es in Eq. rewrite Eq.
      change (" "%char :: replaced (txt " ") (scan_from ws_run 0 q (lstrip s))
              = " "%char :: squeeze true s).
      rewrite IH by lia. by rewrite squeeze_lstrip.
    + destruct (match_at ws_run p (c :: s)) as [e|] eqn:Em.
      * apply match_at_Some in Em. unfold ws_run in Em.
        apply matches_Plus in Em as [[|d ws] [E [Hne [Hall _]]]]; [done|].
        simpl in E, Hall. injection E as <- _. by rewrite Ec in Hall.
      * change (c :: replaced (txt " ") (scan_from ws_run 0 (Some c) s)
                = c :: squeeze false s).
        f_equal. apply IH. lia.
Qed.

Lemma sub_ws_run_squeeze (s : text) :
  sub ws_run (txt " ") s = squeeze false s.
Proof. apply (scan_ws_run_squeeze (length s)). lia. Qed.

(** *** Occurrences of a text in a text *)

Lemma occurrences_zero (n s : text) :
  occurrences n s = 0 <-> ~ exists a b, s = a ++ n ++ b.
Proof.
  split.
  - intros Ho [a [b ->]]. pose proof (occurrences_app_ge n a b). lia.
  - intros Hno. induction s as [|c s IH].
    + simpl. destruct (startswith n []) eqn:E; [|done].
      exfalso. apply Hno. exists [], []. destruct n; [done|done].
    + rewrite occurrences_eq. rewrite IH.
      * destruct (startswith n (c :: s)) eqn:E; [|done].
        exfalso. apply Hno. exists [].
        clear -E. revert E. generalize (c :: s). clear.
        induction n as [|a n IH]; intros s E; [by exists s|].
        destruct s as [|d s]; [done|]. simpl in E.
        apply andb_true_iff in E as [Ea E]. apply Ascii.eqb_eq in Ea as ->.
        destruct (IH s E) as [b Hb]. exists b. simpl in *. by rewrite Hb.
      * intros [a [b ->]]. apply Hno. by exists (c :: a), b.
Qed.

Lemma occurrences_suffix (n a b : text) :
  occurrences n (a ++ b) = 0 -> occurrences n b = 0.
Proof.
  rewrite !occurrences_zero. intros Hno [x [y ->]]. apply Hno.
  exists (a ++ x), y. by rewrite <- app_assoc.
Qed.

Lemma occurrences_prefix (n a b : text) :
  occurrences n (a ++ b) = 0 -> occurrences n a = 0.
Proof.
  rewrite !occurrences_zero. intros Hno [x [y ->]]. apply Hno.
  exists x, (y ++ b). by rewrite <- !app_assoc.
Qed.

(** A pair of characters occurs in a text that starts with [c] when it
    occurs in the rest, or [c] and the next character are the pair. *)
Lemma occurrences_pair_cons (x y c : ascii) (t : text) :
  occurrences [x; y] (c :: t) = 0
  <-> occurrences [x; y] t = 0 /\ ~ (c = x /\ head t = Some y).
Proof.
  rewrite (occurrences_eq _ (c :: t)). simpl startswith.
  destruct t as [|d t]; simpl head.
  - rewrite andb_false_r. simpl occurrences. split; [|lia].
    intros _. split; [lia|]. by intros [_ ?].
  - rewrite andb_true_r. unfold eqc.
    destruct (Ascii.eqb x c) eqn:E1; destruct (Ascii.eqb y d) eqn:E2; simpl.
    + apply Ascii.eqb_eq in E1, E2. subst. split; [lia|].
      intros [_ Hno]. exfalso. by apply Hno.
    + apply Ascii.eqb_neq in E2. split; [|intros [? _]; lia].
      intros Ho. split; [lia|]. intros [_ [= ->]]. done.
    + apply Ascii.eqb_neq in E1. split; [|intros [? _]; lia].
      intros Ho. split; [lia|]. intros [-> _]. done.
    + apply Ascii.eqb_neq in E1. split; [|intros [? _]; lia].
      intros Ho. split; [lia|]. intros [-> _]. done.
Qed.

Lemma occurrences_pair_app (x y : ascii) (a b : text) :
  occurrences [x; y] (a ++ b) = 0
  <-> occurrences [x; y] a = 0 /\ occurrences [x; y] b = 0
      /\ ~ (last a = Some x /\ head b = Some y).
Proof.
  induction a as [|c a IH].
  - simpl app. simpl last. split.
    + intros E. split; [done|]. split; [done|]. by intros [? _].
    + by intros [_ [? _]].
  - change ((c :: a) ++ b) with (c :: a ++ b).
    rewrite !occurrences_pair_cons, IH.
    destruct a as [|d a].
    + simpl. split.
      * intros [[_ [Hb _]] Hc]. split; [split; [done|by intros [_ ?]]|].
        split; [done|]. intros [[= ->] Hy]. by apply Hc.
      * intros [_ [Hb Hc]]. split; [split; [done|split; [done|by intros [? _]]]|].
        intros [-> Hy]. by apply Hc.
    + change (last (c :: d :: a)) with (last (d :: a)). simpl head. tauto.
Qed.

(** *** Squeezed text *)

Lemma squeeze_head (b : bool) (s : text) (c : ascii) :
  head (squeeze b s) = Some c ->
  (c = " "%char /\ b = false /\ exists d, head s = Some d /\ is_space d = true)
  \/ (is_space c = false /\ (b = false -> head s = Some c)).
Proof.
  revert b. induction s as [|d s IH]; intros b; simpl; [done|].
  destruct (is_space d) eqn:Ed.
  - destruct b.
    + intros Hh. apply IH in Hh as [[_ [? _]]|[? _]]; [done|]. right. done.
    + simpl. intros [= <-]. left. by eauto.
  - simpl. intros [= <-]. right. done.
Qed.

Lemma squeeze_chars (b : bool) (s : text) (c : ascii) :
  In c (squeeze b s) -> is_space c = false \/ c = " "%char.
Proof.
  revert b. induction s as [|d s IH]; intros b; simpl; [done|].
  destruct (is_space d) eqn:Ed.
  - destruct b; [apply IH|]. intros [<-|Hin]; [by right|by apply IH in Hin].
  - intros [<-|Hin]; [by left|by apply IH in Hin].
Qed.

(** A squeezed text holds no two blanks in a row. *)
Lemma squeeze_no_double (b : bool) (s : text) :
  occurrences (txt "  ") (squeeze b s) = 0.
Proof.
  revert b. induction s as [|d s IH]; intros b; simpl; [done|].
  destruct (is_space d) eqn:Ed.
  - destruct b; [apply IH|].
    apply occurrences_pair_cons. split; [apply IH|].
    intros [_ Hh]. apply squeeze_head in Hh as [[_ [? _]]|[? _]]; [done|done].
  - apply occurrences_pair_cons. split; [apply IH|].
    intros [-> _]. done.
Qed.

(** Squeezing brings in no comment marker. *)
Lemma squeeze_no_marker (b : bool) (s : text) :
  occurrences (txt "--") s = 0 -> occurrences (txt "--") (squeeze b s) = 0.
Proof.
  revert b. induction s as [|d s IH]; intros b; simpl squeeze; [done|].
  intros Ho. apply occurrences_pair_cons in Ho as [Ho Hd].
  destruct (is_space d) eqn:Ed.
  - destruct b; [by apply IH|].
    apply occurrences_pair_cons. split; [by apply IH|]. by intros [? _].
  - apply occurrences_pair_cons. split; [by apply IH|].
    intros [-> Hh]. apply Hd. split; [done|].
    apply squeeze_head in Hh as [[? _]|[_ Hh]]; [done|]. by apply Hh.
Qed.

(** *** Stripped text *)

Lemma rstrip_split (s : text) :
  exists ws, s = rstrip s ++ ws /\ forallb is_space ws = true.
Proof.
  unfold rstrip. destruct (lstrip_split (rev s)) as [ws [E Hws]].
  exists (rev ws). split.
  - rewrite <- rev_app_distr, <- E. by rewrite rev_involutive.
  - apply forallb_forall. intros c Hc. apply in_rev in Hc.
    revert c Hc. by apply forallb_forall.
Qed.

Lemma strip_split (s : text) :
  exists a b, s = a ++ strip s ++ b.
Proof.
  unfold strip. destruct (rstrip_split s) as [b [E _]].
  destruct (lstrip_split (rstrip s)) as [a [E' _]].
  exists a, b. rewrite app_assoc, <- E'. done.
Qed.

Lemma drop_last_split (s : text) : exists b, s = drop_last s ++ b.
Proof.
  unfold drop_last. destruct s as [|c s] using rev_ind; [by exists []|].
  rewrite removelast_last. by eauto.
Qed.

Lemma occurrences_strip (n s : text) :
  occurrences n s = 0 -> occurrences n (strip s) = 0.
Proof.
  destruct (strip_split s) as [a [b E]]. rewrite E at 1.
  intros Ho. by apply occurrences_suffix, occurrences_prefix in Ho.
Qed.

Lemma occurrences_drop_last (n s : text) :
  occurrences n s = 0 -> occurrences n (drop_last s) = 0.
Proof.
  destruct (drop_last_split s) as [b E]. rewrite E at 1.
  apply occurrences_prefix.
Qed.

Lemma last_rev_head (s : text) : last s = head (rev s).
Proof.
  destruct s as [|c s] using rev_ind; [done|].
  rewrite last_snoc, rev_app_distr. done.
Qed.

Lemma lstrip_last (s : text) (c : ascii) :
  last (lstrip s) = Some c -> last s = Some c.
Proof.
  destruct (lstrip_split s) as [ws [E _]]. intros Hl. rewrite E.
  destruct (lstrip s) as [|d t] eqn:El; [done|].
  rewrite last_app. by rewrite Hl.
Qed.

Lemma strip_trimmed (s : text) : trimmed (strip s).
Proof.
  unfold strip. split.
  - apply lstrip_head.
  - intros c Hl. apply lstrip_last in Hl. unfold rstrip in Hl.
    rewrite last_rev_head, rev_involutive in Hl. by apply lstrip_head in Hl.
Qed.

Lemma lstrip_id (s : text) :
  (forall c, head s = Some c -> is_space c = false) -> lstrip s = s.
Proof.
  destruct s as [|c s]; [done|]. simpl. intros Hh. by rewrite (Hh c).
Qed.

Lemma trimmed_strip (s : text) : trimmed s -> strip s = s.
Proof.
  intros [Hh Hl]. unfold strip, rstrip.
  rewrite (lstrip_id (rev s)).
  - rewrite rev_involutive. by apply lstrip_id.
  - intros c. rewrite <- last_rev_head. apply Hl.
Qed.

(** X1. A cleaned text, whatever the raw output: no white space but single
    blanks, none of them at an end or next to another. *)
Theorem clean_sql_query_normal_form (raw : text) :
  (forall c, In c (clean_sql_query raw) -> is_space c = false \/ c = " "%char)
  /\ strip (clean_sql_query raw) = clean_sql_query raw
  /\ occurrences (txt "  ") (clean_sql_query raw) = 0.
Proof.
  split; [apply clean_sql_query_chars|].
  unfold clean_sql_query.
  match goal with |- context [strip (sub ws_run (txt " ") ?x)] => set (body := x) end.
  rewrite sub_ws_run_squeeze.
  destruct (endswith (txt ";") (strip (squeeze false body))); split.
  - apply trimmed_strip, strip_trimmed.
  - apply occurrences_strip, occurrences_drop_last, occurrences_strip,
      squeeze_no_double.
  - apply trimmed_strip, strip_trimmed.
  - apply occurrences_strip, squeeze_no_double.
Qed.

(** *** Lines and comments *)

Lemma startswith_split (n s : text) :
  startswith n s = true <-> exists b, s = n ++ b.
Proof.
  split.
  - revert s. induction n as [|a n IH]; intros s E; [by exists s|].
    destruct s as [|d s]; [done|]. simpl in E.
    apply andb_true_iff in E as [Ea E]. apply Ascii.eqb_eq in Ea as ->.
    destruct (IH s E) as [b ->]. by exists b.
  - intros [b ->]. apply startswith_app.
Qed.

Lemma lstrip_app_spaces (ws t : text) :
  forallb is_space ws = true -> lstrip (ws ++ t) = lstrip t.
Proof.
  induction ws as [|c ws IH]; simpl; [done|].
  intros [Hc Hws]%andb_true_iff. rewrite Hc. by apply IH.
Qed.

(** The lines of [splitlines] hold no line boundary. *)
Lemma splitlines_aux_no_break (n : nat) :
  forall (s cur : text),
    length s <= n ->
    (forall c, In c cur -> is_linebreak c = false) ->
    forall line c, In line (splitlines_aux cur s) -> In c line ->
                   is_linebreak c = false.
Proof.
  induction n as [|n IH]; intros s cur Hn Hcur line c.
  - destruct s; [|simpl in Hn; lia]. simpl.
    destruct cur as [|d cur]; [done|]. intros [<-|[]] Hc.
    apply in_rev in Hc. by apply Hcur.
  - destruct s as [|d s]; simpl.
    + destruct cur as [|d' cur]; [done|]. intros [<-|[]] Hc.
      apply in_rev in Hc. by apply Hcur.
    + simpl in Hn. destruct (is_linebreak d) eqn:Ed.
      * destruct s as [|d' s].
        -- intros [<-|[]] Hc. apply in_rev in Hc. by apply Hcur.
        -- simpl in Hn.
           destruct (eqc d "013" && eqc d' "010").
           ++ intros [<-|Hin] Hc.
              ** apply in_rev in Hc. by apply Hcur.
              ** apply (IH s [] ltac:(lia) ltac:(done) line c Hin Hc).
           ++ intros [<-|Hin] Hc.
              ** apply in_rev in Hc. by apply Hcur.
              ** apply (IH (d' :: s) [] ltac:(simpl; lia) ltac:(done)
                          line c Hin Hc).
      * apply IH; [lia|]. intros c' [<-|Hc']; [done|by apply Hcur].
Qed.

Lemma splitlines_no_newline (s line : text) :
  In line (splitlines s) -> ~ In newline line.
Proof.
  intros Hin Hc.
  pose proof (splitlines_aux_no_break (length s) s [] ltac:(lia) ltac:(done)
                line newline Hin Hc) as E.
  vm_compute in E. done.
Qed.

(** Where the inline-comment pattern matches in a text of one line, and
    that it then matches up to the end. *)
Lemma matches_inline_comment (p : option ascii) (s : text) (b : pos) :
  matches inline_comment (p, s) b
  <-> exists ws dots,
        s = ws ++ txt "--" ++ dots ++ b.2
        /\ forallb is_space ws = true /\ forallb is_dot dots = true
        /\ (b.2 = [] \/ b.2 = [newline])
        /\ b.1 = last_opt p (ws ++ txt "--" ++ dots).
Proof.
  unfold inline_comment.
  rewrite matches_cats_cons. split.
  - intros [[q1 t1] [H1 H2]]. apply matches_cats_cons in H2 as [[q2 t2] [H2 H3]].
    apply matches_cats_cons in H3 as [[q3 t3] [H3 H4]].
    change (matches Eol (q3, t3) b) in H4. simpl in H4, H1, H3.
    destruct H4 as [H4 ->].
    apply star_rel_iff in H1 as [ws [-> [Hws E1]]].
    apply matches_Lit in H2 as [E2 E2']. simpl in *. subst t1.
    apply star_rel_iff in H3 as [dots [-> [Hdots E3]]]. simpl in *.
    exists ws, dots. split; [done|]. split; [done|]. split; [done|].
    split; [done|]. subst. rewrite last_opt_app.
    change ("-"%char :: "-"%char :: dots) with (txt "--" ++ dots).
    by rewrite last_opt_app.
  - intros [ws [dots [-> [Hws [Hdots [Hb Hq]]]]]].
    exists (last_opt p ws, txt "--" ++ dots ++ b.2). split.
    + simpl. apply star_rel_iff. by exists ws.
    + apply matches_cats_cons.
      exists (last_opt (last_opt p ws) (txt "--"), dots ++ b.2). split.
      * by apply matches_Lit.
      * apply matches_cats_cons.
        exists (b.1, b.2). split.
        -- simpl. apply star_rel_iff. exists dots. split; [done|].
           split; [done|]. simpl. rewrite Hq. by rewrite !last_opt_app.
        -- change (matches Eol (b.1, b.2) b). simpl. split; [done|].
           by destruct b.
Qed.

Lemma match_inline_comment (p : option ascii) (s : text) :
  ~ In newline s ->
  if startswith (txt "--") (lstrip s)
  then exists e, match_at inline_comment p s = Some e /\ e.1.2 = []
  else match_at inline_comment p s = None.
Proof.
  intros Hnl. destruct (startswith (txt "--") (lstrip s)) eqn:Es.
  - apply startswith_split in Es as [rest Er].
    destruct (lstrip_split s) as [ws [E Hws]]. rewrite Er in E.
    destruct (match_at inline_comment p s) as [e|] eqn:Em.
    + exists e. split; [done|].
      apply match_at_Some, matches_inline_comment in Em
        as [ws' [dots [E' [_ [_ [Hb _]]]]]]. simpl in Hb.
      destruct Hb as [Hb|Hb]; [done|]. exfalso. apply Hnl.
      rewrite E', Hb. rewrite !in_app_iff. right. right. right. by left.
    + apply match_at_None in Em. exfalso. apply Em.
      exists (last_opt p (ws ++ txt "--" ++ rest), []).
      apply matches_inline_comment. exists ws, rest. simpl.
      rewrite app_nil_r. split; [done|]. split; [done|]. split.
      * apply forallb_is_dot. intros Hin. apply Hnl. rewrite E.
        rewrite !in_app_iff. right. right. done.
      * split; [by left|done].
  - apply match_at_None. intros [b Hb].
    apply matches_inline_comment in Hb as [ws [dots [E [Hws _]]]].
    rewrite E, lstrip_app_spaces in Es by done. done.
Qed.

Lemma match_inline_comment_nil (p : option ascii) :
  match_at inline_comment p [] = None.
Proof. exact (match_inline_comment p [] (fun H => H)). Qed.

(** [re.sub(r'\s*--.*$', '', line)] cuts a line at the white space before
    its first comment marker. *)
Lemma scan_inline_comment (s : text) :
  ~ In newline s ->
  forall p, replaced [] (scan_from inline_comment 0 p s) = cut_comment s.
Proof.
  induction s as [|c s IH]; intros Hnl p.
  - cbn [scan_from cut_comment]. by rewrite match_inline_comment_nil.
  - pose proof (match_inline_comment p (c :: s) Hnl) as Hm.
    cbn [scan_from cut_comment].
    destruct (startswith (txt "--") (lstrip (c :: s))).
    + destruct Hm as [e [-> Ee]]. rewrite Ee.
      change (length (c :: s) - length (@nil ascii)) with (S (length s)).
      cbv iota.
      destruct (scan_from_skip inline_comment s (Some c) []) as [q Eq].
      rewrite app_nil_r in Eq. rewrite Eq.
      cbn [scan_from]. by rewrite match_inline_comment_nil.
    + rewrite Hm.
      change (c :: replaced [] (scan_from inline_comment 0 (Some c) s)
              = c :: cut_comment s).
      f_equal. apply IH. intros Hin. apply Hnl. by right.
Qed.

Lemma cut_comment_head (s : text) (d : ascii) :
  head (cut_comment s) = Some d -> head s = Some d.
Proof.
  destruct s as [|c s]; [done|]. cbn [cut_comment].
  by destruct (startswith (txt "--") (lstrip (c :: s))).
Qed.

Lemma cut_comment_no_marker (s : text) :
  occurrences (txt "--") (cut_comment s) = 0.
Proof.
  induction s as [|c s IH]; [done|]. cbn [cut_comment].
  destruct (startswith (txt "--") (lstrip (c :: s))) eqn:Es; [done|].
  apply occurrences_pair_cons. split; [done|].
  intros [-> Hh]. apply cut_comment_head in Hh.
  destruct s as [|d s]; [done|]. simpl in Hh. injection Hh as ->.
  done.
Qed.

Lemma join_no_marker (ls : list text) :
  (forall l, In l ls -> occurrences (txt "--") l = 0) ->
  occurrences (txt "--") (join (txt " ") ls) = 0.
Proof.
  induction ls as [|l ls IH]; intros Hall; [done|].
  destruct ls as [|l' ls].
  - simpl. apply Hall. by left.
  - change (join (txt " ") (l :: l' :: ls))
      with (l ++ " "%char :: join (txt " ") (l' :: ls)).
    apply occurrences_pair_app. split; [apply Hall; by left|]. split.
    + apply occurrences_pair_cons. split; [|by intros [? _]].
      apply IH. intros x Hx. apply Hall. by right.
    + by intros [_ ?].
Qed.

Lemma clean_line_no_marker (line l : text) :
  ~ In newline line -> In l (clean_line line) ->
  occurrences (txt "--") l = 0.
Proof.
  intros Hnl. unfold clean_line.
  destruct (negb (startswith (txt "--") (strip line)) && nonempty (strip line));
    [|done].
  destruct (nonempty (strip (sub inline_comment [] line))); [|done].
  intros [<-|[]]. rewrite sub_replaced. unfold scan.
  rewrite scan_inline_comment by done. apply cut_comment_no_marker.
Qed.

(** X2. A cleaned text holds no comment marker. *)
Theorem clean_sql_query_no_comment (raw : text) :
  occurrences (txt "--") (clean_sql_query raw) = 0.
Proof.
  unfold clean_sql_query.
  match goal with |- context [strip (sub ws_run (txt " ") ?x)] => set (body := x) end.
  assert (Hbody : occurrences (txt "--") body = 0).
  { apply join_no_marker. intros l Hl.
    apply in_flat_map in Hl as [line [Hline Hl]].
    apply (clean_line_no_marker line); [|done].
    by apply splitlines_no_newline in Hline. }
  rewrite sub_ws_run_squeeze.
  destruct (endswith (txt ";") (strip (squeeze false body))).
  - by apply occurrences_strip, occurrences_drop_last, occurrences_strip,
      squeeze_no_marker.
  - by apply occurrences_strip, squeeze_no_marker.
Qed.

(** *** Statements that are clean already *)

(** A scan in which the pattern matches nowhere keeps every character. *)
Lemma scan_no_match (r : regex) (repl : text) (s : text) :
  forall p,
    (forall a b, s = a ++ b -> match_at r (last_opt p a) b = None) ->
    replaced repl (scan_from r 0 p s) = s.
Proof.
  induction s as [|c s IH]; intros p Hno.
  - pose proof (Hno [] [] eq_refl) as E0. rewrite last_opt_nil in E0.
    cbn [scan_from]. by rewrite E0.
  - pose proof (Hno [] (c :: s) eq_refl) as E0. rewrite last_opt_nil in E0.
    cbn [scan_from]. rewrite E0.
    change (c :: replaced repl (scan_from r 0 (Some c) s) = c :: s).
    f_equal. apply IH. intros a b E.
    specialize (Hno (c :: a) b). rewrite last_opt_cons in Hno.
    apply Hno. by rewrite E.
Qed.

Lemma lit_end_lower (w : text) :
  forall (p : option ascii) (s : text) (b : pos),
    lit_end (fun x c => eqc x (lower_char c)) w p s = Some b ->
    startswith w (lower s) = true.
Proof.
  induction w as [|a w IH]; intros p s b; simpl; [done|].
  destruct s as [|c s]; [done|]. simpl.
  destruct (eqc a (lower_char c)); [|done]. simpl. apply IH.
Qed.

Lemma last_opt_Some (p : option ascii) (c : ascii) (a : text) :
  exists d, last_opt p (c :: a) = Some d.
Proof.
  unfold last_opt. destruct (last (c :: a)) as [d|] eqn:E; [by eauto|].
  by apply last_None in E.
Qed.

Lemma sub_fence_open_id (t : text) :
  startswith (txt "```sql") (lower t) = false ->
  sub fence_open [] t = t.
Proof.
  intros Hs. rewrite sub_replaced. apply scan_no_match.
  intros a b E. apply match_at_None. intros [m Hm].
  unfold fence_open in Hm.
  apply matches_cats_cons in Hm as [m1 [[Hbol ->] Hm]]. simpl in Hbol.
  apply matches_cats_cons in Hm as [m2 [Hm _]].
  destruct a as [|c a].
  - simpl in E. subst b.
    pose proof (lit_end_lower (txt "```sql") _ _ _ Hm) as Hl.
    change (startswith (txt "```sql") (lower t) = true) in Hl.
    congruence.
  - destruct (last_opt_Some None c a) as [d Ed]. congruence.
Qed.

Lemma endswith_app (n a : text) : endswith n (a ++ n) = true.
Proof. unfold endswith. rewrite rev_app_distr. apply startswith_app. Qed.

Lemma sub_fence_close_id (t : text) :
  ~ In newline t -> endswith (txt "```") t = false ->
  sub fence_close [] t = t.
Proof.
  intros Hnl Hs. rewrite sub_replaced. apply scan_no_match.
  intros a b E. apply match_at_None. intros [m Hm].
  unfold fence_close in Hm.
  apply matches_cats_cons in Hm as [[q1 t1] [H1 Hm]].
  apply matches_cats_cons in Hm as [[q2 t2] [H2 H3]].
  change (matches Eol (q2, t2) m) in H3. simpl in H1, H3.
  apply matches_Lit in H2 as [E2 _]. simpl in E2.
  apply star_rel_iff in H1 as [ws [E1 _]]. simpl in E1. subst b t1.
  destruct H3 as [[->| ->] _].
  - rewrite E in Hs. rewrite app_assoc in Hs.
    change ("`"%char :: "`"%char :: "`"%char :: []) with (txt "```") in Hs.
    by rewrite endswith_app in Hs.
  - apply Hnl. rewrite E. rewrite !in_app_iff. right. right. simpl. tauto.
Qed.

Lemma is_linebreak_space (c : ascii) :
  is_linebreak c = true -> is_space c = true /\ c <> " "%char.
Proof.
  destruct c as [[] [] [] [] [] [] [] []]; cbv; (split; congruence).
Qed.

Lemma splitlines_aux_plain (s : text) :
  (forall c, In c s -> is_linebreak c = false) ->
  forall cur,
    splitlines_aux cur s
    = match rev cur ++ s with [] => [] | _ :: _ => [rev cur ++ s] end.
Proof.
  induction s as [|c s IH]; intros Hs cur; simpl.
  - rewrite app_nil_r. destruct cur as [|d cur]; [done|].
    destruct (rev (d :: cur)) eqn:E; [|done].
    apply (f_equal length) in E. rewrite length_rev in E. done.
  - rewrite (Hs c) by (by left).
    rewrite IH by (intros d Hd; apply Hs; by right).
    simpl. rewrite <- app_assoc. simpl. done.
Qed.

Lemma splitlines_plain (c : ascii) (s : text) :
  (forall d, In d (c :: s) -> is_linebreak d = false) ->
  splitlines (c :: s) = [c :: s].
Proof.
  intros Hs. unfold splitlines. by rewrite splitlines_aux_plain.
Qed.

Lemma occurrences_startswith (n s : text) :
  occurrences n s = 0 -> startswith n s = false.
Proof.
  rewrite occurrences_eq. destruct (startswith n s); [lia|done].
Qed.

Lemma cut_comment_id (s : text) :
  occurrences (txt "--") s = 0 -> cut_comment s = s.
Proof.
  induction s as [|c s IH]; [done|]. intros Ho. cbn [cut_comment].
  destruct (lstrip_split (c :: s)) as [ws [E _]].
  assert (Hl : occurrences (txt "--") (lstrip (c :: s)) = 0).
  { rewrite E in Ho. by apply occurrences_suffix in Ho. }
  rewrite (occurrences_startswith _ _ Hl). f_equal. apply IH.
  by apply (occurrences_suffix _ [c]) in Ho.
Qed.

Lemma squeeze_id (s : text) :
  (forall c, In c s -> is_space c = false \/ c = " "%char) ->
  occurrences (txt "  ") s = 0 ->
  squeeze false s = s.
Proof.
  induction s as [|c s IH]; [done|]. intros Hc Ho.
  apply occurrences_pair_cons in Ho as [Ho Hd].
  assert (IH' : squeeze false s = s).
  { apply IH; [|done]. intros d Hd'. apply Hc. by right. }
  simpl. destruct (is_space c) eqn:Ec.
  - destruct (Hc c ltac:(by left)) as [E| ->]; [congruence|].
    f_equal. rewrite squeeze_lstrip, lstrip_id; [done|].
    intros d Hh. destruct (Hc d) as [E| ->]; [|done|].
    + right. destruct s; [done|]. simpl in Hh. injection Hh as ->. by left.
    + exfalso. by apply Hd.
  - by rewrite IH'.
Qed.

(** X3. A statement that is clean already is returned as it is. *)
Theorem clean_sql_query_keeps_plain (t : text) :
  plain_statement t -> clean_sql_query t = t.
Proof.
  intros [Hc [Ht [Hbb [Hm [Hfo [Hfc Hsc]]]]]].
  assert (Hnl : ~ In newline t).
  { intros Hin. by destruct (Hc _ Hin). }
  unfold clean_sql_query.
  rewrite (sub_fence_open_id t Hfo), (trimmed_strip t Ht).
  rewrite (sub_fence_close_id t Hnl Hfc), (trimmed_strip t Ht).
  destruct t as [|c t]; [done|].
  rewrite splitlines_plain.
  2:{ intros d Hd. destruct (is_linebreak d) eqn:Ed; [|done].
      apply is_linebreak_space in Ed as [E1 E2].
      destruct (Hc d Hd); congruence. }
  assert (Hline : clean_line (c :: t) = [c :: t]).
  { unfold clean_line. rewrite (trimmed_strip _ Ht).
    rewrite (occurrences_startswith _ _ Hm). cbn [negb andb nonempty].
    rewrite sub_replaced. unfold scan.
    rewrite scan_inline_comment, cut_comment_id by done.
    by rewrite (trimmed_strip _ Ht). }
  cbn [flat_map]. rewrite Hline. cbn [app join].
  rewrite sub_ws_run_squeeze, squeeze_id, (trimmed_strip _ Ht) by done.
  by rewrite Hsc.
Qed.

Lemma clean_sql_query_keeps_plain_witness :
  clean_sql_query (txt "SELECT id FROM orders WHERE id = 1")
  = txt "SELECT id FROM orders WHERE id = 1".
Proof.
  apply clean_sql_query_keeps_plain.
  split; [|split; [|repeat split; reflexivity]].
  - intros c Hc. simpl in Hc.
    repeat (destruct Hc as [<-|Hc]; [(by left) || (by right)|]). done.
  - split; intros c [= <-]; reflexivity.
Defined.

Import Errors.

(** ** The query synthesizer: what it returns and what it raises *)

Lemma lstrip_spaces (s : text) : forallb is_space s = true -> lstrip s = [].
Proof.
  induction s as [|c s IH]; simpl; [done|].
  intros [Hc Hs]%andb_true_iff. rewrite Hc. by apply IH.
Qed.

Lemma strip_spaces (s : text) : forallb is_space s = true -> strip s = [].
Proof.
  intros Hs. unfold strip, rstrip. rewrite (lstrip_spaces (rev s)); [done|].
  apply forallb_forall. intros c Hc. apply in_rev in Hc.
  revert c Hc. by apply forallb_forall.
Qed.

Lemma clean_sql_query_blank (raw : text) :
  forallb is_space raw = true -> clean_sql_query raw = [].
Proof.
  intros Hs. unfold clean_sql_query.
  rewrite sub_fence_open_id.
  - by rewrite (strip_spaces raw Hs).
  - destruct raw as [|c raw]; [reflexivity|]. simpl in Hs.
    apply andb_true_iff in Hs as [Hc _].
    change (eqc "`" (lower_char c) && startswith (txt "``sql") (lower raw)
            = false).
    assert (E : eqc "`" (lower_char c) = false).
    { revert Hc. clear.
      destruct c as [[] [] [] [] [] [] [] []]; cbv; congruence. }
    by rewrite E.
Qed.

Section Synth2.
Context {W : Type} `{Driver W}.

(** The enhanced inspector returns. *)
Lemma enhanced_returns (conn : nat) (w : W) :
  exists s w', get_enhanced_database_structure conn w = (Ok s, w').
Proof.
  rewrite enhanced_unfold.
  destruct (build_snapshot conn w) as [[s|e] w1]; [by eauto|].
  destruct (basic_returns conn w1) as [s [w2 [E _]]]. by eauto.
Qed.

Lemma check_sql_ok (t sql : text) (w w' : W) :
  check_sql t w = (Ok sql, w') ->
  sql = t /\ w' = w /\ t <> [] /\ startswith sentinel_prefix t = false
  /\ is_dangerous_sql t = false.
Proof.
  unfold check_sql.
  destruct (startswith sentinel_prefix t) eqn:Es.
  - by destruct (split1 ":" t !! 1).
  - destruct t as [|c t]; [done|]. cbn [nonempty negb].
    destruct (is_dangerous_sql (c :: t)); [done|].
    intros [= <- <-]. done.
Qed.

Lemma check_sql_raise (t : text) (e : exn) (w w' : W) :
  check_sql t w = (Raise e, w') ->
  w' = w
  /\ ((exists detail, e = AmbiguousQuery detail
                      /\ startswith sentinel_prefix t = true)
      \/ (e = EmptyGeneration /\ t = [])
      \/ (e = UnsafeOperation /\ is_dangerous_sql t = true)).
Proof.
  destruct (startswith sentinel_prefix t) eqn:Es.
  - pose proof Es as Es'. apply startswith_split in Es as [b ->].
    rewrite check_sql_sentinel. intros [= <- <-]. split; [done|].
    left. by eauto.
  - unfold check_sql. rewrite Es. destruct t as [|c t]; cbn [nonempty negb].
    + intros [= <- <-]. split; [done|]. right. by left.
    + destruct (is_dangerous_sql (c :: t)) eqn:Ed; [|done].
      intros [= <- <-]. split; [done|]. right. by right.
Qed.


(** The outcomes of [generate_sql], stage by stage. *)
Lemma generate_sql_cases (q : text) (hist : list turn) (c : option nat)
    (w : W) :
  exists (r : outcome text) (w' : W),
    generate_sql q hist c w = (r, w')
    /\ match r with
       | Ok sql =>
           exists conn raw,
             c = Some conn /\ db_is_connected conn w = true
             /\ check_sql (clean_sql_query raw) w' = (Ok sql, w')
       | Raise e =>
           (e = ConnectionRequired /\ w' = w
            /\ (c = None
                \/ exists conn, c = Some conn
                                /\ db_is_connected conn w = false))
           \/ (exists cause, e = ClientInitFailed cause)
           \/ e = SchemaUnavailable
           \/ (exists cause, e = GenerationBackendError cause)
           \/ (exists raw, check_sql (clean_sql_query raw) w' = (Raise e, w'))
       end.
Proof.
  unfold generate_sql. destruct c as [conn|].
  2:{ exists (Raise ConnectionRequired), w. split; [done|]. left. by eauto. }
  unfold bind at 1. unfold gets at 1.
  destruct (db_is_connected conn w) eqn:Ec; cbn [negb].
  2:{ exists (Raise ConnectionRequired), w. split; [done|]. left.
      split; [done|]. split; [done|]. right. by eauto. }
  destruct (llm_get_client w) as [[[]|e] w1] eqn:E1.
  2:{ exists (Raise (ClientInitFailed e)), w1. split.
      - erewrite bind_raise; [done|]. unfold try_catch. by rewrite E1.
      - right. left. by eauto. }
  erewrite bind_ok; [|unfold try_catch; by rewrite E1].
  destruct (enhanced_returns conn w1) as [s [w2 E2]].
  erewrite bind_ok; [|unfold try_catch; by rewrite E2].
  assert (Hs : s = StructureFailed \/ s <> StructureFailed)
    by (destruct s; (by left) || (by right)).
  destruct Hs as [->|Hs].
  { exists (Raise SchemaUnavailable), w2. split; [done|]. right. right. by left. }
  set (pr := {| p_structure := s; p_history := hist; p_question := q |}).
  destruct (llm_complete pr w2) as [[raw|e] w3] eqn:E3.
  2:{ exists (Raise (GenerationBackendError e)), w3. split.
      - destruct s; try done;
          (erewrite bind_raise; [done|]; unfold try_catch; fold pr;
           by rewrite E3).
      - right. right. right. left. by eauto. }
  destruct (check_sql (clean_sql_query raw) w3) as [[sql|e] w4] eqn:E4.
  - pose proof E4 as E4'. apply check_sql_ok in E4' as [_ [-> _]].
    exists (Ok sql), w3. split.
    + destruct s; try done;
        (erewrite bind_ok; [|unfold try_catch; fold pr; by rewrite E3]); done.
    + by exists conn, raw.
  - pose proof E4 as E4'. apply check_sql_raise in E4' as [-> _].
    exists (Raise e), w3. split.
    + destruct s; try done;
        (erewrite bind_ok; [|unfold try_catch; fold pr; by rewrite E3]); done.
    + right. right. right. right. by exists raw.
Qed.

(** X4. What [generate_sql] returns is a cleaned output of the backend that
    is not empty, does not start with the sentinel prefix and holds no
    destructive operation; and it returns only when it was given a
    connection that is alive. *)
Theorem generated_statement_is_safe (user_question : text)
    (conversation_history : list turn) (connection : option nat)
    (w w' : W) (sql_query : text) :
  generate_sql user_question conversation_history connection w
  = (Ok sql_query, w') ->
  (exists llm_output, sql_query = clean_sql_query llm_output)
  /\ sql_query <> []
  /\ startswith sentinel_prefix sql_query = false
  /\ is_dangerous_sql sql_query = false
  /\ ~ destructive (lower sql_query)
  /\ exists conn, connection = Some conn /\ db_is_connected conn w = true.
Proof.
  intros E.
  destruct (generate_sql_cases user_question conversation_history connection w)
    as [r [w1 [E' Hc]]].
  rewrite E in E'. injection E' as <- <-.
  destruct Hc as [conn [raw [-> [Hconn Hk]]]].
  apply check_sql_ok in Hk as [-> [_ [Hne [Hs Hd]]]].
  split; [by eauto|]. split; [done|]. split; [done|]. split; [done|].
  split; [|by eauto].
  rewrite <- is_dangerous_sql_destructive by apply clean_sql_query_no_newline.
  by rewrite Hd.
Qed.

(** X5. What [generate_sql] raises is one of its own errors, never an
    exception of the driver or of the backend as it came; without a
    connection that is alive it raises before anything is asked of the
    backend or of the database. *)
Theorem generate_sql_raises_own_errors (user_question : text)
    (conversation_history : list turn) (connection : option nat)
    (w w' : W) (e : exn) :
  generate_sql user_question conversation_history connection w
  = (Raise e, w') ->
  synthesis_error e = true
  /\ (e = ConnectionRequired
      <-> connection = None
          \/ exists conn, connection = Some conn
                          /\ db_is_connected conn w = false)
  /\ (e = ConnectionRequired -> w' = w).
Proof.
  intros E.
  destruct (generate_sql_cases user_question conversation_history connection w)
    as [r [w1 [E' Hc]]].
  rewrite E in E'. injection E' as <- <-.
  destruct Hc as [[-> [-> Hc]]|[[cause ->]|[->|[[cause ->]|[raw Hk]]]]].
  - done.
  - split; [done|]. split; [|done]. split; [done|].
    intros Hno. exfalso. revert E. unfold generate_sql.
    destruct Hno as [->|[conn [-> Hd]]]; [done|].
    unfold bind at 1. unfold gets at 1. by rewrite Hd.
  - split; [done|]. split; [|done]. split; [done|].
    intros Hno. exfalso. revert E. unfold generate_sql.
    destruct Hno as [->|[conn [-> Hd]]]; [done|].
    unfold bind at 1. unfold gets at 1. by rewrite Hd.
  - split; [done|]. split; [|done]. split; [done|].
    intros Hno. exfalso. revert E. unfold generate_sql.
    destruct Hno as [->|[conn [-> Hd]]]; [done|].
    unfold bind at 1. unfold gets at 1. by rewrite Hd.
  - apply check_sql_raise in Hk as [_ [[d [-> _]]|[[-> _]|[-> _]]]].
    all: split; [done|]; split; [|done]; split; [done|].
    all: intros Hno; exfalso; revert E; unfold generate_sql.
    all: destruct Hno as [->|[conn [-> Hd]]]; [done|].
    all: unfold bind at 1; unfold gets at 1; by rewrite Hd.
Qed.

(** X6. A backend output of which nothing is left after cleaning, as when it
    is blank, makes [generate_sql] raise the empty-generation error. *)
Theorem blank_output_is_empty_generation (user_question : text)
    (conversation_history : list turn) (connection : nat)
    (w w1 w2 w3 : W) (s : structure) (llm_output : text) :
  db_is_connected connection w = true ->
  llm_get_client w = (Ok tt, w1) ->
  get_enhanced_database_structure connection w1 = (Ok s, w2) ->
  s <> StructureFailed ->
  llm_complete {| p_structure := s; p_history := conversation_history;
                  p_question := user_question |} w2 = (Ok llm_output, w3) ->
  (forallb is_space llm_output = true -> clean_sql_query llm_output = [])
  /\ (clean_sql_query llm_output = [] ->
      generate_sql user_question conversation_history (Some connection) w
      = (Raise EmptyGeneration, w3)).
Proof.
  intros Hc Hl Hs Hne Hb. split; [apply clean_sql_query_blank|].
  intros E. rewrite (generate_sql_checks _ _ _ _ _ _ _ _ _ Hc Hl Hs Hne Hb).
  by rewrite E.
Qed.

(** X7. The two explanation functions never raise and leave the backend in
    the same state. When the backend streams to the end, the answer of
    [generate_answer] is the concatenation of the chunks that
    [stream_generate_answer] yields; when the stream breaks, the first
    returns the failure message alone, the second has yielded the chunks
    received before it; without a client both give the fixed message. *)
Theorem answer_is_concatenation_of_chunks (user_question : text)
    (query_results : list row) (w : W) :
  exists (chunks : list chunk) (answer : chunk) (w' : W),
    stream_generate_answer user_question query_results w = (Ok chunks, w')
    /\ generate_answer user_question query_results w = (Ok answer, w')
    /\ match answer with
       | Delta t =>
           exists ts, chunks = map Delta ts /\ t = concat ts
                      /\ Forall (fun x => x <> []) ts
       | AnswerFailed e =>
           exists ts, chunks = map Delta ts ++ [AnswerFailed e]
       | ClientUnavailable => chunks = [ClientUnavailable]
       | ExplanationSkipped _ => False
       end.
Proof.
  unfold stream_generate_answer, generate_answer.
  destruct (llm_get_client w) as [[[]|e] w1].
  2:{ by exists [ClientUnavailable], ClientUnavailable, w1. }
  destruct (llm_stream user_question query_results w1) as [[ds [e|]] w2].
  - eexists _, (AnswerFailed e), w2. split; [done|]. split; [done|].
    by exists (contents ds).
  - eexists _, (Delta (concat (contents ds))), w2.
    split; [done|]. split; [done|].
    exists (contents ds). rewrite app_nil_r. split; [done|]. split; [done|].
    unfold contents. apply Forall_forall. intros x Hx.
    apply list_elem_of_In, in_flat_map in Hx as [[[|c t]|] [_ Hx]];
      simpl in Hx; try done.
    destruct Hx as [<-|[]]. done.
Qed.

End Synth2.

(** ** The two routes: what they execute and what they remember *)

Section Routes.
Context {W : Type} `{Driver W}.

Lemma generate_sql_ok_safe (q : text) (hist : list turn) (c : option nat)
    (w w' : W) (sql : text) :
  generate_sql q hist c w = (Ok sql, w') ->
  is_dangerous_sql sql = false /\ ~ destructive (lower sql).
Proof.
  intros E.
  destruct (generate_sql_cases q hist c w) as [r [w1 [E' Hc]]].
  rewrite E in E'. injection E' as <- <-.
  destruct Hc as [conn [raw [-> [Hconn Hk]]]].
  apply check_sql_ok in Hk as [-> [_ [Hne [Hs Hd]]]].
  split; [done|].
  rewrite <- is_dangerous_sql_destructive by apply clean_sql_query_no_newline.
  by rewrite Hd.
Qed.

Lemma generate_sql_raises_own (q : text) (hist : list turn) (c : option nat)
    (w w' : W) (e : exn) :
  generate_sql q hist c w = (Raise e, w') -> synthesis_error e = true.
Proof.
  intros E.
  destruct (generate_sql_cases q hist c w) as [r [w1 [E' Hc]]].
  rewrite E in E'. injection E' as <- <-.
  destruct Hc as [[-> _]|[[cause ->]|[->|[[cause ->]|[raw Hk]]]]]; try done.
  by apply check_sql_raise in Hk as [_ [[d [-> _]]|[[-> _]|[-> _]]]].
Qed.

Lemma generate_answer_returns (q : text) (rows : list row) (w : W) :
  exists answer w', generate_answer q rows w = (Ok answer, w').
Proof.
  unfold generate_answer.
  destruct (llm_get_client w) as [[[]|e] w1]; [|by eauto].
  destruct (llm_stream q rows w1) as [[ds f] w2]. by eauto.
Qed.

(** The execution step of the synchronous route hands the statement to
    the driver at most once and leaves the pool and the histories alone. *)
Lemma run_sync_effect (conn : nat) (sql : text) (st st' : app_state W)
    (r : outcome (list row)) :
  run_sync conn sql st = (r, st') ->
  conversation_histories st' = conversation_histories st
  /\ active_connections st' = active_connections st
  /\ next_connection st' = next_connection st
  /\ exists l, executed st' = executed st ++ l
               /\ (l = [] \/ l = [(conn, sql)])
               /\ (is_Some (match r with Ok a => Some a | Raise _ => None end)
                   -> l = [(conn, sql)]).
Proof.
  unfold run_sync, try_catch, bind, execute_query, modify, in_world, ret, raise.
  cbn.
  destruct (db_cursor conn (world st)) as [[[]|e] w1] eqn:E1; cbn.
  2:{ destruct (is_driver_error e); intros [= <- <-]; cbn;
        (repeat split; try done; exists []; rewrite app_nil_r;
         split; [done|]; split; [by left|by intros [? ?]]). }
  destruct (db_execute conn sql w1) as [[b|e] w2] eqn:E2; cbn.
  2:{ destruct (is_driver_error e); intros [= <- <-]; cbn;
        (repeat split; try done; exists [(conn, sql)];
         split; [done|]; split; [by right|done]). }
  destruct b; cbn.
  - destruct (db_fetchall conn w2) as [[rows|e] w3] eqn:E3; cbn.
    + intros [= <- <-]; cbn. repeat split; try done. exists [(conn, sql)].
      split; [done|]. split; [by right|done].
    + destruct (is_driver_error e); intros [= <- <-]; cbn;
        (repeat split; try done; exists [(conn, sql)];
         split; [done|]; split; [by right|done]).
  - destruct (db_commit conn w2) as [[n|e] w3] eqn:E3; cbn.
    + intros [= <- <-]; cbn. repeat split; try done. exists [(conn, sql)].
      split; [done|]. split; [by right|done].
    + destruct (is_driver_error e); intros [= <- <-]; cbn;
        (repeat split; try done; exists [(conn, sql)];
         split; [done|]; split; [by right|done]).
Qed.

Lemma get_conversation_history_effect (sid : text) (st : app_state W) :
  exists st',
    get_conversation_history sid st
    = (Ok (history_of (conversation_histories st) sid), st')
    /\ world st' = world st /\ executed st' = executed st
    /\ active_connections st' = active_connections st
    /\ next_connection st' = next_connection st
    /\ forall s, history_of (conversation_histories st') s
                 = history_of (conversation_histories st) s.
Proof.
  unfold get_conversation_history, bind, modify, gets.
  destruct (conversation_histories st !! sid) as [h|] eqn:E.
  - exists st. repeat split; try reflexivity.
  - exists (set_histories (<[sid:=[]]> (conversation_histories st)) st).
    split; [|repeat split; try reflexivity].
    + cbn. rewrite history_of_insert_eq. unfold history_of. by rewrite E.
    + intros s. cbn. destruct (decide (sid = s)) as [<-|Hne].
      * rewrite history_of_insert_eq. unfold history_of. by rewrite E.
      * by rewrite history_of_insert_ne.
Qed.

Context `{Responder}.

(** The outcomes of the synchronous route, stage by stage. *)
Lemma natural_language_query_cases (sid q : text) (c : config)
    (st : app_state W) :
  exists (resp : nl_response) (st' : app_state W) (l : list (nat * text)),
    natural_language_query sid q c st = (Ok resp, st')
    /\ executed st' = executed st ++ l
    /\ (forall s, s <> sid ->
                  history_of (conversation_histories st') s
                  = history_of (conversation_histories st) s)
    /\ match resp with
       | NlBadRequest =>
           l = [] /\ st' = st /\ (nonempty c = false \/ nonempty q = false)
       | NlConnectionFailed e =>
           l = []
           /\ history_of (conversation_histories st') sid
              = history_of (conversation_histories st) sid
           /\ get_or_create_connection sid c st = (Raise e, st')
       | NlGenerationFailed e =>
           l = []
           /\ history_of (conversation_histories st') sid
              = history_of (conversation_histories st) sid
           /\ synthesis_error e = true
       | NlExecutionFailed e =>
           history_of (conversation_histories st') sid
           = history_of (conversation_histories st) sid
           /\ (l = []
               \/ exists conn sql,
                    l = [(conn, sql)] /\ is_dangerous_sql sql = false
                    /\ ~ destructive (lower sql))
       | NlInternalError e =>
           e = NotSerializable
           /\ exists conn sql rows,
                l = [(conn, sql)]
                /\ is_dangerous_sql sql = false /\ ~ destructive (lower sql)
                /\ jsonify_accepts rows = false
                /\ history_of (conversation_histories st') sid
                   = history_of (add_history sid q sql
                                             (conversation_histories st)) sid
       | NlAnswered sql rows answer =>
           (exists conn, l = [(conn, sql)])
           /\ is_dangerous_sql sql = false /\ ~ destructive (lower sql)
           /\ jsonify_accepts rows = true
           /\ history_of (conversation_histories st') sid
              = history_of (add_history sid q sql (conversation_histories st))
                           sid
       end.
Proof.
  unfold natural_language_query.
  destruct (negb (nonempty c) || negb (nonempty q)) eqn:Hn.
  { exists NlBadRequest, st, []. rewrite app_nil_r.
    split; [done|]. split; [done|]. split; [done|]. split; [done|].
    split; [done|]. apply orb_true_iff in Hn as [Hn|Hn];
      apply negb_true_iff in Hn; by eauto. }
  unfold try_catch, bind, attempt.
  destruct (get_or_create_connection sid c st) as [[conn|e] st1] eqn:E1.
  2:{ destruct (get_or_create_executed _ _ _ _ _ E1) as [Hx1 [Hh1 _]].
      exists (NlConnectionFailed e), st1, []. rewrite app_nil_r.
      split; [done|]. split; [done|]. split; [by rewrite Hh1|].
      split; [done|]. split; [by rewrite Hh1|done]. }
  destruct (get_or_create_executed _ _ _ _ _ E1) as [Hx1 [Hh1 _]].
  destruct (get_conversation_history_effect sid st1)
    as [st2 [E2 [Hw2 [Hx2 [_ [_ Hh2]]]]]].
  rewrite E2. cbv beta iota.
  destruct (generate_sql q (history_of (conversation_histories st1) sid)
              (Some conn) (world st2)) as [[sql|e] w2] eqn:E3.
  2:{ rewrite (in_world_run _ _ _ _ E3). cbv beta iota.
      exists (NlGenerationFailed e), (set_world w2 st2), []. rewrite app_nil_r.
      split; [done|]. split; [cbn; congruence|].
      split; [intros s _; cbn; by rewrite Hh2, Hh1|].
      split; [done|]. split; [cbn; by rewrite Hh2, Hh1|].
      by apply generate_sql_raises_own in E3. }
  rewrite (in_world_run _ _ _ _ E3). cbv beta iota.
  destruct (generate_sql_ok_safe _ _ _ _ _ _ E3) as [Hd Hnd].
  destruct (run_sync conn sql (set_world w2 st2)) as [[rows|e] st3] eqn:E4.
  2:{ destruct (run_sync_effect _ _ _ _ _ E4) as [Hh3 [_ [_ [l [Hx3 [Hl _]]]]]].
      exists (NlExecutionFailed e), st3, l.
      split; [done|]. split; [rewrite Hx3; cbn; congruence|].
      split; [intros s _; rewrite Hh3; cbn; by rewrite Hh2, Hh1|].
      split; [rewrite Hh3; cbn; by rewrite Hh2, Hh1|].
      destruct Hl as [->| ->]; [by left|right]. by exists conn, sql. }
  destruct (run_sync_effect _ _ _ _ _ E4) as [Hh3 [_ [_ [l [Hx3 [_ Hl]]]]]].
  rewrite (Hl ltac:(by eexists)) in Hx3. clear Hl l.
  unfold add_to_conversation_history, modify. cbv beta iota.
  match goal with
  | |- context [in_world (generate_answer q rows) ?s] => set (st4 := s)
  end.
  destruct (generate_answer_returns q rows (world st4)) as [answer [w5 E5]].
  rewrite (in_world_run _ _ _ _ E5). cbv beta iota.
  assert (Hhist : forall s,
            history_of (add_history sid q sql (conversation_histories st3)) s
            = history_of (add_history sid q sql (conversation_histories st)) s).
  { intros s. destruct (decide (sid = s)) as [<-|Hne].
    - rewrite !add_history_same. rewrite Hh3. cbn. by rewrite Hh2, Hh1.
    - rewrite !add_history_other by done. rewrite Hh3. cbn.
      by rewrite Hh2, Hh1. }
  destruct (jsonify_accepts rows) eqn:Ej; unfold ret, raise.
  - exists (NlAnswered sql rows answer), (set_world w5 st4), [(conn, sql)].
    split; [done|]. split; [subst st4; cbn; rewrite Hx3; cbn; congruence|].
    split.
    { intros s Hs. subst st4. cbn. rewrite Hhist.
      by rewrite add_history_other. }
    split; [by eauto|]. split; [done|]. split; [done|]. split; [done|].
    subst st4. cbn. by rewrite Hhist.
  - exists (NlInternalError NotSerializable), (set_world w5 st4),
      [(conn, sql)].
    split; [done|]. split; [subst st4; cbn; rewrite Hx3; cbn; congruence|].
    split.
    { intros s Hs. subst st4. cbn. rewrite Hhist.
      by rewrite add_history_other. }
    split; [done|]. exists conn, sql, rows.
    split; [done|]. split; [done|]. split; [done|]. split; [done|].
    subst st4. cbn. by rewrite Hhist.
Qed.

(** The histories after the [try] block of the generator: the turn is
    added exactly when the block ends without raising, and the results
    event is yielded exactly then. *)
Lemma generate_body_histories (sid q : text) (hist : list turn) (c : config)
    (st : app_state W) (evs0 : list event) :
  exists (r : outcome unit) (st' : app_state W) (evs1 : list event),
    generate_body sid q hist c (st, evs0) = (r, (st', evs0 ++ evs1))
    /\ match r with
       | Ok _ =>
           exists sql rows,
             conversation_histories st'
             = add_history sid q sql (conversation_histories st)
             /\ In (ESql sql) evs1 /\ In (EResults rows) evs1
       | Raise e =>
           conversation_histories st' = conversation_histories st
           /\ forall rows, ~ In (EResults rows) evs1
       end.
Proof.
  unfold generate_body.
  destruct (get_or_create_connection sid c st) as [[conn|e] st1] eqn:E1.
  2:{ exists (Raise e), st1, []. rewrite app_nil_r. split.
      - erewrite bind_raise; [done|]. by apply in_app_run.
      - split; [|by intros rows []].
        by destruct (get_or_create_executed _ _ _ _ _ E1) as [_ [? _]]. }
  destruct (get_or_create_executed _ _ _ _ _ E1) as [Hx1 [Hh1 [_ Hn1]]].
  erewrite bind_ok; [|by apply in_app_run].
  erewrite bind_ok; [|apply yield_run].
  destruct (generate_sql q hist (Some conn) (world st1)) as [[sql|e] w2] eqn:E2.
  2:{ exists (Raise e), (set_world w2 st1), [EStatus Parsing]. split.
      - erewrite bind_raise; [done|]. apply in_app_run. by apply in_world_run.
      - split; [done|]. intros rows [|[]]; done. }
  erewrite bind_ok; [|apply in_app_run; by apply in_world_run].
  erewrite bind_ok; [|apply yield_run].
  erewrite bind_ok; [|apply yield_run].
  rewrite <- !app_assoc. simpl.
  destruct (db_cursor conn w2) as [[[]|e] w3] eqn:E3.
  2:{ eexists (Raise e), _, _. split.
      - erewrite bind_raise; [done|]. apply in_app_run. by apply in_world_run.
      - split; [done|]. intros rows Hin. simpl in Hin.
        by destruct Hin as [|[|[|[]]]]. }
  erewrite bind_ok; [|apply in_app_run; by apply in_world_run].
  destruct (db_execute conn sql w3) as [[b|e] w4] eqn:E4.
  2:{ eexists (Raise e), _, _. split.
      - erewrite bind_raise; [done|]. apply in_app_run.
        unfold execute_query. erewrite bind_ok; [|done]. by apply in_world_run.
      - split; [done|]. intros rows Hin. simpl in Hin.
        by destruct Hin as [|[|[|[]]]]. }
  erewrite bind_ok;
    [|apply in_app_run; unfold execute_query; erewrite bind_ok; [|done];
      by apply in_world_run].
  destruct (db_fetchall conn w4) as [[rows|e] w5] eqn:E5.
  2:{ eexists (Raise e), _, _. split.
      - erewrite bind_raise; [done|]. apply in_app_run. by apply in_world_run.
      - split; [done|]. intros rows Hin. simpl in Hin.
        by destruct Hin as [|[|[|[]]]]. }
  erewrite bind_ok; [|apply in_app_run; by apply in_world_run].
  erewrite bind_ok; [|apply yield_run].
  rewrite <- !app_assoc. simpl.
  destruct (json_serializable rows) eqn:E6.
  2:{ eexists (Raise NotSerializable), _, _. split.
      - erewrite bind_raise; done.
      - split; [done|]. intros rows' Hin. simpl in Hin.
        by destruct Hin as [|[|[|[|[]]]]]. }
  erewrite bind_ok; [|apply yield_run].
  erewrite bind_ok; [|by apply in_app_run].
  erewrite bind_ok; [|apply yield_run].
  rewrite <- !app_assoc. simpl.
  destruct (stream_generate_answer_returns q rows w5) as [chunks [w6 E7]].
  erewrite bind_ok; [|apply in_app_run; by apply in_world_run].
  erewrite bind_ok; [|apply yield_all_run].
  erewrite bind_ok; [|apply yield_run].
  rewrite yield_run. rewrite <- !app_assoc. simpl.
  eexists (Ok tt), _, _. split; [done|].
  exists sql, rows. simpl. rewrite Hh1. split; [done|]. tauto.
Qed.


(** X9. The synchronous route adds the turn of the request to the history of
    its session exactly when the execution of the statement has
    succeeded: when it answers with results, and also when it answers
    with an internal error, since [jsonify] refuses the rows only after
    the turn has been added. A request that fails before, the execution
    included, leaves every history as it was, and no request changes the
    history of another session. *)
Theorem sync_route_remembers_executed (session_id user_question : text)
    (cfg : config) (st : app_state W) :
  exists (response : nl_response) (st' : app_state W),
    natural_language_query session_id user_question cfg st = (Ok response, st')
    /\ (forall s, s <> session_id ->
          history_of (conversation_histories st') s
          = history_of (conversation_histories st) s)
    /\ match response with
       | NlAnswered sql _ _ =>
           history_of (conversation_histories st') session_id
           = history_of (add_history session_id user_question sql
                                     (conversation_histories st)) session_id
       | NlInternalError _ =>
           exists sql,
             history_of (conversation_histories st') session_id
             = history_of (add_history session_id user_question sql
                                       (conversation_histories st)) session_id
       | _ =>
           history_of (conversation_histories st') session_id
           = history_of (conversation_histories st) session_id
       end.
Proof.
  destruct (natural_language_query_cases session_id user_question cfg st)
    as [resp [st' [l [E [_ [Ho Hc]]]]]].
  exists resp, st'. split; [done|]. split; [done|].
  destruct resp as [|e|e|e|e|sql rows answer].
  - by destruct Hc as [_ [-> _]].
  - by destruct Hc as [_ [? _]].
  - by destruct Hc as [_ [? _]].
  - by destruct Hc as [? _].
  - destruct Hc as [_ (conn & sql & rows & _ & _ & _ & _ & Hh)].
    by exists sql.
  - by destruct Hc as [_ [_ [_ [_ ?]]]].
Qed.

(** The outcomes of the streaming route. *)
Lemma stream_query_unfold (sid q : text) (c : config) (st : app_state W) :
  stream_query sid q c st
  = if negb (nonempty c) || negb (nonempty q) then (None, st)
    else
      let st1 := (get_conversation_history sid st).2 in
      let '(r, g) :=
        generate_body sid q (history_of (conversation_histories st) sid) c
                      (st1, [EStatus Preparing]) in
      match r with
      | Ok a => (Some (g.2, Ok a), g.1)
      | Raise e => (Some (g.2 ++ [EError e], Raise e), g.1)
      end.
Proof.
  unfold stream_query.
  destruct (negb (nonempty c) || negb (nonempty q)); [done|].
  destruct (get_conversation_history_effect sid st) as [st1 [E _]].
  rewrite E. cbn [snd]. rewrite generate_run.
  destruct (generate_body _ _ _ _ _) as [[a|e] [st2 evs]]; done.
Qed.

(** X10. The streaming route hands at most one statement to the driver, and
    only one that [generate_sql] has returned: a statement on which the
    filter does not match, and which the stream has shown in its query
    event. *)
Theorem stream_route_runs_checked_statement (session_id user_question : text)
    (cfg : config) (st st' : app_state W)
    (result : option (list event * outcome unit)) :
  stream_query session_id user_question cfg st = (result, st') ->
  exists l : list (nat * text),
    executed st' = executed st ++ l
    /\ length l <= 1
    /\ forall conn sql,
         In (conn, sql) l ->
         is_dangerous_sql sql = false /\ ~ destructive (lower sql)
         /\ exists events r, result = Some (events, r) /\ In (ESql sql) events.
Proof.
  rewrite stream_query_unfold.
  destruct (negb (nonempty cfg) || negb (nonempty user_question)).
  { intros [= <- <-]. exists []. rewrite app_nil_r. repeat split; try done.
    simpl. lia. }
  destruct (get_conversation_history_effect session_id st)
    as [st1 [E1 [Hw1 [Hx1 _]]]].
  rewrite E1. cbn [snd].
  destruct (generate_body_cases session_id user_question
              (history_of (conversation_histories st) session_id) cfg st1
              [EStatus Preparing]) as [r [st2 [evs [E [_ Hc]]]]].
  rewrite E. rewrite <- Hx1. destruct r as [[]|e]; intros [= <- <-]; cbn [fst snd].
  - destruct Hc as [conn [st3 [sql [w2 [rows [chunks [_ [Es [-> [Hx _]]]]]]]]]].
    exists [(conn, sql)]. split; [done|]. split; [simpl; lia|].
    intros conn' sql' [[= <- <-]|[]].
    destruct (generate_sql_ok_safe _ _ _ _ _ _ Es) as [Hd Hn].
    split; [done|]. split; [done|]. eexists _, _. split; [done|].
    simpl. tauto.
  - destruct Hc as [[_ [_ Hx]]
                   |[[conn [st3 [w2 [_ [_ [_ [_ Hx]]]]]]]
                   |[[conn [st3 [sql [w2 [l [_ [Es [-> [Hx Hl]]]]]]]]]
                   |[conn [st3 [sql [w2 [_ [Es [_ [-> Hx]]]]]]]]]]].
    + exists []. rewrite app_nil_r. repeat split; try done. simpl. lia.
    + exists []. rewrite app_nil_r. repeat split; try done. simpl. lia.
    + exists l. split; [done|].
      destruct Hl as [->| ->]; (split; [simpl; lia|]); [done|].
      intros conn' sql' [[= <- <-]|[]].
      destruct (generate_sql_ok_safe _ _ _ _ _ _ Es) as [Hd Hn].
      split; [done|]. split; [done|]. eexists _, _. split; [done|].
      simpl. tauto.
    + exists [(conn, sql)]. split; [done|]. split; [simpl; lia|].
      intros conn' sql' [[= <- <-]|[]].
      destruct (generate_sql_ok_safe _ _ _ _ _ _ Es) as [Hd Hn].
      split; [done|]. split; [done|]. eexists _, _. split; [done|].
      simpl. tauto.
Qed.

(** X11. The streaming route adds the turn of the request to the history of
    its session exactly when the stream ends without an error, which is
    exactly when it has yielded the results event: a failure of the
    explanation does not undo it. A stream that ends with an error leaves
    every history as it was. *)
Theorem stream_route_remembers_delivered (session_id user_question : text)
    (cfg : config) (st st' : app_state W) (events : list event)
    (r : outcome unit) :
  stream_query session_id user_question cfg st = (Some (events, r), st') ->
  (r = Ok tt <-> exists rows, In (EResults rows) events)
  /\ match r with
     | Ok _ =>
         exists sql,
           In (ESql sql) events
           /\ forall s,
                history_of (conversation_histories st') s
                = history_of (add_history session_id user_question sql
                                          (conversation_histories st)) s
     | Raise _ =>
         forall s,
           history_of (conversation_histories st') s
           = history_of (conversation_histories st) s
     end.
Proof.
  rewrite stream_query_unfold.
  destruct (negb (nonempty cfg) || negb (nonempty user_question)); [done|].
  destruct (get_conversation_history_effect session_id st)
    as [st1 [E1 [_ [_ [_ [_ Hh1]]]]]].
  rewrite E1. cbn [snd].
  destruct (generate_body_histories session_id user_question
              (history_of (conversation_histories st) session_id) cfg st1
              [EStatus Preparing]) as [r' [st2 [evs [E Hc]]]].
  rewrite E. destruct r' as [[]|e]; intros [= <- <- <-]; cbn [fst snd].
  - destruct Hc as [sql [rows [Hh [Hs Hr]]]]. split.
    + split; [|done]. intros _. exists rows. simpl. by right.
    + exists sql. split; [simpl; by right|]. intros s. rewrite Hh.
      destruct (decide (session_id = s)) as [<-|Hne].
      * rewrite !add_history_same. by rewrite Hh1.
      * rewrite !add_history_other by done. apply Hh1.
  - destruct Hc as [Hh Hr]. split.
    + split; [done|]. intros [rows Hin]. exfalso.
      change (In (EResults rows) (([EStatus Preparing] ++ evs) ++ [EError e]))
        in Hin.
      rewrite !in_app_iff in Hin. destruct Hin as [[[|[]]|Hin]|[|[]]]; try done.
      by apply (Hr rows).
    + intros s. rewrite Hh. apply Hh1.
Qed.

End Routes.

(** In [blob_world] the rows hold bytes: the synchronous route executes
    the statement, adds the turn to the history, and answers with the
    internal error. *)
Lemma sync_route_error_after_turn :
  (@natural_language_query sim driver responder session question shop_config
     (initial Blobs.blob_world)).1
  = Ok (NlInternalError NotSerializable)
  /\ executed
       (@natural_language_query sim driver responder session question
          shop_config (initial Blobs.blob_world)).2
     = [(0, txt "SELECT data FROM orders")]
  /\ history_of
       (conversation_histories
          (@natural_language_query sim driver responder session question
             shop_config (initial Blobs.blob_world)).2) session
     = [{| user := question; response := txt "SELECT data FROM orders" |}].
Proof. repeat split; vm_compute; reflexivity. Qed.

Import Groups Statements.

(** ** The groups of a match *)

Lemma lit_end_suffix (eq : ascii -> ascii -> bool) (w : text) :
  forall (p : option ascii) (s : text) (b : pos),
    lit_end eq w p s = Some b -> exists u, s = u ++ b.2.
Proof.
  induction w as [|a w IH]; intros p s b; simpl.
  - intros [= <-]. by exists [].
  - destruct s as [|c s]; [done|]. destruct (eq a c); [|done].
    intros Hl. apply IH in Hl as [u ->]. by exists (c :: u).
Qed.

(** A match ends inside the text it started in. *)
Lemma matches_suffix (r : regex) :
  forall a b : pos, matches r a b -> exists u, a.2 = u ++ b.2.
Proof.
  induction r as [w|w|f|f|r1 IH1 r2 IH2|r1 IH1|n r1 IH1| | | |r1 IH1];
    intros [p s] [q t]; simpl.
  - apply lit_end_suffix.
  - apply lit_end_suffix.
  - intros [c [-> _]]. by exists [c].
  - intros Hs. apply star_rel_iff in Hs as [ws [-> _]]. by exists ws.
  - intros [m [H1 H2]]. apply IH1 in H1 as [u1 E1]. apply IH2 in H2 as [u2 E2].
    simpl in *. exists (u1 ++ u2). rewrite E1, E2. by rewrite app_assoc.
  - intros [H1|[= -> ->]]; [by apply IH1 in H1|by exists []].
  - intros H1. by apply IH1 in H1.
  - intros [_ [= -> ->]]. by exists [].
  - intros [_ [= -> ->]]. by exists [].
  - intros [_ [= -> ->]]. by exists [].
  - intros [_ [= -> ->]]. by exists [].
Qed.

Lemma take_app_suffix (u t : text) :
  take (length (u ++ t) - length t) (u ++ t) = u.
Proof.
  rewrite length_app. replace (length u + length t - length t) with (length u) by lia.
  by rewrite take_app_length.
Qed.

(** The groups of a match are put in front of the groups known before;
    each holds a text that its group has read, and the groups that take
    part in every match are among them. *)
Lemma ends_caps (r : regex) :
  forall (p : option ascii) (s : text) (g : caps) (e : cfg),
    In e (ends r p s g) ->
    exists g1,
      e.2 = g1 ++ g
      /\ (forall n w, In (n, w) g1 -> captured r n w)
      /\ (forall n, binds r n = true -> exists w, In (n, w) g1).
Proof.
  induction r as [w|w|f|f|r1 IH1 r2 IH2|r1 IH1|n r1 IH1| | | |r1 IH1];
    intros p s g e; simpl.
  - destruct (lit_end eqc w p s) as [[p' s']|]; [|done].
    intros [<-|[]]. by exists [].
  - destruct (lit_end _ w p s) as [[p' s']|]; [|done].
    intros [<-|[]]. by exists [].
  - destruct s as [|c s]; [done|]. destruct (f c); [|done].
    intros [<-|[]]. by exists [].
  - intros Hin. apply in_map_iff in Hin as [x [<- _]]. by exists [].
  - intros Hin. apply in_flat_map in Hin as [e1 [Hin1 Hin2]].
    apply IH1 in Hin1 as [g1 [E1 [Hc1 Hb1]]].
    apply IH2 in Hin2 as [g2 [E2 [Hc2 Hb2]]].
    exists (g2 ++ g1). split; [by rewrite E2, E1, app_assoc|]. split.
    + intros k w Hin. apply in_app_iff in Hin as [Hin|Hin]; [right|left]; eauto.
    + intros k Hk. apply orb_true_iff in Hk as [Hk|Hk].
      * destruct (Hb1 k Hk) as [w Hw]. exists w. apply in_app_iff. by right.
      * destruct (Hb2 k Hk) as [w Hw]. exists w. apply in_app_iff. by left.
  - intros Hin. apply in_app_iff in Hin as [Hin|[<-|[]]].
    + apply IH1 in Hin as [g1 [E1 [Hc1 _]]]. exists g1. by eauto.
    + by exists [].
  - intros Hin. apply in_map_iff in Hin as [e1 [<- Hin1]].
    pose proof Hin1 as Hin1'.
    apply IH1 in Hin1 as [g1 [E1 [Hc1 Hb1]]].
    assert (Hm : matches r1 (p, s) (e1.1.1, e1.1.2)).
    { apply (ends_matches r1 p s g). exists e1.2.
      by destruct e1 as [[? ?] ?]. }
    destruct (matches_suffix _ _ _ Hm) as [u Eu]. simpl in Eu.
    exists ((n, take (length s - length e1.1.2) s) :: g1). simpl.
    split; [by rewrite E1|]. split.
    + intros k w [[= <- <-]|Hin]; [left|right; by eauto].
      split; [done|]. exists (p, s), (e1.1.1, e1.1.2). split; [done|].
      simpl. subst s. by rewrite take_app_suffix.
    + intros k Hk. apply orb_true_iff in Hk as [Hk|Hk].
      * apply Nat.eqb_eq in Hk as <-. eexists. by left.
      * destruct (Hb1 k Hk) as [w Hw]. exists w. by right.
  - destruct p; [done|]. intros [<-|[]]. by exists [].
  - destruct s as [|c [|d s]]; [| |done].
    + intros [<-|[]]. by exists [].
    + destruct (eqc c "010"); [|done]. intros [<-|[]]. by exists [].
  - destruct (xorb _ _); [|done]. intros [<-|[]]. by exists [].
  - destruct (ends r1 p s g); [|done]. intros [<-|[]]. by exists [].
Qed.

Lemma group_In (n : nat) (g : caps) :
  (exists w, In (n, w) g) -> exists w, group n g = Some w /\ In (n, w) g.
Proof.
  induction g as [|[k v] g IH]; intros [w Hin]; [done|]. simpl.
  destruct (Nat.eqb k n) eqn:Ek.
  - apply Nat.eqb_eq in Ek as ->. exists v. split; [done|]. by left.
  - destruct Hin as [[= -> ->]|Hin]; [by rewrite Nat.eqb_refl in Ek|].
    destruct (IH (ex_intro _ w Hin)) as [w' [E Hw']]. exists w'.
    split; [done|]. by right.
Qed.

Lemma group_Some_In (n : nat) (g : caps) (w : text) :
  group n g = Some w -> In (n, w) g.
Proof.
  induction g as [|[k v] g IH]; [done|]. simpl.
  destruct (Nat.eqb k n) eqn:Ek.
  - apply Nat.eqb_eq in Ek as ->. intros [= ->]. by left.
  - intros Hg. right. by apply IH.
Qed.

(** The groups of a match at a position. *)
Lemma match_at_caps (r : regex) (p : option ascii) (s : text) (e : cfg) :
  match_at r p s = Some e ->
  (forall n w, group n e.2 = Some w -> captured r n w)
  /\ (forall n, binds r n = true ->
                exists w, group n e.2 = Some w /\ captured r n w).
Proof.
  unfold match_at. intros Hh.
  assert (Hin : In e (ends r p s [])).
  { destruct (ends r p s []) as [|e' l]; [done|]. injection Hh as ->. by left. }
  apply ends_caps in Hin as [g1 [E [Hc Hb]]]. rewrite app_nil_r in E.
  rewrite E. split.
  - intros n w Hg. apply group_Some_In in Hg. by eauto.
  - intros n Hn. destruct (group_In n g1 (Hb n Hn)) as [w [Hg Hin]]. by eauto.
Qed.

(** Every match that a scan reports is a match at some position. *)
Lemma scan_from_hits (r : regex) (s : text) :
  forall (skip : nat) (p : option ascii) (m : text) (g : caps),
    In (Hit m g) (scan_from r skip p s) ->
    exists p' s' e, match_at r p' s' = Some e /\ e.2 = g.
Proof.
  induction s as [|c s IH]; intros skip p m g.
  - destruct skip; simpl; [|done].
    destruct (match_at r p []) as [e|] eqn:Em; [|done].
    simpl. intros [[= _ <-]|[]]. by eauto.
  - destruct skip as [|k]; simpl; [|apply IH].
    destruct (match_at r p (c :: s)) as [e|] eqn:Em.
    + destruct (S (length s) - length e.1.2) as [|k].
      * intros [[= _ <-]|[|Hin]]; [by eauto|done|by eapply IH].
      * intros [[= _ <-]|Hin]; [by eauto|by eapply IH].
    + intros [|Hin]; [done|by eapply IH].
Qed.

Lemma finditer_caps (r : regex) (s : text) (g : caps) :
  In g (finditer r s) ->
  (forall n w, group n g = Some w -> captured r n w)
  /\ (forall n, binds r n = true ->
                exists w, group n g = Some w /\ captured r n w).
Proof.
  unfold finditer, scan. intros Hin.
  apply in_flat_map in Hin as [[c|m g'] [Hin Hg]]; [done|].
  destruct Hg as [<-|[]].
  apply scan_from_hits in Hin as [p' [s' [e [Em <-]]]].
  by apply (match_at_caps r p' s').
Qed.

Lemma search_from_caps (r : regex) (s : text) :
  forall (p : option ascii) (m : rmatch),
    search_from r p s = Some m ->
    exists p' s' e, match_at r p' s' = Some e /\ m_caps m = e.2.
Proof.
  induction s as [|c s IH]; intros p m; simpl.
  - destruct (match_at r p []) as [e|] eqn:Em; [|done].
    intros [= <-]. by eauto.
  - destruct (match_at r p (c :: s)) as [e|] eqn:Em.
    + intros [= <-]. by eauto.
    + apply IH.
Qed.

(** ** What the inspector records of a definition statement *)

Lemma captured_Grp_Plus (m n : nat) (f : ascii -> bool) (w : text) :
  captured (Grp m (Plus f)) n w -> m = n /\ w <> [] /\ forallb f w = true.
Proof.
  intros [[-> [a [b [Hm E]]]]|[[]|[]]].
  destruct a as [p s]. apply matches_Plus in Hm as [ws [Es [Hne [Hall _]]]].
  simpl in E. rewrite Es in E. apply app_inv_tail in E as <-. done.
Qed.

Ltac captured_cases H :=
  repeat match type of H with
         | captured (Cat _ _) _ _ => destruct H as [H|H]
         | captured (Lit _) _ _ => destruct H
         | captured (Star _) _ _ => destruct H
         | captured (Opt (Grp _ (Lit _))) _ _ => destruct H as [[H _]|H]
         | captured (Grp _ (Plus _)) _ _ =>
             apply captured_Grp_Plus in H as [H ?]
         end.

Lemma split_aux_plain (w : text) :
  forallb not_backtick w = true ->
  forall cur, split_aux (txt "`,`") 0 cur w = [rev cur ++ w].
Proof.
  induction w as [|c w IH]; intros Hw cur.
  - simpl. by rewrite app_nil_r.
  - simpl in Hw. apply andb_true_iff in Hw as [Hc Hw].
    cbn [split_aux].
    replace (startswith (txt "`,`") (c :: w)) with false.
    + rewrite IH by done. simpl. by rewrite <- app_assoc.
    + unfold not_backtick in Hc. apply negb_true_iff in Hc.
      cbn [txt list_ascii_of_string startswith]. unfold eqc in *.
      rewrite Ascii.eqb_sym. by rewrite Hc.
Qed.

Lemma split_plain (w : text) :
  forallb not_backtick w = true -> split (txt "`,`") w = [w].
Proof. intros Hw. unfold split. by rewrite split_aux_plain. Qed.

Lemma fk_groups (g : caps) (create_table : text) :
  In g (finditer fk_pattern create_table) ->
  plain_name (group_text 1 g) /\ plain_name (group_text 2 g)
  /\ plain_name (group_text 3 g).
Proof.
  intros Hin. apply finditer_caps in Hin as [_ Hb].
  destruct (Hb 1 eq_refl) as [w1 [E1 H1]].
  destruct (Hb 2 eq_refl) as [w2 [E2 H2]].
  destruct (Hb 3 eq_refl) as [w3 [E3 H3]].
  unfold group_text. rewrite E1, E2, E3. cbn [default].
  unfold fk_pattern in H1, H2, H3. cbn [cats] in H1, H2, H3.
  captured_cases H1; try done. captured_cases H2; try done.
  captured_cases H3; done.
Qed.

Lemma index_groups (g : caps) (create_table : text) :
  In g (finditer index_pattern create_table) ->
  plain_name (group_text 2 g) /\ plain_name (group_text 3 g).
Proof.
  intros Hin. apply finditer_caps in Hin as [_ Hb].
  destruct (Hb 2 eq_refl) as [w2 [E2 H2]].
  destruct (Hb 3 eq_refl) as [w3 [E3 H3]].
  unfold group_text. rewrite E2, E3. cbn [default].
  unfold index_pattern in H2, H3. cbn [cats] in H2, H3.
  captured_cases H2; try done. captured_cases H3; done.
Qed.

(** X12. The names that the inspector reads from a definition statement are
    not empty and hold no backtick, and every index that it records has
    one column: a key or an index on several columns is not recorded. *)
Theorem recorded_names_are_single_columns (create_table : text) :
  (forall pk, extract_primary_key create_table = Some pk -> plain_name pk)
  /\ Forall (fun fk => plain_name (fk_column fk)
                       /\ plain_name (fk_referenced_table fk)
                       /\ plain_name (fk_referenced_column fk))
            (extract_foreign_keys create_table)
  /\ Forall (fun idx => plain_name (idx_name idx)
                        /\ exists col, idx_columns idx = [col]
                                       /\ plain_name col)
            (extract_indexes create_table).
Proof.
  split; [|split].
  - intros pk. unfold extract_primary_key, search.
    destruct (search_from pk_pattern None create_table) as [m|] eqn:Es; [|done].
    intros Hg. apply search_from_caps in Es as [p' [s' [e [Em Ec]]]].
    apply match_at_caps in Em as [Hc _]. rewrite Ec in Hg.
    apply Hc in Hg. unfold pk_pattern in Hg. cbn [cats] in Hg.
    captured_cases Hg; done.
  - apply Forall_forall. intros fk Hin.
    apply list_elem_of_In in Hin. unfold extract_foreign_keys in Hin.
    apply in_map_iff in Hin as [g [<- Hg]]. cbn.
    by apply (fk_groups g create_table).
  - apply Forall_forall. intros idx Hin.
    apply list_elem_of_In in Hin. unfold extract_indexes in Hin.
    apply in_map_iff in Hin as [g [<- Hg]]. cbn.
    destruct (index_groups g create_table Hg) as [H2 H3].
    split; [done|]. exists (group_text 3 g). split; [|done].
    apply split_plain. by destruct H3.
Qed.

(** *** The first match of a pattern at a position *)

Lemma head_app_Some {A} (l k : list A) (x : A) :
  head l = Some x -> head (l ++ k) = Some x.
Proof. by destruct l. Qed.

Lemma star_ends_first (f : ascii -> bool) (ws rest : text) :
  forallb f ws = true ->
  (forall c, head rest = Some c -> f c = false) ->
  forall p, head (star_ends f p (ws ++ rest)) = Some (last_opt p ws, rest).
Proof.
  intros Hws Hrest. induction ws as [|c ws IH]; intros p.
  - simpl. destruct rest as [|c rest]; [done|].
    simpl. by rewrite (Hrest c).
  - simpl in Hws. apply andb_true_iff in Hws as [Hc Hws].
    simpl. rewrite Hc. rewrite last_opt_cons.
    apply head_app_Some. by apply IH.
Qed.

Lemma first_Lit (w x : text) (p : option ascii) (g : caps) :
  ends (Lit w) p (w ++ x) g = [(last_opt p w, x, g)].
Proof.
  simpl. replace (lit_end eqc w p (w ++ x)) with (Some (last_opt p w, x)); [done|].
  symmetry. by apply lit_end_iff.
Qed.

Lemma first_Plus (f : ascii -> bool) (ws rest : text) (p : option ascii)
    (g : caps) :
  ws <> [] -> forallb f ws = true ->
  (forall c, head rest = Some c -> f c = false) ->
  head (ends (Plus f) p (ws ++ rest) g) = Some (last_opt p ws, rest, g).
Proof.
  intros Hne Hws Hrest. destruct ws as [|c ws]; [done|].
  simpl in Hws. apply andb_true_iff in Hws as [Hc Hws].
  unfold Plus. simpl. rewrite Hc. simpl. rewrite app_nil_r.
  pose proof (star_ends_first f ws rest Hws Hrest (Some c)) as Hh.
  destruct (star_ends f (Some c) (ws ++ rest)) as [|e l]; [done|].
  simpl in *. injection Hh as ->. by rewrite last_opt_cons.
Qed.

Lemma first_Cat (r1 r2 : regex) (p : option ascii) (s : text) (g : caps)
    (e1 e2 : cfg) :
  head (ends r1 p s g) = Some e1 ->
  head (ends r2 e1.1.1 e1.1.2 e1.2) = Some e2 ->
  head (ends (Cat r1 r2) p s g) = Some e2.
Proof.
  simpl. intros H1 H2.
  destruct (ends r1 p s g) as [|e l]; [done|]. injection H1 as ->.
  simpl. by apply head_app_Some.
Qed.

Lemma first_Grp (n : nat) (r : regex) (p : option ascii) (u rest : text)
    (g : caps) (q : option ascii) (g' : caps) :
  head (ends r p (u ++ rest) g) = Some (q, rest, g') ->
  head (ends (Grp n r) p (u ++ rest) g) = Some (q, rest, (n, u) :: g').
Proof.
  simpl. intros H1.
  destruct (ends r p (u ++ rest) g) as [|e l]; [done|]. injection H1 as ->.
  simpl. by rewrite take_app_suffix.
Qed.

Lemma first_Star (f : ascii -> bool) (ws rest : text) (p : option ascii)
    (g : caps) :
  forallb f ws = true ->
  (forall c, head rest = Some c -> f c = false) ->
  head (ends (Star f) p (ws ++ rest) g) = Some (last_opt p ws, rest, g).
Proof.
  intros Hws Hrest. simpl.
  pose proof (star_ends_first f ws rest Hws Hrest p) as Hh.
  destruct (star_ends f p (ws ++ rest)) as [|e l]; [done|].
  simpl in *. by injection Hh as ->.
Qed.

(** [re.search] finds the match at the first position that has one. *)
Lemma search_from_first (r : regex) (a : text) :
  forall (p : option ascii) (b : text) (e : cfg),
    (forall a1 a2, a = a1 ++ a2 -> a2 <> [] ->
                   match_at r (last_opt p a1) (a2 ++ b) = None) ->
    match_at r (last_opt p a) b = Some e ->
    search_from r p (a ++ b)
    = Some {| m_from := b; m_rest := e.1.2; m_caps := e.2 |}.
Proof.
  induction a as [|c a IH]; intros p b e Hno Hm.
  - rewrite last_opt_nil in Hm. simpl. destruct b; simpl; by rewrite Hm.
  - pose proof (Hno [] (c :: a) eq_refl ltac:(done)) as E0.
    rewrite last_opt_nil in E0. simpl. simpl in E0. rewrite E0.
    apply IH.
    + intros a1 a2 E Hne. rewrite <- (last_opt_cons p).
      apply Hno; [by rewrite E|done].
    + by rewrite <- (last_opt_cons p).
Qed.

Lemma startswith_within (n u x : text) :
  startswith n (u ++ x) = true -> length n <= length u ->
  startswith n u = true.
Proof.
  revert u. induction n as [|a n IH]; intros u; simpl; [done|].
  destruct u as [|c u]; simpl; [lia|].
  intros [Ha Hn]%andb_true_iff Hl. rewrite Ha. simpl.
  apply IH; [done|lia].
Qed.

(** A needle that occurs once in [a ++ needle] starts nowhere inside [a],
    whatever follows. *)
Lemma occurs_once_no_start (n a1 a2 x : text) :
  occurrences n ((a1 ++ a2) ++ n) = 1 -> a2 <> [] ->
  startswith n (a2 ++ n ++ x) = false.
Proof.
  intros Ho Hne. destruct (startswith n (a2 ++ n ++ x)) eqn:Es; [|done].
  exfalso. rewrite app_assoc in Es.
  apply startswith_within in Es; [|rewrite length_app; lia].
  apply startswith_split in Es as [y Ey].
  assert (E : (a1 ++ a2) ++ n ++ [] = a1 ++ n ++ y).
  { rewrite app_nil_r, <- app_assoc. by rewrite Ey. }
  pose proof (occurrences_two n (a1 ++ a2) a1 [] y E) as H2.
  rewrite app_nil_r in H2.
  assert (a1 ++ a2 <> a1).
  { intros E'. apply (f_equal length) in E'. rewrite length_app in E'.
    destruct a2; [done|]. simpl in E'. lia. }
  specialize (H2 ltac:(done)). lia.
Qed.

(** X13. A primary key on one column is recorded: the statement holds the key
    clause with the quoted name [c], and no such clause starts before
    it. *)
Theorem single_column_key_is_recorded (pre c post : text) :
  plain_name c ->
  occurrences (txt "PRIMARY KEY (`") (pre ++ txt "PRIMARY KEY (`") = 1 ->
  extract_primary_key (key_statement pre [c] post) = Some c.
Proof.
  intros [Hne Hc] Ho. unfold extract_primary_key, search, key_statement.
  cbn [column_list map join].
  set (L := txt "PRIMARY KEY (`").
  assert (Es : txt "PRIMARY KEY (" ++ (txt "`" ++ c ++ txt "`") ++ txt ")" ++ post
               = L ++ c ++ txt "`)" ++ post).
  { subst L. cbn. by rewrite <- !app_assoc. }
  rewrite Es.
  assert (Hm : forall p, match_at pk_pattern p (L ++ c ++ txt "`)" ++ post)
                         = Some (last_opt (last_opt (last_opt p L) c) (txt "`)"),
                                 post, [(1, c)])).
  { intros p. unfold match_at, pk_pattern. cbn [cats].
    eapply (first_Cat _ _ _ _ _ (last_opt p L, c ++ txt "`)" ++ post, []));
      [by rewrite first_Lit|]. cbn [fst snd].
    eapply (first_Cat _ _ _ _ _
              (last_opt (last_opt p L) c, txt "`)" ++ post, [(1, c)])).
    - apply first_Grp. apply first_Plus; [done|done|].
      by intros d [= <-].
    - cbn [fst snd]. by rewrite first_Lit. }
  assert (Hno : forall a1 a2, pre = a1 ++ a2 -> a2 <> [] ->
                  match_at pk_pattern (last_opt None a1)
                           (a2 ++ L ++ c ++ txt "`)" ++ post) = None).
  { intros a1 a2 E Hne2. apply match_at_None. intros [b Hb].
    apply matches_pk in Hb as [g [rest [Eg _]]].
    assert (Hs : startswith L (a2 ++ L ++ c ++ txt "`)" ++ post) = true).
    { rewrite Eg. apply startswith_app. }
    rewrite E in Ho. by rewrite (occurs_once_no_start _ _ _ _ Ho Hne2) in Hs. }
  by rewrite (search_from_first pk_pattern pre None _ _ Hno
                (Hm (last_opt None pre))).
Qed.

(** *** Foreign keys *)

Lemma matches_fk_start (p : option ascii) (s : text) (b : pos) :
  matches fk_pattern (p, s) b -> startswith (txt "FOREIGN KEY (`") s = true.
Proof.
  unfold fk_pattern. intros Hm.
  apply matches_cats_cons in Hm as [[q1 s1] [Hl _]].
  apply matches_Lit in Hl as [-> _]. apply startswith_app.
Qed.

Lemma first_fk (fk : foreign_key) (rest : text) (p : option ascii) :
  plain_name (fk_column fk) -> plain_name (fk_referenced_table fk) ->
  plain_name (fk_referenced_column fk) ->
  exists q,
    match_at fk_pattern p (foreign_key_clause fk ++ rest)
    = Some (q, rest, [(3, fk_referenced_column fk);
                      (2, fk_referenced_table fk); (1, fk_column fk)]).
Proof.
  destruct fk as [c t rc]. cbn [fk_column fk_referenced_table
                                 fk_referenced_column].
  intros [Hc1 Hc2] [Ht1 Ht2] [Hr1 Hr2].
  unfold foreign_key_clause, match_at, fk_pattern.
  cbn [cats fk_column fk_referenced_table fk_referenced_column].
  rewrite <- !app_assoc. eexists.
  eapply (first_Cat _ _ _ _ _ (_, _, [])); [by rewrite first_Lit|].
  cbn [fst snd].
  eapply (first_Cat _ _ _ _ _ (_, _, [(1, c)])).
  { apply first_Grp. apply first_Plus; [done|done|]. by intros d [= <-]. }
  cbn [fst snd].
  eapply (first_Cat _ _ _ _ _ (_, _, [(1, c)])); [by rewrite first_Lit|].
  cbn [fst snd].
  eapply (first_Cat _ _ _ _ _ (_, _, [(2, t); (1, c)])).
  { apply first_Grp. apply first_Plus; [done|done|]. by intros d [= <-]. }
  cbn [fst snd].
  eapply (first_Cat _ _ _ _ _ (_, txt " (`" ++ rc ++ txt "`)" ++ rest,
                               [(2, t); (1, c)])).
  { exact (f_equal head (first_Lit (txt "`")
                           (txt " (`" ++ rc ++ txt "`)" ++ rest) _ _)). }
  cbn [fst snd].
  eapply (first_Cat _ _ _ _ _ (_, txt "(`" ++ rc ++ txt "`)" ++ rest,
                               [(2, t); (1, c)])).
  { refine (first_Star is_space (txt " ") (txt "(`" ++ rc ++ txt "`)" ++ rest)
              _ _ eq_refl _). by intros d [= <-]. }
  cbn [fst snd].
  eapply (first_Cat _ _ _ _ _ (_, _, [(2, t); (1, c)]));
    [by rewrite first_Lit|].
  cbn [fst snd].
  eapply (first_Cat _ _ _ _ _ (_, _, [(3, rc); (2, t); (1, c)])).
  { apply first_Grp. apply first_Plus; [done|done|]. by intros d [= <-]. }
  cbn [fst snd]. by rewrite first_Lit.
Qed.

(** A scan keeps the characters before the first match and reports the
    match. *)
Lemma scan_from_first (r : regex) (m rest : text) (e : cfg) (a : text) :
  m <> [] -> e.1.2 = rest ->
  forall p,
    (forall a1 a2, a = a1 ++ a2 -> a2 <> [] ->
                   match_at r (last_opt p a1) (a2 ++ m ++ rest) = None) ->
    match_at r (last_opt p a) (m ++ rest) = Some e ->
    exists q,
      scan_from r 0 p (a ++ m ++ rest)
      = map Keep a ++ Hit m e.2 :: scan_from r 0 q rest.
Proof.
  intros Hne Er. induction a as [|c a IH]; intros p Hno Hm.
  - rewrite last_opt_nil in Hm. destruct m as [|c m]; [done|].
    change ((c :: m) ++ rest) with (c :: m ++ rest) in Hm.
    cbn [app scan_from map]. rewrite Hm, Er.
    replace (length (c :: m ++ rest) - length rest) with (S (length m)).
    2:{ simpl. rewrite length_app. lia. }
    destruct (scan_from_skip r m (Some c) rest) as [q Eq]. rewrite Eq.
    exists q. f_equal. f_equal.
    change (c :: m ++ rest) with ((c :: m) ++ rest).
    change (S (length m)) with (length (c :: m)). by rewrite take_app_length.
  - pose proof (Hno [] (c :: a) eq_refl ltac:(done)) as E0.
    rewrite last_opt_nil in E0.
    destruct (IH (Some c)) as [q Eq].
    + intros a1 a2 E Hne2. rewrite <- (last_opt_cons p).
      apply Hno; [by rewrite E|done].
    + by rewrite <- (last_opt_cons p).
    + exists q. cbn [app scan_from map]. simpl in E0. rewrite E0.
      by rewrite Eq.
Qed.

Lemma scan_from_none (r : regex) (s : text) :
  forall p,
    (forall a b, s = a ++ b -> match_at r (last_opt p a) b = None) ->
    scan_from r 0 p s = map Keep s.
Proof.
  induction s as [|c s IH]; intros p Hno.
  - pose proof (Hno [] [] eq_refl) as E0. rewrite last_opt_nil in E0.
    cbn [scan_from]. by rewrite E0.
  - pose proof (Hno [] (c :: s) eq_refl) as E0. rewrite last_opt_nil in E0.
    cbn [scan_from map]. rewrite E0. f_equal. apply IH. intros a b E.
    rewrite <- (last_opt_cons p). apply Hno. by rewrite E.
Qed.

Lemma hits_keep (s : text) (l : list piece) :
  flat_map (fun x => match x with Keep _ => [] | Hit _ g => [g] end)
           (map Keep s ++ l)
  = flat_map (fun x => match x with Keep _ => [] | Hit _ g => [g] end) l.
Proof. induction s as [|c s IH]; [done|]. simpl. apply IH. Qed.

Lemma finditer_with_clauses (parts : list (text * foreign_key)) (tail : text) :
  Forall (fun part : text * foreign_key =>
            occurrences (txt "FOREIGN KEY (`")
                        (part.1 ++ txt "FOREIGN KEY (`") = 1
            /\ plain_name (fk_column part.2)
            /\ plain_name (fk_referenced_table part.2)
            /\ plain_name (fk_referenced_column part.2)) parts ->
  occurrences (txt "FOREIGN KEY (`") tail = 0 ->
  forall p,
    flat_map (fun x => match x with Keep _ => [] | Hit _ g => [g] end)
             (scan_from fk_pattern 0 p (with_clauses parts tail))
    = map (fun part : text * foreign_key =>
             [(3, fk_referenced_column part.2);
              (2, fk_referenced_table part.2); (1, fk_column part.2)])
          parts.
Proof.
  intros Hparts Htail. induction Hparts as [|[seg fk] parts [Ho [H1 [H2 H3]]] _ IH];
    intros p.
  - cbn [with_clauses map]. rewrite scan_from_none.
    + rewrite <- (app_nil_r (map Keep tail)). by rewrite hits_keep.
    + intros a b E. apply match_at_None. intros [m Hm].
      apply matches_fk_start in Hm.
      rewrite E in Htail. apply occurrences_suffix in Htail.
      by rewrite (occurrences_startswith _ _ Htail) in Hm.
  - cbn [with_clauses map fst snd] in *.
    destruct (first_fk fk (with_clauses parts tail) (last_opt p seg) H1 H2 H3)
      as [q Eq].
    destruct (scan_from_first fk_pattern (foreign_key_clause fk)
                (with_clauses parts tail)
                (q, with_clauses parts tail,
                 [(3, fk_referenced_column fk); (2, fk_referenced_table fk);
                  (1, fk_column fk)])
                seg ltac:(by destruct fk) eq_refl p) as [q' Es];
      [|exact Eq|].
    + intros a1 a2 E Hne. apply match_at_None. intros [m Hm].
      apply matches_fk_start in Hm. rewrite E in Ho.
      unfold foreign_key_clause in Hm. rewrite <- !app_assoc in Hm.
      by rewrite (occurs_once_no_start _ _ _ _ Ho Hne) in Hm.
    + rewrite Es, hits_keep. cbn [flat_map app]. f_equal. apply IH.
Qed.

(** X14. Every foreign key on one column that a definition statement declares
    is recorded, in the order of the clauses, and nothing else is: the
    statement is made of clauses as the server writes them, each after
    some text in which no clause starts, and a tail that holds none. *)
Theorem declared_foreign_keys_are_recorded
    (parts : list (text * foreign_key)) (tail : text) :
  Forall (fun part : text * foreign_key =>
            occurrences (txt "FOREIGN KEY (`")
                        (part.1 ++ txt "FOREIGN KEY (`") = 1
            /\ plain_name (fk_column part.2)
            /\ plain_name (fk_referenced_table part.2)
            /\ plain_name (fk_referenced_column part.2)) parts ->
  occurrences (txt "FOREIGN KEY (`") tail = 0 ->
  extract_foreign_keys (with_clauses parts tail) = map snd parts.
Proof.
  intros Hparts Htail. unfold extract_foreign_keys, finditer, scan.
  rewrite (finditer_with_clauses parts tail Hparts Htail).
  rewrite map_map. apply map_ext. by intros [seg [c t rc]].
Qed.

Import Orders.

(** ** The snapshot of the inspector *)

Lemma insert_desc_perm (t : table_info) (l : list table_info) :
  insert_desc t l ≡ₚ t :: l.
Proof.
  induction l as [|u l IH]; simpl; [done|].
  destruct (t_row_count u <=? t_row_count t)%Z; [done|].
  rewrite IH. apply Permutation_swap.
Qed.

Lemma sorted_desc_perm (l : list table_info) : sorted_desc l ≡ₚ l.
Proof.
  induction l as [|t l IH]; simpl; [done|].
  unfold sorted_desc in *. simpl. rewrite insert_desc_perm. by rewrite IH.
Qed.

Lemma insert_desc_descending (t : table_info) (l : list table_info) :
  tables_descending l -> tables_descending (insert_desc t l).
Proof.
  induction l as [|u l IH]; simpl.
  - intros _. split; [constructor|done].
  - intros [Hu Hl]. destruct (t_row_count u <=? t_row_count t)%Z eqn:E.
    + apply Z.leb_le in E. simpl. split; [|done].
      constructor; [done|]. eapply Forall_impl; [exact Hu|].
      intros v Hv. simpl in Hv. lia.
    + apply Z.leb_gt in E. simpl. split; [|by apply IH].
      rewrite insert_desc_perm. constructor; [lia|done].
Qed.

Lemma sorted_desc_descending (l : list table_info) :
  tables_descending (sorted_desc l).
Proof.
  induction l as [|t l IH]; [done|].
  unfold sorted_desc in *. simpl. by apply insert_desc_descending.
Qed.

Lemma descending_app (a b : list table_info) :
  tables_descending (a ++ b) ->
  tables_descending a
  /\ forall u v, In u a -> In v b -> (t_row_count v <= t_row_count u)%Z.
Proof.
  induction a as [|x a IH]; simpl; [done|].
  intros [Hx Ha]. apply IH in Ha as [Ha Hab].
  apply Forall_app in Hx as [Hxa Hxb]. split; [done|].
  intros u v [<-|Hu] Hv.
  - rewrite Forall_forall in Hxb. apply Hxb. by apply list_elem_of_In.
  - by apply Hab.
Qed.

Lemma descending_filter_map (l : list table_info) :
  tables_descending l ->
  counts_descending
    (map (fun t => (t_name t, t_row_count t))
         (List.filter (fun t => (0 <? t_row_count t)%Z) l)).
Proof.
  induction l as [|u l IH]; simpl; [done|].
  intros [Hu Hl]. destruct (0 <? t_row_count u)%Z; [|by apply IH].
  simpl. split; [|by apply IH].
  apply Forall_forall. intros y Hy. apply list_elem_of_In in Hy.
  apply in_map_iff in Hy as [v [<- Hv]]. apply filter_In in Hv as [Hv _].
  rewrite Forall_forall in Hu. apply Hu. by apply list_elem_of_In.
Qed.

(** The largest tables of a snapshot. *)
Lemma largest_tables_spec (current_db : text) (n : nat)
    (tbls : list table_info) (rels : list relationship) :
  let L := largest_tables (database_stats (make_db_info current_db n tbls rels)) in
  length L <= 3
  /\ counts_descending L
  /\ (forall name c, In (name, c) L ->
        (0 < c)%Z
        /\ exists t, In t tbls /\ t_name t = name /\ t_row_count t = c)
  /\ (forall t, In t tbls -> (0 < t_row_count t)%Z ->
        In (t_name t, t_row_count t) L
        \/ (length L = 3 /\ forall name c, In (name, c) L ->
                                           (t_row_count t <= c)%Z)).
Proof.
  cbn [make_db_info database_stats largest_tables].
  set (S := sorted_desc tbls).
  assert (Hperm : S ≡ₚ tbls) by apply sorted_desc_perm.
  assert (Hsplit : S = take 3 S ++ drop 3 S) by (by rewrite take_drop).
  assert (Hdesc : tables_descending (take 3 S ++ drop 3 S)).
  { rewrite <- Hsplit. apply sorted_desc_descending. }
  apply descending_app in Hdesc as [Hd3 Hle].
  split; [|split; [|split]].
  - rewrite length_map.
    etransitivity; [apply filter_length_le|]. rewrite length_take. lia.
  - by apply descending_filter_map.
  - intros name c Hin. apply in_map_iff in Hin as [t [[= <- <-] Ht]].
    apply filter_In in Ht as [Ht Hpos]. apply Z.ltb_lt in Hpos.
    split; [done|]. exists t. split; [|done].
    apply list_elem_of_In. rewrite <- Hperm. apply list_elem_of_In.
    rewrite Hsplit. apply in_app_iff. by left.
  - intros t Ht Hpos.
    assert (HtS : In t S).
    { apply list_elem_of_In. rewrite Hperm. by apply list_elem_of_In. }
    rewrite Hsplit in HtS. apply in_app_iff in HtS as [Hin|Hin].
    + left. apply in_map_iff. exists t. split; [done|].
      apply filter_In. split; [done|]. by apply Z.ltb_lt.
    + right.
      assert (Hall : List.filter (fun t => (0 <? t_row_count t)%Z) (take 3 S)
                     = take 3 S).
      { apply forallb_filter_id. apply forallb_forall. intros u Hu.
        apply Z.ltb_lt. specialize (Hle u t Hu Hin). lia. }
      rewrite Hall. split.
      * rewrite length_map, length_take.
        assert (3 < length S); [|lia].
        destruct (decide (3 < length S)) as [|Hn]; [done|].
        rewrite drop_ge in Hin by lia. done.
      * intros name c Hc. apply in_map_iff in Hc as [u [[= <- <-] Hu]].
        by apply Hle.
Qed.

Section Snapshot.
Context {W : Type} `{Driver W}.

Lemma inspect_table_name (conn : nat) (name : text) (w w' : W)
    (t : table_info) :
  inspect_table conn name w = (Ok t, w') ->
  t_name t = name
  /\ exists create_table,
       t_primary_key t = extract_primary_key create_table
       /\ t_foreign_keys t = extract_foreign_keys create_table
       /\ t_indexes t = extract_indexes create_table.
Proof.
  unfold inspect_table, bind.
  destruct (db_show_create_table conn name w) as [[stmt|e] wa]; [|done].
  destruct (db_describe conn name wa) as [[cols|e] wb]; [|done].
  destruct (try_catch _ _ wb) as [[cnt|e] wc]; [|done].
  destruct (try_catch _ _ wc) as [[samples|e] wd]; [|done].
  intros [= <- _]. split; [done|]. by exists stmt.
Qed.

Lemma mapM_inspect_names (conn : nat) (names : list text) :
  forall (w w' : W) (infos : list table_info),
    mapM (inspect_table conn) names w = (Ok infos, w') ->
    map t_name infos = names
    /\ Forall (fun t => exists create_table,
                 t_primary_key t = extract_primary_key create_table
                 /\ t_foreign_keys t = extract_foreign_keys create_table
                 /\ t_indexes t = extract_indexes create_table) infos.
Proof.
  induction names as [|name names IH]; intros w w' infos; simpl.
  - intros [= <- _]. split; [done|constructor].
  - unfold bind at 1.
    destruct (inspect_table conn name w) as [[t|e] w1] eqn:Et; [|done].
    unfold bind at 1.
    destruct (mapM (inspect_table conn) names w1) as [[ts|e] w2] eqn:Em; [|done].
    intros [= <- _]. apply inspect_table_name in Et as [<- Hs].
    destruct (IH _ _ _ Em) as [<- Hall]. split; [done|]. by constructor.
Qed.

(** A snapshot that the inspector returns is made of the tables that the
    server lists. *)
Lemma enhanced_snapshot_made (conn : nat) (w w' : W) (info : db_info) :
  get_enhanced_database_structure conn w = (Ok (Snapshot info), w') ->
  exists current_db names infos w1 w2,
    db_show_tables conn current_db w1 = (Ok names, w2)
    /\ current_db <> []
    /\ map t_name infos = names
    /\ Forall (fun t => exists create_table,
                 t_primary_key t = extract_primary_key create_table
                 /\ t_foreign_keys t = extract_foreign_keys create_table
                 /\ t_indexes t = extract_indexes create_table) infos
    /\ info = make_db_info current_db (length names) infos
                           (relationships_of infos).
Proof.
  rewrite enhanced_unfold.
  destruct (build_snapshot conn w) as [[s|e] w1] eqn:Eb.
  - intros [= -> ->]. unfold build_snapshot, bind in Eb.
    destruct (db_cursor conn w) as [[[]|e] wa]; [|done].
    destruct (db_select_database conn wa) as [[[[[|c db]|]|]|e] wb];
      try done.
    destruct (db_show_tables conn (c :: db) wb) as [[names|e] wc] eqn:Et;
      [|done].
    destruct (mapM (inspect_table conn) names wc) as [[infos|e] wd] eqn:Em;
      [|done].
    injection Eb as <- _.
    destruct (mapM_inspect_names _ _ _ _ _ Em) as [Hn Hall].
    exists (c :: db), names, infos, wb, wc. done.
  - intros Hb. destruct (basic_returns conn w1) as [s [w2 [E Hs]]].
    rewrite E in Hb. injection Hb as -> _.
    destruct Hs as [?|[?|?]]; done.
Qed.

(** X15. A snapshot agrees with itself: its tables are those that the server
    lists, in that order; its counts are those of its tables and
    relationships; its relationships are the foreign keys of its tables,
    table after table; its diagnostics are those of its content; and a
    table that it reports as isolated has no foreign key and is
    referenced by none. *)
Theorem snapshot_is_consistent (connection : nat) (w w' : W) (info : db_info) :
  get_enhanced_database_structure connection w = (Ok (Snapshot info), w') ->
  (exists names w1 w2,
     db_show_tables connection (database_name info) w1 = (Ok names, w2)
     /\ map t_name (tables info) = names)
  /\ database_name info <> []
  /\ table_count (database_stats info) = length (tables info)
  /\ total_relationships (database_stats info) = length (relationships info)
  /\ relationships info
     = flat_map (fun t => map (relationship_of (t_name t)) (t_foreign_keys t))
                (tables info)
  /\ schema_analysis info = Some (analyze_database_schema info)
  /\ forall names t,
       In (IsolatedTables names)
          (potential_issues (analyze_database_schema info)) ->
       In t (tables info) -> In (t_name t) names ->
       t_foreign_keys t = []
       /\ forall rel, In rel (relationships info) ->
                      to_table rel <> t_name t.
Proof.
  intros E. apply enhanced_snapshot_made in E
    as [db [names [infos [w1 [w2 [Et [Hdb [Hn [_ ->]]]]]]]]].
  cbn [make_db_info database_name tables relationships database_stats
       table_count total_relationships schema_analysis].
  split; [by exists names, w1, w2|]. split; [done|].
  split; [by rewrite <- Hn, length_map|]. split; [done|].
  split; [done|]. split; [done|].
  intros ns t Hiss Ht Hname.
  unfold analyze_database_schema in Hiss.
  cbn [potential_issues tables relationships make_db_info] in Hiss.
  apply in_app_iff in Hiss as [Hiss|Hiss].
  { destruct (map t_name (List.filter lacks_primary_key infos)); [done|].
    by destruct Hiss as [|[]]. }
  match type of Hiss with
  | In _ (match ?l with _ => _ end) => destruct l as [|x xs] eqn:El; [done|]
  end.
  destruct Hiss as [[= <-]|[]]. rewrite <- El in Hname.
  apply in_map_iff in Hname as [t' [En Ht']].
  apply filter_In in Ht' as [Ht' Hiso]. apply negb_true_iff in Hiso.
  rewrite En in Hiso. unfold in_relationships in Hiso.
  assert (Hno : forall rel, In rel (relationships_of infos) ->
                  from_table rel <> t_name t /\ to_table rel <> t_name t).
  { intros rel Hrel. destruct (text_eqb (from_table rel) (t_name t)) eqn:E1.
    - exfalso. assert (existsb (fun rel => text_eqb (from_table rel) (t_name t)
                          || text_eqb (to_table rel) (t_name t))
                         (relationships_of infos) = true); [|congruence].
      apply existsb_exists. exists rel. by rewrite E1.
    - destruct (text_eqb (to_table rel) (t_name t)) eqn:E2.
      + exfalso. assert (existsb (fun rel => text_eqb (from_table rel) (t_name t)
                          || text_eqb (to_table rel) (t_name t))
                         (relationships_of infos) = true); [|congruence].
        apply existsb_exists. exists rel. by rewrite E2, orb_true_r.
      + by apply text_eqb_neq in E1, E2. }
  split; [|intros rel Hrel; by apply Hno].
  destruct (t_foreign_keys t) as [|fk fks] eqn:Ef; [done|]. exfalso.
  destruct (Hno (relationship_of (t_name t) fk)) as [Hf _]; [|by apply Hf].
  unfold relationships_of. apply in_flat_map. exists t. split; [done|].
  rewrite Ef. by left.
Qed.

(** X16. The largest tables that a snapshot names are at most three of its
    tables, each with at least one row, in descending order of their row
    counts; a table with rows that is not among them has at most as many
    rows as each of the three named. *)
Theorem snapshot_names_largest_tables (connection : nat) (w w' : W)
    (info : db_info) :
  get_enhanced_database_structure connection w = (Ok (Snapshot info), w') ->
  let largest := largest_tables (database_stats info) in
  length largest <= 3
  /\ counts_descending largest
  /\ (forall name c, In (name, c) largest ->
        (0 < c)%Z
        /\ exists t, In t (tables info) /\ t_name t = name
                     /\ t_row_count t = c)
  /\ (forall t, In t (tables info) -> (0 < t_row_count t)%Z ->
        In (t_name t, t_row_count t) largest
        \/ (length largest = 3
            /\ forall name c, In (name, c) largest ->
                              (t_row_count t <= c)%Z)).
Proof.
  intros E. apply enhanced_snapshot_made in E
    as [db [names [infos [w1 [w2 [_ [_ [_ [_ ->]]]]]]]]].
  apply largest_tables_spec.
Qed.

Lemma mapM_dump_names (conn : nat) (names : list text) :
  forall (w w' : W) (parts : list dump_table),
    mapM (dump_one conn) names w = (Ok parts, w') ->
    map dt_name parts = names
    /\ Forall (fun name =>
                 exists wa wb wc wd stmt columns samples,
                   db_show_create_table conn name wa = (Ok stmt, wb)
                   /\ db_describe conn name wb = (Ok columns, wc)
                   /\ db_sample conn name wc = (Ok samples, wd)) names.
Proof.
  induction names as [|name names IH]; intros w w' parts; simpl.
  - intros [= <- _]. split; [done|constructor].
  - unfold bind at 1.
    destruct (dump_one conn name w) as [[t|e] w1] eqn:Et; [|done].
    unfold bind at 1.
    destruct (mapM (dump_one conn) names w1) as [[ts|e] w2] eqn:Em; [|done].
    intros [= <- _]. destruct (IH _ _ _ Em) as [<- Hall].
    unfold dump_one, bind in Et.
    destruct (db_show_create_table conn name w) as [[stmt|e] wa] eqn:E1; [|done].
    destruct (db_describe conn name wa) as [[cols|e] wb] eqn:E2; [|done].
    destruct (db_sample conn name wb) as [[samples|e] wc] eqn:E3; [|done].
    injection Et as <- _. split; [done|]. constructor; [|done].
    by exists w, wa, wb, wc, stmt, cols, samples.
Qed.

(** X17. The reduced inspector never raises and never returns a snapshot. A
    dump that it returns names the selected database and holds, in the
    order of the server, every table that the server lists; the three
    queries about each of them have succeeded: when one fails for one
    table, the result is the failure message and not a partial dump. *)
Theorem reduced_dump_is_all_or_nothing (connection : nat) (w : W) :
  exists (s : structure) (w' : W),
    get_database_structure_with_samples connection w = (Ok s, w')
    /\ match s with
       | Snapshot _ => False
       | ReducedDump d =>
           dump_database d <> []
           /\ exists names w1 w2,
                db_show_tables connection (dump_database d) w1 = (Ok names, w2)
                /\ map dt_name (dump_tables d) = names
                /\ Forall (fun name =>
                             exists wa wb wc wd stmt columns samples,
                               db_show_create_table connection name wa
                               = (Ok stmt, wb)
                               /\ db_describe connection name wb
                                  = (Ok columns, wc)
                               /\ db_sample connection name wc
                                  = (Ok samples, wd)) names
       | NoDatabaseSelected | StructureFailed => True
       end.
Proof.
  unfold get_database_structure_with_samples, try_catch, bind.
  destruct (db_cursor connection w) as [[[]|e] w1];
    [|eexists _, _; split; [reflexivity|exact I]].
  destruct (db_select_database connection w1) as [[[[[|c db]|]|]|e] w2];
    try (eexists _, _; split; [reflexivity|exact I]).
  destruct (db_show_tables connection (c :: db) w2) as [[names|e] w3] eqn:Et;
    [|eexists _, _; split; [reflexivity|exact I]].
  destruct (mapM (dump_one connection) names w3) as [[parts|e] w4] eqn:Em;
    [|eexists _, _; split; [reflexivity|exact I]].
  eexists _, _. split; [reflexivity|]. cbn. split; [done|].
  destruct (mapM_dump_names _ _ _ _ _ Em) as [Hn Hall].
  by exists names, w2, w3.
Qed.

End Snapshot.

Import Json Pools.

(** ** The pool key *)

Lemma json_unchar_char (c : ascii) (rest : text) :
  json_unchar (json_char c ++ rest) = Some (c, rest).
Proof. destruct c as [[] [] [] [] [] [] [] []]; reflexivity. Qed.

Lemma json_unchar_quote (rest : text) : json_unchar (quote :: rest) = None.
Proof. reflexivity. Qed.

(** The characters of a JSON string can be read back, up to its closing
    quote. *)
Lemma json_chars_inj (s1 : text) :
  forall (s2 r1 r2 : text),
    flat_map json_char s1 ++ quote :: r1 = flat_map json_char s2 ++ quote :: r2 ->
    s1 = s2 /\ r1 = r2.
Proof.
  induction s1 as [|c1 s1 IH]; intros [|c2 s2] r1 r2; simpl.
  - by intros [= ->].
  - intros E. apply (f_equal json_unchar) in E.
    rewrite <- app_assoc, json_unchar_char in E. done.
  - intros E. apply (f_equal json_unchar) in E.
    rewrite <- app_assoc, json_unchar_char in E. done.
  - intros E. apply (f_equal json_unchar) in E.
    rewrite <- !app_assoc, !json_unchar_char in E.
    injection E as -> E. by destruct (IH _ _ _ E) as [-> ->].
Qed.

Lemma json_string_inj (k1 k2 r1 r2 : text) :
  json_string k1 ++ r1 = json_string k2 ++ r2 -> k1 = k2 /\ r1 = r2.
Proof.
  unfold json_string. simpl. rewrite <- !app_assoc. simpl.
  intros [= E]. by apply json_chars_inj in E.
Qed.

Lemma txt_inj (s1 s2 : string) : txt s1 = txt s2 -> s1 = s2.
Proof.
  unfold txt. intros E. apply (f_equal string_of_list_ascii) in E.
  by rewrite !string_of_list_ascii_of_string in E.
Qed.

Lemma uint_digits (d : Decimal.uint) :
  forallb is_digit (txt (NilEmpty.string_of_uint d)) = true.
Proof. induction d; simpl; try done. Qed.

(** The text of a number is made of digits, after a sign at most. *)
Lemma int_chars (z : Z) (c : ascii) :
  In c (json_value (JInt z)) -> is_digit c = true \/ c = "-"%char.
Proof.
  simpl. destruct (Z.to_int z) as [d|d]; simpl.
  - intros Hin. left. revert c Hin. apply forallb_forall, uint_digits.
  - intros [<-|Hin]; [by right|]. left. revert c Hin.
    apply forallb_forall, uint_digits.
Qed.

Lemma span_unique (P : ascii -> Prop) (a1 : text) :
  forall (a2 r1 r2 : text),
    (forall c, In c a1 -> P c) -> (forall c, In c a2 -> P c) ->
    (forall c, head r1 = Some c -> ~ P c) ->
    (forall c, head r2 = Some c -> ~ P c) ->
    r1 <> [] -> r2 <> [] ->
    a1 ++ r1 = a2 ++ r2 -> a1 = a2 /\ r1 = r2.
Proof.
  induction a1 as [|c a1 IH]; intros [|d a2] r1 r2 H1 H2 Hr1 Hr2 N1 N2 E;
    simpl in E.
  - done.
  - destruct r1 as [|x r1]; [done|]. injection E as -> E.
    exfalso. apply (Hr1 d); [done|]. apply H2. by left.
  - destruct r2 as [|x r2]; [done|]. injection E as -> E.
    exfalso. apply (Hr2 x); [done|]. apply H1. by left.
  - injection E as -> E.
    destruct (IH a2 r1 r2) as [-> ->]; try done.
    + intros x Hx. apply H1. by right.
    + intros x Hx. apply H2. by right.
Qed.

Lemma ends_value_head (r : text) (c : ascii) :
  ends_value r -> head r = Some c -> c = ","%char \/ c = "}"%char.
Proof. intros [x [r' [-> Hx]]] [= <-]. done. Qed.

Lemma json_int_inj (z1 z2 : Z) (r1 r2 : text) :
  ends_value r1 -> ends_value r2 ->
  json_value (JInt z1) ++ r1 = json_value (JInt z2) ++ r2 ->
  z1 = z2 /\ r1 = r2.
Proof.
  intros E1 E2 E.
  apply (span_unique (fun c => is_digit c = true \/ c = "-"%char)) in E
    as [E ->].
  - split; [|done]. simpl in E. apply txt_inj in E.
    apply (f_equal NilEmpty.int_of_string) in E. rewrite !NilEmpty.isi in E.
    injection E as E. by apply to_int_inj.
  - apply int_chars.
  - apply int_chars.
  - intros c Hc. destruct (ends_value_head _ _ E1 Hc) as [-> | ->];
      intros [?|?]; done.
  - intros c Hc. destruct (ends_value_head _ _ E2 Hc) as [-> | ->];
      intros [?|?]; done.
  - by destruct E1 as [? [? [-> _]]].
  - by destruct E2 as [? [? [-> _]]].
Qed.

(** The first character of a number and what follows it. *)
Lemma json_int_head (z : Z) (r : text) (c : ascii) :
  ends_value r -> head (json_value (JInt z) ++ r) = Some c ->
  is_digit c = true \/ c = "-"%char \/ c = ","%char \/ c = "}"%char.
Proof.
  intros Er. destruct (json_value (JInt z)) as [|d s] eqn:Ez.
  - simpl. intros Hc. destruct (ends_value_head _ _ Er Hc); tauto.
  - simpl. intros [= <-].
    destruct (int_chars z d) as [?|?]; [rewrite Ez; by left|tauto|tauto].
Qed.

Lemma json_other_head (v : jvalue) (r : text) :
  (forall z, v <> JInt z) ->
  exists c, head (json_value v ++ r) = Some c
            /\ is_digit c = false /\ c <> "-"%char /\ c <> ","%char
            /\ c <> "}"%char.
Proof.
  intros Hv. destruct v as [|[|]|z|s]; try (by eexists; repeat split).
  by destruct (Hv z).
Qed.

Lemma json_int_other (z : Z) (v : jvalue) (r1 r2 : text) :
  ends_value r1 -> (forall z', v <> JInt z') ->
  json_value (JInt z) ++ r1 <> json_value v ++ r2.
Proof.
  intros E1 Hv E.
  destruct (json_other_head v r2 Hv) as [c [Hc [H1 [H2 [H3 H4]]]]].
  rewrite <- E in Hc.
  destruct (json_int_head z r1 c E1 Hc) as [?|[?|[?|?]]]; congruence.
Qed.

(** A rendered value can be read back, up to the comma or the brace that
    follows it. *)
Lemma json_value_inj (v1 v2 : jvalue) (r1 r2 : text) :
  ends_value r1 -> ends_value r2 ->
  json_value v1 ++ r1 = json_value v2 ++ r2 -> v1 = v2 /\ r1 = r2.
Proof.
  intros E1 E2 E.
  destruct v1 as [|[|]|z1|s1]; destruct v2 as [|[|]|z2|s2];
    try (simpl in E; by injection E as ->);
    try (simpl in E; discriminate E);
    try (exfalso; refine (json_int_other _ _ _ _ E1 _ E); by intros ?);
    try (exfalso; symmetry in E;
         refine (json_int_other _ _ _ _ E2 _ E); by intros ?).
  - destruct (json_int_inj z1 z2 r1 r2 E1 E2 E) as [-> ->]. done.
  - apply json_string_inj in E as [-> ->]. done.
Qed.

(** The entries of a rendered dict, from one entry on. *)
Lemma join_cons2 (sep x y : text) (l : list text) :
  join sep (x :: y :: l) = x ++ sep ++ join sep (y :: l).
Proof. done. Qed.

Lemma json_entries_inj (d1 : config) :
  forall (d2 : config),
    d1 <> [] -> d2 <> [] ->
    join (txt ", ")
         (map (fun kv : text * jvalue =>
                 json_string kv.1 ++ txt ": " ++ json_value kv.2) d1)
    ++ txt "}"
    = join (txt ", ")
           (map (fun kv : text * jvalue =>
                   json_string kv.1 ++ txt ": " ++ json_value kv.2) d2)
      ++ txt "}" ->
    d1 = d2.
Proof.
  induction d1 as [|[k1 v1] d1 IH]; intros [|[k2 v2] d2] N1 N2 E; try done.
  cbn [map fst snd] in E.
  set (item := fun kv : text * jvalue =>
                 json_string kv.1 ++ txt ": " ++ json_value kv.2) in *.
  assert (Hend : forall (d : config),
            ends_value (match map item d with
                        | [] => txt "}"
                        | x :: l => txt ", " ++ join (txt ", ") (x :: l) ++ txt "}"
                        end)).
  { intros d. destruct (map item d); eexists _, _; split; try done; tauto. }
  assert (Hshape : forall k v (d : config),
            join (txt ", ") ((json_string k ++ txt ": " ++ json_value v)
                             :: map item d) ++ txt "}"
            = json_string k ++ txt ": " ++ json_value v
              ++ match map item d with
                 | [] => txt "}"
                 | x :: l => txt ", " ++ join (txt ", ") (x :: l) ++ txt "}"
                 end).
  { intros k v d. destruct (map item d) as [|x l].
    - cbn [join]. by rewrite <- !app_assoc.
    - rewrite join_cons2. by rewrite <- !app_assoc. }
  rewrite !Hshape in E.
  apply json_string_inj in E as [-> E].
  injection E as E.
  apply json_value_inj in E as [-> E]; [|apply Hend|apply Hend].
  f_equal.
  destruct d1 as [|e1 d1]; destruct d2 as [|e2 d2]; try done.
  apply IH; try done.
  cbn [map] in E. cbn [map]. by injection E.
Qed.

Lemma json_entries_head (k x : text) (l : list text) :
  exists s, join (txt ", ") ((json_string k ++ x) :: l) ++ txt "}" = quote :: s.
Proof. destruct l; cbn [join]; unfold json_string; simpl; by eauto. Qed.

Lemma json_dumps_inj (d1 d2 : config) :
  json_dumps d1 = json_dumps d2 -> d1 = d2.
Proof.
  unfold json_dumps. intros E. apply app_inv_head in E.
  destruct d1 as [|e1 d1]; destruct d2 as [|e2 d2]; try done.
  - exfalso. destruct e2 as [k v]. cbn [map fst snd] in E.
    destruct (json_entries_head k (txt ": " ++ json_value v)
                (map (fun kv : text * jvalue =>
                        json_string kv.1 ++ txt ": " ++ json_value kv.2) d2))
      as [s Es].
    rewrite Es in E. discriminate E.
  - exfalso. destruct e1 as [k v]. cbn [map fst snd] in E.
    destruct (json_entries_head k (txt ": " ++ json_value v)
                (map (fun kv : text * jvalue =>
                        json_string kv.1 ++ txt ": " ++ json_value kv.2) d1))
      as [s Es].
    rewrite Es in E. discriminate E.
  - by apply json_entries_inj.
Qed.

(** X18. Two configs have the same pool key only when they hold the same
    entries in the same order, the password left out: a key stands for
    one config. *)
Theorem connection_key_names_one_config (cfg1 cfg2 : config) :
  connection_key cfg1 = connection_key cfg2 <->
  without_password cfg1 = without_password cfg2.
Proof.
  unfold connection_key. split; [apply json_dumps_inj|by intros ->].
Qed.

(** ** The pool *)

Section Pool2.
Context {W : Type} `{Driver W}.

Lemma create_and_store_effect (sid : text) (c : config)
    (st st' : app_state W) (r : outcome nat) :
  pool_wf st -> pool_unshared st ->
  create_and_store sid c st = (r, st') ->
  pool_unshared st'
  /\ forall s k, (sid, connection_key c) <> (s, k) ->
                 pooled st' s k = pooled st s k.
Proof.
  intros Hwf Hun Hr.
  pose proof (create_and_store_spec sid c st) as Hs.
  destruct (db_connect c (world st)) as [[[]|e] w].
  - destruct Hs as [st1 [E [Hp [Hn [_ Ho]]]]]. rewrite E in Hr.
    injection Hr as <- <-. split; [|done].
    intros s1 k1 s2 k2 h H1 H2.
    destruct (decide ((sid, connection_key c) = (s1, k1))) as [[= <- <-]|N1];
      destruct (decide ((sid, connection_key c) = (s2, k2))) as [[= <- <-]|N2].
    + done.
    + rewrite Hp in H1. injection H1 as <-. rewrite Ho in H2 by done.
      apply Hwf in H2. lia.
    + rewrite Hp in H2. injection H2 as <-. rewrite Ho in H1 by done.
      apply Hwf in H1. lia.
    + rewrite Ho in H1, H2 by done. by apply (Hun s1 k1 s2 k2 h).
  - rewrite Hs in Hr. injection Hr as <- <-. done.
Qed.

Lemma discard_effect (sid key : text) (st : app_state W) :
  pool_wf st -> pool_unshared st ->
  pool_wf (discard_connection sid key st)
  /\ pool_unshared (discard_connection sid key st).
Proof.
  intros Hwf Hun. split.
  - intros s k h Hp.
    destruct (decide ((sid, key) = (s, k))) as [[= <- <-]|Hne].
    + by rewrite pooled_discard in Hp.
    + rewrite pooled_discard_other in Hp by done. by apply (Hwf s k).
  - intros s1 k1 s2 k2 h H1 H2.
    destruct (decide ((sid, key) = (s1, k1))) as [[= <- <-]|N1].
    { by rewrite pooled_discard in H1. }
    destruct (decide ((sid, key) = (s2, k2))) as [[= <- <-]|N2].
    { by rewrite pooled_discard in H2. }
    rewrite pooled_discard_other in H1, H2 by done.
    by apply (Hun s1 k1 s2 k2 h).
Qed.

Lemma get_or_create_effect (sid : text) (c : config)
    (st st' : app_state W) (r : outcome nat) :
  pool_wf st -> pool_unshared st ->
  get_or_create_connection sid c st = (r, st') ->
  pool_wf st' /\ pool_unshared st'
  /\ forall s k, (sid, connection_key c) <> (s, k) ->
                 pooled st' s k = pooled st s k.
Proof.
  intros Hwf Hun Hr.
  split; [by apply (get_or_create_preserves_pool_wf sid c st st' r)|].
  destruct (pooled st sid (connection_key c)) as [h0|] eqn:Hp.
  - destruct (db_is_connected h0 (world st)) eqn:Ha.
    + rewrite (get_or_create_alive _ _ _ _ Hp Ha) in Hr.
      by injection Hr as <- <-.
    + rewrite (get_or_create_stale _ _ _ _ Hp Ha) in Hr.
      destruct (discard_effect sid (connection_key c) st Hwf Hun) as [Hwf' Hun'].
      destruct (create_and_store_effect _ _ _ _ _ Hwf' Hun' Hr) as [Hu Ho].
      split; [done|]. intros s k Hne. rewrite Ho by done.
      by apply pooled_discard_other.
  - rewrite (get_or_create_absent _ _ _ Hp) in Hr.
    by apply (create_and_store_effect _ _ _ _ _ Hwf Hun Hr).
Qed.

(** X19. An acquisition changes at most the pool entry of its own session and
    key. From the start of the process and after any sequence of
    acquisitions, whatever happens to the connections in between, no
    connection is pooled under two entries: no two sessions, and no two
    keys of a session, ever share a connection. *)
Theorem pool_entries_are_never_shared (drift : nat -> W -> W)
    (requests : list (text * config)) (w : W) :
  pool_unshared (acquisitions drift requests (initial w))
  /\ forall (st : app_state W) (session_id : text) (cfg : config),
       forall s k, (session_id, connection_key cfg) <> (s, k) ->
         pooled (get_or_create_connection session_id cfg st).2 s k
         = pooled st s k.
Proof.
  split.
  - assert (Hgen : forall (st : app_state W),
              pool_wf st -> pool_unshared st ->
              pool_unshared (acquisitions drift requests st)).
    { induction requests as [|[sid c] requests IH]; intros st Hwf Hun; [done|].
      cbn [acquisitions].
      destruct (get_or_create_connection sid c st) as [r st1] eqn:E.
      destruct (get_or_create_effect _ _ _ _ _ Hwf Hun E) as [Hwf1 [Hun1 _]].
      by apply IH. }
    apply Hgen.
    + intros s k h Hp. unfold pooled, initial in Hp. simpl in Hp.
      by rewrite lookup_empty in Hp.
    + intros s1 k1 s2 k2 h Hp. unfold pooled, initial in Hp. simpl in Hp.
      by rewrite lookup_empty in Hp.
  - intros st sid c s k Hne.
    destruct (pooled st sid (connection_key c)) as [h0|] eqn:Hp.
    + destruct (db_is_connected h0 (world st)) eqn:Ha.
      * by rewrite (get_or_create_alive _ _ _ _ Hp Ha).
      * rewrite (get_or_create_stale _ _ _ _ Hp Ha).
        pose proof (create_and_store_spec sid c
                      (discard_connection sid (connection_key c) st)) as Hs.
        destruct (db_connect c _) as [[[]|e] w1].
        -- destruct Hs as [st1 [E [_ [_ [_ Ho]]]]]. rewrite E. cbn.
           rewrite Ho by done. by apply pooled_discard_other.
        -- rewrite Hs. cbn. by apply pooled_discard_other.
    + rewrite (get_or_create_absent _ _ _ Hp).
      pose proof (create_and_store_spec sid c st) as Hs.
      destruct (db_connect c _) as [[[]|e] w1].
      * destruct Hs as [st1 [E [_ [_ [_ Ho]]]]]. rewrite E. cbn. by apply Ho.
      * by rewrite Hs.
Qed.

End Pool2.

Import Viz.

(** ** The chart recommended for a result set *)

Lemma text_eqb_true (a b : text) : text_eqb a b = true <-> a = b.
Proof. unfold text_eqb. by rewrite bool_decide_eq_true. Qed.

Lemma row_get_own (first : row) (col : text) :
  In col (map fst first) -> row_get col first <> None.
Proof.
  induction first as [|[k v] first IH]; simpl; [done|].
  destruct (text_eqb k col) eqn:E; [done|].
  intros [->|Hin]; [|by apply IH].
  assert (text_eqb col col = true) by (by apply text_eqb_true). congruence.
Qed.

Lemma cells_ok (col : text) (results : list row) (vs : list pyval) :
  cells col results = Ok vs ->
  length vs = length results
  /\ forall r, In r results -> row_get col r <> None.
Proof.
  revert vs. induction results as [|r rs IH]; intros vs; simpl.
  - intros [= <-]. done.
  - destruct (row_get col r) as [v|] eqn:Er; [|done].
    destruct (cells col rs) as [vs'|e]; [|done].
    intros [= <-]. destruct (IH vs' eq_refl) as [Hl Hall].
    split; [simpl; lia|]. intros r' [<-|Hin]; [congruence|by apply Hall].
Qed.

Lemma cells_raise (col : text) (results : list row) (e : exn) :
  cells col results = Raise e ->
  e = External col /\ exists r, In r results /\ row_get col r = None.
Proof.
  induction results as [|r rs IH]; simpl; [done|].
  destruct (row_get col r) as [v|] eqn:Er.
  - destruct (cells col rs) as [vs'|e']; [done|].
    intros [= <-]. destruct (IH eq_refl) as [-> [r' [Hin Hr']]].
    split; [done|]. exists r'. split; [by right|done].
  - intros [= <-]. split; [done|]. exists r. split; [by left|done].
Qed.

Lemma cells_total (col : text) (results : list row) :
  (forall r, In r results -> row_get col r <> None) ->
  exists vs, cells col results = Ok vs.
Proof.
  intros Hall. destruct (cells col results) as [vs|e] eqn:E; [by eauto|].
  apply cells_raise in E as [_ [r [Hin Hr]]]. by destruct (Hall r Hin).
Qed.

Lemma classify_columns_ok (columns : list text) (results : list row)
    (kinds : list (text * option kind)) :
  classify_columns columns results = Ok kinds ->
  map fst kinds = columns
  /\ forall col r, In col columns -> In r results -> row_get col r <> None.
Proof.
  revert kinds. induction columns as [|col columns IH]; intros kinds; simpl.
  - intros [= <-]. done.
  - destruct (cells col results) as [vs|e] eqn:Ec; [|done].
    destruct (classify_columns columns results) as [ks|e]; [|done].
    intros [= <-]. destruct (IH ks eq_refl) as [Hm Hall].
    split; [simpl; by rewrite Hm|].
    intros c r [<-|Hin] Hr; [|by apply Hall].
    apply cells_ok in Ec as [_ Hc]. by apply Hc.
Qed.

Lemma classify_columns_raise (columns : list text) (results : list row)
    (e : exn) :
  classify_columns columns results = Raise e ->
  exists col r, In col columns /\ In r results /\ row_get col r = None.
Proof.
  induction columns as [|col columns IH]; simpl; [done|].
  destruct (cells col results) as [vs|e'] eqn:Ec.
  - destruct (classify_columns columns results) as [ks|e']; [done|].
    intros [= <-]. destruct (IH eq_refl) as [c [r [Hc [Hr Hg]]]].
    exists c, r. split; [by right|done].
  - intros [= <-]. apply cells_raise in Ec as [_ [r [Hr Hg]]].
    exists col, r. split; [by left|done].
Qed.

Lemma classify_columns_total (columns : list text) (results : list row) :
  (forall col r, In col columns -> In r results -> row_get col r <> None) ->
  exists kinds, classify_columns columns results = Ok kinds.
Proof.
  intros Hall. destruct (classify_columns columns results) as [ks|e] eqn:E;
    [by eauto|].
  apply classify_columns_raise in E as [c [r [Hc [Hr Hg]]]].
  by destruct (Hall c r Hc Hr).
Qed.

Lemma columns_of_In (k : kind) (kinds : list (text * option kind)) (col : text) :
  In col (columns_of k kinds) -> In col (map fst kinds).
Proof.
  unfold columns_of. intros Hin. apply in_map_iff in Hin as [e [<- He]].
  apply filter_In in He as [He _]. by apply in_map.
Qed.

Lemma at_index_In (i : nat) (l : list text) :
  i < length l -> In (at_index i l) l.
Proof. intros Hi. unfold at_index. by apply nth_In. Qed.

(** The cells of a column that the classification has met. *)
Lemma cells_of_kind (k : kind) (i : nat) (columns : list text)
    (results : list row) (kinds : list (text * option kind)) :
  classify_columns columns results = Ok kinds ->
  i < length (columns_of k kinds) ->
  exists vs, cells (at_index i (columns_of k kinds)) results = Ok vs
             /\ length vs = length results.
Proof.
  intros Hc Hi. apply classify_columns_ok in Hc as [Hm Hall].
  destruct (cells_total (at_index i (columns_of k kinds)) results) as [vs E].
  - intros r Hr. apply Hall; [|done]. rewrite <- Hm.
    apply (columns_of_In k). by apply at_index_In.
  - exists vs. split; [done|]. by apply cells_ok in E as [? _].
Qed.

Lemma labelled_ok (make : list text -> list pyval -> chart)
    (k1 k2 : kind) (columns : list text) (results : list row)
    (kinds : list (text * option kind)) :
  classify_columns columns results = Ok kinds ->
  0 < length (columns_of k1 kinds) -> 0 < length (columns_of k2 kinds) ->
  exists labels values,
    labelled make (at_index 0 (columns_of k1 kinds))
             (at_index 0 (columns_of k2 kinds)) results
    = Ok (make labels values)
    /\ length labels = length results /\ length values = length results.
Proof.
  intros Hc H1 H2. unfold labelled.
  destruct (cells_of_kind k1 0 _ _ _ Hc H1) as [ls [-> Hl]].
  destruct (cells_of_kind k2 0 _ _ _ Hc H2) as [vs [-> Hv]].
  exists (map py_str ls), vs. by rewrite length_map.
Qed.

(** What [recommend_visualization] returns, branch by branch. *)
Lemma recommend_cases (first : row) (rest : list row)
    (kinds : list (text * option kind)) :
  classify_columns (map fst first) (first :: rest) = Ok kinds ->
  let results := first :: rest in
  let n := length (columns_of Numeric kinds) in
  let c := length (columns_of Categorical kinds) in
  let t := length (columns_of Temporal kinds) in
  exists ch,
    recommend_visualization results = Ok ch
    /\ match ch with
       | NoChart => False
       | Bar labels label data =>
           c = 1 /\ n = 1
           /\ label = at_index 0 (columns_of Numeric kinds)
           /\ length labels = length results /\ length data = length results
       | Scatter label points =>
           2 <= n
           /\ label = at_index 0 (columns_of Numeric kinds) ++ txt " vs "
                      ++ at_index 1 (columns_of Numeric kinds)
           /\ length points = length results
       | Line labels label data =>
           n = 1 /\ 1 <= t /\ c <> 1
           /\ label = at_index 0 (columns_of Numeric kinds)
           /\ length labels = length results /\ length data = length results
       | Pie labels data =>
           n = 1 /\ t = 0 /\ c <> 1 /\ length results <= 10
           /\ (c = 0 -> labels = item_labels (length results))
           /\ length labels = length results /\ length data = length results
       | Table data =>
           data = results
           /\ (n = 0 \/ (n = 1 /\ t = 0 /\ c <> 1 /\ 10 < length results))
       end.
Proof.
  intros Hc results n c t. subst results.
  unfold recommend_visualization. rewrite Hc. fold n c t.
  fold (columns_of Numeric kinds) (columns_of Categorical kinds).
  destruct ((c =? 1) && (n =? 1)) eqn:E1.
  { apply andb_true_iff in E1 as [Ec En].
    apply Nat.eqb_eq in Ec, En.
    destruct (labelled_ok (fun labels values =>
                Bar labels (at_index 0 (columns_of Numeric kinds)) values)
                Categorical Numeric _ _ _ Hc) as [ls [vs [E [Hl Hv]]]];
      [fold c; lia|fold n; lia|].
    rewrite E. eexists. split; [done|]. cbn. done. }
  destruct (2 <=? n) eqn:E2.
  { apply Nat.leb_le in E2.
    destruct (cells_of_kind Numeric 0 _ _ _ Hc) as [xs [-> Hx]]; [fold n; lia|].
    destruct (cells_of_kind Numeric 1 _ _ _ Hc) as [ys [-> Hy]]; [fold n; lia|].
    eexists. split; [done|]. cbn. split; [done|]. split; [done|].
    rewrite length_zip. cbn in Hx, Hy. lia. }
  apply Nat.leb_gt in E2.
  assert (Hc1 : c <> 1 \/ n <> 1).
  { apply andb_false_iff in E1 as [E|E]; apply Nat.eqb_neq in E; tauto. }
  destruct ((1 <=? t) && (1 <=? n)) eqn:E3.
  { apply andb_true_iff in E3 as [Et En]. apply Nat.leb_le in Et, En.
    destruct (labelled_ok (fun labels values =>
                Line labels (at_index 0 (columns_of Numeric kinds)) values)
                Temporal Numeric _ _ _ Hc) as [ls [vs [E [Hl Hv]]]];
      [fold t; lia|fold n; lia|].
    rewrite E. eexists. split; [done|]. cbn.
    split; [lia|]. split; [done|]. split; [lia|]. done. }
  assert (Ht : t = 0 \/ n = 0).
  { apply andb_false_iff in E3 as [E|E]; apply Nat.leb_gt in E; lia. }
  destruct ((n =? 1) && (length (first :: rest) <=? 10)) eqn:E4.
  { apply andb_true_iff in E4 as [En Hr]. apply Nat.eqb_eq in En.
    apply Nat.leb_le in Hr.
    destruct (0 <? c) eqn:E5.
    - apply Nat.ltb_lt in E5.
      destruct (labelled_ok Pie Categorical Numeric _ _ _ Hc)
        as [ls [vs [E [Hl Hv]]]]; [fold c; lia|fold n; lia|].
      rewrite E. eexists. split; [done|]. cbn.
      split; [done|]. split; [lia|]. split; [lia|]. split; [done|].
      split; [lia|]. done.
    - apply Nat.ltb_ge in E5.
      destruct (cells_of_kind Numeric 0 _ _ _ Hc) as [vs [-> Hv]];
        [fold n; lia|].
      eexists. split; [done|]. cbn.
      split; [done|]. split; [lia|]. split; [lia|]. split; [done|].
      split; [done|]. unfold item_labels. by rewrite length_map, length_seq. }
  eexists. split; [done|]. cbn. split; [done|].
  apply andb_false_iff in E4 as [E|E].
  - apply Nat.eqb_neq in E. left. lia.
  - apply Nat.leb_gt in E. cbn in E.
    destruct (decide (n = 0)) as [|Hn]; [by left|right].
    split; [lia|]. split; [lia|]. split; [lia|]. cbn. lia.
Qed.

(** X20. The chart has one entry per row: the labels and the data of a bar,
    line or pie chart, and the points of a scatter plot, are as many as
    the rows; a pie chart is given for at most ten rows; the table holds
    the rows themselves; and no chart is given exactly for no rows. *)
Theorem chart_is_aligned_with_rows (results : list row) (ch : chart) :
  recommend_visualization results = Ok ch ->
  match ch with
  | NoChart => results = []
  | Bar labels _ data | Line labels _ data =>
      length labels = length results /\ length data = length results
  | Pie labels data =>
      length labels = length results /\ length data = length results
      /\ 0 < length results <= 10
  | Scatter _ points => length points = length results
  | Table data => data = results /\ results <> []
  end.
Proof.
  destruct results as [|first rest].
  { by intros [= <-]. }
  destruct (classify_columns (map fst first) (first :: rest)) as [kinds|e]
    eqn:Hc.
  2:{ unfold recommend_visualization. by rewrite Hc. }
  destruct (recommend_cases first rest kinds Hc) as [ch' [E Hch]].
  rewrite E. intros [= <-].
  destruct ch' as [|ls l d|l pts|ls l d|ls d|d]; try done.
  - by destruct Hch as [_ [_ [_ ?]]].
  - by destruct Hch as [_ [_ ?]].
  - by destruct Hch as [_ [_ [_ [_ ?]]]].
  - destruct Hch as [_ [_ [_ [Hr [_ [? ?]]]]]]. cbn in *.
    split; [done|]. split; [done|]. lia.
  - by destruct Hch as [-> _].
Qed.

(** X21. The recommendation raises exactly on ragged rows: when some row
    lacks a column of the first row. *)
Theorem chart_fails_on_ragged_rows (results : list row) :
  (exists e, recommend_visualization results = Raise e)
  <-> exists first rest col r,
        results = first :: rest /\ In col (map fst first) /\ In r rest
        /\ row_get col r = None.
Proof.
  split.
  - intros [e E]. destruct results as [|first rest]; [done|].
    destruct (classify_columns (map fst first) (first :: rest)) as [kinds|e']
      eqn:Hc.
    { destruct (recommend_cases first rest kinds Hc) as [ch' [E' _]].
      congruence. }
    apply classify_columns_raise in Hc as [col [r [Hcol [Hr Hg]]]].
    exists first, rest, col, r. split; [done|]. split; [done|]. split; [|done].
    destruct Hr as [<-|Hr]; [|done]. by destruct (row_get_own first col Hcol).
  - intros [first [rest [col [r [-> [Hcol [Hr Hg]]]]]]].
    destruct (classify_columns (map fst first) (first :: rest)) as [kinds|e]
      eqn:Hc.
    + apply classify_columns_ok in Hc as [_ Hall].
      destruct (Hall col r Hcol ltac:(by right) Hg).
    + exists e. unfold recommend_visualization. by rewrite Hc.
Qed.

(** X22. Which chart is recommended follows from the numbers of numeric,
    categorical and temporal columns: two or more numeric columns give a
    scatter plot of the first two, whatever the other columns; a bar,
    line or pie chart shows the only numeric column; without a numeric
    column the rows are shown as a table. *)
Theorem chart_follows_numeric_columns (first : row) (rest : list row)
    (kinds : list (text * option kind)) (ch : chart) :
  classify_columns (map fst first) (first :: rest) = Ok kinds ->
  recommend_visualization (first :: rest) = Ok ch ->
  let n := length (columns_of Numeric kinds) in
  let c := length (columns_of Categorical kinds) in
  let t := length (columns_of Temporal kinds) in
  (2 <= n <-> exists label points, ch = Scatter label points)
  /\ (n = 0 -> ch = Table (first :: rest))
  /\ match ch with
     | NoChart => False
     | Bar _ label _ =>
         n = 1 /\ c = 1 /\ label = at_index 0 (columns_of Numeric kinds)
     | Scatter label _ =>
         label = at_index 0 (columns_of Numeric kinds) ++ txt " vs "
                 ++ at_index 1 (columns_of Numeric kinds)
     | Line _ label _ =>
         n = 1 /\ c <> 1 /\ 1 <= t
         /\ label = at_index 0 (columns_of Numeric kinds)
     | Pie labels _ =>
         n = 1 /\ c <> 1 /\ t = 0
         /\ (c = 0 -> labels = item_labels (length (first :: rest)))
     | Table _ =>
         n = 0 \/ (n = 1 /\ c <> 1 /\ t = 0 /\ 10 < length (first :: rest))
     end.
Proof.
  intros Hc E n c t.
  destruct (recommend_cases first rest kinds Hc) as [ch' [E' Hch]].
  rewrite E in E'. injection E' as <-. fold n c t in Hch.
  destruct ch as [|ls l d|l pts|ls l d|ls d|d]; try done.
  - destruct Hch as [Hc1 [Hn [Hl _]]]. split; [|split; [lia|done]].
    split; [lia|]. by intros [? [? ?]].
  - destruct Hch as [Hn [Hl _]]. split; [|split; [lia|done]].
    split; [by eauto|done].
  - destruct Hch as [Hn [Ht [Hc1 [Hl _]]]]. split; [|split; [lia|done]].
    split; [lia|]. by intros [? [? ?]].
  - destruct Hch as [Hn [Ht [Hc1 [Hr [Hi _]]]]]. split; [|split; [lia|done]].
    split; [lia|]. by intros [? [? ?]].
  - destruct Hch as [-> Hn]. split; [|split; [done|]].
    + split; [lia|]. by intros [? [? ?]].
    + destruct Hn as [?|[? [? [? ?]]]]; [by left|right]. done.
Qed.

Import Housekeeping.

(** ** Clearing a history, closing and cleaning up connections *)

Section Housekeeping2.
Context {W : Type} `{Driver W} `{Closer W}.

Lemma in_world_keeps {A : Type} (m : M W A) (st st' : app_state W) (r : outcome A) :
  in_world m st = (r, st') ->
  active_connections st' = active_connections st
  /\ conversation_histories st' = conversation_histories st
  /\ next_connection st' = next_connection st
  /\ executed st' = executed st.
Proof.
  unfold in_world. destruct (m (world st)) as [r0 w]. by intros [= <- <-].
Qed.

Lemma purge_effect (sid : text) (connections : list nat)
    (st st' : app_state W) (r : outcome unit) :
  purge sid connections st = (r, st') ->
  match r with
  | Ok _ =>
      active_connections st' = delete sid (active_connections st)
      /\ conversation_histories st' = delete sid (conversation_histories st)
  | Raise _ =>
      active_connections st' = active_connections st
      /\ conversation_histories st' = conversation_histories st
  end.
Proof.
  unfold purge, bind, modify.
  destruct (in_world (close_each connections) st) as [r0 st0] eqn:E.
  apply in_world_keeps in E as (Ea & Eh & _).
  destruct r0 as [[]|e]; intros [= <- <-]; cbn; by rewrite Ea, Eh.
Qed.

Lemma purged_cons_other (session : list text) (sid s : text) (cs : list nat)
    (pool : list (text * list nat)) :
  s <> sid -> purged session ((sid, cs) :: pool) s = purged session pool s.
Proof.
  intros Hne. unfold purged. cbn.
  by rewrite (proj2 (text_eqb_neq s sid) Hne).
Qed.

Lemma cleanup_loop_effect (session : list text) (pool : list (text * list nat)) :
  forall st st' : app_state W,
    cleanup_loop session pool st = (Ok tt, st') ->
    forall s,
      active_connections st' !! s
      = (if purged session pool s then None else active_connections st !! s)
      /\ conversation_histories st' !! s
         = (if purged session pool s then None
            else conversation_histories st !! s).
Proof.
  induction pool as [|[sid cs] pool IH]; intros st st' Hr s.
  - cbn in Hr. injection Hr as <-. done.
  - cbn [cleanup_loop] in Hr. unfold bind in Hr.
    destruct (existsb (text_eqb sid) session) eqn:Ein; cbn [negb] in Hr.
    + cbn in Hr. destruct (IH _ _ Hr s) as [Ia Ih].
      destruct (decide (s = sid)) as [->|Hne].
      * unfold purged in *. rewrite Ein, andb_false_r in *. done.
      * by rewrite purged_cons_other.
    + destruct (purge sid cs st) as [r1 st1] eqn:Ep.
      apply purge_effect in Ep. destruct r1 as [[]|e]; [|done].
      destruct Ep as [Ea Eh]. destruct (IH _ _ Hr s) as [Ia Ih].
      rewrite Ia, Ih, Ea, Eh.
      destruct (decide (s = sid)) as [->|Hne].
      * rewrite !lookup_delete_eq.
        assert (purged session ((sid, cs) :: pool) sid = true) as ->.
        { unfold purged. cbn. by rewrite text_eqb_refl, Ein. }
        by destruct (purged session pool sid).
      * rewrite !lookup_delete_ne by done. by rewrite purged_cons_other.
Qed.

Lemma existsb_text_In (s : text) (l : list text) :
  existsb (text_eqb s) l = true <-> In s l.
Proof.
  rewrite existsb_exists. split.
  - intros [x [Hx E]]. apply text_eqb_eq in E. by subst.
  - intros Hs. exists s. split; [done|apply text_eqb_refl].
Qed.

Lemma purged_listed (session : list text) (pool : list (text * list nat))
    (st : app_state W) (s : text) :
  lists_sessions pool st ->
  purged session pool s
  = match active_connections st !! s with
    | Some _ => negb (existsb (text_eqb s) session)
    | None => false
    end.
Proof.
  intros [_ Hl]. unfold purged. specialize (Hl s).
  destruct (existsb (text_eqb s) pool.*1) eqn:E.
  - apply existsb_text_In, Hl in E. destruct E as [m ->]. done.
  - destruct (active_connections st !! s) eqn:Em; [|done].
    assert (In s pool.*1) as Hin by (apply Hl; eauto).
    apply existsb_text_In in Hin. congruence.
Qed.

Section Clock2.
Context {T : Type}.
Variable exceeds_600 : T -> T -> bool.

Lemma cleanup_old_sessions_due (now : T) (session : list text)
    (pool : list (text * list nat)) (sv sv' : server W T) (r : outcome unit) :
  match last_cleanup sv with
  | None => True
  | Some last => exceeds_600 now last = true
  end ->
  cleanup_old_sessions exceeds_600 now session pool sv = (r, sv') ->
  last_cleanup sv' = Some now
  /\ cleanup_loop session pool (process sv) = (r, process sv').
Proof.
  intros Hdue. unfold cleanup_old_sessions.
  assert (match last_cleanup sv with
          | None => true
          | Some last => exceeds_600 now last
          end = true) as ->.
  { by destruct (last_cleanup sv). }
  destruct (cleanup_loop session pool (process sv)) as [r0 st0].
  by intros [= <- <-].
Qed.

End Clock2.

Lemma close_connections_cases (sid : text) (connections : list nat)
    (st : app_state W) :
  exists (r : reply) (st' : app_state W),
    close_connections sid connections st = (Ok r, st')
    /\ conversation_histories st' = conversation_histories st
    /\ next_connection st' = next_connection st
    /\ executed st' = executed st
    /\ match r with
       | Success =>
           match active_connections st !! sid with
           | Some _ => active_connections st' = <[sid := ∅]> (active_connections st)
           | None => active_connections st' = active_connections st
           end
       | ServerError _ => active_connections st' = active_connections st
       end.
Proof.
  unfold close_connections, try_catch, bind, gets, modify, ret.
  destruct (active_connections st !! sid) as [m|] eqn:Em.
  - destruct (in_world (close_each connections) st) as [r0 st0] eqn:E.
    apply in_world_keeps in E as (Ea & Eh & En & Ex).
    destruct r0 as [[]|e].
    + eexists Success, _. split; [reflexivity|]. cbn.
      by rewrite Ea, Eh, En, Ex.
    + eexists (ServerError e), _. split; [reflexivity|]. done.
  - eexists Success, _. split; [reflexivity|]. done.
Qed.

End Housekeeping2.

Lemma add_history_first (sid user_question sql_query : text)
    (h : gmap text (list turn)) :
  history_of h sid = [] ->
  history_of (add_history sid user_question sql_query h) sid
  = [{| user := user_question; response := sql_query |}].
Proof.
  intros Hh. unfold add_history.
  set (h1 := match h !! sid with
             | Some _ => h
             | None => <[sid := []]> h
             end).
  assert (history_of h1 sid = []) as H1.
  { unfold h1. destruct (h !! sid) eqn:E; [done|].
    unfold history_of. by rewrite lookup_insert_eq. }
  rewrite H1. change (10 <=? length (@nil turn)) with false. cbv iota.
  unfold history_of at 1. rewrite lookup_insert_eq. cbn [default].
  by rewrite H1.
Qed.

Section Housekeeping3.
Context {W : Type} `{Driver W} `{Closer W}.

(** X23. After [clear_history] the history of the session reads empty, and a
    turn added next is the only one; the histories of the other sessions,
    the pool and the world are as before. *)
Theorem cleared_history_starts_over
    (session_id user_question sql_query : text) (st : app_state W) :
  exists st1 st2 st3,
    clear_history session_id st = (Ok Success, st1)
    /\ world st1 = world st
    /\ active_connections st1 = active_connections st
    /\ (forall s, s <> session_id ->
          conversation_histories st1 !! s = conversation_histories st !! s)
    /\ get_conversation_history session_id st1 = (Ok [], st2)
    /\ add_to_conversation_history session_id user_question sql_query st2
       = (Ok tt, st3)
    /\ history_of (conversation_histories st3) session_id
       = [{| user := user_question; response := sql_query |}].
Proof.
  assert (exists st1,
            clear_history session_id st = (Ok Success, st1)
            /\ world st1 = world st
            /\ active_connections st1 = active_connections st
            /\ (forall s, s <> session_id ->
                  conversation_histories st1 !! s
                  = conversation_histories st !! s)
            /\ history_of (conversation_histories st1) session_id = [])
    as (st1 & E1 & Ew & Ea & Eo & Eh1).
  { unfold clear_history, bind, modify, ret, history_of.
    destruct (conversation_histories st !! session_id) as [h|] eqn:Eh.
    - eexists. split; [reflexivity|]. cbn. rewrite lookup_insert_eq.
      repeat split. intros s Hs. by rewrite lookup_insert_ne.
    - eexists. split; [reflexivity|]. by rewrite Eh. }
  assert (exists st2,
            get_conversation_history session_id st1 = (Ok [], st2)
            /\ history_of (conversation_histories st2) session_id = [])
    as (st2 & E2 & Eh2).
  { unfold get_conversation_history, bind, modify, gets.
    destruct (conversation_histories st1 !! session_id) as [h|] eqn:Eh.
    - eexists. by rewrite Eh1.
    - eexists. split.
      + cbn. unfold history_of. by rewrite lookup_insert_eq.
      + cbn. unfold history_of. by rewrite lookup_insert_eq. }
  exists st1, st2. eexists. do 5 (split; [done|]).
  split; [reflexivity|].
  change (history_of (add_history session_id user_question sql_query
                        (conversation_histories st2)) session_id
          = [{| user := user_question; response := sql_query |}]).
  by apply add_history_first.
Qed.

(** X24. [close_connections] always replies. When it reports success no
    connection is pooled for the session any more, so that the next
    acquisition of the session opens a new connection; when it reports an
    error the pool is as before. The entries of the other sessions and the
    histories are kept in both cases. *)
Theorem closed_session_keeps_no_connection
    (session_id : text) (connections : list nat) (st : app_state W) :
  exists (r : reply) (st' : app_state W),
    close_connections session_id connections st = (Ok r, st')
    /\ conversation_histories st' = conversation_histories st
    /\ (forall s k, s <> session_id -> pooled st' s k = pooled st s k)
    /\ match r with
       | Success =>
           (forall k, pooled st' session_id k = None)
           /\ forall cfg, get_or_create_connection session_id cfg st'
                          = create_and_store session_id cfg st'
       | ServerError _ => active_connections st' = active_connections st
       end.
Proof.
  destruct (close_connections_cases session_id connections st)
    as (r & st' & E & Eh & _ & _ & Hr).
  exists r, st'. split; [done|]. split; [done|].
  assert (forall k, r = Success -> pooled st' session_id k = None) as Hnone.
  { intros k ->. unfold pooled.
    destruct (active_connections st !! session_id) eqn:Em; rewrite Hr.
    - by rewrite lookup_insert_eq.
    - by rewrite Em. }
  split.
  - intros s k Hs. unfold pooled. destruct r.
    + destruct (active_connections st !! session_id); rewrite Hr; [|done].
      by rewrite lookup_insert_ne.
    + by rewrite Hr.
  - destruct r; [|done]. split.
    + intros k. by apply Hnone.
    + intros cfg. apply get_or_create_absent. by apply Hnone.
Qed.

Section Clock3.
Context {T : Type}.
Variable exceeds_600 : T -> T -> bool.

(** X25. A cleanup that is due (the first one, or one more than 600 seconds
    after the last) notes its time, also when a [close] fails. When it
    ends, the pool keeps the sessions whose id is a key of the session
    object of the request and no other, and the histories of the sessions
    that left the pool are deleted; the other histories are kept. *)
Theorem due_cleanup_keeps_keys_of_session
    (current_time : T) (session : list text) (pool : list (text * list nat))
    (sv sv' : server W T) (r : outcome unit)
    (Hdue : match last_cleanup sv with
            | None => True
            | Some last => exceeds_600 current_time last = true
            end)
    (Hpool : lists_sessions pool (process sv))
    (Hrun : cleanup_old_sessions exceeds_600 current_time session pool sv
            = (r, sv')) :
  last_cleanup sv' = Some current_time
  /\ (r = Ok tt ->
      forall s,
        active_connections (process sv') !! s
        = (if existsb (text_eqb s) session
           then active_connections (process sv) !! s else None)
        /\ conversation_histories (process sv') !! s
           = (if existsb (text_eqb s) session
              then conversation_histories (process sv) !! s
              else match active_connections (process sv) !! s with
                   | Some _ => None
                   | None => conversation_histories (process sv) !! s
                   end)).
Proof.
  destruct (cleanup_old_sessions_due _ _ _ _ _ _ _ Hdue Hrun) as [Hl Hc].
  split; [done|]. intros -> s.
  destruct (cleanup_loop_effect _ _ _ _ Hc s) as [Ea Eh].
  rewrite Ea, Eh, (purged_listed session pool (process sv) s Hpool).
  destruct (active_connections (process sv) !! s) eqn:Em;
    destruct (existsb (text_eqb s) session); done.
Qed.

(** X26. The session object of a request holds no other key than
    [session_id]. So a cleanup that is due and ends empties the pool,
    the connections of the requesting session included, and deletes the
    history of every session that had a connection; the next acquisition
    of any session opens a new connection. *)
Theorem due_cleanup_empties_pool
    (current_time : T) (session : list text) (pool : list (text * list nat))
    (sv sv' : server W T)
    (Hdue : match last_cleanup sv with
            | None => True
            | Some last => exceeds_600 current_time last = true
            end)
    (Hpool : lists_sessions pool (process sv))
    (Hkeys : forall k, In k session -> k = txt "session_id")
    (Hid : active_connections (process sv) !! txt "session_id" = None)
    (Hrun : cleanup_old_sessions exceeds_600 current_time session pool sv
            = (Ok tt, sv')) :
  active_connections (process sv') = ∅
  /\ (forall s, is_Some (active_connections (process sv) !! s) ->
        conversation_histories (process sv') !! s = None)
  /\ forall s cfg, get_or_create_connection s cfg (process sv')
                   = create_and_store s cfg (process sv').
Proof.
  destruct (cleanup_old_sessions_due _ _ _ _ _ _ _ Hdue Hrun) as [Hl Hc].
  assert (forall s, is_Some (active_connections (process sv) !! s) ->
            purged session pool s = true) as Hp.
  { intros s [m Hm]. rewrite (purged_listed session pool (process sv) s Hpool), Hm.
    destruct (existsb (text_eqb s) session) eqn:E; [|done].
    apply existsb_text_In, Hkeys in E. subst s. congruence. }
  assert (active_connections (process sv') = ∅) as He.
  { apply map_eq. intros s. rewrite lookup_empty.
    destruct (cleanup_loop_effect _ _ _ _ Hc s) as [Ea _]. rewrite Ea.
    destruct (active_connections (process sv) !! s) eqn:Em.
    - rewrite Hp; [done|]. rewrite Em. eauto.
    - by destruct (purged session pool s). }
  split; [done|]. split.
  - intros s Hs. destruct (cleanup_loop_effect _ _ _ _ Hc s) as [_ Eh].
    by rewrite Eh, (Hp s Hs).
  - intros s cfg. apply get_or_create_absent. unfold pooled. by rewrite He.
Qed.

End Clock3.

End Housekeeping3.

Import Direct.

(** ** The route that executes a statement as it is given *)

(** *** The check for several statements *)

Lemma is_space_lower_char (c : ascii) : is_space (lower_char c) = is_space c.
Proof. destruct c as [[] [] [] [] [] [] [] []]; reflexivity. Qed.

Lemma lower_char_semicolon (c : ascii) :
  Ascii.eqb ";" (lower_char c) = Ascii.eqb ";" c.
Proof. destruct c as [[] [] [] [] [] [] [] []]; reflexivity. Qed.

Lemma lstrip_lower (s : text) : lstrip (lower s) = lower (lstrip s).
Proof.
  induction s as [|c s IH]; [done|].
  cbn. rewrite is_space_lower_char. by destruct (is_space c).
Qed.

Lemma strip_lower (s : text) : strip (lower s) = lower (strip s).
Proof.
  unfold strip, rstrip, lower.
  rewrite <- map_rev. fold (lower (rev s)). rewrite lstrip_lower.
  unfold lower. rewrite <- map_rev. fold (lower (rev (lstrip (rev s)))).
  by rewrite lstrip_lower.
Qed.

Lemma removelast_map {A B : Type} (f : A -> B) (l : list A) :
  removelast (map f l) = map f (removelast l).
Proof.
  induction l as [|a [|b l] IH]; [done|done|].
  change (f a :: removelast (map f (b :: l)) = f a :: map f (removelast (b :: l))).
  by rewrite IH.
Qed.

Lemma existsb_semicolon_lower (s : text) :
  existsb (Ascii.eqb ";") (lower s) = existsb (Ascii.eqb ";") s.
Proof.
  induction s as [|c s IH]; [done|].
  change ((Ascii.eqb ";" (lower_char c) || existsb (Ascii.eqb ";") (lower s))
          = (Ascii.eqb ";" c || existsb (Ascii.eqb ";") s)).
  by rewrite lower_char_semicolon, IH.
Qed.

Lemma semicolon_before_last (t : text) :
  existsb (Ascii.eqb ";") (removelast t) = true
  <-> exists a b, t = a ++ ";"%char :: b /\ b <> [].
Proof.
  rewrite existsb_exists. split.
  - intros [c [Hin Hc]]. apply Ascii.eqb_eq in Hc. subst c.
    destruct t as [|c0 t0]; [done|].
    assert (c0 :: t0 <> []) as Hne by done.
    pose proof (app_removelast_last " "%char Hne) as Ht.
    apply in_split in Hin as (a & b & Hab).
    exists a, (b ++ [List.last (c0 :: t0) " "%char]). split.
    + rewrite Ht at 1. rewrite Hab. by rewrite <- app_assoc.
    + by destruct b.
  - intros (a & b & -> & Hb). exists ";"%char. split; [|reflexivity].
    destruct b as [|b0 b]; [done|].
    change (a ++ ";"%char :: b0 :: b) with (a ++ [";"%char] ++ (b0 :: b)).
    rewrite app_assoc, removelast_app by done.
    apply in_or_app. left. apply in_or_app. right. by left.
Qed.

Lemma several_statements_iff (sql_query : text) :
  several_statements sql_query = true
  <-> exists a b, strip sql_query = a ++ ";"%char :: b /\ b <> [].
Proof.
  unfold several_statements, drop_last.
  rewrite strip_lower. unfold lower at 1.
  rewrite removelast_map. fold (lower (removelast (strip sql_query))).
  rewrite existsb_semicolon_lower. apply semicolon_before_last.
Qed.

(** *** The execution *)

Section Direct2.
Context {W : Type} `{Driver W} `{Closer W} `{CursorCloser W}.

Lemma keeps_refl (st : app_state W) : keeps st st [].
Proof. unfold keeps. by rewrite app_nil_r. Qed.

Lemma keeps_trans (st1 st2 st3 : app_state W) (l1 l2 : list (nat * text)) :
  keeps st1 st2 l1 -> keeps st2 st3 l2 -> keeps st1 st3 (l1 ++ l2).
Proof.
  intros (A1 & B1 & C1 & D1) (A2 & B2 & C2 & D2). unfold keeps.
  rewrite A2, B2, C2, D2, A1, B1, C1, D1. by rewrite app_assoc.
Qed.

Lemma in_world_step {A : Type} (m : M W A) (st st' : app_state W)
    (r : outcome A) :
  in_world m st = (r, st') ->
  keeps st st' [] /\ (r, world st') = m (world st).
Proof.
  intros E. pose proof (in_world_keeps m st st' r E) as (Ea & Eh & En & Ex).
  split.
  - unfold keeps. by rewrite app_nil_r.
  - unfold in_world in E. destruct (m (world st)) as [r0 w].
    by injection E as <- <-.
Qed.

Lemma execute_query_step (connection : nat) (sql_query : text)
    (st st' : app_state W) (r : outcome bool) :
  execute_query connection sql_query st = (r, st') ->
  keeps st st' [(connection, sql_query)].
Proof.
  unfold execute_query, bind, modify. intros E.
  apply in_world_step in E as [(Ea & Eh & En & Ex) _].
  unfold keeps. rewrite Ea, Eh, En, Ex. cbn. by rewrite app_nil_r.
Qed.

Lemma rollback_step (connection : nat) (st : app_state W) :
  exists st', rollback_if_connected connection st = (Ok tt, st')
              /\ keeps st st' [].
Proof.
  unfold rollback_if_connected, modify.
  destruct (db_is_connected connection (world st)).
  - eexists. split; [reflexivity|]. unfold keeps. cbn. by rewrite app_nil_r.
  - eexists. split; [reflexivity|]. apply keeps_refl.
Qed.

Lemma quietly_in_world_step {A : Type} (m : M W A) (st : app_state W) :
  exists st', quietly (in_world m) st = (Ok tt, st')
              /\ keeps st st' [] /\ world st' = (m (world st)).2.
Proof.
  unfold quietly. destruct (in_world m st) as [r st'] eqn:E.
  exists st'. split; [done|]. apply in_world_step in E as [Hk Hw].
  split; [done|]. by rewrite <- Hw.
Qed.

Lemma release_step (has_cursor : bool) (connection : nat) (st : app_state W) :
  exists st' w,
    release has_cursor connection st = (Ok tt, st')
    /\ keeps st st' []
    /\ world st' = (close_if_connected connection w).2.
Proof.
  unfold release, bind.
  destruct has_cursor.
  - destruct (quietly_in_world_step (db_cursor_close connection) st)
      as (st1 & E1 & K1 & _). rewrite E1.
    destruct (quietly_in_world_step (close_if_connected connection) st1)
      as (st2 & E2 & K2 & W2). rewrite E2.
    exists st2, (world st1). split; [done|]. split; [|done].
    exact (keeps_trans _ _ _ _ _ K1 K2).
  - cbn. destruct (quietly_in_world_step (close_if_connected connection) st)
      as (st2 & E2 & K2 & W2). rewrite E2.
    by exists st2, (world st).
Qed.

Lemma test_query_step (connection : nat) (st st' : app_state W)
    (r : outcome unit) :
  test_query connection st = (r, st') ->
  exists l, keeps st st' l
            /\ (l = [] \/ l = [(connection, txt "SELECT 1")])
            /\ (r = Ok tt -> l = [(connection, txt "SELECT 1")]).
Proof.
  unfold test_query, bind.
  destruct (in_world (db_cursor connection) st) as [r1 st1] eqn:E1.
  apply in_world_step in E1 as [K1 _].
  destruct r1 as [[]|e1].
  2:{ intros [= <- <-]. exists []. split; [done|]. split; [by left|done]. }
  destruct (execute_query connection (txt "SELECT 1") st1) as [r2 st2] eqn:E2.
  apply execute_query_step in E2.
  pose proof (keeps_trans _ _ _ _ _ K1 E2) as K2. cbn [app] in K2.
  destruct r2 as [b|e2].
  2:{ intros [= <- <-]. eexists. split; [exact K2|]. split; [by right|done]. }
  destruct (in_world (db_fetchall connection) st2) as [r3 st3] eqn:E3.
  apply in_world_step in E3 as [K3 _].
  pose proof (keeps_trans _ _ _ _ _ K2 K3) as K3'. cbn [app] in K3'.
  destruct r3 as [rows|e3].
  2:{ intros [= <- <-]. eexists. split; [exact K3'|]. split; [by right|done]. }
  intros E4. apply in_world_step in E4 as [K4 _].
  pose proof (keeps_trans _ _ _ _ _ K3' K4) as K4'. cbn [app] in K4'.
  eexists. split; [exact K4'|]. split; [by right|done].
Qed.

Lemma run_statement_step (connection : nat) (sql_query : text)
    (st st' : app_state W) (r : outcome (list row)) :
  run_statement connection sql_query st = (r, st') ->
  keeps st st' [(connection, sql_query)].
Proof.
  unfold run_statement, bind.
  destruct (execute_query connection sql_query st) as [r1 st1] eqn:E1.
  apply execute_query_step in E1.
  destruct r1 as [[]|e1].
  - intros E2. apply in_world_step in E2 as [K2 _].
    pose proof (keeps_trans _ _ _ _ _ E1 K2) as K. by cbn [app] in K.
  - destruct (in_world (db_commit connection) st1) as [r2 st2] eqn:E2.
    apply in_world_step in E2 as [K2 _].
    pose proof (keeps_trans _ _ _ _ _ E1 K2) as K. cbn [app] in K.
    destruct r2; by intros [= <- <-].
  - by intros [= <- <-].
Qed.

Lemma failure_of_after (e : exn) :
  after_execution (failure_of e) = true
  /\ forall s rows, failure_of e <> DirectDone s rows.
Proof. unfold failure_of. by destruct (is_driver_error e). Qed.

Lemma handler_step (has_cursor : bool) (connection : nat)
    (response : direct_response) (st : app_state W) :
  exists st' w,
    (rollback_if_connected connection ;;;
     release has_cursor connection ;;;
     ret response) st = (Ok response, st')
    /\ keeps st st' []
    /\ world st' = (close_if_connected connection w).2.
Proof.
  unfold bind.
  destruct (rollback_step connection st) as (st1 & E1 & K1). rewrite E1.
  destruct (release_step has_cursor connection st1) as (st2 & w & E2 & K2 & W2).
  rewrite E2. exists st2, w. split; [done|]. split; [|done].
  exact (keeps_trans _ _ _ _ _ K1 K2).
Qed.

Lemma run_direct_cases (connection : nat) (sql_query : text)
    (st : app_state W) :
  exists response st' l w,
    run_direct connection sql_query st = (Ok response, st')
    /\ keeps st st' l
    /\ (l = [] \/ l = [(connection, txt "SELECT 1")]
        \/ l = [(connection, txt "SELECT 1"); (connection, sql_query)])
    /\ world st' = (close_if_connected connection w).2
    /\ after_execution response = true
    /\ forall s rows,
         response = DirectDone s rows ->
         s = sql_query
         /\ l = [(connection, txt "SELECT 1"); (connection, sql_query)].
Proof.
  unfold run_direct, bind, attempt.
  destruct (in_world (db_cursor connection) st) as [r1 st1] eqn:E1.
  apply in_world_step in E1 as [K1 _].
  destruct r1 as [[]|e1].
  2:{ destruct (handler_step false connection (failure_of e1) st1)
        as (st' & w & E & K & Hw).
      unfold bind in E. rewrite E.
      exists (failure_of e1), st', [], w. split; [done|].
      split; [exact (keeps_trans _ _ _ _ _ K1 K)|]. split; [by left|].
      split; [done|]. split; [apply failure_of_after|].
      intros s rows E'. by apply failure_of_after in E'. }
  destruct (test_query connection st1) as [r2 st2] eqn:E2.
  apply test_query_step in E2 as (l2 & K2 & Hl2 & Hok2).
  pose proof (keeps_trans _ _ _ _ _ K1 K2) as K12. cbn [app] in K12.
  destruct r2 as [[]|e2].
  2:{ destruct (handler_step true connection (DirectTestFailed e2) st2)
        as (st' & w & E & K & Hw).
      unfold bind in E. rewrite E.
      exists (DirectTestFailed e2), st', l2, w. split; [done|].
      split.
      { pose proof (keeps_trans _ _ _ _ _ K12 K) as K'.
        by rewrite app_nil_r in K'. }
      split; [destruct Hl2; auto|]. split; [done|]. split; [done|].
      intros s rows [=]. }
  specialize (Hok2 eq_refl). subst l2.
  destruct (run_statement connection sql_query st2) as [r3 st3] eqn:E3.
  apply run_statement_step in E3.
  pose proof (keeps_trans _ _ _ _ _ K12 E3) as K123. cbn [app] in K123.
  destruct r3 as [rows|e3].
  - destruct (release_step true connection st3) as (st' & w & E & K & Hw).
    rewrite E.
    exists (DirectDone sql_query rows), st',
      [(connection, txt "SELECT 1"); (connection, sql_query)], w.
    split; [done|].
    split.
    { pose proof (keeps_trans _ _ _ _ _ K123 K) as K'.
      rewrite app_nil_r in K'. exact K'. }
    split; [auto|]. split; [done|]. split; [done|].
    by intros s rows' [= <- <-].
  - destruct (handler_step true connection (failure_of e3) st3)
      as (st' & w & E & K & Hw).
    unfold bind in E. rewrite E.
    exists (failure_of e3), st',
      [(connection, txt "SELECT 1"); (connection, sql_query)], w.
    split; [done|].
    split.
    { pose proof (keeps_trans _ _ _ _ _ K123 K) as K'.
      rewrite app_nil_r in K'. exact K'. }
    split; [auto|]. split; [done|]. split; [apply failure_of_after|].
    intros s rows E'. by apply failure_of_after in E'.
Qed.

(** The route, case by case. *)
Lemma direct_sql_execution_cases (sql_query : text) (cfg : config)
    (st : app_state W) :
  exists response st' l,
    direct_sql_execution sql_query cfg st = (Ok response, st')
    /\ active_connections st' = active_connections st
    /\ conversation_histories st' = conversation_histories st
    /\ executed st' = executed st ++ l
    /\ (l = [] \/ l = [(next_connection st, txt "SELECT 1")]
        \/ l = [(next_connection st, txt "SELECT 1");
                (next_connection st, sql_query)])
    /\ (forall s rows,
          response = DirectDone s rows ->
          s = sql_query
          /\ l = [(next_connection st, txt "SELECT 1");
                  (next_connection st, sql_query)])
    /\ next_connection st <= next_connection st'
    /\ (response = DirectBadRequest
        <-> negb (nonempty cfg) || negb (nonempty sql_query) = true)
    /\ (response = DirectSeveralStatements
        <-> negb (nonempty cfg) || negb (nonempty sql_query) = false
            /\ several_statements sql_query = true)
    /\ if after_execution response
       then exists w,
              world st' = (close_if_connected (next_connection st) w).2
       else match response with
            | DirectBadRequest | DirectSeveralStatements => st' = st
            | _ => l = []
            end.
Proof.
  unfold direct_sql_execution.
  destruct (negb (nonempty cfg) || negb (nonempty sql_query)) eqn:Eb.
  { exists DirectBadRequest, st, []. rewrite app_nil_r.
    repeat split; try done; auto. by intros [? ?]. }
  destruct (several_statements sql_query) eqn:Es.
  { exists DirectSeveralStatements, st, []. rewrite app_nil_r.
    repeat split; try done; auto. }
  destruct (db_connect cfg (world st)) as [[[]|e] w] eqn:Ec.
  2:{ exists (DirectConnectFailed e), (set_world w st), []. cbn.
      rewrite app_nil_r. repeat split; try done; auto.
      - intros [_ ?]. done. }
  destruct (db_is_connected (next_connection st) w) eqn:Ea.
  2:{ eexists DirectNotConnected, _, []. split; [reflexivity|]. cbn.
      rewrite app_nil_r. repeat split; try done; auto.
      - intros [_ ?]. done. }
  destruct (run_direct_cases (next_connection st) sql_query
              {| world := w; active_connections := active_connections st;
                 conversation_histories := conversation_histories st;
                 next_connection := S (next_connection st);
                 executed := executed st |})
    as (response & st' & l & w' & E & (Ka & Kh & Kn & Kx) & Hl & Hw & Haft & Hdone).
  exists response, st', l. split; [done|]. cbn in Ka, Kh, Kn, Kx.
  split; [done|]. split; [done|]. split; [done|]. split; [done|].
  split; [done|]. split; [lia|].
  split; [split; [intros ->; done|done]|].
  split; [split; [intros ->; done|intros [_ ?]; done]|].
  rewrite Haft. by exists w'.
Qed.

(** X27. The direct route always answers, and keeps to itself: it leaves the
    pool and the histories as they are, and it works on a connection of
    its own, which is not pooled. It hands to the driver the test query
    and then the statement as it was given, and nothing else; it answers
    with results only after both. *)
Theorem direct_route_keeps_to_itself (sql_query : text) (cfg : config)
    (st : app_state W) :
  exists (response : direct_response) (st' : app_state W)
         (l : list (nat * text)),
    direct_sql_execution sql_query cfg st = (Ok response, st')
    /\ active_connections st' = active_connections st
    /\ conversation_histories st' = conversation_histories st
    /\ executed st' = executed st ++ l
    /\ (l = [] \/ l = [(next_connection st, txt "SELECT 1")]
        \/ l = [(next_connection st, txt "SELECT 1");
                (next_connection st, sql_query)])
    /\ (forall s rows,
          response = DirectDone s rows ->
          s = sql_query
          /\ l = [(next_connection st, txt "SELECT 1");
                  (next_connection st, sql_query)])
    /\ (pool_wf st ->
        pool_wf st'
        /\ forall s k, pooled st' s k <> Some (next_connection st)).
Proof.
  destruct (direct_sql_execution_cases sql_query cfg st)
    as (response & st' & l & E & Ea & Eh & Ex & Hl & Hdone & Hn & _).
  exists response, st', l. do 6 (split; [done|]).
  intros Hwf.
  assert (forall s k, pooled st' s k = pooled st s k) as Hp.
  { intros s k. unfold pooled. by rewrite Ea. }
  split.
  - intros s k h Hh. rewrite Hp in Hh. apply Hwf in Hh. lia.
  - intros s k Hh. rewrite Hp in Hh. apply Hwf in Hh. lia.
Qed.

(** X28. A request that the direct route refuses changes nothing. Once the
    route has its connection and a cursor is asked for, it ends by
    closing the connection when it is still connected, whatever happened
    in between: results, a failed test query or a failed statement. *)
Theorem direct_route_releases_connection (sql_query : text) (cfg : config)
    (st : app_state W) :
  exists (response : direct_response) (st' : app_state W),
    direct_sql_execution sql_query cfg st = (Ok response, st')
    /\ match response with
       | DirectBadRequest | DirectSeveralStatements => st' = st
       | DirectConnectFailed _ | DirectNotConnected =>
           executed st' = executed st
       | DirectTestFailed _ | DirectSqlError _ | DirectFailed _
       | DirectDone _ _ =>
           exists w,
             world st' = (close_if_connected (next_connection st) w).2
       end.
Proof.
  destruct (direct_sql_execution_cases sql_query cfg st)
    as (response & st' & l & E & _ & _ & Ex & _ & _ & _ & _ & _ & Hend).
  exists response, st'. split; [done|].
  destruct response; cbn in Hend; try done.
  - subst l. by rewrite app_nil_r in Ex.
  - subst l. by rewrite app_nil_r in Ex.
Qed.

(** X29. With a config, the direct route refuses a statement as several
    statements exactly when a semicolon stands before the last character
    of the statement, white space at its ends left out: one semicolon at
    the end passes, any other does not, also inside a quoted text. *)
Theorem inner_semicolon_is_refused (sql_query : text) (cfg : config)
    (st : app_state W) :
  nonempty cfg = true ->
  (exists st', direct_sql_execution sql_query cfg st
               = (Ok DirectSeveralStatements, st'))
  <-> exists a b, strip sql_query = a ++ ";"%char :: b /\ b <> [].
Proof.
  intros Hcfg.
  destruct (direct_sql_execution_cases sql_query cfg st)
    as (response & st' & l & E & _ & _ & _ & _ & _ & _ & _ & Hs & _).
  rewrite <- several_statements_iff. split.
  - intros [st1 E1]. rewrite E1 in E. injection E as <- <-.
    by apply Hs.
  - intros Hsev. exists st'. rewrite E.
    assert (response = DirectSeveralStatements) as ->; [|done].
    apply Hs. split; [|done]. rewrite Hcfg. cbn.
    destruct sql_query; [|done]. by vm_compute in Hsev.
Qed.

End Direct2.

Lemma inner_semicolon_is_refused_witness :
  (exists st', @direct_sql_execution sim driver sim_closer sim_cursor_closer
                 (txt "SELECT ';' AS mark") shop_config (initial (flaky 0))
               = (Ok DirectSeveralStatements, st'))
  /\ ~ exists st', @direct_sql_execution sim driver sim_closer sim_cursor_closer
                     (txt "SELECT 1; ") shop_config (initial (flaky 0))
                   = (Ok DirectSeveralStatements, st').
Proof.
  split.
  - apply (proj2 (@inner_semicolon_is_refused sim driver sim_closer
                    sim_cursor_closer (txt "SELECT ';' AS mark") shop_config
                    (initial (flaky 0)) eq_refl)).
    by exists (txt "SELECT '"), (txt "' AS mark").
  - intros [st' E]. vm_compute in E. discriminate E.
Defined.

Import Graph.

(** ** The graph of the tables *)

Lemma mapM_results {S A B : Type} (f : A -> M S B) (l : list A) :
  forall (ys : list B) (s s' : S),
    mapM f l s = (Ok ys, s') ->
    Forall2 (fun x y => exists sa sb, f x sa = (Ok y, sb)) l ys.
Proof.
  induction l as [|x l IH]; intros ys s s' E.
  - cbn in E. injection E as <- <-. constructor.
  - cbn [mapM] in E. unfold bind in E.
    destruct (f x s) as [[y|e] s1] eqn:Ex; [|done].
    destruct (mapM f l s1) as [[ys'|e] s2] eqn:El; [|done].
    cbn in E. injection E as <- <-.
    constructor; [by eauto|]. by apply (IH _ _ _ El).
Qed.

Lemma constraint_edge_shape (table_name constraint : text) (e : edge) :
  constraint_edge table_name constraint = Some e ->
  e_source e = table_name /\ e_type e = ForeignKeyEdge.
Proof.
  unfold constraint_edge.
  destruct (search fk_column_pattern constraint); [|done].
  destruct (search references_pattern constraint); [|done].
  by intros [= <-].
Qed.

Lemma fk_edges_shape (table_name create_table : text) (e : edge) :
  In e (fk_edges table_name create_table) ->
  e_source e = table_name /\ e_type e = ForeignKeyEdge.
Proof.
  unfold fk_edges. intros Hin. apply list_elem_of_In in Hin.
  apply list_elem_of_omap in Hin as (c & _ & Hc).
  by apply (constraint_edge_shape _ c).
Qed.

Lemma filter_all {A : Type} (f : A -> bool) (l : list A) :
  Forall (fun x => f x = true) l -> List.filter f l = l.
Proof.
  induction 1 as [|x l Hx Hl IH]; [done|].
  simpl. rewrite Hx. by f_equal.
Qed.

Lemma filter_none {A : Type} (f : A -> bool) (l : list A) :
  Forall (fun x => f x = false) l -> List.filter f l = [].
Proof.
  induction 1 as [|x l Hx Hl IH]; [done|].
  simpl. by rewrite Hx.
Qed.

Lemma column_node_not_table (t : text) (column : column_row) :
  is_table_node (column_node t column) = false.
Proof.
  unfold is_table_node, column_node. cbn [n_type].
  destruct (text_eqb (Key column) (txt "PRI")); [done|].
  by destruct (text_eqb (Key column) (txt "MUL")
               || text_eqb (Key column) (txt "UNI")).
Qed.

Lemma table_parts_shape (tables : list text)
    (table_parts : list (node * list edge)) :
  Forall2 (fun t p =>
             (exists row_count, p.1 = table_node t row_count)
             /\ exists create_table, p.2 = fk_edges t create_table)
          tables table_parts ->
  map n_id (map fst table_parts) = tables
  /\ Forall (fun n => is_table_node n = true /\ n_label n = n_id n
                      /\ (n_size n <= 100)%Z)
            (map fst table_parts)
  /\ Forall (fun e => In (e_source e) tables /\ e_type e = ForeignKeyEdge)
            (flat_map snd table_parts).
Proof.
  induction 1 as [|t p tables table_parts [[c Hn] [stmt He]] _ IH].
  - by repeat constructor.
  - destruct IH as (Iid & Inodes & Iedges). cbn [map flat_map].
    rewrite Hn, He. split; [|split].
    + cbn. by rewrite Iid.
    + constructor; [|done]. cbn. repeat split. lia.
    + apply Forall_app. split.
      * apply Forall_forall. intros e Hin. apply list_elem_of_In in Hin.
        apply fk_edges_shape in Hin as [-> ->]. split; [by left|done].
      * eapply Forall_impl; [exact Iedges|].
        intros e [Hs Ht]. split; [by right|done].
Qed.

Lemma column_parts_shape (tables : list text)
    (column_parts : list (list node * list edge)) :
  Forall (fun p => exists t columns,
                     In t tables
                     /\ p = (map (column_node t) columns,
                             map (column_edge t) columns))
         column_parts ->
  Forall (fun n =>
            is_table_node n = false /\ n_size n = 15%Z
            /\ exists t,
                 n_parent n = Some t /\ In t tables
                 /\ In {| e_source := t; e_target := n_id n;
                          e_label := None; e_type := HasColumnEdge |}
                       (flat_map snd column_parts))
         (flat_map fst column_parts)
  /\ Forall (fun e =>
               In (e_source e) tables /\ e_type e = HasColumnEdge
               /\ exists n,
                    In n (flat_map fst column_parts)
                    /\ is_table_node n = false /\ n_id n = e_target e
                    /\ n_parent n = Some (e_source e))
            (flat_map snd column_parts).
Proof.
  intros Hparts. rewrite Forall_forall in Hparts. split.
  - apply Forall_forall. intros n Hn. apply list_elem_of_In in Hn.
    apply in_flat_map in Hn as (p & Hp & Hn).
    destruct (Hparts p (proj2 (list_elem_of_In _ _) Hp))
      as (t & columns & Ht & ->).
    cbn in Hn. apply in_map_iff in Hn as (column & <- & Hc).
    split; [apply column_node_not_table|]. split; [done|].
    exists t. split; [done|]. split; [done|].
    apply in_flat_map. eexists. split; [exact Hp|]. cbn.
    apply in_map_iff. by exists column.
  - apply Forall_forall. intros e He. apply list_elem_of_In in He.
    apply in_flat_map in He as (p & Hp & He).
    destruct (Hparts p (proj2 (list_elem_of_In _ _) Hp))
      as (t & columns & Ht & ->).
    cbn in He. apply in_map_iff in He as (column & <- & Hc).
    split; [done|]. split; [done|].
    exists (column_node t column). split.
    + apply in_flat_map. eexists. split; [exact Hp|]. cbn.
      apply in_map_iff. by exists column.
    + split; [apply column_node_not_table|done].
Qed.

Section Graph2.
Context {W : Type} `{Driver W} `{CursorCloser W} `{ColumnLister W}.

Lemma table_part_shape (connection : nat) (table_name : text)
    (w w' : W) (p : node * list edge) :
  table_part connection table_name w = (Ok p, w') ->
  (exists row_count, p.1 = table_node table_name row_count)
  /\ exists create_table, p.2 = fk_edges table_name create_table.
Proof.
  unfold table_part, bind.
  destruct (try_catch _ _ w) as [[row_count|e] w1]; [|done].
  destruct (db_show_create_table connection table_name w1)
    as [[create_table|e] w2]; [|done].
  intros [= <- <-]. split; by eexists.
Qed.

Lemma column_part_shape (connection : nat) (table_name : text)
    (w w' : W) (p : list node * list edge) :
  column_part connection table_name w = (Ok p, w') ->
  exists columns,
    p = (map (column_node table_name) columns,
         map (column_edge table_name) columns).
Proof.
  unfold column_part, bind.
  destruct (db_show_columns connection table_name w) as [[columns|e] w1];
    [|done].
  intros [= <- <-]. by eexists.
Qed.

(** What [build_graph] puts together. *)
Lemma build_graph_parts (connection : nat) (w w' : W)
    (nodes : list node) (edges : list edge) :
  build_graph connection w = (Ok (GraphData nodes edges), w') ->
  exists (tables : list text) (table_parts : list (node * list edge))
         (column_parts : list (list node * list edge)),
    (exists current_db w1 w2,
       db_show_tables connection current_db w1 = (Ok tables, w2))
    /\ nodes = map fst table_parts ++ flat_map fst column_parts
    /\ edges = flat_map snd table_parts ++ flat_map snd column_parts
    /\ Forall2 (fun t p =>
                  (exists row_count, p.1 = table_node t row_count)
                  /\ exists create_table, p.2 = fk_edges t create_table)
               tables table_parts
    /\ Forall (fun p => exists t columns,
                          In t tables
                          /\ p = (map (column_node t) columns,
                                  map (column_edge t) columns))
              column_parts
    /\ (10 < length tables -> column_parts = []).
Proof.
  unfold build_graph, bind.
  destruct (db_select_database connection w) as [[current|e] w1]; [|done].
  destruct current as [[[|c current_db]|]|]; try done.
  destruct (db_show_tables connection (c :: current_db) w1)
    as [[tables|e] w2] eqn:Et; [|done].
  destruct (mapM (table_part connection) tables w2)
    as [[table_parts|e] w3] eqn:Etp; [|done].
  apply mapM_results in Etp.
  assert (Forall2 (fun t p =>
                     (exists row_count, p.1 = table_node t row_count)
                     /\ exists create_table, p.2 = fk_edges t create_table)
                  tables table_parts) as Htp.
  { eapply Forall2_impl; [exact Etp|].
    intros t p (wa & wb & E). by apply (table_part_shape _ _ _ _ _ E). }
  destruct (length tables <=? 10) eqn:Elen.
  - destruct (mapM (column_part connection) tables w3)
      as [[column_parts|e] w4] eqn:Ecp; [|done].
    apply mapM_results in Ecp. cbn. intros [= <- <- <-].
    exists tables, table_parts, column_parts.
    split; [by eauto|]. split; [done|]. split; [done|]. split; [done|].
    split.
    + apply Forall_forall. intros p Hp.
      apply list_elem_of_lookup_1 in Hp as [i Hi].
      destruct (Forall2_lookup_r _ _ _ _ _ Ecp Hi) as (t & Ht & wa & wb & E).
      apply column_part_shape in E as [columns ->].
      exists t, columns. split; [|done].
      apply list_elem_of_In. by eapply list_elem_of_lookup_2.
    + apply Nat.leb_le in Elen. lia.
  - cbn. intros [= <- <- <-].
    exists tables, table_parts, []. split; [by eauto|].
    split; [done|]. split; [done|]. split; [done|]. split; [constructor|done].
Qed.

Lemma analyze_table_relationships_graph (connection : nat) (w w' : W)
    (nodes : list node) (edges : list edge) :
  analyze_table_relationships connection w
  = (Ok (GraphData nodes edges), w') ->
  exists w1 w2, build_graph connection w1 = (Ok (GraphData nodes edges), w2).
Proof.
  unfold analyze_table_relationships, bind, attempt.
  destruct (db_cursor connection w) as [[[]|e] w1]; [|done].
  destruct (build_graph connection w1) as [[g|e] w2] eqn:Eb.
  - destruct (db_cursor_close connection w2) as [[[]|e] w3]; [|done].
    cbn. intros [= -> <-]. by eauto.
  - destruct (db_cursor_close connection w2) as [[[]|e'] w3]; done.
Qed.

(** X30. A graph that [analyze_table_relationships] returns is well formed.
    Its table nodes are the tables that the server lists, in that order,
    each labelled with its name and of size 100 at most. Every other
    node is a column of size 15 whose parent is one of the tables, and
    the table has an edge to it. Every edge starts at a table, and an
    edge to a column ends at a node of the graph whose parent is that
    table. For more than ten tables the graph holds the tables and the
    foreign keys only. *)
Theorem graph_is_well_formed (connection : nat) (w w' : W)
    (nodes : list node) (edges : list edge) :
  analyze_table_relationships connection w
  = (Ok (GraphData nodes edges), w') ->
  exists tables : list text,
    (exists current_db w1 w2,
       db_show_tables connection current_db w1 = (Ok tables, w2))
    /\ map n_id (List.filter is_table_node nodes) = tables
    /\ (forall n, In n nodes -> is_table_node n = true ->
          n_label n = n_id n /\ (n_size n <= 100)%Z)
    /\ (forall n, In n nodes -> is_table_node n = false ->
          n_size n = 15%Z
          /\ exists t,
               n_parent n = Some t /\ In t tables
               /\ In {| e_source := t; e_target := n_id n;
                        e_label := None; e_type := HasColumnEdge |} edges)
    /\ (forall e, In e edges -> In (e_source e) tables)
    /\ (forall e, In e edges -> e_type e = HasColumnEdge ->
          exists n, In n nodes /\ is_table_node n = false
                    /\ n_id n = e_target e
                    /\ n_parent n = Some (e_source e))
    /\ (10 < length tables ->
        Forall (fun n => is_table_node n = true) nodes
        /\ Forall (fun e => e_type e = ForeignKeyEdge) edges).
Proof.
  intros Hrun.
  apply analyze_table_relationships_graph in Hrun as (w1 & w2 & Hb).
  apply build_graph_parts in Hb
    as (tables & tps & cps & Hlist & -> & -> & Htp & Hcp & Hmany).
  apply table_parts_shape in Htp as (Hid & Htn & Hte).
  apply column_parts_shape in Hcp as (Hcn & Hce).
  rewrite Forall_forall in Htn. rewrite Forall_forall in Hte.
  rewrite Forall_forall in Hcn. rewrite Forall_forall in Hce.
  exists tables. split; [done|]. split; [|split; [|split; [|split; [|split]]]].
  - rewrite List.filter_app, filter_all, filter_none, app_nil_r; [done| |].
    + apply Forall_forall. intros n Hn. by apply Hcn.
    + apply Forall_forall. intros n Hn. by apply Htn.
  - intros n Hn Ht. apply in_app_or in Hn as [Hn|Hn].
    + apply list_elem_of_In, Htn in Hn. by destruct Hn as (_ & ? & ?).
    + apply list_elem_of_In, Hcn in Hn. destruct Hn as [Hn _]. congruence.
  - intros n Hn Ht. apply in_app_or in Hn as [Hn|Hn].
    + apply list_elem_of_In, Htn in Hn. destruct Hn as [Hn _]. congruence.
    + apply list_elem_of_In, Hcn in Hn as (_ & Hs & t & Hp & Hin & He).
      split; [done|]. exists t. split; [done|]. split; [done|].
      apply in_or_app. by right.
  - intros e He. apply in_app_or in He as [He|He].
    + apply list_elem_of_In, Hte in He. by destruct He.
    + apply list_elem_of_In, Hce in He. by destruct He.
  - intros e He Ht. apply in_app_or in He as [He|He].
    + apply list_elem_of_In, Hte in He. destruct He as [_ He]. congruence.
    + apply list_elem_of_In, Hce in He as (_ & _ & n & Hn & Hk & Hi & Hp).
      exists n. split; [|done]. apply in_or_app. by right.
  - intros Hlen. rewrite (Hmany Hlen). cbn. rewrite !app_nil_r. split.
    + apply Forall_forall. intros n Hn. by apply Htn.
    + apply Forall_forall. intros e He. by apply Hte.
Qed.

End Graph2.

Lemma graph_is_well_formed_witness :
  exists nodes edges w',
    @analyze_table_relationships sim driver sim_cursor_closer
      sim_column_lister 0
      (with_statement (txt "CREATE TABLE `orders` (
  `id` int NOT NULL,
  `parent_id` int DEFAULT NULL,
  PRIMARY KEY (`id`),
  CONSTRAINT `fk_parent` FOREIGN KEY (`parent_id`) REFERENCES `orders` (`id`)
) ENGINE=InnoDB"))
    = (Ok (GraphData nodes edges), w')
    /\ length edges = 2
    /\ exists tables,
         map n_id (List.filter is_table_node nodes) = tables
         /\ forall e, In e edges -> In (e_source e) tables.
Proof.
  eexists _, _, _. split; [vm_compute; reflexivity|].
  split; [reflexivity|].
  match goal with
  | |- exists tables, map n_id (List.filter _ ?nodes) = _ /\ (forall e, In e ?edges -> _) =>
      pose proof (@graph_is_well_formed sim driver sim_cursor_closer
        sim_column_lister 0
        (with_statement (txt "CREATE TABLE `orders` (
  `id` int NOT NULL,
  `parent_id` int DEFAULT NULL,
  PRIMARY KEY (`id`),
  CONSTRAINT `fk_parent` FOREIGN KEY (`parent_id`) REFERENCES `orders` (`id`)
) ENGINE=InnoDB"))
        (with_statement (txt "CREATE TABLE `orders` (
  `id` int NOT NULL,
  `parent_id` int DEFAULT NULL,
  PRIMARY KEY (`id`),
  CONSTRAINT `fk_parent` FOREIGN KEY (`parent_id`) REFERENCES `orders` (`id`)
) ENGINE=InnoDB"))
        nodes edges) as Hw
  end.
  destruct Hw as (tables & _ & Hid & _ & _ & Hsrc & _);
    [vm_compute; reflexivity|].
  exists tables. split; [exact Hid|exact Hsrc].
Defined.

(** ** The properties at work in the simulated world *)

Lemma generated_statement_is_safe_witness :
  @generate_sql sim driver question [] (Some 0) (flaky 0)
  = (Ok (txt "SELECT COUNT(id) AS count FROM orders"), flaky 0)
  /\ is_dangerous_sql (txt "SELECT COUNT(id) AS count FROM orders") = false.
Proof.
  split; [vm_compute; reflexivity|].
  refine (proj1 (proj2 (proj2 (proj2
    (@generated_statement_is_safe sim driver question [] (Some 0)
       (flaky 0) (flaky 0) (txt "SELECT COUNT(id) AS count FROM orders") _))))).
  vm_compute. reflexivity.
Defined.

Lemma generate_sql_raises_own_errors_witness :
  @generate_sql sim driver question [] (Some 0) unsafe_world
  = (Raise UnsafeOperation, unsafe_world)
  /\ synthesis_error UnsafeOperation = true.
Proof.
  split; [vm_compute; reflexivity|].
  refine (proj1
    (@generate_sql_raises_own_errors sim driver question [] (Some 0)
       unsafe_world unsafe_world UnsafeOperation _)).
  vm_compute. reflexivity.
Defined.

Lemma blank_output_is_empty_generation_witness :
  clean_sql_query (txt "   ") = []
  /\ @generate_sql sim driver question [] (Some 0) (healthy (txt "   ") [])
     = (Raise EmptyGeneration, healthy (txt "   ") []).
Proof.
  pose proof
    (@blank_output_is_empty_generation sim driver question [] 0
       (healthy (txt "   ") []) (healthy (txt "   ") [])
       (healthy (txt "   ") []) (healthy (txt "   ") [])
       (match (@get_enhanced_database_structure sim driver 0
                 (healthy (txt "   ") [])).1
        with Ok s => s | Raise _ => StructureFailed end)
       (txt "   ")) as Hw.
  destruct Hw as [Hblank Hraise];
    [vm_compute; reflexivity|vm_compute; reflexivity|vm_compute; reflexivity
    |vm_compute; discriminate|vm_compute; reflexivity|].
  split.
  - apply Hblank. reflexivity.
  - apply Hraise, Hblank. reflexivity.
Defined.

Lemma stream_route_runs_checked_statement_witness :
  exists l : list (nat * text),
    executed (@stream_query sim driver session question shop_config
                (initial (flaky 0))).2
    = executed (initial (flaky 0)) ++ l
    /\ length l <= 1
    /\ forall conn sql,
         In (conn, sql) l ->
         is_dangerous_sql sql = false /\ ~ destructive (lower sql)
         /\ exists events r,
              (@stream_query sim driver session question shop_config
                 (initial (flaky 0))).1 = Some (events, r)
              /\ In (ESql sql) events.
Proof.
  apply (@stream_route_runs_checked_statement sim driver session question
           shop_config (initial (flaky 0))).
  apply surjective_pairing.
Defined.

Lemma stream_route_remembers_delivered_witness :
  exists events st',
    @stream_query sim driver session question shop_config (initial (flaky 0))
    = (Some (events, Ok tt), st')
    /\ exists rows, In (EResults rows) events.
Proof.
  eexists _, _. split; [vm_compute; reflexivity|].
  refine (proj1 (proj1
    (@stream_route_remembers_delivered sim driver session question
       shop_config (initial (flaky 0)) _ _ (Ok tt) _)) eq_refl).
  vm_compute. reflexivity.
Defined.

Lemma single_column_key_is_recorded_witness :
  extract_primary_key orders_statement = Some (txt "id").
Proof.
  change orders_statement
    with (key_statement (txt "CREATE TABLE `orders` (
  `id` int NOT NULL,
  `created_at` datetime DEFAULT NULL,
  ") [txt "id"] (txt "
) ENGINE=InnoDB")).
  apply single_column_key_is_recorded.
  - split; [discriminate|reflexivity].
  - vm_compute. reflexivity.
Defined.

Lemma declared_foreign_keys_are_recorded_witness :
  extract_foreign_keys
    (txt "CREATE TABLE `items` (
  `order_id` int NOT NULL,
  CONSTRAINT `fk_order` FOREIGN KEY (`order_id`) REFERENCES `orders` (`id`)
) ENGINE=InnoDB")
  = [{| fk_column := txt "order_id"; fk_referenced_table := txt "orders";
        fk_referenced_column := txt "id" |}].
Proof.
  apply (declared_foreign_keys_are_recorded
           [(txt "CREATE TABLE `items` (
  `order_id` int NOT NULL,
  CONSTRAINT `fk_order` ",
             {| fk_column := txt "order_id";
                fk_referenced_table := txt "orders";
                fk_referenced_column := txt "id" |})]
           (txt "
) ENGINE=InnoDB")).
  - constructor; [|constructor]. cbn [fst snd fk_column fk_referenced_table
                                       fk_referenced_column].
    split; [vm_compute; reflexivity|].
    repeat split; (discriminate || reflexivity).
  - vm_compute. reflexivity.
Defined.

Lemma snapshot_is_consistent_witness :
  exists info w',
    @get_enhanced_database_structure sim driver 0 (flaky 0)
    = (Ok (Snapshot info), w')
    /\ database_name info <> []
    /\ table_count (database_stats info) = length (tables info).
Proof.
  eexists _, _. split; [vm_compute; reflexivity|].
  pose proof (@snapshot_is_consistent sim driver 0 (flaky 0) _ _
                ltac:(vm_compute; reflexivity)) as Hw.
  split; [exact (proj1 (proj2 Hw))|exact (proj1 (proj2 (proj2 Hw)))].
Defined.

Lemma snapshot_names_largest_tables_witness :
  exists info w',
    @get_enhanced_database_structure sim driver 0 (flaky 0)
    = (Ok (Snapshot info), w')
    /\ length (largest_tables (database_stats info)) <= 3
    /\ counts_descending (largest_tables (database_stats info)).
Proof.
  eexists _, _. split; [vm_compute; reflexivity|].
  pose proof (@snapshot_names_largest_tables sim driver 0 (flaky 0) _ _
                ltac:(vm_compute; reflexivity)) as Hw.
  split; [exact (proj1 Hw)|exact (proj1 (proj2 Hw))].
Defined.

Lemma chart_is_aligned_with_rows_witness :
  recommend_visualization
    [[(txt "city", VStr (txt "Oslo")); (txt "orders", VInt 3)];
     [(txt "city", VStr (txt "Rome")); (txt "orders", VInt 5)]]
  = Ok (Bar [txt "Oslo"; txt "Rome"] (txt "orders") [VInt 3; VInt 5])
  /\ length [txt "Oslo"; txt "Rome"] = 2 /\ length [VInt 3; VInt 5] = 2.
Proof.
  split; [vm_compute; reflexivity|].
  apply (chart_is_aligned_with_rows
           [[(txt "city", VStr (txt "Oslo")); (txt "orders", VInt 3)];
            [(txt "city", VStr (txt "Rome")); (txt "orders", VInt 5)]]
           (Bar [txt "Oslo"; txt "Rome"] (txt "orders") [VInt 3; VInt 5])).
  vm_compute. reflexivity.
Defined.

Lemma chart_follows_numeric_columns_witness :
  exists kinds ch,
    classify_columns [txt "x"; txt "y"]
      [[(txt "x", VInt 1); (txt "y", VInt 2)];
       [(txt "x", VInt 3); (txt "y", VInt 4)]] = Ok kinds
    /\ recommend_visualization
         [[(txt "x", VInt 1); (txt "y", VInt 2)];
          [(txt "x", VInt 3); (txt "y", VInt 4)]] = Ok ch
    /\ (2 <= length (columns_of Numeric kinds)
        <-> exists label points, ch = Scatter label points).
Proof.
  eexists _, _. split; [vm_compute; reflexivity|].
  split; [vm_compute; reflexivity|].
  refine (proj1
    (chart_follows_numeric_columns
       [(txt "x", VInt 1); (txt "y", VInt 2)]
       [[(txt "x", VInt 3); (txt "y", VInt 4)]] _ _ _ _));
    vm_compute; reflexivity.
Defined.

(** One session with one pooled connection, before any cleanup. *)
Lemma one_session_listed :
  lists_sessions [(session, [0])]
    (set_pool {[ session := {[ txt "k" := 0 ]} ]} (initial (flaky 0))).
Proof.
  split.
  - repeat constructor. by intros Hin%elem_of_nil.
  - intros s.
    change (In s [session]
            <-> is_Some (({[ session := {[ txt "k" := 0 ]} ]}
                          : gmap text (gmap text nat)) !! s)).
    split.
    + intros [<-|[]]. rewrite lookup_singleton_eq. by eexists.
    + intros Hs. destruct (decide (session = s)) as [->|Hne]; [by left|].
      rewrite lookup_singleton_ne in Hs by done. by destruct Hs.
Qed.

Lemma due_cleanup_keeps_keys_of_session_witness :
  last_cleanup
    (@cleanup_old_sessions sim driver sim_closer nat
       (fun now last => 600 <? now - last) 1000 [txt "session_id"]
       [(session, [0])]
       {| process := set_pool {[ session := {[ txt "k" := 0 ]} ]}
                       (initial (flaky 0));
          last_cleanup := None |}).2
  = Some 1000.
Proof.
  refine (proj1
    (@due_cleanup_keeps_keys_of_session sim driver sim_closer nat
       (fun now last => 600 <? now - last) 1000 [txt "session_id"]
       [(session, [0])]
       {| process := set_pool {[ session := {[ txt "k" := 0 ]} ]}
                       (initial (flaky 0));
          last_cleanup := None |} _ _ I one_session_listed _)).
  apply surjective_pairing.
Defined.

Lemma due_cleanup_empties_pool_witness :
  active_connections
    (process
       (@cleanup_old_sessions sim driver sim_closer nat
          (fun now last => 600 <? now - last) 1000 [txt "session_id"]
          [(session, [0])]
          {| process := set_pool {[ session := {[ txt "k" := 0 ]} ]}
                          (initial (flaky 0));
             last_cleanup := None |}).2)
  = ∅.
Proof.
  refine (proj1
    (@due_cleanup_empties_pool sim driver sim_closer nat
       (fun now last => 600 <? now - last) 1000 [txt "session_id"]
       [(session, [0])]
       {| process := set_pool {[ session := {[ txt "k" := 0 ]} ]}
                       (initial (flaky 0));
          last_cleanup := None |} _ I one_session_listed _ _ _)).
  - intros k [<-|[]]. reflexivity.
  - vm_compute. reflexivity.
  - vm_compute. reflexivity.
Defined.

